(** * Markdown digest extraction: a shallow embedding

    The program turns two markdown documents (release notes, security
    announcements) into bounded digests.  The functions embedded are
    [parseReleases], [parseSecurityAnnouncements] and their helpers, the
    module the two servers import as [./util.js] (lines 258 to 507 of
    [src/src/index.js]).  Their logic is a cascade of ECMAScript regular
    expressions, so the embedding has three layers:

    - [Str]: JavaScript strings as lists of UTF-16 code units, with the
      string built-ins the program calls ([trim], [padStart], [split], ...);
    - [Regex]: the regular-expression fragment the program uses, with the
      backtracking order of ECMAScript (section 22.2.2 of the standard);
    - [Util]: the program, transcribed statement by statement.

    The limit of both functions is an integer here: a fractional limit is
    truncated by [slice] before it is used.
    What the program asks of its host, [Date.parse] and [localeCompare],
    is a parameter of what asks for it.

    [Server] holds what the two servers add to it (lines 1 to 257): the
    handlers of the two tools, and the sessions of the SSE server, their
    store an ordinary object and the SDK known by what the program calls
    of it. *)

From Stdlib Require Import List NArith ZArith Lia Bool Arith.
From Stdlib Require String Ascii.
Import String.StringSyntax.
Delimit Scope string_scope with string.
From Stdlib Require Import Sorting.Sorted Sorting.Permutation.
Import ListNotations.

(* ------------------------------------------------------------------ *)
(** ** Strings of code units *)

Module Str.

Definition char : Type := N.
Definition str : Type := list char.
Bind Scope N_scope with char.

(** A Rocq literal read as a JavaScript string (ASCII only). *)
Definition js (x : String.string) : str :=
  List.map Ascii.N_of_ascii (String.list_ascii_of_string x).
Arguments js x%_string.

Definition str_eq_dec : forall a b : str, {a = b} + {a <> b} :=
  list_eq_dec N.eq_dec.

Fixpoint eqb (a b : str) : bool :=
  match a, b with
  | [], [] => true
  | x :: a', y :: b' => N.eqb x y && eqb a' b'
  | _, _ => false
  end.

Definition between (lo hi c : N) : bool := N.leb lo c && N.leb c hi.

(** [LineTerminator]: LF, CR, LS, PS. *)
Definition isLineTerminator (c : char) : bool :=
  N.eqb c 10 || N.eqb c 13 || N.eqb c 8232 || N.eqb c 8233.

(** [WhiteSpace] and [LineTerminator]: what [\s] and [trim] recognise. *)
Definition isSpace (c : char) : bool :=
  between 9 13 c || N.eqb c 32 || N.eqb c 160 || N.eqb c 5760 ||
  between 8192 8202 c || N.eqb c 8232 || N.eqb c 8233 || N.eqb c 8239 ||
  N.eqb c 8287 || N.eqb c 12288 || N.eqb c 65279.

Definition isDigit (c : char) : bool := between 48 57 c.
Definition isUpper (c : char) : bool := between 65 90 c.
Definition isLower (c : char) : bool := between 97 122 c.
Definition isAlpha (c : char) : bool := isUpper c || isLower c.
(** [\w]: the 63 basic word characters. *)
Definition isWord (c : char) : bool := isAlpha c || isDigit c || N.eqb c 95.

Definition toLowerAscii (c : char) : char := if isUpper c then (c + 32)%N else c.
Definition toUpperAscii (c : char) : char := if isLower c then (c - 32)%N else c.

(** [String.prototype.toLowerCase], on the letters the program applies it to
    (a month name matched by [[A-Za-z]+]). *)
Definition toLowerCase (s : str) : str := List.map toLowerAscii s.

Fixpoint dropWhile (p : char -> bool) (s : str) : str :=
  match s with
  | [] => []
  | c :: s' => if p c then dropWhile p s' else s
  end.

Definition trimStart (s : str) : str := dropWhile isSpace s.
Definition trimEnd (s : str) : str := rev (dropWhile isSpace (rev s)).
(** [String.prototype.trim]. *)
Definition trim (s : str) : str := trimEnd (trimStart s).

(** [String.prototype.padStart(n, "0")]. *)
Definition padStart0 (n : nat) (s : str) : str :=
  repeat 48%N (n - length s) ++ s.

Fixpoint isPrefix (p s : str) : bool :=
  match p, s with
  | [], _ => true
  | x :: p', y :: s' => N.eqb x y && isPrefix p' s'
  | _ :: _, [] => false
  end.

(** [s.replace(pat, empty)] with a string pattern: the first occurrence
    of [pat] in [s] is removed; no occurrence leaves [s] as it is. *)
Fixpoint removeFirst (pat s : str) : str :=
  if isPrefix pat s then skipn (length pat) s
  else match s with
       | [] => []
       | c :: s' => c :: removeFirst pat s'
       end.

(** [Array.prototype.join]. *)
Fixpoint join (sep : str) (l : list str) : str :=
  match l with
  | [] => []
  | [x] => x
  | x :: l' => x ++ sep ++ join sep l'
  end.

(** [String.prototype.split("\n")]: never empty, the last piece is what
    follows the last newline. *)
Fixpoint splitLines (s : str) : list str :=
  match s with
  | [] => [[]]
  | c :: s' =>
      if N.eqb c 10 then [] :: splitLines s'
      else match splitLines s' with
           | l :: ls => (c :: l) :: ls
           | [] => [[c]]
           end
  end.

(** Lexicographic order on code units: the order of the default
    [Array.prototype.sort] and of [<] on strings. *)
Fixpoint compare (a b : str) : comparison :=
  match a, b with
  | [], [] => Eq
  | [], _ :: _ => Lt
  | _ :: _, [] => Gt
  | x :: a', y :: b' =>
      match N.compare x y with
      | Eq => compare a' b'
      | o => o
      end
  end.

Definition leb (a b : str) : bool :=
  match compare a b with Gt => false | _ => true end.

(** Decimal digits of a natural number, as [String(n)] prints them. *)
Fixpoint digitsOf (u : Decimal.uint) : str :=
  match u with
  | Decimal.Nil => []
  | Decimal.D0 u' => 48%N :: digitsOf u'
  | Decimal.D1 u' => 49%N :: digitsOf u'
  | Decimal.D2 u' => 50%N :: digitsOf u'
  | Decimal.D3 u' => 51%N :: digitsOf u'
  | Decimal.D4 u' => 52%N :: digitsOf u'
  | Decimal.D5 u' => 53%N :: digitsOf u'
  | Decimal.D6 u' => 54%N :: digitsOf u'
  | Decimal.D7 u' => 55%N :: digitsOf u'
  | Decimal.D8 u' => 56%N :: digitsOf u'
  | Decimal.D9 u' => 57%N :: digitsOf u'
  end.

Definition ofN (n : N) : str := digitsOf (N.to_uint n).

(** [String(z)] for an integer. *)
Definition ofZ (z : Z) : str :=
  match z with
  | Zneg p => 45%N :: ofN (Npos p)
  | _ => ofN (Z.to_N z)
  end.

End Str.

Import Str.

(* ------------------------------------------------------------------ *)
(** ** Regular expressions *)

Module Regex.

(** The pattern syntax the program uses.  A character class is its
    membership test on code units; [Quant g lo hi r] is [r{lo,hi}], greedy
    when [g] and lazy ([?]-suffixed) otherwise. *)
Inductive regex : Type :=
| Empty
| Class (p : char -> bool)
| Cat (r1 r2 : regex)
| Or (r1 r2 : regex)
| Quant (greedy : bool) (lo : nat) (hi : option nat) (r : regex)
| Capture (i : nat) (r : regex)
| Lookahead (r : regex)
| LineStart          (* ^ under the m flag *)
| LineEnd            (* $ under the m flag *)
| InputStart         (* ^ without the m flag *)
| InputEnd           (* $ without the m flag *)
| WordBoundary.      (* \b *)

(** A matcher state: the input split at the current position (the part
    already passed is kept reversed) and the captures made so far. *)
Record mstate : Type := MState {
  before : str;
  after : str;
  caps : list (nat * str)
}.

Definition position (x : mstate) : nat := length (before x).

Definition advance (c : char) (rest : str) (x : mstate) : mstate :=
  MState (c :: before x) rest (caps x).

(** The text passed between state [x] and a later state [y]. *)
Definition consumed (x y : mstate) : str :=
  rev (firstn (position y - position x) (before y)).

Definition atWord (o : option char) : bool :=
  match o with Some c => isWord c | None => false end.

Definition atLineStart (x : mstate) : bool :=
  match before x with [] => true | c :: _ => isLineTerminator c end.

Definition atLineEnd (x : mstate) : bool :=
  match after x with [] => true | c :: _ => isLineTerminator c end.

Definition atInputStart (x : mstate) : bool :=
  match before x with [] => true | _ => false end.

Definition atInputEnd (x : mstate) : bool :=
  match after x with [] => true | _ => false end.

Definition atWordBoundary (x : mstate) : bool :=
  xorb (atWord (hd_error (before x))) (atWord (hd_error (after x))).

Definition guard (b : bool) (x : mstate) : list mstate :=
  if b then [x] else [].

(** The repetition loop of [RepeatMatcher].  [step] runs the quantified
    atom once.  An iteration that is not required ([lo = 0]) and passes no
    character is rejected, as the standard prescribes, so every optional
    iteration shortens [after]: the fuel [length (after x) + lo + 1]
    handed over by [run] is never used up. *)
Fixpoint repeatMatcher (step : mstate -> list mstate) (greedy : bool)
    (fuel lo : nat) (hi : option nat) (x : mstate) : list mstate :=
  match fuel with
  | O => []
  | S fuel' =>
      match hi with
      | Some O => [x]
      | _ =>
          let again :=
            flat_map
              (fun y =>
                 if Nat.eqb lo 0 && Nat.eqb (position y) (position x) then []
                 else repeatMatcher step greedy fuel' (Nat.pred lo)
                        (option_map Nat.pred hi) y)
              (step x) in
          if Nat.eqb lo 0
          then if greedy then again ++ [x] else x :: again
          else again
      end
  end.

(** All the states in which a match of [r] begun at [x] can end, in the
    order in which the backtracking matcher of the standard tries them: the
    head of the list is the match the standard's [m(x, c)] finds first.
    None of the program's patterns has a capture inside a quantifier, so
    the reset of captures at each iteration has nothing to do. *)
Fixpoint run (r : regex) (x : mstate) : list mstate :=
  match r with
  | Empty => [x]
  | Class p =>
      match after x with
      | c :: rest => if p c then [advance c rest x] else []
      | [] => []
      end
  | Cat r1 r2 => flat_map (run r2) (run r1 x)
  | Or r1 r2 => run r1 x ++ run r2 x
  | Quant g lo hi r' =>
      repeatMatcher (run r') g (length (after x) + lo + 1) lo hi x
  | Capture i r' =>
      List.map
        (fun y => MState (before y) (after y) ((i, consumed x y) :: caps y))
        (run r' x)
  | Lookahead r' =>
      match run r' x with
      | y :: _ => [MState (before x) (after x) (caps y)]
      | [] => []
      end
  | LineStart => guard (atLineStart x) x
  | LineEnd => guard (atLineEnd x) x
  | InputStart => guard (atInputStart x) x
  | InputEnd => guard (atInputEnd x) x
  | WordBoundary => guard (atWordBoundary x) x
  end.

(** A successful match: where it starts, the text matched ([m[0]]), the
    captures, the input up to its end (reversed) and the input after it. *)
Record result : Type := Result {
  index : nat;
  whole : str;
  groups : list (nat * str);
  passed : str;
  rest : str
}.

Fixpoint assoc (i : nat) (l : list (nat * str)) : option str :=
  match l with
  | [] => None
  | (j, v) :: l' => if Nat.eqb i j then Some v else assoc i l'
  end.

(** [m[i]], [undefined] being [None]. *)
Definition group (i : nat) (m : result) : option str := assoc i (groups m).

(** [m[i]] for a group that takes part in every match. *)
Definition group' (i : nat) (m : result) : str :=
  match group i m with Some v => v | None => [] end.

(** The leftmost match at or after the current position: the loop of
    [RegExpBuiltinExec] over [lastIndex]. *)
Fixpoint searchFrom (r : regex) (pre post : str) : option result :=
  let x := MState pre post [] in
  match run r x with
  | y :: _ =>
      Some (Result (length pre) (consumed x y) (caps y) (before y) (after y))
  | [] =>
      match post with
      | [] => None
      | c :: post' => searchFrom r (c :: pre) post'
      end
  end.

(** [s.match(r)] and [r.exec(s)] for a pattern without the g flag. *)
Definition exec (r : regex) (s : str) : option result := searchFrom r [] s.

(** The successive matches of a pattern with the g flag from the position
    [pre | post]: [lastIndex] moves to the end of each match.  After an
    empty match [String.prototype.match] and [replace] step one unit
    further ([bump = true]); a bare [while (re.exec(s))] loop does not
    ([bump = false]) and would find the same empty match again, for as long
    as the fuel lasts.  Every other match shortens [post], so
    [S (length post)] is fuel enough. *)
Fixpoint matchesFrom (r : regex) (bump : bool) (fuel : nat) (pre post : str)
    : list result :=
  match fuel with
  | O => []
  | S fuel' =>
      match searchFrom r pre post with
      | None => []
      | Some m =>
          m :: match whole m, rest m with
               | [], [] => if bump then [] else matchesFrom r bump fuel' (passed m) []
               | [], c :: post' =>
                   if bump then matchesFrom r bump fuel' (c :: passed m) post'
                   else matchesFrom r bump fuel' (passed m) (c :: post')
               | _, post' => matchesFrom r bump fuel' (passed m) post'
               end
      end
  end.

(** [s.match(r)] for a pattern with the g flag ([null] being the empty
    list, which is what the program turns it into). *)
Definition matchAll (r : regex) (s : str) : list result :=
  matchesFrom r true (S (length s)) [] s.

(** [while ((m = r.exec(s)) !== null) ...]: the matches the loop body
    sees. *)
Definition execLoop (r : regex) (s : str) : list result :=
  matchesFrom r false (S (length s)) [] s.

(** [s.replace(r, f)] for a pattern with the g flag: the text between the
    matches is kept, each match gives way to [f m]. *)
Fixpoint replaceFrom (r : regex) (f : result -> str) (fuel : nat)
    (pre post : str) : str :=
  match fuel with
  | O => post
  | S fuel' =>
      match searchFrom r pre post with
      | None => post
      | Some m =>
          firstn (index m - length pre) post ++ f m ++
          match whole m, rest m with
          | [], [] => []
          | [], c :: post' => c :: replaceFrom r f fuel' (c :: passed m) post'
          | _, post' => replaceFrom r f fuel' (passed m) post'
          end
      end
  end.

Definition replaceAll (r : regex) (f : result -> str) (s : str) : str :=
  replaceFrom r f (S (length s)) [] s.

(** [s.replace(r, f)] for a pattern without the g flag: the first match
    only. *)
Definition replaceFirst (r : regex) (f : result -> str) (s : str) : str :=
  match exec r s with
  | None => s
  | Some m => firstn (index m) s ++ f m ++ rest m
  end.

(** *** Pattern combinators *)

Definition chr (c : char) : regex := Class (N.eqb c).
Definition seq (l : list regex) : regex := fold_right Cat Empty l.
(** A literal, and the same under the i flag.  The patterns' literals are
    ASCII, and [Canonicalize] never maps a code unit above 127 to one
    below: folding ASCII case is all the flag does to them. *)
Definition lit (s : String.string) : regex := seq (List.map chr (js s)).
Arguments lit s%_string.
Definition chr_i (c : char) : regex :=
  Class (fun d => N.eqb (toUpperAscii d) (toUpperAscii c)).
Definition lit_i (s : String.string) : regex := seq (List.map chr_i (js s)).
Arguments lit_i s%_string.

Definition star (r : regex) : regex := Quant true 0 None r.
Definition plus (r : regex) : regex := Quant true 1 None r.
Definition opt (r : regex) : regex := Quant true 0 (Some 1) r.
Definition lazyStar (r : regex) : regex := Quant false 0 None r.
Definition lazyPlus (r : regex) : regex := Quant false 1 None r.
Definition times (lo hi : nat) (r : regex) : regex := Quant true lo (Some hi) r.

Definition space : regex := Class isSpace.             (* \s *)
Definition digit : regex := Class isDigit.             (* \d, [0-9] *)
Definition word : regex := Class isWord.               (* \w *)
Definition alpha : regex := Class isAlpha.             (* [A-Za-z] *)
Definition anything : regex := Class (fun _ => true).  (* [\s\S] *)
Definition dot : regex := Class (fun c => negb (isLineTerminator c)).
Definition noneOf (c : char) : regex := Class (fun d => negb (N.eqb d c)).

End Regex.

Import Regex.

(* ------------------------------------------------------------------ *)
(** ** What a pattern denotes *)

Module Denotation.

(** Zero or more rounds of [R], as [Quant _ lo hi] allows them. *)
Inductive iter (R : mstate -> mstate -> Prop)
  : nat -> option nat -> mstate -> mstate -> Prop :=
| iter_stop : forall lo hi x, lo = 0 \/ hi = Some 0 -> iter R lo hi x x
| iter_step : forall lo hi x z y,
    hi <> Some 0 -> R x z ->
    iter R (Nat.pred lo) (option_map Nat.pred hi) z y ->
    iter R lo hi x y.

(** The states a match of [r] begun at [x] may end in, without the order
    of preference. *)
Fixpoint sem (r : regex) (x y : mstate) : Prop :=
  match r with
  | Empty => y = x
  | Class p =>
      exists c rest, after x = c :: rest /\ p c = true /\ y = advance c rest x
  | Cat r1 r2 => exists z, sem r1 x z /\ sem r2 z y
  | Or r1 r2 => sem r1 x y \/ sem r2 x y
  | Quant _ lo hi r' => iter (sem r') lo hi x y
  | Capture i r' =>
      exists z, sem r' x z /\
                y = MState (before z) (after z) ((i, consumed x z) :: caps z)
  | Lookahead r' =>
      exists z, sem r' x z /\ y = MState (before x) (after x) (caps z)
  | LineStart => atLineStart x = true /\ y = x
  | LineEnd => atLineEnd x = true /\ y = x
  | InputStart => atInputStart x = true /\ y = x
  | InputEnd => atInputEnd x = true /\ y = x
  | WordBoundary => atWordBoundary x = true /\ y = x
  end.

(** [y] is [x] moved forward over the text [w]. *)
Definition ext (x : mstate) (w : str) (y : mstate) : Prop :=
  before y = rev w ++ before x /\ after x = w ++ after y.

(** The bounds of a quantifier on the number of rounds. *)
Definition lower (lo : nat) (hi : option nat) : nat :=
  match hi with Some h => Nat.min lo h | None => lo end.

Definition within (n : nat) (hi : option nat) : Prop :=
  match hi with Some h => n <= h | None => True end.

(** The texts a pattern can pass over, whatever surrounds them: assertions
    are taken to hold. *)
Fixpoint lang (r : regex) (w : str) : Prop :=
  match r with
  | Empty => w = []
  | Class p => exists c, w = [c] /\ p c = true
  | Cat r1 r2 => exists w1 w2, w = w1 ++ w2 /\ lang r1 w1 /\ lang r2 w2
  | Or r1 r2 => lang r1 w \/ lang r2 w
  | Quant _ lo hi r' =>
      exists ws, w = concat ws /\ Forall (lang r') ws /\
                 lower lo hi <= length ws /\ within (length ws) hi
  | Capture _ r' => lang r' w
  | _ => w = []
  end.

(** The capture groups of a pattern, with what each encloses. *)
Fixpoint groupsOf (r : regex) : list (nat * regex) :=
  match r with
  | Cat r1 r2 | Or r1 r2 => groupsOf r1 ++ groupsOf r2
  | Quant _ _ _ r' | Lookahead r' => groupsOf r'
  | Capture i r' => (i, r') :: groupsOf r'
  | _ => []
  end.

(** Group [i] takes part in every match of the pattern. *)
Fixpoint captures (r : regex) (i : nat) : bool :=
  match r with
  | Cat r1 r2 => captures r1 i || captures r2 i
  | Or r1 r2 => captures r1 i && captures r2 i
  | Capture j r' => Nat.eqb i j || captures r' i
  | Lookahead r' => captures r' i
  | _ => false
  end.

End Denotation.
Import Denotation.

(* ------------------------------------------------------------------ *)
(** ** Calendar arithmetic of [Date] *)

Module JSDate.

Local Open Scope Z_scope.

Definition msPerDay : Z := 86400000.

(** [Day(t)]. *)
Definition Day (t : Z) : Z := t / msPerDay.

Definition isLeap (y : Z) : bool :=
  (Z.eqb (y mod 4) 0 && negb (Z.eqb (y mod 100) 0)) || Z.eqb (y mod 400) 0.

Definition daysInMonth (y m : Z) : Z :=
  if Z.eqb m 2 then (if isLeap y then 29 else 28)
  else if Z.eqb m 4 || Z.eqb m 6 || Z.eqb m 9 || Z.eqb m 11 then 30
  else 31.

(** Year, month (1 to 12) and day of the month of the day numbered [d]
    from 1 January 1970, in the proleptic Gregorian calendar: what
    [YearFromTime], [MonthFromTime] + 1 and [DateFromTime] give.  Days are
    counted in 400-year eras that start on 1 March, so that the leap day
    ends its year: the day of the era gives the century, the four-year
    cycle and the year of the cycle, and the day of that year the month. *)
Definition civil (d : Z) : Z * Z * Z :=
  let z := d + 719468 in
  let era := z / 146097 in
  let doe := z mod 146097 in
  let c := Z.min (doe / 36524) 3 in
  let doc := doe - c * 36524 in
  let q := doc / 1461 in
  let doq := doc - q * 1461 in
  let yy := Z.min (doq / 365) 3 in
  let doy := doq - yy * 365 in
  let yoe := 100 * c + 4 * q + yy in
  let mp := (5 * doy + 2) / 153 in
  let dd := doy - (153 * mp + 2) / 5 + 1 in
  let mm := if Z.ltb mp 10 then mp + 3 else mp - 9 in
  let y := yoe + era * 400 in
  (if Z.leb mm 2 then y + 1 else y, mm, dd).

Definition getUTCFullYear (t : Z) : Z := fst (fst (civil (Day t))).
(** [getUTCMonth() + 1]. *)
Definition getUTCMonth1 (t : Z) : Z := snd (fst (civil (Day t))).
Definition getUTCDate (t : Z) : Z := snd (civil (Day t)).

End JSDate.

(* ------------------------------------------------------------------ *)
(** ** The program *)

Module Util.

(** *** Small pieces of JavaScript *)

(** [a || b] on strings: the empty string is falsy. *)
Definition orElse (a b : str) : str :=
  match a with [] => b | _ => a end.

(** Truthiness of a value that is a string or [null]. *)
Definition truthy (o : option str) : bool :=
  match o with Some (_ :: _) => true | _ => false end.

(** [a || null]. *)
Definition orNull (a : str) : option str :=
  match a with [] => None | _ => Some a end.

(** [arr.slice(0, n)] for an integer [n]: a negative [n] counts from the
    end. *)
Definition slice0 {A : Type} (n : Z) (l : list A) : list A :=
  if Z.ltb n 0 then firstn (Z.to_nat (Z.max (Z.of_nat (length l) + n) 0)) l
  else firstn (Z.to_nat n) l.

(** [Array.from(new Set(l))]: the first occurrence of each value, in
    order of insertion. *)
Fixpoint dedupInto (seen l : list str) : list str :=
  match l with
  | [] => []
  | x :: l' =>
      if existsb (Str.eqb x) seen then dedupInto seen l'
      else x :: dedupInto (x :: seen) l'
  end.

Definition dedup (l : list str) : list str := dedupInto [] l.

(** A stable sort by a comparator, as [Array.prototype.sort] is:
    [cmp a b] says whether [a] may stay in front of [b]. *)
Section Sort.
Variable A : Type.
Variable inOrder : A -> A -> bool.

Fixpoint insert (x : A) (l : list A) : list A :=
  match l with
  | [] => [x]
  | y :: l' => if inOrder x y then x :: l else y :: insert x l'
  end.

Definition sortBy (l : list A) : list A := fold_right insert [] l.
End Sort.
Arguments insert {A} inOrder x l.
Arguments sortBy {A} inOrder l.

(** [arr.sort()] on strings. *)
Definition sortStrings (l : list str) : list str := sortBy Str.leb l.

Definition nl : str := [10%N].
Definition emDash : char := 8212%N.
Definition quote : char := 34%N.

(** *** The patterns of [parseReleases] *)

(** [/\r\n?/g] *)
Definition reNewline : regex := seq [chr 13; opt (chr 10)].

(** [(?=^##\s+|\Z)]: outside the u flag [\Z] is an identity escape, the
    letter Z. *)
Definition reUntilNext : regex :=
  Lookahead (Or (seq [LineStart; lit "##"; plus space]) (chr 90)).

(** [/^##\s+([^\n]+)\n([\s\S]*?)(?=^##\s+|\Z)/gm] *)
Definition reReleaseSection : regex :=
  seq [LineStart; lit "##"; plus space; Capture 1 (plus (noneOf 10)); chr 10;
       Capture 2 (lazyStar anything); reUntilNext].

(** [[0-9]+\.[0-9]+\.[0-9]+], and [[0-9]+\.[0-9]+(?:\.[0-9]+)?] *)
Definition reNum3 : regex := seq [plus digit; chr 46; plus digit; chr 46; plus digit].
Definition reNum23 : regex :=
  seq [plus digit; chr 46; plus digit; opt (seq [chr 46; plus digit])].

(** [/^\s*([0-9]+\.[0-9]+\.[0-9]+)\b/] *)
Definition reVersion : regex :=
  seq [InputStart; star space; Capture 1 reNum3; WordBoundary].

(** [/\{\{<\s*release-date\s+date=Q([^Q]+)Q\s*>\}\}/], Q being the
    double quote *)
Definition reReleaseDate : regex :=
  seq [lit "{{<"; star space; lit "release-date"; plus space; lit "date=";
       chr quote; Capture 1 (plus (noneOf quote)); chr quote; star space;
       lit ">}}"].

(** [/\{\{<\s*NAME[^>]*>\}\}\s*\n?/g] *)
Definition reShortcode (name : regex) : regex :=
  seq [lit "{{<"; star space; name; star (noneOf 62); lit ">}}"; star space;
       opt (chr 10)].

(** [/^>\s*\[!\w+\]\s*$/gm] *)
Definition reAdmonition : regex :=
  seq [LineStart; chr 62; star space; lit "[!"; plus word; chr 93; star space;
       LineEnd].

(** [/[ \t]+$/gm] *)
Definition isBlank (c : char) : bool := N.eqb c 32 || N.eqb c 9.
Definition reTrailing : regex := seq [plus (Class isBlank); LineEnd].

(** [/^\s+/] *)
Definition reLeading : regex := seq [InputStart; plus space].

Definition erase (_ : result) : str := [].
Definition quoteMark (_ : result) : str := js ">".

(** [s.replace(/\r\n?/g, "\n")] *)
Definition normalizeNewlines (s : str) : str :=
  replaceAll reNewline (fun _ => nl) s.

(** *** [parseReleases] *)

Record release : Type := Release {
  version : str;
  date : option str;
  details : str
}.

(** The three shortcode removals of the loop body. *)
Definition removeShortcodes (body : str) : str :=
  replaceAll (reShortcode (lit "desktop-install-v2")) erase
    (replaceAll (reShortcode (lit "desktop-install")) erase
       (replaceAll (reShortcode (lit "release-date")) erase body)).

(** From the shortcode removals to the stripping of trailing blanks: what
    the loop body does to [body] to make [details]. *)
Definition cleanReleaseBody (body : str) : str :=
  let details := removeShortcodes body in
  let details := trim details in
  let details := replaceAll reAdmonition quoteMark details in
  replaceAll reTrailing erase details.

Definition releaseVersion (versionHeading : str) : str :=
  orElse
    (match exec reVersion versionHeading with
     | Some m => group' 1 m
     | None => []
     end)
    versionHeading.

(** The body of the [while] loop, for one match. *)
Definition releaseOfMatch (m : result) : release :=
  let versionHeading := trim (group' 1 m) in
  let body := group' 2 m in
  Release (releaseVersion versionHeading)
          (option_map (group' 1) (exec reReleaseDate body))
          (cleanReleaseBody body).

Definition releaseBlocks (markdown : str) : list release :=
  List.map releaseOfMatch (execLoop reReleaseSection (normalizeNewlines markdown)).

Definition renderRelease (r : release) : str :=
  let header :=
    js "## " ++ version r ++
    (if truthy (date r)
     then [32%N; emDash; 32%N] ++ match date r with Some d => d | None => [] end
     else []) in
  let body := replaceFirst reLeading erase (details r) in
  header ++ nl ++ body.

Definition releaseSeparator : str := nl ++ nl ++ js "---" ++ nl ++ nl.

Definition parseReleases (markdown : str) (n : Z) : str :=
  join releaseSeparator (List.map renderRelease (slice0 n (releaseBlocks markdown))).

(** *** [toISODateLoose] and [monthToNum] *)

(** What [m[name] || null] gives for a lower-cased word: a month number,
    or, [m] being an ordinary object, the inherited [constructor]. *)
Inductive monthValue : Type :=
| MonthNumber (n : N)
| ObjectConstructor.

Definition monthTable : list (str * N) :=
  [(js "january", 1%N); (js "february", 2%N); (js "march", 3%N);
   (js "april", 4%N); (js "may", 5%N); (js "june", 6%N); (js "july", 7%N);
   (js "august", 8%N); (js "september", 9%N); (js "october", 10%N);
   (js "november", 11%N); (js "december", 12%N)].

Fixpoint lookup (k : str) (l : list (str * N)) : option N :=
  match l with
  | [] => None
  | (k', v) :: l' => if Str.eqb k k' then Some v else lookup k l'
  end.

Definition monthToNum (name : str) : option monthValue :=
  let key := toLowerCase name in
  match lookup key monthTable with
  | Some n => Some (MonthNumber n)
  | None =>
      if Str.eqb key (js "constructor") then Some ObjectConstructor else None
  end.

(** [String(mm)]; a built-in function prints as V8 prints it. *)
Definition monthString (v : monthValue) : str :=
  match v with
  | MonthNumber n => ofN n
  | ObjectConstructor => js "function Object() { [native code] }"
  end.

(** [/\s*,\s*(\d{4})/] *)
Definition reCommaYear : regex :=
  seq [star space; chr 44; star space; Capture 1 (times 4 4 digit)].

(** [/\b(\d{4})-(\d{2})-(\d{2})\b/] *)
Definition reIso : regex :=
  seq [WordBoundary; Capture 1 (times 4 4 digit); chr 45;
       Capture 2 (times 2 2 digit); chr 45; Capture 3 (times 2 2 digit);
       WordBoundary].

(** [/\b([A-Za-z]+)\s+(\d{1,2}),\s*(\d{4})\b/] *)
Definition reLong : regex :=
  seq [WordBoundary; Capture 1 (plus alpha); plus space;
       Capture 2 (times 1 2 digit); chr 44; star space;
       Capture 3 (times 4 4 digit); WordBoundary].

(** [/\b([A-Za-z]+)\s+(\d{4})\b/] *)
Definition reMonthYear : regex :=
  seq [WordBoundary; Capture 1 (plus alpha); plus space;
       Capture 2 (times 4 4 digit); WordBoundary].

Definition dash : str := js "-".
Definition pad2 (s : str) : str := padStart0 2 s.

(** The date of a time value, printed from its UTC fields. *)
Definition formatUTC (t : Z) : str :=
  ofZ (JSDate.getUTCFullYear t) ++ dash ++
  pad2 (ofZ (JSDate.getUTCMonth1 t)) ++ dash ++
  pad2 (ofZ (JSDate.getUTCDate t)).

(** [raw.replace(/\s*,\s*(\d{4})/, " $1").trim()] *)
Definition cleanDate (raw : str) : str :=
  trim (replaceFirst reCommaYear (fun m => js " " ++ group' 1 m) raw).

(** The rule "Month DD, YYYY": [None] when it does not return. *)
Definition longRule (cleaned : str) : option str :=
  match exec reLong cleaned with
  | Some m =>
      match monthToNum (group' 1 m) with
      | Some mm =>
          Some (group' 3 m ++ dash ++ pad2 (monthString mm) ++ dash ++
                pad2 (group' 2 m))
      | None => None
      end
  | None => None
  end.

(** The rule "Month YYYY". *)
Definition monthYearRule (cleaned : str) : option str :=
  match exec reMonthYear cleaned with
  | Some m =>
      match monthToNum (group' 1 m) with
      | Some mm =>
          Some (group' 2 m ++ dash ++ pad2 (monthString mm) ++ js "-01")
      | None => None
      end
  | None => None
  end.

(** The calls of [Date.parse] the function makes on [raw]: none when it
    returns before its last rule, one, on the cleaned string, when it gets
    there. *)
Definition dateParseCalls (raw : str) : list str :=
  match raw with
  | [] => []
  | _ =>
      let cleaned := cleanDate raw in
      match exec reIso cleaned with
      | Some _ => []
      | None =>
          match longRule cleaned with
          | Some _ => []
          | None =>
              match monthYearRule cleaned with
              | Some _ => []
              | None => [cleaned]
              end
          end
      end
  end.

Section Host.

(** [Date.parse] belongs to the host: the standard fixes it on the ISO
    format only, and the program reaches it with other strings.  [None]
    is [NaN]; a number is a time value, milliseconds from the epoch. *)
Variable Date_parse : str -> option Z.

Definition fallbackRule (cleaned : str) : option str :=
  option_map formatUTC (Date_parse cleaned).

Definition toISODateLoose (raw : str) : option str :=
  match raw with
  | [] => None
  | _ =>
      let cleaned := cleanDate raw in
      match exec reIso cleaned with
      | Some iso => Some (whole iso)
      | None =>
          match longRule cleaned with
          | Some d => Some d
          | None =>
              match monthYearRule cleaned with
              | Some d => Some d
              | None => fallbackRule cleaned
              end
          end
      end
  end.

(** *** [extractProductAndVersion] *)

(** The patterns, all under the i flag:
    [/^(Docker\s+\w+)\s+([0-9]+\.[0-9]+(?:\.[0-9]+)?)/],
    [/^(.*?)[\s:,-]*v?([0-9]+\.[0-9]+(?:\.[0-9]+)?)(?:\b|[^0-9])/],
    [/[:\-\u2013]+$/] (no flag) and
    [/^(Docker(?:\s+\w+){0,})(?::|\s|$)/] (the source writes the
    repetition with a star). *)
Definition reDockerVersion : regex :=
  seq [InputStart; Capture 1 (seq [lit_i "Docker"; plus space; plus word]);
       plus space; Capture 2 reNum23].

Definition isSeparator (c : char) : bool :=
  isSpace c || N.eqb c 58 || N.eqb c 44 || N.eqb c 45.

Definition reAnyVersion : regex :=
  seq [InputStart; Capture 1 (lazyStar dot); star (Class isSeparator);
       opt (chr_i 118); Capture 2 reNum23;
       Or WordBoundary (Class (fun c => negb (isDigit c)))].

Definition isColonOrDash (c : char) : bool :=
  N.eqb c 58 || N.eqb c 45 || N.eqb c 8211.

Definition reTrailingPunct : regex := seq [plus (Class isColonOrDash); InputEnd].

Definition reDockerWords : regex :=
  seq [InputStart;
       Capture 1 (seq [lit_i "Docker"; star (seq [plus space; plus word])]);
       Or (chr 58) (Or space InputEnd)].

Definition extractProductAndVersion (title : str) : option str * option str :=
  match exec reDockerVersion title with
  | Some m => (Some (trim (group' 1 m)), Some (group' 2 m))
  | None =>
      match exec reAnyVersion title with
      | Some m2 =>
          (orNull (trim (replaceFirst reTrailingPunct erase (trim (group' 1 m2)))),
           Some (group' 2 m2))
      | None =>
          match exec reDockerWords title with
          | Some m3 => (Some (trim (group' 1 m3)), None)
          | None => (None, None)
          end
      end
  end.

(** *** [parseSecurityAnnouncements] *)

(** The record pushed for a section.  Its field [version] is [version']
    here, the plain name being the field of a release. *)
Record announcement : Type := Announcement {
  title : str;
  lastUpdatedISO : option str;
  lastUpdatedRaw : option str;
  product : option str;
  version' : option str;
  cves : list str;
  detailsMarkdown : str
}.

(** [/^##\s+([^\n]+?)\s*\n([\s\S]*?)(?=^##\s+|\Z)/gm] *)
Definition reSecuritySection : regex :=
  seq [LineStart; lit "##"; plus space; Capture 1 (lazyPlus (noneOf 10));
       star space; chr 10; Capture 2 (lazyStar anything); reUntilNext].

(** [/^_Last updated\s+(.+?)_$/im] *)
Definition reLastUpdated : regex :=
  seq [LineStart; lit_i "_Last updated"; plus space; Capture 1 (lazyPlus dot);
       chr 95; LineEnd].

(** [/CVE-\d{4}-\d{4,7}/gi] *)
Definition reCve : regex :=
  seq [lit_i "CVE-"; times 4 4 digit; chr 45; times 4 7 digit].

(** [/^\s*>\s*\[!\w+\]\s*$/gim] *)
Definition reAdmonition' : regex :=
  seq [LineStart; star space; chr 62; star space; lit "[!"; plus word; chr 93;
       star space; LineEnd].

(** [Array.from(new Set(text.match(reCve) || [])).sort()] *)
Definition extractCves (text : str) : list str :=
  sortStrings (dedup (List.map whole (matchAll reCve text))).

(** The last statement on [body] in the loop: admonitions, trailing
    blanks, trim. *)
Definition cleanSecurityBody (body : str) : str :=
  trim (replaceAll reTrailing erase (replaceAll reAdmonition' quoteMark body)).

(** The body of the [while] loop, for one match. *)
Definition announcementOfMatch (m : result) : announcement :=
  let title := trim (group' 1 m) in
  let body := trim (group' 2 m) in
  let body := trim (replaceAll (reShortcode (lit_i "rss-button")) erase body) in
  let lastUpdatedLine := exec reLastUpdated body in
  let lastUpdatedRaw := option_map (fun l => trim (group' 1 l)) lastUpdatedLine in
  let lastUpdatedISO :=
    match lastUpdatedRaw with
    | Some raw => toISODateLoose raw
    | None => None
    end in
  let body :=
    match lastUpdatedLine with
    | Some l => trim (removeFirst (whole l) body)
    | None => body
    end in
  let pv := extractProductAndVersion title in
  let cves := extractCves (title ++ nl ++ body) in
  Announcement title lastUpdatedISO lastUpdatedRaw (fst pv) (snd pv) cves
               (cleanSecurityBody body).

(** The text of a section when its CVE identifiers are collected: its
    body without the rss-button shortcode and the last-updated line. *)
Definition sectionBody (m : result) : str :=
  let body := trim (group' 2 m) in
  let body := trim (replaceAll (reShortcode (lit_i "rss-button")) erase body) in
  match exec reLastUpdated body with
  | Some l => trim (removeFirst (whole l) body)
  | None => body
  end.

Definition announcementBlocks (src : str) : list announcement :=
  List.map announcementOfMatch (execLoop reSecuritySection src).

Definition isoOf (a : announcement) : str :=
  match lastUpdatedISO a with Some d => d | None => [] end.

(** The comparator of the sort, [(a, b) => b.iso.localeCompare(a.iso)],
    as the test "not positive": [a] may stay in front of [b].
    [localeCompare] is taken here to order the strings compared, made of
    digits and dashes, as their code units do; that is the host's to
    decide, and [newerFirstOn] below has its collation as a parameter. *)
Definition newerFirst (a b : announcement) : bool :=
  match Str.compare (isoOf b) (isoOf a) with Gt => false | _ => true end.

Definition dated (b : announcement) : bool := truthy (lastUpdatedISO b).

(** [[...withDate, ...withoutDate]] *)
Definition rankAnnouncements (blocks : list announcement) : list announcement :=
  sortBy newerFirst (filter dated blocks) ++
  filter (fun b => negb (dated b)) blocks.

(** [indent(text, 2)] *)
Definition indent (text : str) : str :=
  join nl (List.map (fun l => match l with [] => l | _ => js "  " ++ l end)
                    (splitLines text)).

(** The lines one announcement adds in [formatAnnouncementsForLLM]. *)
Definition announcementLines (a : announcement) : list str :=
  let header :=
    nl ++ js "## " ++ title a ++
    (if dated a then [32%N; emDash; 32%N] ++ js "updated " ++ isoOf a else []) in
  let metaBits :=
    (if truthy (product a)
     then [js "Product: " ++ match product a with Some p => p | None => [] end]
     else []) ++
    (if truthy (version' a)
     then [js "Version: " ++ match version' a with Some v => v | None => [] end]
     else []) ++
    (match cves a with
     | [] => []
     | _ => [js "CVEs: " ++ join (js ", ") (cves a)]
     end) in
  [header] ++
  (if truthy (product a) || truthy (version' a) ||
      negb (Nat.eqb (length (cves a)) 0)
   then [join nl (List.map (fun s => js "- " ++ s) metaBits)]
   else []) ++
  [js "Details:"; indent (detailsMarkdown a)].

Definition formatAnnouncementsForLLM (ann : list announcement) : str :=
  join nl (flat_map announcementLines ann).

(** [parseSecurityAnnouncements] on a string. *)
Definition parseSecurityAnnouncements (markdown : str) (limit : Z) : str :=
  let src := normalizeNewlines markdown in
  formatAnnouncementsForLLM
    (slice0 limit (rankAnnouncements (announcementBlocks src))).

(** *** The collation of the host *)

(** [localeCompare] belongs to the host as [Date.parse] does: it orders
    two strings by the collation of the default locale.  Here the
    collation is a parameter, [Lt], [Eq] and [Gt] standing for a negative
    number, zero and a positive one; [newerFirst] above is [newerFirstOn]
    for the order of the code units.  The standard defines the sort for a
    consistent comparator, which a collation is. *)
Section Collation.

Variable localeCompare : str -> str -> comparison.

Definition newerFirstOn (a b : announcement) : bool :=
  match localeCompare (isoOf b) (isoOf a) with Gt => false | _ => true end.

Definition rankAnnouncementsOn (blocks : list announcement)
    : list announcement :=
  sortBy newerFirstOn (filter dated blocks) ++
  filter (fun b => negb (dated b)) blocks.

Definition parseSecurityAnnouncementsOn (markdown : str) (limit : Z) : str :=
  let src := normalizeNewlines markdown in
  formatAnnouncementsForLLM
    (slice0 limit (rankAnnouncementsOn (announcementBlocks src))).

End Collation.

End Host.

(** *** The exported functions, with what can throw *)

(** What a method can be called on: [undefined], [null] or a string.  It
    is the argument [markdown], or [m[i]] for a match [m], [undefined]
    when the group took no part in the match. *)
Inductive value : Type :=
| Undefined
| Null
| StringValue (s : str).

(** A call returns or throws; what these functions can throw is the
    [TypeError] of a method called on [undefined] or [null]. *)
Inductive outcome (A : Type) : Type :=
| Returns (a : A)
| ThrowsTypeError.
Arguments Returns {A} a.
Arguments ThrowsTypeError {A}.

Definition bind {A B : Type} (o : outcome A) (k : A -> outcome B) : outcome B :=
  match o with
  | Returns a => k a
  | ThrowsTypeError => ThrowsTypeError
  end.

Notation "x <- e ;; k" := (bind e (fun x => k))
  (at level 61, e at next level, right associativity).

(** [v.method(...)] for a method of strings. *)
Definition call {A : Type} (v : value) (method : str -> A) : outcome A :=
  match v with
  | StringValue s => Returns (method s)
  | Undefined | Null => ThrowsTypeError
  end.

(** [m[i]] *)
Definition capture (i : nat) (m : result) : value :=
  match group i m with
  | Some s => StringValue s
  | None => Undefined
  end.

(** The body of a loop for each match in turn, until one throws. *)
Fixpoint forEach {A B : Type} (body : A -> outcome B) (l : list A)
    : outcome (list B) :=
  match l with
  | [] => Returns []
  | a :: l' =>
      b <- body a ;;
      bs <- forEach body l' ;;
      Returns (b :: bs)
  end.

(** The body of the loop of [parseReleases]: [match[1].trim()], then
    [body.match] and [body.replace] on [match[2]]. *)
Definition releaseOfMatch_js (m : result) : outcome release :=
  versionHeading <- call (capture 1 m) trim ;;
  let body := capture 2 m in
  let version := releaseVersion versionHeading in
  dateMatch <- call body (exec reReleaseDate) ;;
  let date := option_map (group' 1) dateMatch in
  details <- call body cleanReleaseBody ;;
  Returns (Release version date details).

(** [parseReleases]: the first statement calls [replace] on the
    argument as it comes. *)
Definition parseReleases_js (markdown : value) (n : Z) : outcome str :=
  md <- call markdown normalizeNewlines ;;
  blocks <- forEach releaseOfMatch_js (execLoop reReleaseSection md) ;;
  Returns (join releaseSeparator (List.map renderRelease (slice0 n blocks))).

(** [extractProductAndVersion]: [trim] is called on the first group of
    each pattern; the second is read and not called on. *)
Definition extractProductAndVersion_js (title : str)
    : outcome (option str * option str) :=
  match exec reDockerVersion title with
  | Some m =>
      product <- call (capture 1 m) trim ;;
      Returns (Some product, group 2 m)
  | None =>
      match exec reAnyVersion title with
      | Some m2 =>
          product <- call (capture 1 m2)
                       (fun s => orNull (trim (replaceFirst reTrailingPunct erase
                                                 (trim s)))) ;;
          Returns (product, group 2 m2)
      | None =>
          match exec reDockerWords title with
          | Some m3 =>
              product <- call (capture 1 m3) trim ;;
              Returns (Some product, None)
          | None => Returns (None, None)
          end
      end
  end.

(** [String(markdown || empty)]: a falsy argument becomes the empty
    string. *)
Definition orEmpty (v : value) : str :=
  match v with
  | StringValue s => s
  | Undefined | Null => []
  end.

Section Calls.

Variable Date_parse : str -> option Z.
Variable localeCompare : str -> str -> comparison.

(** The body of the loop of [parseSecurityAnnouncements]: [trim] is
    called on [m[1]], on [m[2]] and on the first group of the last-updated
    line. *)
Definition announcementOfMatch_js (m : result) : outcome announcement :=
  title <- call (capture 1 m) trim ;;
  body <- call (capture 2 m) trim ;;
  let body := trim (replaceAll (reShortcode (lit_i "rss-button")) erase body) in
  let lastUpdatedLine := exec reLastUpdated body in
  updated <- match lastUpdatedLine with
             | Some l =>
                 lastUpdatedRaw <- call (capture 1 l) trim ;;
                 Returns (Some lastUpdatedRaw,
                          toISODateLoose Date_parse lastUpdatedRaw,
                          trim (removeFirst (whole l) body))
             | None => Returns (None, None, body)
             end ;;
  let '(lastUpdatedRaw, lastUpdatedISO, body) := updated in
  pv <- extractProductAndVersion_js title ;;
  let cves := extractCves (title ++ nl ++ body) in
  Returns (Announcement title lastUpdatedISO lastUpdatedRaw (fst pv) (snd pv)
                        cves (cleanSecurityBody body)).

Definition parseSecurityAnnouncements_js (markdown : value) (limit : Z)
    : outcome str :=
  let src := normalizeNewlines (orEmpty markdown) in
  blocks <- forEach announcementOfMatch_js (execLoop reSecuritySection src) ;;
  Returns (formatAnnouncementsForLLM
             (slice0 limit (rankAnnouncementsOn localeCompare blocks))).

End Calls.

End Util.

(* ------------------------------------------------------------------ *)
(** ** The two servers *)

Module Server.
Import Util.

(** *** The tool handlers *)

(** Both servers register the same two tools with the same handlers; the
    SSE server does it once for each connection, in [getServer].  A
    handler gets the arguments the SDK has checked against the schema:
    [limit] is absent or a number, an integer here as in [Util].  The page
    is what [fetch(url)] followed by [.text()] gives: a text, or a
    rejection, which the handler does not catch. *)

(** An item [{ type: "text", text }]. *)
Inductive content : Type :=
| TextContent (text : str).

Inductive toolResult : Type :=
| ToolReturns (items : list content)
| ToolRejects.

(** The default of the parameter pattern [{ limit = 6 }]: it applies to a
    missing [limit] only. *)
Definition limitOr6 (limit : option Z) : Z :=
  match limit with Some n => n | None => 6%Z end.

Definition getDesktopReleases (page : option str) (limit : option Z)
    : toolResult :=
  match page with
  | Some data => ToolReturns [TextContent (parseReleases data (limitOr6 limit))]
  | None => ToolRejects
  end.

Definition getSecurityDetails (Date_parse : str -> option Z)
    (page : option str) (limit : option Z) : toolResult :=
  match page with
  | Some data =>
      ToolReturns
        [TextContent (parseSecurityAnnouncements Date_parse data (limitOr6 limit))]
  | None => ToolRejects
  end.

(** The limits [z.number().min(1).max(10)] lets through, and no limit. *)
Definition inSchema (limit : option Z) : bool :=
  match limit with
  | Some n => Z.leb 1 n && Z.leb n 10
  | None => true
  end.

(** *** The sessions of the SSE server *)

(** A transport of the SDK, by what the program uses of it: its session
    id, which the SDK draws as a random UUID, what [handlePostMessage]
    does with the body of a request, and what [close] does. *)
Inductive postOutcome : Type :=
| PostReturns
| PostThrows (headersSent : bool).

Inductive closeOutcome : Type :=
| CloseReturns
| CloseThrows (oncloseCalled : bool).

Record transport : Type := Transport {
  sessionId : str;
  handlePostMessage : str -> postOutcome;
  close : closeOutcome
}.

(** [transports], an ordinary object: its own properties in the order of
    their creation, which is the order of [for ... in] for keys that are
    no array index; a session id is none, and is not [__proto__], the one
    key an assignment does not create. *)
Definition object : Type := list (str * transport).

(** The names every ordinary object inherits from [Object.prototype]. *)
Definition objectPrototype : list str :=
  [js "constructor"; js "hasOwnProperty"; js "isPrototypeOf";
   js "propertyIsEnumerable"; js "toLocaleString"; js "toString";
   js "valueOf"; js "__proto__"; js "__defineGetter__";
   js "__defineSetter__"; js "__lookupGetter__"; js "__lookupSetter__"].

Definition inherited (k : str) : bool := existsb (Str.eqb k) objectPrototype.

Fixpoint ownProperty (k : str) (o : object) : option transport :=
  match o with
  | [] => None
  | (k', t) :: o' => if Str.eqb k k' then Some t else ownProperty k o'
  end.

(** The value of [transports[k]]: a transport, a member of
    [Object.prototype] (a function or an object, truthy, without a method
    [handlePostMessage]), or [undefined]. *)
Inductive property : Type :=
| Own (t : transport)
| Inherited
| NoProperty.

Definition getProperty (o : object) (k : str) : property :=
  match ownProperty k o with
  | Some t => Own t
  | None => if inherited k then Inherited else NoProperty
  end.

(** [transports[k] = t]: an own property keeps its place. *)
Fixpoint setProperty (o : object) (k : str) (t : transport) : object :=
  match o with
  | [] => [(k, t)]
  | (k', t') :: o' =>
      if Str.eqb k k' then (k, t) :: o' else (k', t') :: setProperty o' k t
  end.

(** [delete transports[k]] *)
Definition deleteProperty (o : object) (k : str) : object :=
  filter (fun e => negb (Str.eqb k (fst e))) o.

(** What a handler sends itself: [res.status(status).send(text)]. *)
Definition reply : Type := option (N * str).

Inductive connectOutcome : Type :=
| Connected
| ConnectThrows (headersSent : bool).

(** [app.get("/mcp", ...)], for the transport it creates and what
    [server.connect] does: the session is stored before the connection is
    made, and the [catch] does not take it away. *)
Definition getMcp (transports : object) (t : transport) (c : connectOutcome)
    : object * reply :=
  (setProperty transports (sessionId t) t,
   match c with
   | Connected => None
   | ConnectThrows headersSent =>
       if headersSent then None
       else Some (500%N, js "Error establishing SSE stream")
   end).

(** The [onclose] the handler gives the transport. *)
Definition onclose (transports : object) (k : str) : object :=
  deleteProperty transports k.

(** The transport a request is handed to, and what the handler sends
    itself. *)
Record postEffect : Type := PostEffect {
  handledBy : option transport;
  sent : reply
}.

(** [app.post("/messages", ...)], for the value of [req.query.sessionId],
    absent or a string, and the body of the request. *)
Definition postMessages (transports : object) (query : option str)
    (body : str) : postEffect :=
  match query with
  | None | Some [] => PostEffect None (Some (400%N, js "Missing sessionId parameter"))
  | Some k =>
      match getProperty transports k with
      | NoProperty => PostEffect None (Some (404%N, js "Session not found"))
      | Inherited => PostEffect None (Some (500%N, js "Error handling request"))
      | Own t =>
          match handlePostMessage t body with
          | PostReturns => PostEffect (Some t) None
          | PostThrows headersSent =>
              PostEffect (Some t)
                (if headersSent then None
                 else Some (500%N, js "Error handling request"))
          end
      end
  end.

(** The loop of the [SIGINT] handler over the keys [for ... in] has taken:
    the transports it closes, in order, and the object it leaves.  A key
    deleted before its turn is passed over.  When [close] returns the key
    is deleted, by [onclose] or by the statement that follows; when it
    throws, that statement is skipped. *)
Fixpoint closeAll (keys : list str) (transports : object)
    : list transport * object :=
  match keys with
  | [] => ([], transports)
  | k :: keys' =>
      match ownProperty k transports with
      | None => closeAll keys' transports
      | Some t =>
          let transports' :=
            match close t with
            | CloseReturns => deleteProperty transports k
            | CloseThrows oncloseCalled =>
                if oncloseCalled then onclose transports k else transports
            end in
          let (closed, left) := closeAll keys' transports' in
          (t :: closed, left)
      end
  end.

(** The transports the loop leaves in the object: those whose [close]
    threw before it called [onclose]. *)
Definition stays (t : transport) : bool :=
  match close t with
  | CloseThrows false => true
  | _ => false
  end.

Definition sigint (transports : object) : list transport * object :=
  closeAll (List.map fst transports) transports.

(** What happens to the sessions while the server runs: a client opens a
    stream, a transport closes. *)
Inductive event : Type :=
| Opens (t : transport) (c : connectOutcome)
| Closes (k : str).

Definition handle (transports : object) (e : event) : object :=
  match e with
  | Opens t c => fst (getMcp transports t c)
  | Closes k => onclose transports k
  end.

(** The object after a history, from [const transports = {}]. *)
Definition sessionsAfter (history : list event) : object :=
  fold_left handle history [].

(** The transport last opened under [k] and not closed since. *)
Fixpoint liveFrom (k : str) (history : list event) (now : option transport)
    : option transport :=
  match history with
  | [] => now
  | Opens t _ :: history' =>
      liveFrom k history' (if Str.eqb k (sessionId t) then Some t else now)
  | Closes k' :: history' =>
      liveFrom k history' (if Str.eqb k k' then None else now)
  end.

Definition live (k : str) (history : list event) : option transport :=
  liveFrom k history None.

(** The keys of an object are distinct. *)
Definition distinctKeys (o : object) : Prop := NoDup (List.map fst o).

End Server.

Import Util.

(* ------------------------------------------------------------------ *)
(** ** Predicates and sample inputs of the statements *)

Module Shapes.

Definition allDigits (s : str) : bool := forallb isDigit s.

(** [CVE-] in either case, four digits, a dash, four to seven digits. *)
Definition cveShape (s : str) : bool :=
  Str.eqb (List.map toUpperAscii (firstn 4 s)) (js "CVE-") &&
  allDigits (firstn 4 (skipn 4 s)) && Nat.eqb (length (firstn 4 (skipn 4 s))) 4 &&
  Str.eqb (firstn 1 (skipn 8 s)) (js "-") &&
  allDigits (skipn 9 s) && Nat.leb 4 (length (skipn 9 s)) &&
  Nat.leb (length (skipn 9 s)) 7.

(** Four digits, a dash, two digits, a dash, two digits. *)
Definition isoShape (s : str) : bool :=
  match s with
  | [y1; y2; y3; y4; h1; m1; m2; h2; d1; d2] =>
      allDigits [y1; y2; y3; y4; m1; m2; d1; d2] && N.eqb h1 45 && N.eqb h2 45
  | _ => false
  end.

(** The number a string of digits writes. *)
Definition toNum (s : str) : Z :=
  fold_left (fun acc c => (10 * acc + (Z.of_N c - 48))%Z) s 0%Z.

Definition yearOf (s : str) : Z := toNum (firstn 4 s).
Definition monthOf (s : str) : Z := toNum (firstn 2 (skipn 5 s)).
Definition dayOf (s : str) : Z := toNum (skipn 8 s).

(** The month field is 01 to 12. *)
Definition monthInRange (s : str) : bool :=
  Z.leb 1 (monthOf s) && Z.leb (monthOf s) 12.

(** A canonical date: the shape, and a month and a day of the calendar. *)
Definition validDate (s : str) : bool :=
  isoShape s && monthInRange s &&
  Z.leb 1 (dayOf s) && Z.leb (dayOf s) (JSDate.daysInMonth (yearOf s) (monthOf s)).

(** Digits, a dot, digits, a dot, digits. *)
Definition dottedTriple (s : str) : Prop :=
  exists a b c,
    s = a ++ js "." ++ b ++ js "." ++ c /\
    a <> [] /\ b <> [] /\ c <> [] /\
    allDigits a = true /\ allDigits b = true /\ allDigits c = true.

(** The lines of a digest that begin like a digest heading. *)
Definition isHeadingLine (l : str) : bool := isPrefix (js "## ") l.
Definition countHeadingLines (s : str) : nat :=
  length (filter isHeadingLine (splitLines s)).

(** A text at the end of a line: nothing, or a line terminator first. *)
Definition atEndStr (s : str) : bool :=
  match s with [] => true | c :: _ => isLineTerminator c end.

(** The text without the blanks and tabs that end its lines. *)
Fixpoint stripSpec (s : str) : str :=
  match s with
  | [] => []
  | c :: s' =>
      let r := stripSpec s' in
      if isBlank c && atEndStr r then r else c :: r
  end.

(** No blank or tab ends a line. *)
Fixpoint noTrailing (s : str) : bool :=
  match s with
  | [] => true
  | c :: s' => negb (isBlank c && atEndStr s') && noTrailing s'
  end.

(** No white space at the front. *)
Definition headOK (s : str) : Prop :=
  match s with c :: _ => isSpace c = false | [] => True end.

(** No white space at the back. *)
Definition lastOK (s : str) : Prop := headOK (rev s).

(** The states the greedy loop over a class ends in: the longest run
    first. *)
Fixpoint greedyStates (p : char -> bool) (lo : nat) (pre post : str)
    (cp : list (nat * str)) : list mstate :=
  match post with
  | c :: post' => if p c then greedyStates p (Nat.pred lo) (c :: pre) post' cp else []
  | [] => []
  end ++ (if Nat.eqb lo 0 then [MState pre post cp] else []).

(** The match of the trailing-blanks pattern at a position: the whole
    run of blanks, when a line ends after it. *)
Fixpoint trailingMatch (lo : nat) (pre post : str) (cp : list (nat * str))
    : list mstate :=
  match post with
  | [] => if Nat.eqb lo 0 then [MState pre [] cp] else []
  | c :: post' =>
      if isBlank c then trailingMatch (Nat.pred lo) (c :: pre) post' cp
      else if Nat.eqb lo 0 && isLineTerminator c then [MState pre post cp]
           else []
  end.

(** [pat] stands somewhere in [s]. *)
Fixpoint contains (pat s : str) : bool :=
  isPrefix pat s ||
  match s with
  | [] => false
  | _ :: s' => contains pat s'
  end.

(** The text holds the word "constructor", in any case of its letters. *)
Definition mentionsConstructor (raw : str) : bool :=
  contains (js "constructor") (toLowerCase raw).

(** The digits a text begins with, and what follows them. *)
Fixpoint spanDigits (s : str) : str * str :=
  match s with
  | [] => ([], [])
  | c :: s' =>
      if isDigit c
      then let (d, r) := spanDigits s' in (c :: d, r)
      else ([], s)
  end.

(** No character of a word comes first. *)
Definition wordEnds (s : str) : bool :=
  match s with [] => true | c :: _ => negb (isWord c) end.

(** The dotted triple a heading starts with, after its white space:
    three runs of digits with a dot between them, each run as long as the
    digits go, and no character of a word after the third. *)
Definition tripleAtStart (h : str) : option str :=
  let (a, r1) := spanDigits (dropWhile isSpace h) in
  match a, r1 with
  | _ :: _, dot1 :: r1' =>
      let (b, r2) := spanDigits r1' in
      match b, r2 with
      | _ :: _, dot2 :: r2' =>
          let (c, r3) := spanDigits r2' in
          match c with
          | _ :: _ =>
              if N.eqb dot1 46 && N.eqb dot2 46 && wordEnds r3
              then Some (a ++ js "." ++ b ++ js "." ++ c)
              else None
          | [] => None
          end
      | _, _ => None
      end
  | _, _ => None
  end.

End Shapes.
Import Shapes.

Module Fixtures.

(** Two hosts: what V8 answers to [Date.parse] on the string used below,
    which it reads as local time for want of a zone; the first runs in
    UTC, the second two hours east of it. *)
Definition hostUTC (s : str) : option Z :=
  if Str.eqb s (js "July 15 2024") then Some 1721001600000%Z else None.
Definition hostBerlin (s : str) : option Z :=
  if Str.eqb s (js "July 15 2024") then Some 1720994400000%Z else None.

(** The two releases of the spec's end-to-end sample. *)
Definition specExample : str :=
  js "## 4.45.0" ++ nl ++
  js "{{< release-date date=" ++ [quote] ++ js "2025-01-01" ++ [quote] ++ js " >}}" ++ nl ++
  js "Fixed bugs." ++ nl ++
  js "## 4.44.0" ++ nl ++
  js "{{< release-date date=" ++ [quote] ++ js "2024-12-01" ++ [quote] ++ js " >}}" ++ nl ++
  js "More fixes.".

Definition singleSection : str := js "## 4.45.0" ++ nl ++ js "Fixed bugs." ++ nl.

Definition twoSectionsWithZ : str :=
  js "## 4.45.0" ++ nl ++ js "Fixed Zoom sharing." ++ nl ++
  js "## 4.44.0" ++ nl ++ js "More fixes." ++ nl.

Definition cveText : str := js "CVE-2025-9074 and cve-2025-9074 again".

Definition cveDocument : str :=
  js "## Docker Desktop 4.44.3 security update" ++ nl ++ cveText ++ nl ++
  js "## Older announcements" ++ nl.

(** Three sections, last updated "March 2024", "2025-01-10" and not at
    all; the closing heading makes the third one a section. *)
Definition threeSections : str :=
  js "## Alpha advisory" ++ nl ++ js "_Last updated March 2024_" ++ nl ++
  js "alpha text" ++ nl ++
  js "## Beta advisory" ++ nl ++ js "_Last updated 2025-01-10_" ++ nl ++
  js "beta text" ++ nl ++
  js "## Gamma advisory" ++ nl ++ js "gamma text" ++ nl ++
  js "## Older announcements" ++ nl.

Definition threeSectionsDigest : str :=
  nl ++ js "## Beta advisory " ++ [emDash] ++ js " updated 2025-01-10" ++ nl ++
  js "Details:" ++ nl ++ js "  beta text" ++ nl ++
  nl ++ js "## Alpha advisory " ++ [emDash] ++ js " updated 2024-03-01" ++ nl ++
  js "Details:" ++ nl ++ js "  alpha text" ++ nl ++
  nl ++ js "## Gamma advisory" ++ nl ++
  js "Details:" ++ nl ++ js "  gamma text".

(** A heading of blanks only, in front of a release. *)
Definition blankHeading : str :=
  js "##  " ++ nl ++ js "## 4.45.0" ++ nl ++ js "Fixed bugs." ++ nl.

(** A release whose notes open with an indented subheading. *)
Definition indentedSubheading : str :=
  js "## 4.45.0" ++ nl ++ js "  ## Known issues" ++ nl ++ js "- none" ++ nl ++
  js "## 4.44.0" ++ nl.

Definition outOfRangeToken : str :=
  js "## Advisory" ++ nl ++ js "_Last updated 2024-99-99_" ++ nl ++
  js "text" ++ nl ++ js "## Older announcements" ++ nl.

(** A callout marker followed, after an empty line, by a bracketed tag. *)
Definition twoMarkers : str :=
  js "> [!NOTE]" ++ nl ++ nl ++ js "[!IMPORTANT]" ++ nl ++ js "Read this.".

(** A shortcode whose name is broken by another shortcode. *)
Definition nestedShortcode : str :=
  js "{{< release-{{< desktop-install >}}date >}}".

(** The three sections of the ranking sample and nothing after them. *)
Definition exactlyThreeSections : str :=
  js "## Alpha advisory" ++ nl ++ js "_Last updated March 2024_" ++ nl ++
  js "alpha text" ++ nl ++
  js "## Beta advisory" ++ nl ++ js "_Last updated 2025-01-10_" ++ nl ++
  js "beta text" ++ nl ++
  js "## Gamma advisory" ++ nl ++ js "gamma text" ++ nl.

Definition twoOfThreeDigest : str :=
  nl ++ js "## Beta advisory " ++ [emDash] ++ js " updated 2025-01-10" ++ nl ++
  js "Details:" ++ nl ++ js "  beta text" ++ nl ++
  nl ++ js "## Alpha advisory " ++ [emDash] ++ js " updated 2024-03-01" ++ nl ++
  js "Details:" ++ nl ++ js "  alpha text".

(** Three records with the dates of the ranking sample. *)
Definition alphaRecord : announcement :=
  Announcement (js "Alpha advisory") (Some (js "2024-03-01"))
               (Some (js "March 2024")) None None [] (js "alpha text").
Definition betaRecord : announcement :=
  Announcement (js "Beta advisory") (Some (js "2025-01-10"))
               (Some (js "2025-01-10")) None None [] (js "beta text").
Definition gammaRecord : announcement :=
  Announcement (js "Gamma advisory") None None None None [] (js "gamma text").

(** Headings with a text after the triple, apart from it and joined to
    it. *)
Definition suffixedHeadings : str :=
  js "## 4.45.0 (beta)" ++ nl ++ js "Fixed bugs." ++ nl ++
  js "## 4.44.0rc1" ++ nl ++ js "More fixes." ++ nl ++
  js "## 4.43.0" ++ nl.

(** Two advisories, the first dated in the order day, month, year: no
    rule of the normalizer takes that date, by design, and [Date.parse]
    reads it as local time.  A heading closes the page. *)
Definition dayFirstDate : str :=
  js "## Advisory" ++ nl ++ js "_Last updated 15 Jul 2024_" ++ nl ++
  js "text" ++ nl ++
  js "## Earlier advisory" ++ nl ++ js "_Last updated 2024-01-05_" ++ nl ++
  js "more" ++ nl ++
  js "## Older announcements" ++ nl.

(** What V8 answers on that date: in UTC, two hours east of it, and in
    UTC again on a host that reads no other form. *)
Definition utcClock (s : str) : option Z :=
  if Str.eqb s (js "15 Jul 2024") || Str.eqb s (js "July 15 2024")
  then Some 1721001600000%Z else None.
Definition berlinClock (s : str) : option Z :=
  if Str.eqb s (js "15 Jul 2024") || Str.eqb s (js "July 15 2024")
  then Some 1720994400000%Z else None.
Definition strictClock (s : str) : option Z :=
  if Str.eqb s (js "15 Jul 2024") then Some 1721001600000%Z else None.

(** A collation that ignores the case of letters. *)
Definition foldedCompare (a b : str) : comparison :=
  Str.compare (toLowerCase a) (toLowerCase b).

End Fixtures.
Import Fixtures.

(* ------------------------------------------------------------------ *)
(** ** Definitions of the further properties *)

Module Positions.

(** Two matcher states at the same place of the same input: they differ
    in their captures at most. *)
Definition same (x y : mstate) : Prop :=
  before x = before y /\ after x = after y.

(** Order on the upper bounds of a quantifier, [None] being no bound. *)
Definition upto (h1 h2 : option nat) : Prop :=
  match h1, h2 with
  | _, None => True
  | Some a, Some b => a <= b
  | None, Some _ => False
  end.

End Positions.

Module LineEndings.

(** A text with its line endings made uniform: CR LF and a lone CR
    become LF. *)
Fixpoint unixLines (s : str) : str :=
  match s with
  | [] => []
  | c :: s' =>
      if N.eqb 13 c
      then 10%N :: match s' with
                   | d :: s'' => if N.eqb 10 d then unixLines s'' else unixLines s'
                   | [] => []
                   end
      else c :: unixLines s'
  end.

(** A text with every LF written the Windows way, CR LF, and the old Mac
    way, CR. *)
Definition crlf (s : str) : str :=
  flat_map (fun c => if N.eqb 10 c then [13%N; 10%N] else [c]) s.
Definition crOnly (s : str) : str :=
  List.map (fun c => if N.eqb 10 c then 13%N else c) s.

Definition noCR (s : str) : Prop := Forall (fun c => c <> 13%N) s.

End LineEndings.

Module Texts.

(** [v] is a piece of [s]. *)
Definition occursIn (v s : str) : Prop := exists a b, s = a ++ v ++ b.

(** The whole input of a matcher state. *)
Definition input (x : mstate) : str := rev (before x) ++ after x.

(** No class of the pattern admits the code unit [c]. *)
Fixpoint avoids (c : char) (r : regex) : bool :=
  match r with
  | Class p => negb (p c)
  | Cat r1 r2 | Or r1 r2 => avoids c r1 && avoids c r2
  | Quant _ _ _ r' | Capture _ r' => avoids c r'
  | _ => true
  end.

(** A text of one line. *)
Definition oneLine (s : str) : Prop := Forall (fun c => c <> 10%N) s.

(** The fields of a record that reach the heading and the line of
    metadata are each one line. *)
Definition tidy (a : announcement) : Prop :=
  oneLine (title a) /\ oneLine (isoOf a) /\
  oneLine (match product a with Some p => p | None => [] end) /\
  oneLine (match version' a with Some v => v | None => [] end) /\
  Forall oneLine (cves a).

End Texts.

Module DigestLines.

(** What [indent] does to one line. *)
Definition padLine (l : str) : str :=
  match l with [] => l | _ => js "  " ++ l end.

End DigestLines.

Module DateTexts.

(** The texts "Month YYYY". *)
Definition monthYearText (name yyyy : str) : str := name ++ js " " ++ yyyy.

(** How many commas a text holds. *)
Definition commas (s : str) : nat := length (filter (N.eqb 44) s).

(** The normalizer without its rule "Month DD, YYYY". *)
Definition withoutLongRule (Date_parse : str -> option Z) (raw : str)
    : option str :=
  match raw with
  | [] => None
  | _ =>
      let cleaned := cleanDate raw in
      match exec reIso cleaned with
      | Some iso => Some (whole iso)
      | None =>
          match monthYearRule cleaned with
          | Some d => Some d
          | None => fallbackRule Date_parse cleaned
          end
      end
  end.

End DateTexts.

Module TitleShapes.

(** A digit, a dot and a digit in a row. *)
Definition hasVersionNumber (t : str) : Prop :=
  exists a d1 d2 b,
    t = a ++ [d1; 46%N; d2] ++ b /\ isDigit d1 = true /\ isDigit d2 = true.

(** Digits, a dot, digits, and perhaps a dot and digits again. *)
Definition versionShape (v : str) : Prop :=
  exists a b c : str,
    a <> [] /\ b <> [] /\ allDigits a = true /\ allDigits b = true /\
    (v = a ++ js "." ++ b \/
     (v = a ++ js "." ++ b ++ js "." ++ c /\ c <> [] /\ allDigits c = true)).

Definition singleLineTitle (t : str) : Prop :=
  Forall (fun c => isLineTerminator c = false) t.

End TitleShapes.

Module Documents.

(** A line that opens a section for the segmenter: two hashes, then a
    white space (the newline that ends the line counts). *)
Definition startsSection (l : str) : bool :=
  match l with
  | [a; b] => N.eqb a 35 && N.eqb b 35
  | a :: b :: c :: _ => N.eqb a 35 && N.eqb b 35 && isSpace c
  | _ => false
  end.

(** Neither a line terminator nor the letter Z. *)
Definition plainChar (c : char) : bool :=
  negb (isLineTerminator c) && negb (N.eqb c 90).

Definition plain (s : str) : Prop := Forall (fun c => plainChar c = true) s.

(** The text of a heading: plain, and a character that is no white
    space first. *)
Definition wfHeading (h : str) : Prop :=
  plain h /\ match h with c :: _ => isSpace c = false | [] => False end.

Definition wfLine (l : str) : Prop := plain l /\ startsSection l = false.

Definition wfSection (s : str * list str) : Prop :=
  wfHeading (fst s) /\ Forall wfLine (snd s).

Definition bodyOf (lines : list str) : str :=
  flat_map (fun l => l ++ nl) lines.

Definition sectionText (s : str * list str) : str :=
  js "## " ++ fst s ++ nl ++ bodyOf (snd s).

(** A document of sections, each a heading line and the lines of its
    body. *)
Definition document (secs : list (str * list str)) : str :=
  flat_map sectionText secs.

(** The text at [post], with [pre] (reversed) in front of it, begins a
    heading line, or with the letter Z: where the lookahead of the section
    patterns holds. *)
Definition startsHeading (post : str) : bool :=
  match post with
  | a :: b :: c :: _ => N.eqb a 35 && N.eqb b 35 && isSpace c
  | _ => false
  end.

Definition lineStartAt (pre : str) : bool :=
  match pre with [] => true | c :: _ => isLineTerminator c end.

Definition boundary (pre post : str) : bool :=
  (lineStartAt pre && startsHeading post) ||
  match post with c :: _ => N.eqb 90 c | [] => false end.

(** No boundary inside [text], which has [pre] in front and [next]
    behind. *)
Definition quiet (pre text next : str) : Prop :=
  forall b1 c b2, text = b1 ++ c :: b2 ->
    boundary (rev b1 ++ pre) (c :: b2 ++ next) = false.

(** The states the lazy loop over a class ends in: the shortest run
    first. *)
Fixpoint lazyStates (p : char -> bool) (pre post : str) (cp : list (nat * str))
    : list mstate :=
  MState pre post cp ::
  match post with
  | c :: post' => if p c then lazyStates p (c :: pre) post' cp else []
  | [] => []
  end.

(** A pattern that ends in another: [fold_right Cat tail l]. *)
Definition seqThen (l : list regex) (tail : regex) : regex := fold_right Cat tail l.

(** The end of both section patterns: the body and the lookahead. *)
Definition reBody : regex := seq [Capture 2 (lazyStar anything); reUntilNext].

(** The record of a release section, from the text of its heading and
    its body. *)
Definition releaseOfSection (heading body : str) : release :=
  Release (releaseVersion (trim heading))
          (option_map (group' 1) (exec reReleaseDate body))
          (cleanReleaseBody body).

End Documents.

Module SectionPatterns.
Import Documents.

(** What stands between the heading marker and the body in the two
    section patterns. *)
Definition releaseFront : list regex :=
  [Capture 1 (plus (noneOf 10)); chr 10].
Definition securityFront : list regex :=
  [Capture 1 (lazyPlus (noneOf 10)); star space; chr 10].

Definition sectionPattern (front : list regex) : regex :=
  seqThen (LineStart :: lit "##" :: plus space :: front) reBody.

(** The heading and the body a match holds are those of the section. *)
Definition holds (s : str * list str) (m : result) : Prop :=
  group' 1 m = fst s /\ group' 2 m = bodyOf (snd s).

End SectionPatterns.

Module SecuritySections.
Import Documents.

(** The record of a security section, from the trimmed texts of its
    heading and its body: the body of the loop after its first two
    statements. *)
Definition announcementOfSection (Date_parse : str -> option Z) (title body0 : str)
    : announcement :=
  let body := trim (replaceAll (reShortcode (lit_i "rss-button")) erase body0) in
  let lastUpdatedLine := exec reLastUpdated body in
  let lastUpdatedRaw := option_map (fun l => trim (group' 1 l)) lastUpdatedLine in
  let lastUpdatedISO :=
    match lastUpdatedRaw with
    | Some raw => toISODateLoose Date_parse raw
    | None => None
    end in
  let body :=
    match lastUpdatedLine with
    | Some l => trim (removeFirst (whole l) body)
    | None => body
    end in
  let pv := extractProductAndVersion title in
  let cves := extractCves (title ++ nl ++ body) in
  Announcement title lastUpdatedISO lastUpdatedRaw (fst pv) (snd pv) cves
               (cleanSecurityBody body).

(** The trimmed heading and the trimmed body a match holds are those of
    the section. *)
Definition holdsTrimmed (s : str * list str) (m : result) : Prop :=
  trim (group' 1 m) = trim (fst s) /\ trim (group' 2 m) = trim (bodyOf (snd s)).

End SecuritySections.

Module Markers.

(** Two hashes stand together somewhere in the text. *)
Definition hashFirst (s : str) : bool :=
  match s with d :: _ => N.eqb d 35 | [] => false end.

Fixpoint doubleHash (s : str) : bool :=
  match s with
  | c :: s' => (N.eqb c 35 && hashFirst s') || doubleHash s'
  | [] => false
  end.

End Markers.

Module Alphabet.

(** The code units [parseReleases] writes itself: the hash and the blank
    of a heading, the dash in front of a date, the newline, the hyphen of
    the rule between two records, the mark that replaces a callout. *)
Definition written : list char := [35%N; 32%N; 8212%N; 10%N; 45%N; 62%N].

End Alphabet.

(* ------------------------------------------------------------------ *)
(** ** Sample inputs of the further properties *)

Module Samples.
Import Documents Server.

(** Two release sections, as a heading and the lines of a body each. *)
Definition twoReleases : list (str * list str) :=
  [(js "4.45.0", [js "Fixed bugs."]); (js "4.44.0", [js "More fixes."])].

(** An advisory and the heading that closes the page. *)
Definition twoAdvisories : list (str * list str) :=
  [(js "Docker Desktop 4.44.3 security update",
    [js "_Last updated 2025-01-10_"; js "CVE-2025-9074 is fixed."]);
   (js "Older announcements", [])].

(** A page without a section. *)
Definition noSections : str :=
  js "# Release notes" ++ nl ++ js "Nothing yet." ++ nl.

Definition advisoryTitle : str := js "Docker Desktop 4.44.3 security update".

(** The first record of the spec's sample. *)
Definition firstRelease : release :=
  Release (js "4.45.0") (Some (js "2025-01-01")) (js "Fixed bugs.").

(** Three transports: the second throws in [close] before it has told
    anyone, the others close well. *)
Definition answering (id : str) (c : closeOutcome) : transport :=
  Transport id (fun _ => PostReturns) c.

Definition firstClient : transport :=
  answering (js "6f9619ff-8b86-4d01-b42d-00cf4fc964ff") CloseReturns.
Definition secondClient : transport :=
  answering (js "0b5e3c1a-52f7-4c64-9f0e-7d1a2b3c4d5e") (CloseThrows false).
Definition thirdClient : transport :=
  answering (js "c2a1d7e4-3b9f-4a58-8e6d-112233445566") (CloseThrows true).

Definition threeClients : list event :=
  [Opens firstClient Connected; Opens secondClient (ConnectThrows true);
   Opens thirdClient Connected].

End Samples.

(* ------------------------------------------------------------------ *)
(** ** Facts about the matcher *)

Module RegexFacts.

Lemma guard_in b x y : In y (guard b x) -> b = true /\ y = x.
Proof.
  destruct b; simpl; intros H; [destruct H as [H | []]; auto | destruct H].
Qed.

Lemma repeatMatcher_sound (step : mstate -> list mstate) (R : mstate -> mstate -> Prop) g :
  (forall x y, In y (step x) -> R x y) ->
  forall fuel lo hi x y,
    In y (repeatMatcher step g fuel lo hi x) -> iter R lo hi x y.
Proof.
  intros Hstep. induction fuel as [| fuel IH]; intros lo hi x y Hin; simpl in Hin.
  - destruct Hin.
  - assert (Hagain :
      In y (flat_map
              (fun y0 =>
                 if Nat.eqb lo 0 && Nat.eqb (position y0) (position x) then []
                 else repeatMatcher step g fuel (Nat.pred lo)
                        (option_map Nat.pred hi) y0)
              (step x)) ->
      hi <> Some 0 -> iter R lo hi x y).
    { intros H Hhi. apply in_flat_map in H. destruct H as [z [Hz Hy]].
      destruct (Nat.eqb lo 0 && Nat.eqb (position z) (position x)).
      - destruct Hy.
      - eapply iter_step; eauto. }
    assert (Hmain : hi <> Some 0 ->
      In y (let again := flat_map
              (fun y0 =>
                 if Nat.eqb lo 0 && Nat.eqb (position y0) (position x) then []
                 else repeatMatcher step g fuel (Nat.pred lo)
                        (option_map Nat.pred hi) y0)
              (step x) in
            if Nat.eqb lo 0 then if g then again ++ [x] else x :: again else again) ->
      iter R lo hi x y).
    { intros Hhi H. cbv zeta in H. destruct (Nat.eqb lo 0) eqn:Hlo.
      - apply Nat.eqb_eq in Hlo. destruct g.
        + apply in_app_or in H. destruct H as [H | [H | []]]; auto.
          subst. apply iter_stop. auto.
        + destruct H as [H | H]; auto. subst. apply iter_stop. auto.
      - auto. }
    destruct hi as [[| h] |].
    + destruct Hin as [Hin | []]. subst. apply iter_stop. auto.
    + apply Hmain; [discriminate | exact Hin].
    + apply Hmain; [discriminate | exact Hin].
Qed.

Theorem run_sound : forall r x y, In y (run r x) -> sem r x y.
Proof.
  induction r as [| p | r1 IH1 r2 IH2 | r1 IH1 r2 IH2 | g lo hi r IH | i r IH
                 | r IH | | | | |]; intros x y Hin; simpl in *.
  - destruct Hin as [H | []]. auto.
  - destruct (after x) as [| c rest] eqn:E; [destruct Hin |].
    destruct (p c) eqn:Ep; [| destruct Hin].
    destruct Hin as [H | []]. exists c, rest. auto.
  - apply in_flat_map in Hin. destruct Hin as [z [Hz Hy]]. eauto.
  - apply in_app_or in Hin. destruct Hin; auto.
  - eapply repeatMatcher_sound; eauto.
  - apply in_map_iff in Hin. destruct Hin as [z [Hz Hin]]. eauto.
  - destruct (run r x) as [| z l] eqn:E; [destruct Hin |].
    destruct Hin as [H | []]. exists z. split; auto. apply IH. rewrite E. left. auto.
  - apply guard_in in Hin. auto.
  - apply guard_in in Hin. auto.
  - apply guard_in in Hin. auto.
  - apply guard_in in Hin. auto.
  - apply guard_in in Hin. auto.
Qed.

Lemma ext_refl x : ext x [] x.
Proof. split; reflexivity. Qed.

Lemma ext_trans x w1 z w2 y : ext x w1 z -> ext z w2 y -> ext x (w1 ++ w2) y.
Proof.
  intros [H1 H2] [H3 H4]. split.
  - rewrite H3, H1, rev_app_distr, app_assoc. reflexivity.
  - rewrite H2, H4, app_assoc. reflexivity.
Qed.

Lemma ext_consumed x w y : ext x w y -> consumed x y = w.
Proof.
  intros [H _]. unfold consumed, position. rewrite H, length_app, length_rev.
  replace (length w + length (before x) - length (before x)) with (length (rev w))
    by (rewrite length_rev; lia).
  rewrite firstn_app, firstn_all, Nat.sub_diag. simpl. rewrite app_nil_r.
  apply rev_involutive.
Qed.

(** What [searchFrom] returns is a match of the pattern at some position
    at or after the starting one. *)
Lemma searchFrom_sound r : forall post pre m,
  searchFrom r pre post = Some m ->
  exists skipped post' y,
    post = skipped ++ post' /\
    sem r (MState (rev skipped ++ pre) post' []) y /\
    index m = length pre + length skipped /\
    whole m = consumed (MState (rev skipped ++ pre) post' []) y /\
    groups m = caps y /\ passed m = before y /\ rest m = after y.
Proof.
  induction post as [| c post IH]; intros pre m H; simpl in H.
  - destruct (run r (MState pre [] [])) as [| y l] eqn:E; [discriminate |].
    inversion H; subst; clear H. exists [], [], y. simpl.
    repeat split; auto. apply run_sound. rewrite E. left. auto.
  - destruct (run r (MState pre (c :: post) [])) as [| y l] eqn:E.
    + apply IH in H. destruct H as [sk [post' [y [Hp [Hs [Hi [Hw [Hg [Hpa Hr]]]]]]]]].
      exists (c :: sk), post', y. simpl in *. rewrite <- app_assoc. simpl.
      repeat split; auto.
      * rewrite Hp. reflexivity.
      * rewrite Hi. simpl. lia.
    + inversion H; subst; clear H. exists [], (c :: post), y. simpl.
      repeat split; auto. apply run_sound. rewrite E. left. auto.
Qed.

Lemma iter_lang (R : mstate -> mstate -> Prop) (L : str -> Prop) :
  (forall x y, R x y -> exists w, ext x w y /\ L w) ->
  forall lo hi x y, iter R lo hi x y ->
    exists ws, ext x (concat ws) y /\ Forall L ws /\
               lower lo hi <= length ws /\ within (length ws) hi.
Proof.
  intros HR lo hi x y H.
  induction H as [lo hi x Hz | lo hi x z y Hhi Hxz _ IH].
  - exists []. split; [apply ext_refl | split; [constructor | split]].
    + unfold lower. destruct Hz as [-> | ->]; simpl; [destruct hi |]; lia.
    + destruct hi; simpl; auto with arith.
  - destruct (HR _ _ Hxz) as [w1 [E1 L1]].
    destruct IH as [ws [E2 [F [Hlo Hw]]]].
    exists (w1 :: ws). split; [| split; [| split]].
    + simpl. eapply ext_trans; eauto.
    + constructor; auto.
    + unfold lower in *. destruct hi as [h |]; cbn [option_map length] in *; lia.
    + destruct hi as [[| h] |]; simpl in *; auto; [congruence | lia].
Qed.

(** A match passes over a text of the pattern's language. *)
Theorem sem_lang : forall r x y, sem r x y -> exists w, ext x w y /\ lang r w.
Proof.
  induction r as [| p | r1 IH1 r2 IH2 | r1 IH1 r2 IH2 | g lo hi r IH | i r IH
                 | r IH | | | | |]; intros x y H; simpl in H;
    try (match type of H with
         | _ /\ _ => destruct H as [_ H]
         | _ = _ => idtac
         end; subst; exists []; split; [apply ext_refl | reflexivity]).
  - destruct H as [c [rest [Ha [Hp Hy]]]]. subst. exists [c]. split.
    + split; simpl; auto.
    + exists c. auto.
  - destruct H as [z [H1 H2]]. destruct (IH1 _ _ H1) as [w1 [E1 L1]].
    destruct (IH2 _ _ H2) as [w2 [E2 L2]]. exists (w1 ++ w2). split.
    + eapply ext_trans; eauto.
    + exists w1, w2. auto.
  - destruct H as [H | H]; [destruct (IH1 _ _ H) as [w [E L]]
                           | destruct (IH2 _ _ H) as [w [E L]]];
      exists w; simpl; auto.
  - destruct (iter_lang (sem r) (lang r) IH _ _ _ _ H) as [ws [E [F [Hlo Hw]]]].
    exists (concat ws). split; auto. exists ws. auto.
  - destruct H as [z [H Hy]]. destruct (IH _ _ H) as [w [E L]]. subst.
    exists w. split; auto.
  - destruct H as [z [_ Hy]]. subst. exists []. split; [split |]; reflexivity.
Qed.

(** A capture present after a match was there before it or holds a text
    of the group it belongs to. *)
Theorem caps_sound : forall r x y, sem r x y ->
  forall i v, assoc i (caps y) = Some v ->
    assoc i (caps x) = Some v \/
    exists sub, In (i, sub) (groupsOf r) /\ lang sub v.
Proof.
  induction r as [| p | r1 IH1 r2 IH2 | r1 IH1 r2 IH2 | g lo hi r IH | j r IH
                 | r IH | | | | |]; intros x y H i v Hv; simpl in H;
    try (match type of H with
         | _ /\ _ => destruct H as [_ H]
         | _ = _ => idtac
         end; subst; auto; fail).
  - destruct H as [c [rest [_ [_ Hy]]]]. subst. auto.
  - destruct H as [z [H1 H2]].
    destruct (IH2 _ _ H2 _ _ Hv) as [Hz | [sub [Hin Hl]]].
    + destruct (IH1 _ _ H1 _ _ Hz) as [Hx | [sub [Hin Hl]]]; auto.
      right. exists sub. split; auto. simpl. apply in_or_app. auto.
    + right. exists sub. split; auto. simpl. apply in_or_app. auto.
  - destruct H as [H | H].
    + destruct (IH1 _ _ H _ _ Hv) as [Hx | [sub [Hin Hl]]]; auto.
      right. exists sub. split; auto. simpl. apply in_or_app. auto.
    + destruct (IH2 _ _ H _ _ Hv) as [Hx | [sub [Hin Hl]]]; auto.
      right. exists sub. split; auto. simpl. apply in_or_app. auto.
  - induction H as [lo hi x _ | lo hi x z y _ Hxz _ IHi]; auto.
    destruct (IHi Hv) as [Hz | Hr]; auto.
    destruct (IH _ _ Hxz _ _ Hz); auto.
  - destruct H as [z [H Hy]]. subst. simpl in Hv.
    destruct (Nat.eqb i j) eqn:Eij.
    + apply Nat.eqb_eq in Eij. subst. inversion Hv; subst. right. exists r.
      split; [left; reflexivity |].
      destruct (sem_lang _ _ _ H) as [w [E L]].
      rewrite (ext_consumed _ _ _ E). exact L.
    + destruct (IH _ _ H _ _ Hv) as [Hx | [sub [Hin Hl]]]; auto.
      right. exists sub. split; auto. right. exact Hin.
  - destruct H as [z [H Hy]]. subst. simpl in Hv.
    destruct (IH _ _ H _ _ Hv) as [Hx | [sub [Hin Hl]]]; auto.
    right. exists sub. auto.
Qed.

Lemma caps_mono : forall r x y i, sem r x y ->
  assoc i (caps x) <> None -> assoc i (caps y) <> None.
Proof.
  induction r as [| p | r1 IH1 r2 IH2 | r1 IH1 r2 IH2 | g lo hi r IH | j r IH
                 | r IH | | | | |]; intros x y i H Hx; simpl in H;
    try (match type of H with
         | _ /\ _ => destruct H as [_ H]
         | _ = _ => idtac
         end; subst; auto; fail).
  - destruct H as [c [rest [_ [_ Hy]]]]. subst. auto.
  - destruct H as [z [H1 H2]]. eauto.
  - destruct H as [H | H]; eauto.
  - induction H as [lo hi x _ | lo hi x z y _ Hxz _ IHi]; eauto.
  - destruct H as [z [H Hy]]. subst. simpl.
    destruct (Nat.eqb i j); [discriminate | eauto].
  - destruct H as [z [H Hy]]. subst. simpl. eauto.
Qed.

Theorem caps_present : forall r x y i, captures r i = true -> sem r x y ->
  assoc i (caps y) <> None.
Proof.
  induction r as [| p | r1 IH1 r2 IH2 | r1 IH1 r2 IH2 | g lo hi r IH | j r IH
                 | r IH | | | | |]; intros x y i Hc H; simpl in Hc, H;
    try discriminate.
  - destruct H as [z [H1 H2]]. apply orb_true_iff in Hc. destruct Hc as [Hc | Hc].
    + eapply caps_mono; eauto.
    + eauto.
  - apply andb_true_iff in Hc. destruct Hc. destruct H; eauto.
  - destruct H as [z [H Hy]]. subst. simpl.
    destruct (Nat.eqb i j) eqn:E; [discriminate |]. simpl in Hc. eauto.
  - destruct H as [z [H Hy]]. subst. simpl. eauto.
Qed.

Lemma flat_map_ext_in (A B : Type) (f g : A -> list B) (l : list A) :
  (forall a, In a l -> f a = g a) -> flat_map f l = flat_map g l.
Proof.
  induction l as [| a l IH]; intros H; simpl; auto.
  rewrite (H a), IH; auto; [intros; apply H; right; auto | left; auto].
Qed.

(** The repetition loop does not depend on its fuel once the fuel exceeds
    the input left plus the rounds still required: the fuel [run] hands
    over is never used up. *)
Theorem repeatMatcher_fuel (step : mstate -> list mstate) g :
  (forall x y, In y (step x) -> exists w, ext x w y) ->
  forall fuel1 fuel2 lo hi x,
    length (after x) + lo < fuel1 -> length (after x) + lo < fuel2 ->
    repeatMatcher step g fuel1 lo hi x = repeatMatcher step g fuel2 lo hi x.
Proof.
  intros Hstep. induction fuel1 as [| fuel1 IH]; intros fuel2 lo hi x H1 H2.
  - lia.
  - destruct fuel2 as [| fuel2]; [lia |]. simpl.
    assert (E : forall y, In y (step x) ->
      (if Nat.eqb lo 0 && Nat.eqb (position y) (position x) then []
       else repeatMatcher step g fuel1 (Nat.pred lo) (option_map Nat.pred hi) y) =
      (if Nat.eqb lo 0 && Nat.eqb (position y) (position x) then []
       else repeatMatcher step g fuel2 (Nat.pred lo) (option_map Nat.pred hi) y)).
    { intros y Hy. destruct (Hstep _ _ Hy) as [w [Hb Ha]].
      destruct (Nat.eqb lo 0 && Nat.eqb (position y) (position x)) eqn:Ec; auto.
      assert (Hlen : length (after x) = length w + length (after y))
        by (rewrite Ha, length_app; reflexivity).
      assert (Hpos : position y = length w + position x)
        by (unfold position; rewrite Hb, length_app, length_rev; reflexivity).
      apply andb_false_iff in Ec.
      apply IH.
      - destruct Ec as [Ec | Ec].
        + apply Nat.eqb_neq in Ec. lia.
        + apply Nat.eqb_neq in Ec. lia.
      - destruct Ec as [Ec | Ec].
        + apply Nat.eqb_neq in Ec. lia.
        + apply Nat.eqb_neq in Ec. lia. }
    rewrite (flat_map_ext_in _ _ _ _ _ E). reflexivity.
Qed.

End RegexFacts.
Module StrFacts.

Lemma eqb_eq : forall a b, Str.eqb a b = true <-> a = b.
Proof.
  induction a as [| x a IH]; destruct b as [| y b]; simpl; split; intros H;
    try discriminate; auto.
  - apply andb_true_iff in H. destruct H as [H1 H2].
    apply N.eqb_eq in H1. apply IH in H2. subst. reflexivity.
  - inversion H; subst. rewrite N.eqb_refl. simpl. apply IH. reflexivity.
Qed.

Lemma compare_refl : forall a, Str.compare a a = Eq.
Proof.
  induction a as [| x a IH]; simpl; auto. rewrite N.compare_refl. exact IH.
Qed.

Lemma compare_eq : forall a b, Str.compare a b = Eq -> a = b.
Proof.
  induction a as [| x a IH]; destruct b as [| y b]; simpl; intros H;
    try discriminate; auto.
  destruct (N.compare x y) eqn:E; try discriminate.
  apply N.compare_eq in E. subst. f_equal. auto.
Qed.

Lemma compare_antisym : forall a b, Str.compare b a = CompOpp (Str.compare a b).
Proof.
  induction a as [| x a IH]; destruct b as [| y b]; simpl; auto.
  rewrite (N.compare_antisym x y). destruct (N.compare x y); simpl; auto.
Qed.

Lemma compare_lt_trans : forall a b c,
  Str.compare a b = Lt -> Str.compare b c = Lt -> Str.compare a c = Lt.
Proof.
  induction a as [| x a IH]; destruct b as [| y b]; destruct c as [| z c];
    simpl; intros H1 H2; try discriminate; auto.
  destruct (N.compare x y) eqn:E1; try discriminate;
    destruct (N.compare y z) eqn:E2; try discriminate.
  - apply N.compare_eq in E1, E2. subst. rewrite N.compare_refl. eauto.
  - apply N.compare_eq in E1. subst. rewrite E2. reflexivity.
  - apply N.compare_eq in E2. subst. rewrite E1. reflexivity.
  - rewrite N.compare_lt_iff in E1, E2.
    assert (E : N.compare x z = Lt) by (rewrite N.compare_lt_iff; lia).
    rewrite E. reflexivity.
Qed.

Lemma leb_total : forall a b, Str.leb a b = false -> Str.leb b a = true.
Proof.
  unfold Str.leb. intros a b H. rewrite (compare_antisym a b).
  destruct (Str.compare a b); simpl; auto; discriminate.
Qed.

Lemma leb_trans : forall a b c,
  Str.leb a b = true -> Str.leb b c = true -> Str.leb a c = true.
Proof.
  unfold Str.leb. intros a b c H1 H2.
  destruct (Str.compare a b) eqn:E1; try discriminate;
    destruct (Str.compare b c) eqn:E2; try discriminate.
  - apply compare_eq in E1, E2. subst. rewrite compare_refl. reflexivity.
  - apply compare_eq in E1. subst. rewrite E2. reflexivity.
  - apply compare_eq in E2. subst. rewrite E1. reflexivity.
  - rewrite (compare_lt_trans _ _ _ E1 E2). reflexivity.
Qed.

End StrFacts.

Module SortFacts.

Section Insertion.
Variable A : Type.
Variable inOrder : A -> A -> bool.
Hypothesis total : forall a b, inOrder a b = false -> inOrder b a = true.
Hypothesis trans : forall a b c,
  inOrder a b = true -> inOrder b c = true -> inOrder a c = true.

Let R (a b : A) : Prop := inOrder a b = true.

Lemma insert_perm x l : Permutation (x :: l) (insert inOrder x l).
Proof.
  induction l as [| y l IH]; simpl; auto.
  destruct (inOrder x y); auto.
  eapply perm_trans; [apply perm_swap |]. apply perm_skip. exact IH.
Qed.

Lemma sortBy_perm l : Permutation l (sortBy inOrder l).
Proof.
  induction l as [| x l IH]; simpl; auto.
  eapply perm_trans; [apply perm_skip; exact IH | apply insert_perm].
Qed.

Lemma insert_sorted x l :
  StronglySorted R l -> StronglySorted R (insert inOrder x l).
Proof.
  induction l as [| y l IH]; intros Hs; simpl.
  - constructor; constructor.
  - inversion Hs as [| ? ? Hl Hy]; subst.
    destruct (inOrder x y) eqn:E.
    + constructor; auto. constructor; auto.
      eapply Forall_impl; [| exact Hy]. intros a Ha. unfold R in *. eauto.
    + constructor; auto.
      apply Forall_forall. intros a Ha.
      apply (Permutation_in _ (Permutation_sym (insert_perm x l))) in Ha.
      destruct Ha as [<- | Ha].
      * apply total. exact E.
      * rewrite Forall_forall in Hy. auto.
Qed.

Lemma sortBy_sorted l : StronglySorted R (sortBy inOrder l).
Proof.
  induction l as [| x l IH]; simpl; [constructor | apply insert_sorted; exact IH].
Qed.

End Insertion.

Lemma dedupInto_spec : forall l seen x,
  In x (dedupInto seen l) <-> In x l /\ ~ In x seen.
Proof.
  induction l as [| y l IH]; intros seen x; simpl.
  - tauto.
  - destruct (existsb (Str.eqb y) seen) eqn:E.
    + rewrite IH. apply existsb_exists in E. destruct E as [z [Hz Ez]].
      apply StrFacts.eqb_eq in Ez. subst z. split.
      * intros [H1 H2]. auto.
      * intros [[H1 | H1] H2]; [subst; contradiction | auto].
    + assert (Hy : ~ In y seen).
      { intros Hin. apply Bool.not_true_iff_false in E. apply E.
        apply existsb_exists. exists y. split; auto.
        apply StrFacts.eqb_eq. reflexivity. }
      simpl. rewrite IH. simpl. split.
      * intros [H | [H1 H2]]; [subst; auto | tauto].
      * intros [[H | H] H2]; [auto |].
        destruct (Str.str_eq_dec y x); [auto | right; tauto].
Qed.

Lemma dedupInto_NoDup : forall l seen, NoDup (dedupInto seen l).
Proof.
  induction l as [| y l IH]; intros seen; simpl; [constructor |].
  destruct (existsb (Str.eqb y) seen); auto.
  constructor; auto. rewrite dedupInto_spec. simpl. tauto.
Qed.

Lemma dedup_In l x : In x (dedup l) <-> In x l.
Proof. unfold dedup. rewrite dedupInto_spec. simpl. tauto. Qed.

Lemma dedup_NoDup l : NoDup (dedup l).
Proof. apply dedupInto_NoDup. Qed.

Lemma sortStrings_perm l : Permutation l (sortStrings l).
Proof. apply sortBy_perm. Qed.

Lemma sortStrings_sorted l :
  StronglySorted (fun a b => Str.leb a b = true) (sortStrings l).
Proof. apply sortBy_sorted; [apply StrFacts.leb_total | apply StrFacts.leb_trans]. Qed.

(** Sorted and without repetition is strictly ascending. *)
Lemma strictly_sorted l :
  NoDup l -> StronglySorted (fun a b => Str.leb a b = true) l ->
  StronglySorted (fun a b => Str.compare a b = Lt) l.
Proof.
  induction l as [| x l IH]; intros Hn Hs; [constructor |].
  inversion Hn; subst. inversion Hs; subst. constructor; auto.
  apply Forall_forall. intros y Hy.
  match goal with H : Forall _ l |- _ => rewrite Forall_forall in H; specialize (H y Hy) end.
  unfold Str.leb in *. destruct (Str.compare x y) eqn:E; auto; try discriminate.
  apply StrFacts.compare_eq in E. subst. contradiction.
Qed.

End SortFacts.

Module MatchFacts.
Import RegexFacts.

Lemma searchFrom_lang r pre post m :
  searchFrom r pre post = Some m -> lang r (whole m).
Proof.
  intros H. apply searchFrom_sound in H.
  destruct H as [sk [post' [y [_ [Hs [_ [Hw _]]]]]]].
  destruct (sem_lang _ _ _ Hs) as [w [E L]].
  rewrite Hw, (ext_consumed _ _ _ E). exact L.
Qed.

Lemma searchFrom_group r pre post m i v :
  searchFrom r pre post = Some m -> group i m = Some v ->
  exists sub, In (i, sub) (groupsOf r) /\ lang sub v.
Proof.
  intros H Hv. apply searchFrom_sound in H.
  destruct H as [sk [post' [y [_ [Hs [_ [_ [Hg _]]]]]]]].
  unfold group in Hv. rewrite Hg in Hv.
  destruct (caps_sound _ _ _ Hs _ _ Hv) as [Hx | Hsub]; auto.
  simpl in Hx. discriminate.
Qed.

Lemma searchFrom_present r pre post m i :
  searchFrom r pre post = Some m -> captures r i = true -> group i m <> None.
Proof.
  intros H Hc. apply searchFrom_sound in H.
  destruct H as [sk [post' [y [_ [Hs [_ [_ [Hg _]]]]]]]].
  unfold group. rewrite Hg. eapply caps_present; eauto.
Qed.

(** A group that takes part in every match holds a text of its own
    pattern. *)
Lemma searchFrom_group' r pre post m i :
  searchFrom r pre post = Some m -> captures r i = true ->
  exists sub, In (i, sub) (groupsOf r) /\ lang sub (group' i m).
Proof.
  intros H Hc. pose proof (searchFrom_present _ _ _ _ i H Hc) as Hp.
  unfold group'. destruct (group i m) as [v |] eqn:E; [| congruence].
  eapply searchFrom_group; eauto.
Qed.

Lemma matchesFrom_lang r bump : forall fuel pre post m,
  In m (matchesFrom r bump fuel pre post) -> lang r (whole m).
Proof.
  induction fuel as [| fuel IH]; intros pre post m Hin; simpl in Hin.
  - destruct Hin.
  - destruct (searchFrom r pre post) as [m0 |] eqn:E; [| destruct Hin].
    destruct Hin as [<- | Hin]; [eapply searchFrom_lang; eauto |].
    destruct (whole m0); [destruct (rest m0); [destruct bump |destruct bump] |];
      simpl in Hin; try contradiction; eauto.
Qed.

(** What a repeated class passes over. *)
Lemma lang_repeat_class g lo hi p w :
  lang (Quant g lo hi (Class p)) w ->
  Forall (fun c => p c = true) w /\ lower lo hi <= length w /\ within (length w) hi.
Proof.
  simpl. intros [ws [-> [F [Hlo Hhi]]]].
  assert (E : Forall (fun c => p c = true) (concat ws) /\ length (concat ws) = length ws).
  { clear Hlo Hhi. induction F as [| w ws [c [-> Hc]] _ [IH1 IH2]]; simpl; auto. }
  destruct E as [E1 E2]. rewrite E2. auto.
Qed.

End MatchFacts.

Module LangFacts.
Import MatchFacts.

Lemma lang_literal l : forall w, lang (seq (List.map chr l)) w -> w = l.
Proof.
  induction l as [| c l IH]; simpl; intros w H; auto.
  destruct H as [w1 [w2 [-> [[d [-> Hd]] H2]]]].
  apply N.eqb_eq in Hd. subst. simpl. f_equal. auto.
Qed.

Lemma lang_lit s w : lang (lit s) w -> w = js s.
Proof. apply lang_literal. Qed.

Lemma lang_literal_i l : forall w,
  lang (seq (List.map chr_i l)) w ->
  List.map toUpperAscii w = List.map toUpperAscii l.
Proof.
  induction l as [| c l IH]; simpl; intros w H; [subst; auto |].
  destruct H as [w1 [w2 [-> [[d [-> Hd]] H2]]]].
  apply N.eqb_eq in Hd. simpl. rewrite Hd. f_equal. auto.
Qed.

Lemma lang_lit_i s w :
  lang (lit_i s) w -> List.map toUpperAscii w = List.map toUpperAscii (js s).
Proof. apply lang_literal_i. Qed.

Lemma lang_chr c w : lang (chr c) w -> w = [c].
Proof. intros [d [-> Hd]]. apply N.eqb_eq in Hd. subst. reflexivity. Qed.

Lemma lang_times lo hi p w :
  lang (times lo hi (Class p)) w ->
  Forall (fun c => p c = true) w /\ Nat.min lo hi <= length w <= hi.
Proof.
  intros H. apply lang_repeat_class in H. simpl in H. tauto.
Qed.

Lemma lang_plus p w :
  lang (plus (Class p)) w -> Forall (fun c => p c = true) w /\ 1 <= length w.
Proof.
  intros H. apply lang_repeat_class in H. simpl in H. tauto.
Qed.

Lemma lang_star p w :
  lang (star (Class p)) w -> Forall (fun c => p c = true) w.
Proof.
  intros H. apply lang_repeat_class in H. tauto.
Qed.

Lemma forallb_Forall (p : char -> bool) w :
  Forall (fun c => p c = true) w -> forallb p w = true.
Proof. intros H. apply forallb_forall. rewrite Forall_forall in H. exact H. Qed.

Lemma length4 (w : str) : length w = 4 -> exists a b c d, w = [a; b; c; d].
Proof.
  destruct w as [| a [| b [| c [| d [| e w]]]]]; simpl; intros H; try discriminate.
  eauto.
Qed.

Lemma lang_cve w : lang reCve w -> cveShape w = true.
Proof.
  unfold reCve, seq. cbn [fold_right].
  intros [w1 [r1 [-> [H1 [w2 [r2 [-> [H2 [w3 [r3 [-> [H3 [w4 [r4 [-> [H4 H5]]]]]]]]]]]]]]]].
  simpl in H5. subst r4. rewrite app_nil_r.
  apply lang_lit_i in H1. apply lang_times in H2. apply lang_chr in H3.
  apply lang_times in H4. subst w3.
  destruct H2 as [D2 L2]. destruct H4 as [D4 L4].
  assert (E1 : length w1 = 4).
  { apply (f_equal (@length _)) in H1. rewrite !length_map in H1. exact H1. }
  destruct (length4 w1 E1) as [a [b [c [d ->]]]].
  assert (E2 : length w2 = 4) by (simpl in L2; lia).
  destruct (length4 w2 E2) as [e [f [g [h ->]]]].
  unfold cveShape. simpl firstn. simpl skipn.
  apply forallb_Forall in D2, D4. unfold allDigits.
  simpl in H1. injection H1 as Ha Hb Hc Hd.
  simpl List.map. rewrite Ha, Hb, Hc, Hd. rewrite D2, D4.
  simpl in L4. simpl.
  destruct L4 as [L4 L4']. apply Nat.leb_le in L4, L4'.
  destruct w4 as [| ? [| ? [| ? [| ? w4]]]]; simpl in *; try discriminate.
  exact L4'.
Qed.

End LangFacts.

Module DateFacts.
Import JSDate.
Local Open Scope Z_scope.

#[local] Ltac Zify.zify_post_hook ::= Z.div_mod_to_equations.

Lemma isLeap_shift y k : isLeap (y + k * 400) = isLeap y.
Proof.
  unfold isLeap.
  replace ((y + k * 400) mod 4) with (y mod 4) by (rewrite <- (Z.mod_add y (k * 100) 4); [f_equal; lia | lia]).
  replace ((y + k * 400) mod 100) with (y mod 100) by (rewrite <- (Z.mod_add y (k * 4) 100); [f_equal; lia | lia]).
  replace ((y + k * 400) mod 400) with (y mod 400) by (rewrite <- (Z.mod_add y k 400); [f_equal; lia | lia]).
  reflexivity.
Qed.

(** The fields [civil] gives are those of a date of the calendar. *)
Theorem civil_valid d :
  let '(y, m, dd) := civil d in 1 <= m <= 12 /\ 1 <= dd <= daysInMonth y m.
Proof.
  unfold civil.
  set (z := d + 719468). set (era := z / 146097). set (doe := z mod 146097).
  assert (Hdoe : 0 <= doe < 146097) by (apply Z.mod_pos_bound; lia).
  clearbody doe. clearbody era. clear z d.
  set (c := Z.min (doe / 36524) 3).
  assert (Hc : 0 <= c <= 3) by (unfold c; lia).
  set (doc := doe - c * 36524).
  assert (Hdoc : 0 <= doc <= 36524 /\ (c < 3 -> doc <= 36523)) by (unfold doc, c; lia).
  clearbody doc. clearbody c. clear Hdoe doe.
  set (q := doc / 1461).
  assert (Hq : 0 <= q <= 24) by (unfold q; lia).
  set (doq := doc - q * 1461).
  assert (Hdoq : 0 <= doq <= 1460 /\ (q = 24 -> c < 3 -> doq <= 1459)) by (unfold doq, q; lia).
  clearbody doq. clearbody q. clear Hdoc doc.
  set (yy := Z.min (doq / 365) 3).
  assert (Hyy : 0 <= yy <= 3) by (unfold yy; lia).
  set (doy := doq - yy * 365).
  assert (Hdoy : 0 <= doy <= 365 /\ (doy = 365 -> yy = 3 /\ doq = 1460)) by (unfold doy, yy; lia).
  clearbody doy. clearbody yy.
  assert (Hleap : doy = 365 -> yy = 3 /\ (q <> 24 \/ c = 3)) by lia.
  assert (Hdoy' : 0 <= doy <= 365) by lia.
  clear Hdoy Hdoq doq. rename Hdoy' into Hdoy.
  set (mp := (5 * doy + 2) / 153).
  assert (Hmp : 0 <= mp <= 11) by (unfold mp; lia).
  set (dd := doy - (153 * mp + 2) / 5 + 1).
  assert (Hmpdef : 153 * mp <= 5 * doy + 2 < 153 * mp + 153) by (unfold mp; lia).
  clearbody mp.
  set (off := (153 * mp + 2) / 5) in *.
  set (mm := if mp <? 10 then mp + 3 else mp - 9).
  assert (Hk : mp = 0 \/ mp = 1 \/ mp = 2 \/ mp = 3 \/ mp = 4 \/ mp = 5 \/ mp = 6 \/
               mp = 7 \/ mp = 8 \/ mp = 9 \/ mp = 10 \/ mp = 11) by lia.
  destruct Hk as [-> | [-> | [-> | [-> | [-> | [-> | [-> | [-> | [-> | [-> | [-> | ->]]]]]]]]]]];
    vm_compute in (value of off); vm_compute in (value of mm);
    subst off mm dd;
    cbn [Z.leb Z.compare Pos.compare Pos.compare_cont];
    unfold daysInMonth; cbn [Z.eqb Pos.eqb orb]; try (split; lia).
  split; [lia |].
  destruct (isLeap (100 * c + 4 * q + yy + era * 400 + 1)) eqn:E; [lia |].
  destruct (Z.eq_dec doy 365) as [Hd | Hd]; [exfalso | lia].
  destruct (Hleap Hd) as [-> Hqc].
  rewrite <- Z.add_assoc, (Z.add_comm (era * 400) 1), Z.add_assoc, isLeap_shift in E.
  unfold isLeap in E. 
  apply orb_false_iff in E. destruct E as [E1 E2].
  apply andb_false_iff in E1. rewrite Z.eqb_neq in E2. rewrite negb_false_iff in E1. rewrite Z.eqb_neq, Z.eqb_eq in E1.
  lia.
Qed.

End DateFacts.
Module DateRuleFacts.
Import RegexFacts MatchFacts LangFacts DateFacts.

Lemma length2 (w : str) : length w = 2 -> exists a b, w = [a; b].
Proof.
  destruct w as [| a [| b [| c w]]]; simpl; intros H; try discriminate. eauto.
Qed.

Lemma digits4 w :
  lang (times 4 4 digit) w ->
  exists a b c d, w = [a; b; c; d] /\ allDigits [a; b; c; d] = true.
Proof.
  intros H. apply lang_times in H. destruct H as [D [L1 L2]].
  simpl in L1. assert (E : length w = 4) by lia.
  destruct (length4 w E) as [a [b [c [d ->]]]]. exists a, b, c, d.
  split; auto. apply forallb_Forall. exact D.
Qed.

Lemma digits2 w :
  lang (times 2 2 digit) w ->
  exists a b, w = [a; b] /\ allDigits [a; b] = true.
Proof.
  intros H. apply lang_times in H. destruct H as [D [L1 L2]].
  simpl in L1. assert (E : length w = 2) by lia.
  destruct (length2 w E) as [a [b ->]]. exists a, b.
  split; auto. apply forallb_Forall. exact D.
Qed.

Lemma digits12 w :
  lang (times 1 2 digit) w ->
  exists a b, pad2 w = [a; b] /\ allDigits [a; b] = true.
Proof.
  intros H. apply lang_times in H. destruct H as [D [L1 L2]]. simpl in L1.
  apply forallb_Forall in D.
  destruct w as [| a [| b [| c w]]]; simpl in *; try lia.
  - exists 48%N, a. split; auto.
  - exists a, b. split; auto.
Qed.

(** Rule 1 returns a text of the shape of a date. *)
Lemma reIso_shape w : lang reIso w -> isoShape w = true.
Proof.
  unfold reIso, seq. cbn [fold_right].
  intros [b0 [r0 [-> [H0 [w1 [r1 [-> [H1 [w2 [r2 [-> [H2 [w3 [r3 [-> [H3
          [w4 [r4 [-> [H4 [w5 [r5 [-> [H5 [b1 [r6 [-> [H6 H7]]]]]]]]]]]]]]]]]]]]]]]]]]]].
  simpl in H0, H6, H7. subst b0 b1 r6.
  apply digits4 in H1. apply lang_chr in H2. apply digits2 in H3.
  apply lang_chr in H4. apply digits2 in H5.
  destruct H1 as [y1 [y2 [y3 [y4 [-> Hy]]]]]. destruct H3 as [m1 [m2 [-> Hm]]].
  destruct H5 as [d1 [d2 [-> Hd]]]. subst.
  change (allDigits ([y1; y2; y3; y4] ++ [m1; m2] ++ [d1; d2]) &&
          N.eqb 45 45 && N.eqb 45 45 = true).
  unfold allDigits in *. rewrite !forallb_app, Hy, Hm, Hd. reflexivity.
Qed.

Lemma monthTable_range k n :
  lookup k monthTable = Some n -> (1 <= n <= 12)%N.
Proof.
  unfold monthTable. simpl.
  repeat match goal with
         | |- (if ?b then _ else _) = _ -> _ => destruct b
         end; intros H; inversion H; subst; lia.
Qed.

Lemma monthToNum_cases name v :
  monthToNum name = Some v ->
  v = ObjectConstructor \/ exists n, v = MonthNumber n /\ (1 <= n <= 12)%N.
Proof.
  unfold monthToNum. destruct (lookup (toLowerCase name) monthTable) as [n |] eqn:E.
  - intros H. inversion H; subst. right. exists n. split; auto.
    eapply monthTable_range; eauto.
  - destruct (Str.eqb _ _); intros H; inversion H; auto.
Qed.

Lemma month_digits n :
  (1 <= n <= 12)%N ->
  exists a b, pad2 (ofN n) = [a; b] /\ allDigits [a; b] = true /\
              (1 <= toNum [a; b] <= 12)%Z.
Proof.
  intros H.
  assert (C : (n = 1 \/ n = 2 \/ n = 3 \/ n = 4 \/ n = 5 \/ n = 6 \/ n = 7 \/
               n = 8 \/ n = 9 \/ n = 10 \/ n = 11 \/ n = 12)%N) by lia.
  repeat (destruct C as [C | C]); subst n;
    (eexists; eexists; split;
     [vm_compute; reflexivity
     | split; [reflexivity | vm_compute; split; discriminate]]).
Qed.

Lemma allDigits_app a b : allDigits (a ++ b) = allDigits a && allDigits b.
Proof. apply forallb_app. Qed.

Lemma group_of_rule r pre post m i sub :
  searchFrom r pre post = Some m -> captures r i = true ->
  (forall sub', In (i, sub') (groupsOf r) -> sub' = sub) ->
  lang sub (group' i m).
Proof.
  intros H Hc Hu. destruct (searchFrom_group' _ _ _ _ _ H Hc) as [sub' [Hin L]].
  rewrite <- (Hu _ Hin). exact L.
Qed.

Ltac pick_group :=
  simpl; intros ? Hin;
  repeat (destruct Hin as [Hin | Hin]; [inversion Hin; subst; try reflexivity |]);
  try contradiction; try discriminate.

Lemma daysInMonth_ge y m : (28 <= JSDate.daysInMonth y m)%Z.
Proof.
  unfold JSDate.daysInMonth.
  destruct (Z.eqb m 2); [destruct (JSDate.isLeap y) |
    destruct (Z.eqb m 4 || Z.eqb m 6 || Z.eqb m 9 || Z.eqb m 11)]; lia.
Qed.

(** Rule 2: the year as written, the month of the table, the day as
    written and padded; no check of the day. *)
Lemma longRule_shape cleaned s :
  longRule cleaned = Some s ->
  (isoShape s = true /\ monthInRange s = true) \/
  (exists m, exec reLong cleaned = Some m /\
             monthToNum (group' 1 m) = Some ObjectConstructor).
Proof.
  unfold longRule. destruct (exec reLong cleaned) as [m |] eqn:E; [| discriminate].
  destruct (monthToNum (group' 1 m)) as [mm |] eqn:Em; [| discriminate].
  intros H. inversion H; subst; clear H. unfold exec in E.
  destruct (monthToNum_cases _ _ Em) as [-> | [n [-> Hn]]].
  - right. exists m. auto.
  - left.
    assert (G3 : lang (times 4 4 digit) (group' 3 m))
      by (eapply group_of_rule; [exact E | reflexivity | pick_group]).
    assert (G2 : lang (times 1 2 digit) (group' 2 m))
      by (eapply group_of_rule; [exact E | reflexivity | pick_group]).
    apply digits4 in G3. apply digits12 in G2.
    destruct G3 as [y1 [y2 [y3 [y4 [-> Hy]]]]]. destruct G2 as [d1 [d2 [-> Hd]]].
    destruct (month_digits n Hn) as [m1 [m2 [Hm [Dm Rm]]]].
    simpl monthString. rewrite Hm.
    change ([y1; y2; y3; y4] ++ dash ++ [m1; m2] ++ dash ++ [d1; d2])
      with [y1; y2; y3; y4; 45%N; m1; m2; 45%N; d1; d2].
    split.
    + change (allDigits ([y1; y2; y3; y4] ++ [m1; m2] ++ [d1; d2]) &&
              N.eqb 45 45 && N.eqb 45 45 = true).
      rewrite !allDigits_app, Hy, Dm, Hd. reflexivity.
    + unfold monthInRange.
      match goal with
      | |- context [monthOf ?l] => change (monthOf l) with (toNum [m1; m2])
      end.
      apply andb_true_iff. split; apply Z.leb_le; lia.
Qed.

(** Rule 3: a date of the calendar, the first of the month. *)
Lemma monthYearRule_shape cleaned s :
  monthYearRule cleaned = Some s ->
  validDate s = true \/
  (exists m, exec reMonthYear cleaned = Some m /\
             monthToNum (group' 1 m) = Some ObjectConstructor).
Proof.
  unfold monthYearRule.
  destruct (exec reMonthYear cleaned) as [m |] eqn:E; [| discriminate].
  destruct (monthToNum (group' 1 m)) as [mm |] eqn:Em; [| discriminate].
  intros H. inversion H; subst; clear H. unfold exec in E.
  destruct (monthToNum_cases _ _ Em) as [-> | [n [-> Hn]]].
  - right. exists m. auto.
  - left.
    assert (G2 : lang (times 4 4 digit) (group' 2 m))
      by (eapply group_of_rule; [exact E | reflexivity | pick_group]).
    apply digits4 in G2. destruct G2 as [y1 [y2 [y3 [y4 [-> Hy]]]]].
    destruct (month_digits n Hn) as [m1 [m2 [Hm [Dm Rm]]]].
    simpl monthString. rewrite Hm.
    change ([y1; y2; y3; y4] ++ dash ++ [m1; m2] ++ js "-01")
      with [y1; y2; y3; y4; 45%N; m1; m2; 45%N; 48%N; 49%N].
    unfold validDate, monthInRange.
    repeat match goal with
           | |- context [monthOf ?l] =>
               progress change (monthOf l) with (toNum [m1; m2])
           | |- context [dayOf ?l] => progress change (dayOf l) with 1%Z
           | |- context [isoShape ?l] =>
               progress change (isoShape l)
                 with (allDigits ([y1; y2; y3; y4] ++ [m1; m2] ++ [48%N; 49%N]) &&
                       N.eqb 45 45 && N.eqb 45 45)
           end.
    rewrite !allDigits_app, Hy, Dm.
    repeat (apply andb_true_iff; split); try reflexivity; apply Z.leb_le; try lia.
    match goal with
    | |- (_ <= JSDate.daysInMonth ?y ?m)%Z => pose proof (daysInMonth_ge y m); lia
    end.
Qed.

(** Rule 4 prints a date of the calendar. *)
Lemma formatUTC_fields t :
  let '(y, m, d) := JSDate.civil (JSDate.Day t) in
  formatUTC t = ofZ y ++ dash ++ pad2 (ofZ m) ++ dash ++ pad2 (ofZ d) /\
  (1 <= m <= 12)%Z /\ (1 <= d <= JSDate.daysInMonth y m)%Z.
Proof.
  pose proof (civil_valid (JSDate.Day t)) as V.
  unfold formatUTC, JSDate.getUTCFullYear, JSDate.getUTCMonth1, JSDate.getUTCDate.
  destruct (JSDate.civil (JSDate.Day t)) as [[y m] d]. simpl. tauto.
Qed.

End DateRuleFacts.
Module TrimFacts.


Lemma dropWhile_head p s :
  match dropWhile p s with c :: _ => p c = false | [] => True end.
Proof.
  induction s as [| c s IH]; simpl; auto.
  destruct (p c) eqn:E; auto.
Qed.

Lemma dropWhile_fixed p s :
  match s with c :: _ => p c = false | [] => True end -> dropWhile p s = s.
Proof. destruct s as [| c s]; simpl; auto. intros ->. reflexivity. Qed.

Lemma dropWhile_snoc p a c :
  p c = false -> dropWhile p (a ++ [c]) = dropWhile p a ++ [c].
Proof.
  intros Hc. induction a as [| x a IH]; simpl.
  - rewrite Hc. reflexivity.
  - destruct (p x); auto.
Qed.

Lemma trimStart_head s : headOK (trimStart s).
Proof. apply (dropWhile_head isSpace). Qed.

Lemma trimEnd_last s : lastOK (trimEnd s).
Proof.
  unfold lastOK, trimEnd. rewrite rev_involutive. apply (dropWhile_head isSpace).
Qed.

Lemma trimEnd_head s : headOK s -> headOK (trimEnd s).
Proof.
  destruct s as [| c s]; simpl; auto. intros Hc. unfold trimEnd. simpl.
  rewrite dropWhile_snoc by exact Hc. rewrite rev_app_distr. simpl. exact Hc.
Qed.

Lemma trim_head s : headOK (trim s).
Proof. apply trimEnd_head, trimStart_head. Qed.

Lemma trim_last s : lastOK (trim s).
Proof. apply trimEnd_last. Qed.

Lemma trim_fixed s : headOK s -> lastOK s -> trim s = s.
Proof.
  intros Hh Hl. unfold trim, trimStart, trimEnd.
  rewrite (dropWhile_fixed isSpace s Hh), (dropWhile_fixed isSpace (rev s) Hl).
  apply rev_involutive.
Qed.

Lemma trim_idem s : trim (trim s) = trim s.
Proof. apply trim_fixed; [apply trim_head | apply trim_last]. Qed.

(** White space in front of a trimmed text is no text. *)
Lemma headOK_no_space s w rest :
  headOK s -> s = w ++ rest -> Forall (fun c => isSpace c = true) w -> w = [].
Proof.
  intros Hh -> F. destruct w as [| c w]; auto.
  inversion F; subst. simpl in Hh. congruence.
Qed.

End TrimFacts.

Module VersionFacts.
Import RegexFacts MatchFacts LangFacts TrimFacts.

Lemma lang_reNum3 w : lang reNum3 w -> dottedTriple w.
Proof.
  unfold reNum3, seq. cbn [fold_right].
  intros [a [r1 [-> [Ha [d1 [r2 [-> [Hd1 [b [r3 [-> [Hb [d2 [r4 [-> [Hd2
          [c [r5 [-> [Hc He]]]]]]]]]]]]]]]]]]]].
  simpl in He. subst r5. rewrite app_nil_r.
  apply lang_plus in Ha, Hb, Hc. apply lang_chr in Hd1, Hd2. subst d1 d2.
  destruct Ha as [Da La]. destruct Hb as [Db Lb]. destruct Hc as [Dc Lc].
  exists a, b, c. repeat split.
  - intros ->. simpl in La. lia.
  - intros ->. simpl in Lb. lia.
  - intros ->. simpl in Lc. lia.
  - apply forallb_Forall. exact Da.
  - apply forallb_Forall. exact Db.
  - apply forallb_Forall. exact Dc.
Qed.

Lemma dottedTriple_nonempty s : dottedTriple s -> s <> [].
Proof.
  intros [a [b [c [-> [Ha _]]]]] E. destruct a; [congruence | discriminate].
Qed.

End VersionFacts.
Module ReplaceFacts.
Import RegexFacts MatchFacts LangFacts TrimFacts.

(** Where the pattern does not match at the current position the
    replacement keeps the character and moves on. *)
Lemma replaceFrom_miss r f fuel pre c post :
  run r (MState pre (c :: post) []) = [] ->
  replaceFrom r f fuel pre (c :: post) = c :: replaceFrom r f fuel (c :: pre) post.
Proof.
  intros Hrun. destruct fuel as [| fuel]; [reflexivity |].
  cbn [replaceFrom]. 
  assert (E : searchFrom r pre (c :: post) = searchFrom r (c :: pre) post)
    by (cbn [searchFrom]; rewrite Hrun; reflexivity).
  rewrite E. destruct (searchFrom r (c :: pre) post) as [m |] eqn:Es; [| reflexivity].
  apply searchFrom_sound in Es.
  destruct Es as [sk [post' [y [_ [_ [Hi _]]]]]].
  rewrite Hi. cbn [length].
  replace (S (length pre) + length sk - length pre) with (S (length sk)) by lia.
  replace (S (length pre) + length sk - S (length pre)) with (length sk) by lia.
  reflexivity.
Qed.

(** Where it matches, the match gives way to its replacement. *)
Lemma replaceFrom_hit r f fuel pre post y l :
  run r (MState pre post []) = y :: l ->
  replaceFrom r f (S fuel) pre post =
    f (Result (length pre) (consumed (MState pre post []) y) (caps y)
              (before y) (after y)) ++
    match consumed (MState pre post []) y, after y with
    | [], [] => []
    | [], c :: post' => c :: replaceFrom r f fuel (c :: before y) post'
    | _, post' => replaceFrom r f fuel (before y) post'
    end.
Proof.
  intros Hrun. cbn [replaceFrom].
  assert (E : searchFrom r pre post =
              Some (Result (length pre) (consumed (MState pre post []) y) (caps y)
                           (before y) (after y))).
  { destruct post; cbn [searchFrom]; rewrite Hrun; reflexivity. }
  rewrite E. cbn [index whole rest passed]. rewrite Nat.sub_diag. reflexivity.
Qed.

Lemma replaceAll_no_match r f s : exec r s = None -> replaceAll r f s = s.
Proof.
  unfold exec, replaceAll. intros H. cbn [replaceFrom]. rewrite H. reflexivity.
Qed.

End ReplaceFacts.

Module StripFacts.
Import RegexFacts MatchFacts LangFacts TrimFacts ReplaceFacts.

Lemma blank_not_terminator c : isBlank c = true -> isLineTerminator c = false.
Proof.
  unfold isBlank. intros H. apply orb_true_iff in H.
  destruct H as [H | H]; apply N.eqb_eq in H; subst; reflexivity.
Qed.

Lemma blank_is_space c : isBlank c = true -> isSpace c = true.
Proof.
  unfold isBlank. intros H. apply orb_true_iff in H.
  destruct H as [H | H]; apply N.eqb_eq in H; subst; reflexivity.
Qed.


Lemma greedy_class p : forall post pre cp fuel lo,
  length post + lo < fuel ->
  repeatMatcher (run (Class p)) true fuel lo None (MState pre post cp) =
  greedyStates p lo pre post cp.
Proof.
  induction post as [| c post IH]; intros pre cp fuel lo Hf;
    (destruct fuel as [| fuel]; [lia |]); cbn [repeatMatcher greedyStates].
  - simpl. destruct (Nat.eqb lo 0); reflexivity.
  - cbn [run after]. destruct (p c) eqn:Ep.
    + cbn [flat_map]. unfold advance. cbn [before after caps].
      assert (Hpos : Nat.eqb (position (MState (c :: pre) post cp))
                             (position (MState pre (c :: post) cp)) = false).
      { apply Nat.eqb_neq. unfold position. simpl. lia. }
      rewrite Hpos, andb_false_r, app_nil_r.
      rewrite IH by (simpl in Hf; lia).
      destruct (Nat.eqb lo 0); rewrite ?app_nil_r; reflexivity.
    + cbn [flat_map]. destruct (Nat.eqb lo 0); reflexivity.
Qed.


Lemma lineEnd_filter : forall post lo pre cp,
  flat_map (run (Cat LineEnd Empty)) (greedyStates isBlank lo pre post cp) =
  trailingMatch lo pre post cp.
Proof.
  induction post as [| c post IH]; intros lo pre cp; cbn [greedyStates trailingMatch].
  - simpl. destruct (Nat.eqb lo 0); reflexivity.
  - rewrite flat_map_app. destruct (isBlank c) eqn:Eb.
    + rewrite IH. destruct (Nat.eqb lo 0); [| apply app_nil_r].
      simpl. unfold atLineEnd. simpl. rewrite (blank_not_terminator c Eb).
      simpl. apply app_nil_r.
    + simpl. destruct (Nat.eqb lo 0); simpl; [| reflexivity].
      unfold atLineEnd. simpl. destruct (isLineTerminator c); reflexivity.
Qed.

Lemma run_reTrailing pre post cp :
  run reTrailing (MState pre post cp) = trailingMatch 1 pre post cp.
Proof.
  change (run reTrailing (MState pre post cp))
    with (flat_map (run (Cat LineEnd Empty))
            (repeatMatcher (run (Class isBlank)) true (length post + 1 + 1) 1 None
               (MState pre post cp))).
  rewrite greedy_class by lia. apply lineEnd_filter.
Qed.

Lemma atEnd_strip s : atEndStr s = true -> atEndStr (stripSpec s) = true.
Proof.
  destruct s as [| c s]; simpl; auto. intros Hc.
  destruct (isBlank c) eqn:Eb; [rewrite (blank_not_terminator c Eb) in Hc; discriminate |].
  simpl. exact Hc.
Qed.

Lemma trailingMatch_hit : forall post pre cp y l,
  trailingMatch 0 pre post cp = y :: l ->
  atEndStr (after y) = true /\ stripSpec post = stripSpec (after y).
Proof.
  induction post as [| c post IH]; intros pre cp y l H; cbn [trailingMatch] in H.
  - inversion H; subst. auto.
  - destruct (isBlank c) eqn:Eb.
    + destruct (IH _ _ _ _ H) as [He Hs]. split; auto.
      cbn [stripSpec]. rewrite Eb, Hs, (atEnd_strip _ He). reflexivity.
    + destruct (isLineTerminator c) eqn:El; simpl in H; [| discriminate].
      inversion H; subst. simpl. auto.
Qed.

Lemma trailingMatch_miss : forall post pre cp,
  trailingMatch 0 pre post cp = [] -> atEndStr (stripSpec post) = false.
Proof.
  induction post as [| c post IH]; intros pre cp H; cbn [trailingMatch] in H.
  - discriminate.
  - cbn [stripSpec]. destruct (isBlank c) eqn:Eb.
    + rewrite (IH _ _ H). simpl. apply blank_not_terminator. exact Eb.
    + simpl. destruct (isLineTerminator c); [discriminate | reflexivity].
Qed.

Lemma lang_reTrailing w : lang reTrailing w -> w <> [].
Proof.
  unfold reTrailing, seq. cbn [fold_right].
  intros [w1 [r1 [-> [H1 _]]]]. apply lang_plus in H1. destruct H1 as [_ L].
  destruct w1; simpl in *; [lia | discriminate].
Qed.

(** Replacing the pattern by nothing is [stripSpec]. *)
Theorem replace_trailing_spec : forall n post fuel pre,
  length post <= n -> length post < fuel ->
  replaceFrom reTrailing erase fuel pre post = stripSpec post.
Proof.
  induction n as [| n IH]; intros post fuel pre Hn Hf.
  - destruct post; [| simpl in Hn; lia]. destruct fuel; [lia |].
    cbn [replaceFrom searchFrom]. rewrite run_reTrailing. reflexivity.
  - destruct post as [| c post].
    + destruct fuel; [lia |]. cbn [replaceFrom searchFrom].
      rewrite run_reTrailing. reflexivity.
    + simpl in Hn, Hf.
      destruct (run reTrailing (MState pre (c :: post) [])) as [| y l] eqn:Er.
      * rewrite replaceFrom_miss by exact Er. rewrite IH by lia.
        rewrite run_reTrailing in Er. cbn [trailingMatch] in Er.
        cbn [stripSpec]. destruct (isBlank c) eqn:Eb; [| reflexivity].
        simpl in Er. rewrite (trailingMatch_miss _ _ _ Er). reflexivity.
      * destruct fuel as [| fuel]; [lia |].
        rewrite (replaceFrom_hit _ _ _ _ _ _ _ Er). unfold erase at 1. cbn [app].
        assert (Hy : In y (run reTrailing (MState pre (c :: post) [])))
          by (rewrite Er; left; reflexivity).
        apply run_sound in Hy. destruct (sem_lang _ _ _ Hy) as [w [E L]].
        rewrite (ext_consumed _ _ _ E). apply lang_reTrailing in L.
        destruct E as [_ Ea]. cbn [after] in Ea.
        assert (Hlen : length (after y) < length (c :: post)).
        { rewrite Ea, length_app. destruct w; [congruence | simpl; lia]. }
        destruct w as [| d w]; [congruence |].
        rewrite IH by (simpl in Hlen; lia).
        rewrite run_reTrailing in Er. cbn [trailingMatch] in Er.
        destruct (isBlank c) eqn:Eb; [| destruct (isLineTerminator c); discriminate].
        simpl in Er. destruct (trailingMatch_hit _ _ _ _ _ Er) as [He Hs].
        cbn [stripSpec]. rewrite Eb, Hs, (atEnd_strip _ He). reflexivity.
Qed.

Lemma strip_is_stripSpec s : replaceAll reTrailing erase s = stripSpec s.
Proof. unfold replaceAll. apply (replace_trailing_spec (length s)); lia. Qed.

End StripFacts.

Module CleanFacts.
Import RegexFacts MatchFacts LangFacts TrimFacts ReplaceFacts StripFacts.

Lemma noTrailing_fixed : forall s, noTrailing s = true -> stripSpec s = s.
Proof.
  induction s as [| c s IH]; simpl; auto. intros H.
  apply andb_true_iff in H. destruct H as [H1 H2].
  rewrite (IH H2). apply negb_true_iff in H1. rewrite H1. reflexivity.
Qed.

Lemma stripSpec_noTrailing : forall s, noTrailing (stripSpec s) = true.
Proof.
  induction s as [| c s IH]; simpl; auto.
  destruct (isBlank c && atEndStr (stripSpec s)) eqn:E; auto.
  simpl. rewrite E, IH. reflexivity.
Qed.

Lemma stripSpec_idem s : stripSpec (stripSpec s) = stripSpec s.
Proof. apply noTrailing_fixed, stripSpec_noTrailing. Qed.

Lemma noTrailing_dropWhile p : forall s,
  noTrailing s = true -> noTrailing (dropWhile p s) = true.
Proof.
  induction s as [| c s IH]; simpl; auto. intros H.
  destruct (p c); [| simpl; exact H].
  apply andb_true_iff in H. destruct H as [_ H]. auto.
Qed.

Lemma dropWhile_split p : forall s, exists w, s = w ++ dropWhile p s.
Proof.
  induction s as [| c s [w IH]]; simpl.
  - exists []. reflexivity.
  - destruct (p c); [exists (c :: w); simpl; f_equal; exact IH | exists []; reflexivity].
Qed.

Lemma trimEnd_split s : exists w, s = trimEnd s ++ w.
Proof.
  unfold trimEnd. destruct (dropWhile_split isSpace (rev s)) as [w E].
  exists (rev w). rewrite <- rev_app_distr, <- E, rev_involutive. reflexivity.
Qed.

(** A prefix that does not end in a blank keeps the property. *)
Lemma noTrailing_prefix : forall a b,
  noTrailing (a ++ b) = true -> lastOK a -> noTrailing a = true.
Proof.
  induction a as [| c a IH]; intros b H Hl; auto.
  simpl in H. apply andb_true_iff in H. destruct H as [H1 H2].
  destruct a as [| d a].
  - simpl. unfold lastOK in Hl. simpl in Hl.
    destruct (isBlank c) eqn:Eb; [| reflexivity].
    rewrite (blank_is_space c Eb) in Hl. discriminate.
  - assert (Hl' : lastOK (d :: a)).
    { unfold lastOK in *. simpl in *. 
      destruct (rev a ++ [d]) eqn:E; [destruct (rev a); discriminate |].
      simpl in Hl. exact Hl. }
    change (noTrailing (c :: d :: a)) with
      (negb (isBlank c && isLineTerminator d) && noTrailing (d :: a)).
    rewrite (IH b H2 Hl'). simpl in H1. rewrite H1. reflexivity.
Qed.

Lemma noTrailing_trim s : noTrailing s = true -> noTrailing (trim s) = true.
Proof.
  intros H. unfold trim.
  pose proof (noTrailing_dropWhile isSpace s H) as H1. fold (trimStart s) in H1.
  destruct (trimEnd_split (trimStart s)) as [w E].
  apply noTrailing_prefix with (b := w); [rewrite <- E; exact H1 | apply trimEnd_last].
Qed.

Lemma stripSpec_head s : headOK s -> headOK (stripSpec s).
Proof.
  destruct s as [| c s]; simpl; auto. intros Hc.
  destruct (isBlank c) eqn:Eb; [rewrite (blank_is_space c Eb) in Hc; discriminate |].
  simpl. exact Hc.
Qed.

Lemma stripSpec_snoc : forall a z,
  isBlank z = false -> exists r, stripSpec (a ++ [z]) = r ++ [z].
Proof.
  induction a as [| c a IH]; intros z Hz.
  - exists []. simpl. rewrite Hz. reflexivity.
  - destruct (IH z Hz) as [r E]. cbn [app stripSpec]. rewrite E.
    destruct (isBlank c && atEndStr (r ++ [z])); [exists r | exists (c :: r)]; reflexivity.
Qed.

Lemma stripSpec_last s : lastOK s -> lastOK (stripSpec s).
Proof.
  unfold lastOK. intros H. destruct (rev s) as [| z t] eqn:E.
  - apply (f_equal (@rev _)) in E. rewrite rev_involutive in E. subst. exact I.
  - apply (f_equal (@rev _)) in E. rewrite rev_involutive in E. simpl in E. subst s.
    simpl in H.
    assert (Hz : isBlank z = false).
    { destruct (isBlank z) eqn:Eb; auto. rewrite (blank_is_space z Eb) in H. discriminate. }
    destruct (stripSpec_snoc (rev t) z Hz) as [r Er]. rewrite Er.
    rewrite rev_app_distr. simpl. exact H.
Qed.

Lemma lastOK_app a b : lastOK b -> b <> [] -> lastOK (a ++ b).
Proof.
  unfold lastOK. intros H Hb. rewrite rev_app_distr.
  destruct (rev b) eqn:E; [| exact H].
  apply (f_equal (@rev _)) in E. rewrite rev_involutive in E. contradiction.
Qed.

Lemma lastOK_suffix a b : lastOK (a ++ b) -> lastOK b.
Proof.
  unfold lastOK. rewrite rev_app_distr. destruct (rev b); simpl; auto.
Qed.

Lemma lastOK_cons c s : lastOK s -> s <> [] -> lastOK (c :: s).
Proof. intros. apply (lastOK_app [c]); auto. Qed.

(** Replacing matches by the quote mark leaves no white space at the
    ends of a text that had none. *)
Lemma quote_replace_last r : forall fuel pre post,
  lastOK post ->
  lastOK (replaceFrom r quoteMark fuel pre post) /\
  (replaceFrom r quoteMark fuel pre post = [] -> post = []).
Proof.
  induction fuel as [| fuel IH]; intros pre post Hl; cbn [replaceFrom]; auto.
  destruct (searchFrom r pre post) as [m |] eqn:E; auto.
  apply searchFrom_sound in E.
  destruct E as [sk [post' [y [Hp [Hs [_ [Hw [_ [Hpa Hr]]]]]]]]].
  destruct (sem_lang _ _ _ Hs) as [w [[_ Ea] _]]. cbn [after] in Ea.
  assert (Hrest : lastOK (rest m)).
  { rewrite Hr. apply lastOK_suffix with (a := sk ++ w).
    rewrite <- app_assoc, <- Ea, <- Hp. exact Hl. }
  split.
  - apply lastOK_app; [| discriminate]. unfold quoteMark at 1.
    change (js ">") with [62%N].
    destruct (whole m) as [| d ws]; [destruct (rest m) as [| c post''] eqn:Erest |].
    + reflexivity.
    + assert (Hl'' : lastOK post'') by (apply (lastOK_suffix [c]); exact Hrest).
      destruct (IH (c :: passed m) post'' Hl'') as [I1 I2].
      apply (lastOK_app [62%N]); [| discriminate].
      destruct (replaceFrom r quoteMark fuel (c :: passed m) post'') eqn:Eo.
      * rewrite (I2 eq_refl) in Hrest. exact Hrest.
      * apply lastOK_cons; [exact I1 | discriminate].
    + destruct (IH (passed m) (rest m) Hrest) as [I1 I2].
      destruct (replaceFrom r quoteMark fuel (passed m) (rest m)) eqn:Eo.
      * reflexivity.
      * apply (lastOK_app [62%N]); [exact I1 | discriminate].
  - intros H. apply app_eq_nil in H. destruct H as [_ H]. discriminate.
Qed.

Lemma quote_replace_head r s :
  headOK s -> headOK (replaceAll r quoteMark s).
Proof.
  unfold replaceAll. intros Hh. cbn [replaceFrom].
  destruct (searchFrom r [] s) as [m |] eqn:E; auto.
  destruct (index m - length (@nil char)) eqn:Ei; cbn [firstn app].
  - reflexivity.
  - destruct s as [| c s]; cbn [firstn app]; [reflexivity | exact Hh].
Qed.

Lemma quote_replace_trimmed r s :
  headOK s -> lastOK s ->
  headOK (replaceAll r quoteMark s) /\ lastOK (replaceAll r quoteMark s).
Proof.
  intros Hh Hl. split; [apply quote_replace_head; exact Hh |].
  apply quote_replace_last. exact Hl.
Qed.

End CleanFacts.
Module FuelFacts.
Import RegexFacts MatchFacts LangFacts.

Lemma run_ext r x y : In y (run r x) -> exists w, ext x w y.
Proof.
  intros H. apply run_sound in H. destruct (sem_lang _ _ _ H) as [w [E _]]. eauto.
Qed.

(** The fuel [run] gives the repetition loop is enough: more of it
    changes nothing. *)
Theorem quantifier_fuel r g lo hi x fuel :
  length (after x) + lo < fuel ->
  repeatMatcher (run r) g fuel lo hi x = run (Quant g lo hi r) x.
Proof.
  intros H. cbn [run]. apply repeatMatcher_fuel; [apply run_ext | exact H | lia].
Qed.

(** A match lies in the text searched, after what was skipped. *)
Lemma searchFrom_split r pre post m :
  searchFrom r pre post = Some m ->
  exists sk, post = sk ++ whole m ++ rest m /\ lang r (whole m).
Proof.
  intros H. apply searchFrom_sound in H.
  destruct H as [sk [post' [y [Hp [Hs [_ [Hw [_ [_ Hr]]]]]]]]].
  destruct (sem_lang _ _ _ Hs) as [w [E L]].
  rewrite Hw, (ext_consumed _ _ _ E), Hr. destruct E as [_ E]. cbn [after] in E.
  exists sk. rewrite <- E. auto.
Qed.

Lemma rest_shorter r pre post m :
  searchFrom r pre post = Some m ->
  length (rest m) <= length post /\
  (whole m <> [] -> length (rest m) < length post).
Proof.
  intros H. destruct (searchFrom_split _ _ _ _ H) as [sk [E _]].
  rewrite E, !length_app. split; [lia |].
  intros Hw. destruct (whole m); [congruence | simpl; lia].
Qed.

(** The loops over the matches of a global pattern do not depend on
    their fuel once it exceeds the length of the text. *)
Theorem replaceFrom_fuel r f : forall fuel1 fuel2 pre post,
  length post < fuel1 -> length post < fuel2 ->
  replaceFrom r f fuel1 pre post = replaceFrom r f fuel2 pre post.
Proof.
  induction fuel1 as [| fuel1 IH]; intros fuel2 pre post H1 H2; [lia |].
  destruct fuel2 as [| fuel2]; [lia |]. cbn [replaceFrom].
  destruct (searchFrom r pre post) as [m |] eqn:E; [| reflexivity].
  destruct (rest_shorter _ _ _ _ E) as [Hle Hlt].
  f_equal. f_equal.
  destruct (whole m) as [| d w]; [destruct (rest m) as [| c post'] |].
  - reflexivity.
  - f_equal. apply IH; simpl in Hle; lia.
  - assert (length (rest m) < length post) by (apply Hlt; discriminate).
    apply IH; lia.
Qed.

Theorem matchesFrom_fuel r : forall fuel1 fuel2 pre post,
  length post < fuel1 -> length post < fuel2 ->
  matchesFrom r true fuel1 pre post = matchesFrom r true fuel2 pre post.
Proof.
  induction fuel1 as [| fuel1 IH]; intros fuel2 pre post H1 H2; [lia |].
  destruct fuel2 as [| fuel2]; [lia |]. cbn [matchesFrom].
  destruct (searchFrom r pre post) as [m |] eqn:E; [| reflexivity].
  destruct (rest_shorter _ _ _ _ E) as [Hle Hlt].
  f_equal.
  destruct (whole m) as [| d w]; [destruct (rest m) as [| c post'] |].
  - reflexivity.
  - apply IH; simpl in Hle; lia.
  - assert (length (rest m) < length post) by (apply Hlt; discriminate).
    apply IH; lia.
Qed.

(** A pattern that matches no empty text makes the bare [exec] loop
    visit the matches [String.prototype.match] lists: it never finds the
    same match twice. *)
Theorem execLoop_matchAll r :
  (forall w, lang r w -> w <> []) ->
  forall s, execLoop r s = matchAll r s.
Proof.
  intros Hne s. unfold execLoop, matchAll.
  assert (G : forall fuel pre post,
             matchesFrom r false fuel pre post = matchesFrom r true fuel pre post).
  { induction fuel as [| fuel IH]; intros pre post; [reflexivity |].
    cbn [matchesFrom]. destruct (searchFrom r pre post) as [m |] eqn:E; [| reflexivity].
    pose proof (Hne _ (searchFrom_lang _ _ _ _ E)) as Hw.
    f_equal. destruct (whole m); [congruence |]. apply IH. }
  apply G.
Qed.

Lemma section_heading_nonempty tail w :
  lang (Cat LineStart (Cat (lit "##") tail)) w -> w <> [].
Proof.
  intros [w0 [r0 [-> [H0 [w1 [r1 [-> [H1 _]]]]]]]].
  simpl in H0. subst w0. apply lang_lit in H1. subst w1. discriminate.
Qed.

Lemma reReleaseSection_nonempty w : lang reReleaseSection w -> w <> [].
Proof. apply section_heading_nonempty. Qed.

Lemma reSecuritySection_nonempty w : lang reSecuritySection w -> w <> [].
Proof. apply section_heading_nonempty. Qed.

End FuelFacts.
Module LineFacts.

Lemma splitLines_nonempty s : splitLines s <> [].
Proof.
  destruct s as [| c s]; simpl; [discriminate |].
  destruct (N.eqb c 10); [discriminate |].
  destruct (splitLines s); discriminate.
Qed.

(** The lines of two texts joined by a newline are the lines of the
    first, then those of the second. *)
Lemma splitLines_app_nl : forall a b,
  splitLines (a ++ nl ++ b) = splitLines a ++ splitLines b.
Proof.
  induction a as [| c a IH]; intros b.
  - reflexivity.
  - cbn [app splitLines]. rewrite IH. destruct (N.eqb c 10); [reflexivity |].
    destruct (splitLines a) as [| l ls] eqn:E; [| reflexivity].
    exfalso. exact (splitLines_nonempty a E).
Qed.

Lemma count_app_nl a b :
  countHeadingLines (a ++ nl ++ b) = countHeadingLines a + countHeadingLines b.
Proof.
  unfold countHeadingLines. rewrite splitLines_app_nl, filter_app, length_app.
  reflexivity.
Qed.

(** The lines that begin with the heading marker in a digest are those
    of its records: the separator adds none. *)
Lemma count_join : forall l,
  countHeadingLines (join releaseSeparator l) =
  list_sum (List.map countHeadingLines l).
Proof.
  induction l as [| x l IH]; [reflexivity |].
  destruct l as [| y l].
  - simpl. lia.
  - change (join releaseSeparator (x :: y :: l))
      with (x ++ nl ++ ([] ++ nl ++ (js "---" ++ nl ++ ([] ++ nl ++
              join releaseSeparator (y :: l))))).
    rewrite !count_app_nl, IH. cbn [List.map list_sum].
    change (countHeadingLines []) with 0. change (countHeadingLines (js "---")) with 0.
    unfold list_sum. cbn [fold_right]. lia.
Qed.

Lemma splitLines_head_prefix (p : str) : forall s : str,
  (forall c, In c p -> N.eqb c 10 = false) ->
  exists l ls, splitLines (p ++ s) = (p ++ l) :: ls.
Proof.
  induction p as [| c p IH]; intros s Hp.
  - simpl. destruct (splitLines s) as [| l ls] eqn:E;
      [exfalso; exact (splitLines_nonempty s E) | eauto].
  - cbn [app splitLines]. rewrite (Hp c (or_introl eq_refl)).
    destruct (IH s (fun d Hd => Hp d (or_intror Hd))) as [l [ls E]].
    rewrite E. eauto.
Qed.

Lemma isPrefix_app (p s : str) : isPrefix p (p ++ s) = true.
Proof.
  induction p as [| c p IH]; simpl; auto. rewrite N.eqb_refl. exact IH.
Qed.

(** The rendering of a record opens with a digest heading. *)
Lemma render_has_heading r : 1 <= countHeadingLines (renderRelease r).
Proof.
  assert (X : exists tail, renderRelease r = js "## " ++ tail).
  { unfold renderRelease. cbv zeta. rewrite <- !app_assoc. eexists. reflexivity. }
  destruct X as [tail ->].
  destruct (splitLines_head_prefix (js "## ") tail) as [l [ls E]].
  { intros c Hc. simpl in Hc. destruct Hc as [<- | [<- | [<- | []]]]; reflexivity. }
  unfold countHeadingLines. rewrite E. cbn [filter].
  unfold isHeadingLine at 1. rewrite isPrefix_app. simpl. lia.
Qed.

End LineFacts.

Module PipelineFacts.
Import RegexFacts MatchFacts LangFacts SortFacts.

Lemma cves_of_match dp m :
  cves (announcementOfMatch dp m) =
  extractCves (trim (group' 1 m) ++ nl ++ sectionBody m).
Proof. reflexivity. Qed.

Lemma extractCves_In text x :
  In x (extractCves text) <-> In x (List.map whole (matchAll reCve text)).
Proof.
  unfold extractCves. rewrite <- (dedup_In (List.map whole (matchAll reCve text)) x).
  split; intros H.
  - eapply Permutation_in; [apply Permutation_sym, sortStrings_perm | exact H].
  - eapply Permutation_in; [apply sortStrings_perm | exact H].
Qed.

Lemma extractCves_NoDup text : NoDup (extractCves text).
Proof.
  unfold extractCves.
  eapply Permutation_NoDup; [apply sortStrings_perm | apply dedup_NoDup].
Qed.

Lemma slice0_of_nat (A : Type) (k : nat) (l : list A) :
  slice0 (Z.of_nat k) l = firstn k l.
Proof.
  unfold slice0. destruct (Z.ltb_spec (Z.of_nat k) 0); [lia |].
  rewrite Nat2Z.id. reflexivity.
Qed.

Lemma newerFirst_total a b : newerFirst a b = false -> newerFirst b a = true.
Proof.
  unfold newerFirst. rewrite (StrFacts.compare_antisym (isoOf b) (isoOf a)).
  destruct (Str.compare (isoOf b) (isoOf a)); simpl; auto; discriminate.
Qed.

Lemma newerFirst_trans a b c :
  newerFirst a b = true -> newerFirst b c = true -> newerFirst a c = true.
Proof.
  intros H1 H2. pose proof (StrFacts.leb_trans (isoOf c) (isoOf b) (isoOf a)) as T.
  unfold Str.leb, newerFirst in *.
  destruct (Str.compare (isoOf b) (isoOf a)); try discriminate;
    destruct (Str.compare (isoOf c) (isoOf b)); try discriminate;
    destruct (Str.compare (isoOf c) (isoOf a)); auto.
Qed.

(** The host is asked through [Date.parse] and nowhere else: two hosts
    that answer alike where the function calls give the same result. *)
Lemma toISODateLoose_calls dp1 dp2 raw :
  (forall s, In s (dateParseCalls raw) -> dp1 s = dp2 s) ->
  toISODateLoose dp1 raw = toISODateLoose dp2 raw.
Proof.
  unfold dateParseCalls, toISODateLoose. destruct raw as [| c raw]; auto.
  cbv zeta. destruct (exec reIso (cleanDate (c :: raw))); auto.
  destruct (longRule (cleanDate (c :: raw))); auto.
  destruct (monthYearRule (cleanDate (c :: raw))); auto.
  intros H. unfold fallbackRule. rewrite (H _ (or_introl eq_refl)). reflexivity.
Qed.

(** Where the function calls, its result is made of the answer. *)
Lemma toISODateLoose_asks dp raw s :
  In s (dateParseCalls raw) -> toISODateLoose dp raw = option_map formatUTC (dp s).
Proof.
  unfold dateParseCalls, toISODateLoose. destruct raw as [| c raw]; [intros [] |].
  cbv zeta. destruct (exec reIso (cleanDate (c :: raw))); [intros [] |].
  destruct (longRule (cleanDate (c :: raw))); [intros [] |].
  destruct (monthYearRule (cleanDate (c :: raw))); [intros [] |].
  intros [<- | []]. reflexivity.
Qed.

Lemma announcementOfMatch_host dp1 dp2 m :
  (forall raw s, lastUpdatedRaw (announcementOfMatch dp1 m) = Some raw ->
                 In s (dateParseCalls raw) -> dp1 s = dp2 s) ->
  announcementOfMatch dp1 m = announcementOfMatch dp2 m.
Proof.
  intros H. unfold announcementOfMatch in *. cbv zeta in *. simpl lastUpdatedRaw in H.
  destruct (option_map _ _) as [raw |] eqn:E; [| reflexivity].
  rewrite (toISODateLoose_calls dp1 dp2 raw (fun s => H raw s eq_refl)). reflexivity.
Qed.

End PipelineFacts.

(* ------------------------------------------------------------------ *)
(** ** Facts behind the further properties *)

Module CompleteFacts.
Import RegexFacts StrFacts SortFacts MatchFacts LangFacts DateFacts
  DateRuleFacts TrimFacts VersionFacts ReplaceFacts StripFacts CleanFacts
  FuelFacts LineFacts PipelineFacts.
Import Positions.

Lemma same_refl x : same x x.
Proof. split; reflexivity. Qed.

Lemma same_position x y : same x y -> position x = position y.
Proof. intros [H _]. unfold position. rewrite H. reflexivity. Qed.

(** Membership in the result of one round of the repetition loop. *)
Lemma repeatMatcher_in step g fuel lo hi x y :
  In y (repeatMatcher step g (S fuel) lo hi x) <->
  ((lo = 0 \/ hi = Some 0) /\ y = x) \/
  (hi <> Some 0 /\
   exists z, In z (step x) /\ (lo = 0 -> position z <> position x) /\
             In y (repeatMatcher step g fuel (Nat.pred lo) (option_map Nat.pred hi) z)).
Proof.
  cbn [repeatMatcher].
  set (again := flat_map _ (step x)).
  assert (A : In y again <->
              exists z, In z (step x) /\ (lo = 0 -> position z <> position x) /\
                In y (repeatMatcher step g fuel (Nat.pred lo) (option_map Nat.pred hi) z)).
  { unfold again. rewrite in_flat_map. split.
    - intros [z [Hz Hy]]. exists z. split; auto.
      destruct (Nat.eqb lo 0) eqn:El; simpl in Hy.
      + destruct (Nat.eqb (position z) (position x)) eqn:Ep; [destruct Hy |].
        apply Nat.eqb_neq in Ep. auto.
      + apply Nat.eqb_neq in El. split; [congruence | exact Hy].
    - intros [z [Hz [Hp Hy]]]. exists z. split; auto.
      destruct (Nat.eqb lo 0) eqn:El; simpl; auto.
      apply Nat.eqb_eq in El. specialize (Hp El).
      apply Nat.eqb_neq in Hp. rewrite Hp. exact Hy. }
  assert (B : hi <> Some 0 ->
    (In y (if Nat.eqb lo 0 then if g then again ++ [x] else x :: again else again) <->
     (lo = 0 /\ y = x) \/ In y again)).
  { intros _. destruct (Nat.eqb lo 0) eqn:El.
    - apply Nat.eqb_eq in El. destruct g.
      + rewrite in_app_iff. simpl. intuition (subst; auto).
      + simpl. intuition (subst; auto).
    - apply Nat.eqb_neq in El. intuition. }
  destruct hi as [[| h] |].
  - simpl. split.
    + intros [H | []]. left. auto.
    + intros [[_ H] | [H _]]; [auto | congruence].
  - rewrite B by discriminate. rewrite A. split.
    + intros [[H1 H2] | H]; [left; auto | right; split; [discriminate | exact H]].
    + intros [[[H1 | H1] H2] | [_ H]]; [left; auto | discriminate | right; exact H].
  - rewrite B by discriminate. rewrite A. split.
    + intros [[H1 H2] | H]; [left; auto | right; split; [discriminate | exact H]].
    + intros [[[H1 | H1] H2] | [_ H]]; [left; auto | discriminate | right; exact H].
Qed.

Lemma upto_pred h1 h2 : upto h1 h2 -> upto (option_map Nat.pred h1) (option_map Nat.pred h2).
Proof. destruct h1, h2; simpl; auto; lia. Qed.

Lemma upto_pred_self h : upto (option_map Nat.pred h) h.
Proof. destruct h; simpl; auto; lia. Qed.

(** With no round required, a larger upper bound loses no result. *)
Lemma repeatMatcher_more step g : forall fuel h1 h2 x y,
  upto h1 h2 ->
  In y (repeatMatcher step g fuel 0 h1 x) -> In y (repeatMatcher step g fuel 0 h2 x).
Proof.
  induction fuel as [| fuel IH]; intros h1 h2 x y Hle Hin; [exact Hin |].
  rewrite repeatMatcher_in in *.
  destruct Hin as [[_ ->] | [Hh [z [Hz [Hp Hy]]]]]; [left; auto |].
  right. split.
  - intros ->. destruct h1 as [[| a] |]; simpl in Hle; try congruence; lia.
  - exists z. split; [exact Hz | split; [exact Hp |]].
    eapply IH; [| exact Hy]. apply upto_pred. exact Hle.
Qed.

Lemma repeatMatcher_complete step (R : mstate -> mstate -> Prop) g :
  (forall x z, R x z -> exists w, ext x w z) ->
  (forall x z, R x z -> forall x', same x x' ->
     exists z', In z' (step x') /\ same z z') ->
  forall lo hi x y, iter R lo hi x y ->
  forall x' fuel, same x x' -> length (after x') + lo < fuel ->
    exists y', In y' (repeatMatcher step g fuel lo hi x') /\ same y y'.
Proof.
  intros Hext Hstep lo hi x y H.
  induction H as [lo hi x Hz | lo hi x z y Hhi Hxz _ IH]; intros x' fuel Hs Hf.
  - destruct fuel as [| fuel]; [lia |]. exists x'. split; [| exact Hs].
    apply repeatMatcher_in. left. auto.
  - destruct fuel as [| fuel]; [lia |].
    destruct (Hstep _ _ Hxz _ Hs) as [z' [Hz' Hsz]].
    destruct (Hext _ _ Hxz) as [w [Hb Ha]].
    assert (Hlen : length (after x') = length w + length (after z')).
    { destruct Hs as [_ <-]. destruct Hsz as [_ <-]. rewrite Ha, length_app. reflexivity. }
    assert (Hpos : position z' = length w + position x').
    { rewrite <- (same_position _ _ Hs), <- (same_position _ _ Hsz).
      unfold position. rewrite Hb, length_app, length_rev. reflexivity. }
    destruct (Nat.eq_dec lo 0) as [Hlo | Hlo];
      [destruct (Nat.eq_dec (position z') (position x')) as [Hp | Hp] |].
    + (* an optional round that passes nothing: the state is the same *)
      assert (Hw : w = []) by (destruct w; [reflexivity | simpl in Hpos; lia]).
      subst w lo. simpl in Hb, Ha.
      assert (Hzx : same z x').
      { destruct Hs as [Hs1 Hs2]. split; congruence. }
      destruct (IH x' (S fuel) Hzx Hf) as [y' [Hy' Hsy]].
      exists y'. split; [| exact Hsy].
      eapply repeatMatcher_more; [apply upto_pred_self | exact Hy'].
    + subst lo.
      destruct (IH z' fuel Hsz) as [y' [Hy' Hsy]]; [simpl; lia |].
      exists y'. split; [| exact Hsy].
      apply repeatMatcher_in. right. split; [exact Hhi |].
      exists z'. auto.
    + destruct (IH z' fuel Hsz) as [y' [Hy' Hsy]]; [lia |].
      exists y'. split; [| exact Hsy].
      apply repeatMatcher_in. right. split; [exact Hhi |].
      exists z'. split; [exact Hz' | split; [intros; contradiction | exact Hy']].
Qed.

Lemma same_guard (f : mstate -> bool) x x' :
  (forall a b, same a b -> f a = f b) -> same x x' -> f x = true ->
  exists y', In y' (guard (f x') x') /\ same x y'.
Proof.
  intros Hf Hs Hx. rewrite <- (Hf _ _ Hs), Hx. exists x'. split; [left; auto | exact Hs].
Qed.

(** The matcher is complete: every way the pattern matches at a position
    is among the results of [run], at that position of the input, whatever
    captures the starting state holds. *)
Theorem run_complete : forall r x y, sem r x y ->
  forall x', same x x' -> exists y', In y' (run r x') /\ same y y'.
Proof.
  induction r as [| p | r1 IH1 r2 IH2 | r1 IH1 r2 IH2 | g lo hi r IH | i r IH
                 | r IH | | | | |]; intros x y H x' Hs; cbn [sem] in H; cbn [run].
  - subst y. exists x'. split; [left; auto | exact Hs].
  - destruct H as [c [rest [Ha [Hp ->]]]]. destruct Hs as [Hs1 Hs2].
    rewrite <- Hs2, Ha, Hp. eexists. split; [left; reflexivity |].
    split; simpl; congruence.
  - destruct H as [z [H1 H2]].
    destruct (IH1 _ _ H1 _ Hs) as [z' [Hz' Hsz]].
    destruct (IH2 _ _ H2 _ Hsz) as [y' [Hy' Hsy]].
    exists y'. split; [| exact Hsy]. apply in_flat_map. eauto.
  - destruct H as [H | H].
    + destruct (IH1 _ _ H _ Hs) as [y' [Hy' Hsy]]. exists y'. split; auto.
      apply in_or_app. auto.
    + destruct (IH2 _ _ H _ Hs) as [y' [Hy' Hsy]]. exists y'. split; auto.
      apply in_or_app. auto.
  - eapply repeatMatcher_complete; eauto; [| lia].
    intros a b Hab. destruct (sem_lang _ _ _ Hab) as [w [E _]]. eauto.
  - destruct H as [z [H ->]]. destruct (IH _ _ H _ Hs) as [z' [Hz' Hsz]].
    eexists. split; [apply in_map; exact Hz' |]. exact Hsz.
  - destruct H as [z [H ->]]. destruct (IH _ _ H _ Hs) as [z' [Hz' Hsz]].
    destruct (run r x') as [| y0 l]; [destruct Hz' |].
    eexists. split; [left; reflexivity |]. exact Hs.
  - destruct H as [H ->]. apply same_guard; auto.
    intros a b [E _]. unfold atLineStart. rewrite E. reflexivity.
  - destruct H as [H ->]. apply same_guard; auto.
    intros a b [_ E]. unfold atLineEnd. rewrite E. reflexivity.
  - destruct H as [H ->]. apply same_guard; auto.
    intros a b [E _]. unfold atInputStart. rewrite E. reflexivity.
  - destruct H as [H ->]. apply same_guard; auto.
    intros a b [_ E]. unfold atInputEnd. rewrite E. reflexivity.
  - destruct H as [H ->]. apply same_guard; auto.
    intros a b [E1 E2]. unfold atWordBoundary. rewrite E1, E2. reflexivity.
Qed.

Lemma searchFrom_unfold r pre post :
  searchFrom r pre post =
  match run r (MState pre post []) with
  | y :: _ =>
      Some (Result (length pre) (consumed (MState pre post []) y) (caps y)
                   (before y) (after y))
  | [] =>
      match post with
      | [] => None
      | c :: post' => searchFrom r (c :: pre) post'
      end
  end.
Proof. destruct post; reflexivity. Qed.

(** The search is complete and leftmost: where the pattern matches
    somewhere, a match is found, no further to the right. *)
Theorem searchFrom_complete r : forall sk pre post' y,
  sem r (MState (rev sk ++ pre) post' []) y ->
  exists m, searchFrom r pre (sk ++ post') = Some m /\
            index m <= length pre + length sk.
Proof.
  induction sk as [| c sk IH]; intros pre post' y H; rewrite searchFrom_unfold.
  - simpl in H. destruct (run_complete _ _ _ H _ (same_refl _)) as [y' [Hy' _]].
    simpl. destruct (run r (MState pre post' [])); [destruct Hy' |].
    eexists. split; [reflexivity |]. simpl. lia.
  - destruct (run r (MState pre ((c :: sk) ++ post') [])).
    + simpl in H. rewrite <- app_assoc in H. simpl in H.
      destruct (IH _ _ _ H) as [m [Hm Hi]]. exists m. split; [exact Hm |].
      simpl in *. lia.
    + eexists. split; [reflexivity |]. simpl. lia.
Qed.

(** No match found: the pattern matches nowhere. *)
Corollary searchFrom_none r pre post :
  searchFrom r pre post = None ->
  forall sk post' y, post = sk ++ post' ->
    ~ sem r (MState (rev sk ++ pre) post' []) y.
Proof.
  intros H sk post' y -> Hs.
  destruct (searchFrom_complete _ _ _ _ _ Hs) as [m [Hm _]]. congruence.
Qed.

(** A match at the start of the search is the one found, or another
    match at the same place. *)
Lemma searchFrom_here r pre post y0 :
  sem r (MState pre post []) y0 ->
  exists m y, searchFrom r pre post = Some m /\
    sem r (MState pre post []) y /\ index m = length pre /\
    whole m = consumed (MState pre post []) y /\
    groups m = caps y /\ passed m = before y /\ rest m = after y.
Proof.
  intros H. destruct (searchFrom_complete r [] pre post y0 H) as [m [Hm Hi]].
  simpl in Hm, Hi. exists m.
  destruct (searchFrom_sound _ _ _ _ Hm) as [sk [post' [y [Hp [Hs [Hix R]]]]]].
  assert (sk = []) by (destruct sk; [reflexivity | simpl in Hix; lia]).
  subst sk. simpl in *. subst post'. exists y. repeat split; try tauto. lia.
Qed.

End CompleteFacts.

Module NewlineFacts.
Import RegexFacts StrFacts SortFacts MatchFacts LangFacts DateFacts
  DateRuleFacts TrimFacts VersionFacts ReplaceFacts StripFacts CleanFacts
  FuelFacts LineFacts PipelineFacts.
Import Positions LineEndings.

Lemma run_reNewline pre post cp :
  run reNewline (MState pre post cp) =
  match post with
  | c :: rest =>
      if N.eqb 13 c
      then match rest with
           | d :: rest' =>
               if N.eqb 10 d
               then [MState (d :: c :: pre) rest' cp; MState (c :: pre) rest cp]
               else [MState (c :: pre) rest cp]
           | [] => [MState (c :: pre) [] cp]
           end
      else []
  | [] => []
  end.
Proof.
  destruct post as [| c rest]; [reflexivity |].
  unfold reNewline, seq, opt, chr. cbn [fold_right run after].
  destruct (N.eqb 13 c); [| reflexivity].
  unfold advance. cbn [flat_map before after caps]. rewrite app_nil_r.
  destruct rest as [| d rest']; [reflexivity |].
  cbn [length Nat.add repeatMatcher run after option_map Nat.pred Nat.eqb andb].
  destruct (N.eqb 10 d); [| reflexivity].
  unfold advance, position. cbn [flat_map before after caps length].
  replace (Nat.eqb (S (S (length pre))) (S (length pre))) with false
    by (symmetry; apply Nat.eqb_neq; lia).
  replace (length rest' + 0 + 1) with (S (length rest')) by lia.
  reflexivity.
Qed.

Theorem replace_newline_spec : forall n post fuel pre,
  length post <= n -> length post < fuel ->
  replaceFrom reNewline (fun _ => nl) fuel pre post = unixLines post.
Proof.
  induction n as [| n IH]; intros post fuel pre Hn Hf.
  - destruct post; [| simpl in Hn; lia]. destruct fuel; [lia |]. reflexivity.
  - destruct post as [| c post]; [destruct fuel; [lia |]; reflexivity |].
    simpl in Hn, Hf.
    pose proof (run_reNewline pre (c :: post) []) as Er. cbv beta iota in Er.
    cbn [unixLines]. destruct (N.eqb 13 c) eqn:Ec.
    + destruct fuel as [| fuel]; [lia |].
      destruct post as [| d post'].
      * rewrite (replaceFrom_hit _ _ _ _ _ _ _ Er).
        unfold consumed, position. cbn [before after length].
        replace (S (length pre) - length pre) with 1 by lia. cbn [firstn rev app].
        destruct fuel; reflexivity.
      * destruct (N.eqb 10 d) eqn:Ed.
        -- rewrite (replaceFrom_hit _ _ _ _ _ _ _ Er).
           unfold consumed, position. cbn [before after length].
           replace (S (S (length pre)) - length pre) with 2 by lia.
           cbn [firstn rev app]. unfold nl. cbn [app]. f_equal.
           apply IH; simpl in *; lia.
        -- rewrite (replaceFrom_hit _ _ _ _ _ _ _ Er).
           unfold consumed, position. cbn [before after length].
           replace (S (length pre) - length pre) with 1 by lia.
           cbn [firstn rev app]. unfold nl. cbn [app]. f_equal.
           apply IH; simpl in *; lia.
    + rewrite replaceFrom_miss by exact Er. f_equal. apply IH; lia.
Qed.

Lemma normalize_is_unixLines s : normalizeNewlines s = unixLines s.
Proof. unfold normalizeNewlines, replaceAll. apply (replace_newline_spec (length s)); lia. Qed.

Lemma unixLines_length_ind (P : str -> Prop) :
  P [] ->
  (forall c s, N.eqb 13 c = false -> P s -> P (c :: s)) ->
  (forall c, N.eqb 13 c = true -> P [c]) ->
  (forall c d s, N.eqb 13 c = true -> N.eqb 10 d = true -> P s -> P (c :: d :: s)) ->
  (forall c d s, N.eqb 13 c = true -> N.eqb 10 d = false -> P (d :: s) -> P (c :: d :: s)) ->
  forall s, P s.
Proof.
  intros H0 H1 H2 H3 H4 s.
  assert (G : forall n s, length s <= n -> P s).
  { induction n as [| n IH]; intros t Ht.
    - destruct t; [exact H0 | simpl in Ht; lia].
    - destruct t as [| c t]; [exact H0 |]. simpl in Ht.
      destruct (N.eqb 13 c) eqn:Ec.
      + destruct t as [| d t]; [apply H2; exact Ec |].
        destruct (N.eqb 10 d) eqn:Ed.
        * apply H3; auto. apply IH. simpl in Ht. lia.
        * apply H4; auto. apply IH. simpl in *. lia.
      + apply H1; auto. apply IH. lia. }
  apply (G (length s)). lia.
Qed.

Lemma unixLines_noCR s : noCR (unixLines s).
Proof.
  induction s as [| c s Hc IH | c Hc | c d s Hc Hd IH | c d s Hc Hd IH]
    using unixLines_length_ind; cbn [unixLines]; rewrite ?Hc, ?Hd.
  - constructor.
  - constructor; [| exact IH]. intros ->. discriminate.
  - constructor; [discriminate | constructor].
  - constructor; [discriminate | exact IH].
  - constructor; [discriminate | exact IH].
Qed.

Lemma unixLines_fixed s : noCR s -> unixLines s = s.
Proof.
  induction 1 as [| c s Hc _ IH]; [reflexivity |].
  cbn [unixLines]. destruct (N.eqb 13 c) eqn:E.
  - apply N.eqb_eq in E. congruence.
  - rewrite IH. reflexivity.
Qed.

Lemma unixLines_crlf_eq s : unixLines (13%N :: 10%N :: s) = 10%N :: unixLines s.
Proof. reflexivity. Qed.

Lemma unixLines_cr_eq d s :
  N.eqb 10 d = false -> unixLines (13%N :: d :: s) = 10%N :: unixLines (d :: s).
Proof. intros H. cbn [unixLines]. change (N.eqb 13 13) with true. cbv iota. rewrite H. reflexivity. Qed.

Lemma unixLines_other c s :
  c <> 13%N -> unixLines (c :: s) = c :: unixLines s.
Proof.
  intros H. cbn [unixLines]. destruct (N.eqb 13 c) eqn:E; [| reflexivity].
  apply N.eqb_eq in E. congruence.
Qed.

Lemma unixLines_crlf s : noCR s -> unixLines (crlf s) = s.
Proof.
  induction 1 as [| c s Hc _ IH]; [reflexivity |].
  unfold crlf in *. cbn [flat_map]. destruct (N.eqb 10 c) eqn:E.
  - apply N.eqb_eq in E. subst c. cbn [app]. rewrite unixLines_crlf_eq, IH. reflexivity.
  - cbn [app]. rewrite unixLines_other by exact Hc. rewrite IH. reflexivity.
Qed.

Lemma unixLines_crOnly s : noCR s -> unixLines (crOnly s) = s.
Proof.
  induction 1 as [| c s Hc Hs IH]; [reflexivity |].
  unfold crOnly in *. cbn [List.map]. destruct (N.eqb 10 c) eqn:E.
  - apply N.eqb_eq in E. subst c.
    destruct s as [| d s]; [reflexivity |]. cbn [List.map] in *.
    rewrite unixLines_cr_eq; [rewrite IH; reflexivity |].
    destruct (N.eqb 10 d) eqn:Ed; [reflexivity | exact Ed].
  - rewrite unixLines_other by exact Hc. rewrite IH. reflexivity.
Qed.

Lemma unixLines_shorter s : length (unixLines s) <= length s.
Proof.
  induction s as [| c s Hc IH | c Hc | c d s Hc Hd IH | c d s Hc Hd IH]
    using unixLines_length_ind; cbn [unixLines]; rewrite ?Hc, ?Hd;
    simpl length in *; lia.
Qed.

Lemma noCR_check s :
  forallb (fun c => negb (N.eqb c 13)) s = true -> noCR s.
Proof.
  intros H. apply Forall_forall. intros c Hc E. subst c.
  rewrite forallb_forall in H. specialize (H _ Hc). discriminate.
Qed.

End NewlineFacts.

Module InsideFacts.
Import RegexFacts StrFacts SortFacts MatchFacts LangFacts DateFacts
  DateRuleFacts TrimFacts VersionFacts ReplaceFacts StripFacts CleanFacts
  FuelFacts LineFacts PipelineFacts.
Import Positions LineEndings Texts.

Lemma ext_input x w y : ext x w y -> input y = input x.
Proof.
  intros [Hb Ha]. unfold input. rewrite Hb, Ha, rev_app_distr, rev_involutive.
  rewrite <- app_assoc. reflexivity.
Qed.

Lemma sem_input r x y : sem r x y -> input y = input x.
Proof.
  intros H. destruct (sem_lang _ _ _ H) as [w [E _]]. eapply ext_input; eauto.
Qed.

Lemma ext_occurs x w y : ext x w y -> occursIn w (input x).
Proof.
  intros [Hb Ha]. exists (rev (before x)), (after y). unfold input.
  rewrite Ha. reflexivity.
Qed.

(** A capture present after a match was there before it or is a piece
    of the input. *)
Theorem caps_inside : forall r x y, sem r x y ->
  forall i v, assoc i (caps y) = Some v ->
    assoc i (caps x) = Some v \/ occursIn v (input x).
Proof.
  induction r as [| p | r1 IH1 r2 IH2 | r1 IH1 r2 IH2 | g lo hi r IH | j r IH
                 | r IH | | | | |]; intros x y H i v Hv; simpl in H;
    try (match type of H with
         | _ /\ _ => destruct H as [_ H]
         | _ = _ => idtac
         end; subst; auto; fail).
  - destruct H as [c [rest [_ [_ Hy]]]]. subst. auto.
  - destruct H as [z [H1 H2]].
    destruct (IH2 _ _ H2 _ _ Hv) as [Hz | Ho].
    + eauto.
    + right. rewrite <- (sem_input _ _ _ H1). exact Ho.
  - destruct H as [H | H]; eauto.
  - induction H as [lo hi x _ | lo hi x z y _ Hxz _ IHi]; auto.
    destruct (IHi Hv) as [Hz | Ho].
    + eauto.
    + right. rewrite <- (sem_input _ _ _ Hxz). exact Ho.
  - destruct H as [z [H Hy]]. subst. simpl in Hv.
    destruct (Nat.eqb i j) eqn:Eij.
    + inversion Hv; subst. right.
      destruct (sem_lang _ _ _ H) as [w [E _]].
      rewrite (ext_consumed _ _ _ E). eapply ext_occurs; eauto.
    + eauto.
  - destruct H as [z [H Hy]]. subst. simpl in Hv. eauto.
Qed.

Lemma occursIn_nil s : occursIn [] s.
Proof. exists [], s. reflexivity. Qed.

Lemma occursIn_refl s : occursIn s s.
Proof. exists [], []. rewrite app_nil_r. reflexivity. Qed.

Lemma occursIn_trans a b c : occursIn a b -> occursIn b c -> occursIn a c.
Proof.
  intros [p [q ->]] [p' [q' ->]]. exists (p' ++ p), (q ++ q').
  rewrite <- !app_assoc. reflexivity.
Qed.

Lemma occursIn_Forall (P : char -> Prop) v s :
  occursIn v s -> Forall P s -> Forall P v.
Proof.
  intros [a [b ->]] F. apply Forall_app in F. destruct F as [_ F].
  apply Forall_app in F. tauto.
Qed.

Lemma occursIn_In v s c : occursIn v s -> In c v -> In c s.
Proof.
  intros [a [b ->]] H. apply in_or_app. right. apply in_or_app. auto.
Qed.

Lemma searchFrom_input r pre post m :
  searchFrom r pre post = Some m ->
  rev (passed m) ++ rest m = rev pre ++ post /\
  occursIn (whole m) (rev pre ++ post) /\
  forall i v, group i m = Some v -> occursIn v (rev pre ++ post).
Proof.
  intros H. apply searchFrom_sound in H.
  destruct H as [sk [post' [y [Hp [Hs [_ [Hw [Hg [Hpa Hr]]]]]]]]].
  assert (Hi : input (MState (rev sk ++ pre) post' []) = rev pre ++ post).
  { unfold input. cbn [before after]. rewrite rev_app_distr, rev_involutive, Hp.
    rewrite <- app_assoc. reflexivity. }
  split; [| split].
  - rewrite Hpa, Hr, <- Hi. exact (sem_input _ _ _ Hs).
  - destruct (sem_lang _ _ _ Hs) as [w [E _]].
    rewrite Hw, (ext_consumed _ _ _ E), <- Hi. eapply ext_occurs; eauto.
  - intros i v Hv. unfold group in Hv. rewrite Hg in Hv.
    destruct (caps_inside _ _ _ Hs _ _ Hv) as [Hx | Ho]; [discriminate |].
    rewrite <- Hi. exact Ho.
Qed.

Lemma exec_group_occurs r s m i : exec r s = Some m -> occursIn (group' i m) s.
Proof.
  intros H. apply searchFrom_input in H. destruct H as [_ [_ H]]. simpl in H.
  unfold group'. destruct (group i m) as [v |] eqn:E; [eauto | apply occursIn_nil].
Qed.

Lemma exec_whole_occurs r s m : exec r s = Some m -> occursIn (whole m) s.
Proof. intros H. apply searchFrom_input in H. tauto. Qed.

(** A match cuts the text in three. *)
Lemma exec_split r s m :
  exec r s = Some m -> s = firstn (index m) s ++ whole m ++ rest m.
Proof.
  intros H. unfold exec in H.
  destruct (searchFrom_sound _ _ _ _ H) as [sk [post' [y [Hp [Hs [Hi [Hw [_ [_ Hr]]]]]]]]].
  destruct (sem_lang _ _ _ Hs) as [w [E _]].
  rewrite Hw, (ext_consumed _ _ _ E), Hr, Hi. destruct E as [_ E]. cbn [after] in E.
  subst s. simpl. rewrite firstn_app, Nat.sub_diag, firstn_all. simpl.
  rewrite app_nil_r, E. reflexivity.
Qed.

Lemma matchesFrom_search r bump : forall fuel pre post m,
  In m (matchesFrom r bump fuel pre post) ->
  exists pre' post', searchFrom r pre' post' = Some m /\
                     rev pre' ++ post' = rev pre ++ post.
Proof.
  induction fuel as [| fuel IH]; intros pre post m Hin; cbn [matchesFrom] in Hin.
  - destruct Hin.
  - destruct (searchFrom r pre post) as [m0 |] eqn:E; [| destruct Hin].
    destruct Hin as [<- | Hin]; [eauto |].
    destruct (searchFrom_input _ _ _ _ E) as [Hi _].
    assert (X : forall p q, rev p ++ q = rev (passed m0) ++ rest m0 ->
                In m (matchesFrom r bump fuel p q) ->
                exists pre' post', searchFrom r pre' post' = Some m /\
                                   rev pre' ++ post' = rev pre ++ post).
    { intros p q Hpq Hm. destruct (IH _ _ _ Hm) as [pre' [post' [Hs He]]].
      exists pre', post'. split; [exact Hs | congruence]. }
    destruct (whole m0); [destruct (rest m0) as [| c post1] eqn:Er |].
    + destruct bump; [destruct Hin |]. eapply X; [| exact Hin]. reflexivity.
    + destruct bump; (eapply X; [| exact Hin]); [| reflexivity].
      simpl. rewrite <- app_assoc. reflexivity.
    + eapply X; [| exact Hin]. reflexivity.
Qed.

Lemma matchAll_occurs r s m i :
  In m (matchAll r s) -> occursIn (whole m) s /\ occursIn (group' i m) s.
Proof.
  intros H. destruct (matchesFrom_search _ _ _ _ _ _ H) as [pre' [post' [Hs He]]].
  simpl in He. destruct (searchFrom_input _ _ _ _ Hs) as [_ [Hw Hg]].
  rewrite He in *. split; [exact Hw |].
  unfold group'. destruct (group i m) as [v |] eqn:E; [eauto | apply occursIn_nil].
Qed.

Lemma execLoop_occurs r s m i :
  In m (execLoop r s) -> occursIn (whole m) s /\ occursIn (group' i m) s.
Proof.
  intros H. destruct (matchesFrom_search _ _ _ _ _ _ H) as [pre' [post' [Hs He]]].
  simpl in He. destruct (searchFrom_input _ _ _ _ Hs) as [_ [Hw Hg]].
  rewrite He in *. split; [exact Hw |].
  unfold group'. destruct (group i m) as [v |] eqn:E; [eauto | apply occursIn_nil].
Qed.

Lemma lang_avoids c : forall r w, avoids c r = true -> lang r w -> ~ In c w.
Proof.
  induction r as [| p | r1 IH1 r2 IH2 | r1 IH1 r2 IH2 | g lo hi r IH | i r IH
                 | r IH | | | | |]; intros w Ha L; simpl in Ha, L;
    try (subst; intros []; fail).
  - destruct L as [d [-> Hd]]. intros [<- | []].
    rewrite Hd in Ha. discriminate.
  - apply andb_true_iff in Ha. destruct Ha as [A1 A2].
    destruct L as [w1 [w2 [-> [L1 L2]]]]. intros H. apply in_app_or in H.
    destruct H; [eapply IH1 | eapply IH2]; eauto.
  - apply andb_true_iff in Ha. destruct Ha as [A1 A2].
    destruct L; [eapply IH1 | eapply IH2]; eauto.
  - destruct L as [ws [-> [F _]]]. intros H. apply in_concat in H.
    destruct H as [w0 [H0 H1]]. rewrite Forall_forall in F.
    exact (IH _ Ha (F _ H0) H1).
  - eauto.
Qed.

Lemma oneLine_app a b : oneLine (a ++ b) <-> oneLine a /\ oneLine b.
Proof. apply Forall_app. Qed.

Lemma oneLine_avoids r w : avoids 10 r = true -> lang r w -> oneLine w.
Proof.
  intros Ha L. apply Forall_forall. intros c Hc ->. exact (lang_avoids _ _ _ Ha L Hc).
Qed.

Lemma dropWhile_occurs p s : occursIn (dropWhile p s) s.
Proof.
  induction s as [| c s IH]; simpl; [apply occursIn_nil |].
  destruct (p c); [| apply occursIn_refl].
  destruct IH as [a [b E]]. exists (c :: a), b. simpl. congruence.
Qed.

Lemma occursIn_rev v s : occursIn v s -> occursIn (rev v) (rev s).
Proof.
  intros [a [b ->]]. exists (rev b), (rev a). rewrite !rev_app_distr, app_assoc.
  reflexivity.
Qed.

Lemma trim_occurs s : occursIn (trim s) s.
Proof.
  unfold trim, trimEnd, trimStart.
  eapply occursIn_trans; [| apply dropWhile_occurs].
  rewrite <- (rev_involutive (dropWhile isSpace s)) at 2.
  apply occursIn_rev, dropWhile_occurs.
Qed.

Lemma trim_oneLine s : oneLine s -> oneLine (trim s).
Proof. apply occursIn_Forall, trim_occurs. Qed.

End InsideFacts.

Module IndentFacts.
Import RegexFacts StrFacts SortFacts MatchFacts LangFacts DateFacts
  DateRuleFacts TrimFacts VersionFacts ReplaceFacts StripFacts CleanFacts
  FuelFacts LineFacts PipelineFacts.
Import Positions LineEndings Texts DigestLines.
Import InsideFacts.

Lemma splitLines_cons_nl s : splitLines (10%N :: s) = [] :: splitLines s.
Proof. reflexivity. Qed.

Lemma splitLines_cons c s :
  c <> 10%N ->
  splitLines (c :: s) = (c :: hd [] (splitLines s)) :: tl (splitLines s).
Proof.
  intros Hc. cbn [splitLines]. destruct (N.eqb c 10) eqn:E.
  - apply N.eqb_eq in E. congruence.
  - destruct (splitLines s) eqn:Es; [| reflexivity].
    exfalso. exact (splitLines_nonempty s Es).
Qed.

Lemma splitLines_each s : Forall oneLine (splitLines s).
Proof.
  induction s as [| c s IH]; [repeat constructor |].
  destruct (N.eq_dec c 10) as [-> | Hc].
  - rewrite splitLines_cons_nl. constructor; [constructor | exact IH].
  - rewrite splitLines_cons by exact Hc.
    destruct (splitLines s) as [| l ls]; simpl.
    + repeat constructor. exact Hc.
    + inversion IH; subst. constructor; auto. constructor; auto.
Qed.

Lemma splitLines_single s : oneLine s -> splitLines s = [s].
Proof.
  induction 1 as [| c s Hc _ IH]; [reflexivity |].
  rewrite splitLines_cons by exact Hc. rewrite IH. reflexivity.
Qed.

(** Splitting at the newlines and joining with newlines are inverse. *)
Lemma join_splitLines s : join nl (splitLines s) = s.
Proof.
  induction s as [| c s IH]; [reflexivity |].
  destruct (N.eq_dec c 10) as [-> | Hc].
  - rewrite splitLines_cons_nl. cbn [join].
    destruct (splitLines s) as [| l ls] eqn:E;
      [exfalso; exact (splitLines_nonempty s E) |].
    rewrite IH. reflexivity.
  - rewrite splitLines_cons by exact Hc.
    destruct (splitLines s) as [| l ls] eqn:E;
      [exfalso; exact (splitLines_nonempty s E) |].
    cbn [hd tl]. rewrite <- IH. destruct ls; reflexivity.
Qed.

Lemma join_cons (sep x y : str) l :
  join sep (x :: y :: l) = x ++ sep ++ join sep (y :: l).
Proof. reflexivity. Qed.

Lemma splitLines_join : forall ls,
  ls <> [] -> Forall oneLine ls -> splitLines (join nl ls) = ls.
Proof.
  induction ls as [| l ls IH]; intros Hne F; [congruence |].
  inversion F; subst. destruct ls as [| l' ls].
  - simpl. apply splitLines_single. assumption.
  - rewrite join_cons, splitLines_app_nl, IH by (auto; discriminate).
    rewrite splitLines_single by assumption. reflexivity.
Qed.

Lemma count_nil : countHeadingLines [] = 0.
Proof. reflexivity. Qed.

Lemma count_join_nl : forall l,
  countHeadingLines (join nl l) = list_sum (List.map countHeadingLines l).
Proof.
  induction l as [| x l IH]; [reflexivity |].
  destruct l as [| y l].
  - simpl. lia.
  - rewrite join_cons, count_app_nl, IH. reflexivity.
Qed.

Lemma padLine_oneLine l : oneLine l -> oneLine (padLine l).
Proof.
  intros H. destruct l; [exact H |]. unfold padLine.
  apply oneLine_app. split; [| exact H]. repeat constructor; discriminate.
Qed.

Lemma indent_lines text :
  indent text = join nl (List.map padLine (splitLines text)).
Proof. reflexivity. Qed.

(** The lines of an indented text are the lines of the text, each
    padded. *)
Lemma splitLines_indent text :
  splitLines (indent text) = List.map padLine (splitLines text).
Proof.
  rewrite indent_lines. apply splitLines_join.
  - destruct (splitLines text) eqn:E; [exfalso; exact (splitLines_nonempty _ E) |].
    discriminate.
  - apply Forall_map. eapply Forall_impl; [| apply splitLines_each].
    intros l. apply padLine_oneLine.
Qed.

Lemma padLine_no_heading l : isHeadingLine (padLine l) = false.
Proof. destruct l; reflexivity. Qed.

Lemma count_indent text : countHeadingLines (indent text) = 0.
Proof.
  unfold countHeadingLines. rewrite splitLines_indent.
  induction (splitLines text) as [| l ls IH]; [reflexivity |].
  cbn [List.map filter]. rewrite padLine_no_heading. exact IH.
Qed.

Lemma count_oneLine s :
  oneLine s -> countHeadingLines s = if isHeadingLine s then 1 else 0.
Proof.
  intros H. unfold countHeadingLines. rewrite splitLines_single by exact H.
  simpl. destruct (isHeadingLine s); reflexivity.
Qed.

End IndentFacts.

Module SecurityDigestFacts.
Import RegexFacts StrFacts SortFacts MatchFacts LangFacts DateFacts
  DateRuleFacts TrimFacts VersionFacts ReplaceFacts StripFacts CleanFacts
  FuelFacts LineFacts PipelineFacts.
Import Positions LineEndings Texts DigestLines.
Import InsideFacts IndentFacts.

Lemma oneLine_digits s : allDigits s = true -> oneLine s.
Proof.
  unfold allDigits. intros H. apply Forall_forall. intros c Hc ->.
  rewrite forallb_forall in H. specialize (H _ Hc). discriminate.
Qed.

Lemma digitsOf_digits u : allDigits (digitsOf u) = true.
Proof. induction u; simpl; auto. Qed.

Lemma ofN_oneLine n : oneLine (ofN n).
Proof. apply oneLine_digits, digitsOf_digits. Qed.

Lemma ofZ_oneLine z : oneLine (ofZ z).
Proof.
  destruct z; simpl; try apply ofN_oneLine.
  constructor; [discriminate | apply ofN_oneLine].
Qed.

Lemma pad2_oneLine s : oneLine s -> oneLine (pad2 s).
Proof.
  intros H. unfold pad2, padStart0. apply oneLine_app. split; [| exact H].
  apply Forall_forall. intros c Hc. apply repeat_spec in Hc. subst. discriminate.
Qed.

Lemma oneLine_js_check s : forallb (fun c => negb (N.eqb c 10)) s = true -> oneLine s.
Proof.
  intros H. apply Forall_forall. intros c Hc ->.
  rewrite forallb_forall in H. specialize (H _ Hc). discriminate.
Qed.

Lemma monthString_oneLine v : oneLine (monthString v).
Proof.
  destruct v; [apply ofN_oneLine |]. apply oneLine_js_check. reflexivity.
Qed.

Ltac one_line :=
  repeat first
    [ assumption
    | apply pad2_oneLine
    | apply ofZ_oneLine
    | apply monthString_oneLine
    | solve [apply oneLine_js_check; reflexivity]
    | solve [eapply oneLine_avoids; [| eassumption]; reflexivity]
    | apply oneLine_app; split
    | apply Forall_cons; [discriminate |] ].

Lemma formatUTC_oneLine t : oneLine (formatUTC t).
Proof. unfold formatUTC. one_line. Qed.

(** Whatever the text and the host, a date the normalizer returns is one
    line. *)
Lemma toISODateLoose_oneLine dp raw s :
  toISODateLoose dp raw = Some s -> oneLine s.
Proof.
  unfold toISODateLoose. destruct raw as [| c0 raw0]; [discriminate |].
  cbv zeta. set (cleaned := cleanDate (c0 :: raw0)).
  destruct (exec reIso cleaned) as [iso |] eqn:Ei.
  - intros H. inversion H; subst. unfold exec in Ei.
    apply searchFrom_lang in Ei. eapply oneLine_avoids; [| exact Ei]. reflexivity.
  - destruct (longRule cleaned) as [d |] eqn:El.
    + intros H. inversion H; subst. unfold longRule in El.
      destruct (exec reLong cleaned) as [m |] eqn:E; [| discriminate].
      destruct (monthToNum (group' 1 m)) as [mm |]; [| discriminate].
      inversion El; subst. unfold exec in E.
      assert (G3 : lang (times 4 4 digit) (group' 3 m))
        by (eapply group_of_rule; [exact E | reflexivity | pick_group]).
      assert (G2 : lang (times 1 2 digit) (group' 2 m))
        by (eapply group_of_rule; [exact E | reflexivity | pick_group]).
      one_line.
    + destruct (monthYearRule cleaned) as [d |] eqn:Em.
      * intros H. inversion H; subst. unfold monthYearRule in Em.
        destruct (exec reMonthYear cleaned) as [m |] eqn:E; [| discriminate].
        destruct (monthToNum (group' 1 m)) as [mm |]; [| discriminate].
        inversion Em; subst. unfold exec in E.
        assert (G2 : lang (times 4 4 digit) (group' 2 m))
          by (eapply group_of_rule; [exact E | reflexivity | pick_group]).
        one_line.
      * unfold fallbackRule. destruct (dp cleaned); [| discriminate].
        intros H. inversion H; subst. apply formatUTC_oneLine.
Qed.

(** The end-anchored pattern leaves nothing after its match. *)
Lemma trailingPunct_rest s m : exec reTrailingPunct s = Some m -> rest m = [].
Proof.
  intros H. unfold exec in H. apply searchFrom_sound in H.
  destruct H as [sk [post' [y [_ [Hs [_ [_ [_ [_ Hr]]]]]]]]].
  unfold reTrailingPunct, seq in Hs. cbn [fold_right sem] in Hs.
  destruct Hs as [z [_ [z' [[He ->] ->]]]].
  unfold atInputEnd in He. rewrite Hr. destruct (after z); [reflexivity | discriminate].
Qed.

Lemma strip_punct_occurs s : occursIn (replaceFirst reTrailingPunct erase s) s.
Proof.
  unfold replaceFirst. destruct (exec reTrailingPunct s) as [m |] eqn:E;
    [| apply occursIn_refl].
  rewrite (trailingPunct_rest _ _ E). unfold erase. simpl. rewrite app_nil_r.
  exists [], (skipn (index m) s). simpl. symmetry. apply firstn_skipn.
Qed.

(** Product and version are pieces of the title. *)
Lemma product_occurs title p :
  fst (extractProductAndVersion title) = Some p -> occursIn p title.
Proof.
  unfold extractProductAndVersion.
  destruct (exec reDockerVersion title) as [m |] eqn:E1.
  - cbn [fst snd]. intros H. inversion H; subst.
    eapply occursIn_trans; [apply trim_occurs | eapply exec_group_occurs; eauto].
  - destruct (exec reAnyVersion title) as [m2 |] eqn:E2.
    + cbn [fst snd]. unfold orNull.
      destruct (trim (replaceFirst reTrailingPunct erase (trim (group' 1 m2))))
        as [| c t] eqn:Et; [discriminate |].
      intros H. inversion H; subst. rewrite <- Et.
      eapply occursIn_trans; [apply trim_occurs |].
      eapply occursIn_trans; [apply strip_punct_occurs |].
      eapply occursIn_trans; [apply trim_occurs | eapply exec_group_occurs; eauto].
    + destruct (exec reDockerWords title) as [m3 |] eqn:E3; [| discriminate].
      cbn [fst snd]. intros H. inversion H; subst.
      eapply occursIn_trans; [apply trim_occurs | eapply exec_group_occurs; eauto].
Qed.

Lemma version_occurs title v :
  snd (extractProductAndVersion title) = Some v ->
  occursIn v title /\ lang reNum23 v.
Proof.
  unfold extractProductAndVersion.
  destruct (exec reDockerVersion title) as [m |] eqn:E1.
  - cbn [fst snd]. intros H. inversion H; subst. split; [eapply exec_group_occurs; eauto |].
    unfold exec in E1. eapply group_of_rule; [exact E1 | reflexivity | pick_group].
  - destruct (exec reAnyVersion title) as [m2 |] eqn:E2.
    + cbn [fst snd]. intros H. inversion H; subst. split; [eapply exec_group_occurs; eauto |].
      unfold exec in E2. eapply group_of_rule; [exact E2 | reflexivity | pick_group].
    + destruct (exec reDockerWords title); discriminate.
Qed.

Lemma oneLine_option_occurs (o : option str) s :
  (forall v, o = Some v -> occursIn v s) -> oneLine s ->
  oneLine (match o with Some v => v | None => [] end).
Proof.
  intros H Hs. destruct o as [v |]; [| constructor].
  eapply occursIn_Forall; [apply H; reflexivity | exact Hs].
Qed.

Lemma cves_oneLine text x : In x (extractCves text) -> oneLine x.
Proof.
  intros H. apply extractCves_In in H. apply in_map_iff in H.
  destruct H as [m [<- Hm]]. apply matchesFrom_lang in Hm.
  eapply oneLine_avoids; [| exact Hm]. reflexivity.
Qed.

Lemma join_oneLine sep : forall l,
  oneLine sep -> Forall oneLine l -> oneLine (join sep l).
Proof.
  induction l as [| x l IH]; intros Hs F; [constructor |].
  inversion F; subst. destruct l as [| y l]; [assumption |].
  rewrite join_cons. repeat (apply oneLine_app; split); auto.
Qed.

Lemma announcementOfMatch_tidy dp src m :
  In m (execLoop reSecuritySection src) -> tidy (announcementOfMatch dp m).
Proof.
  intros Hm. destruct (matchesFrom_search _ _ _ _ _ _ Hm) as [pre' [post' [Hs _]]].
  assert (T : oneLine (trim (group' 1 m))).
  { apply trim_oneLine.
    assert (G : lang (lazyPlus (noneOf 10)) (group' 1 m))
      by (eapply group_of_rule; [exact Hs | reflexivity | pick_group]).
    eapply oneLine_avoids; [| exact G]. reflexivity. }
  unfold tidy, announcementOfMatch. cbv zeta.
  cbn [title isoOf lastUpdatedISO product version' cves].
  split; [exact T | split; [| split; [| split]]].
  - destruct (option_map _ (exec reLastUpdated _)) as [raw |]; [| constructor].
    destruct (toISODateLoose dp raw) as [d |] eqn:Ed; [| constructor].
    eapply toISODateLoose_oneLine; eauto.
  - apply oneLine_option_occurs with (s := trim (group' 1 m)); [| exact T].
    intros v. apply product_occurs.
  - apply oneLine_option_occurs with (s := trim (group' 1 m)); [| exact T].
    intros v Hv. apply version_occurs in Hv. tauto.
  - apply Forall_forall. intros x. apply cves_oneLine.
Qed.

Lemma isHeading_js_app s t : isHeadingLine (js "## " ++ s ++ t) = true.
Proof. apply isPrefix_app. Qed.

Lemma header_count (t suffix : str) :
  oneLine t -> oneLine suffix ->
  countHeadingLines (nl ++ js "## " ++ t ++ suffix) = 1.
Proof.
  intros Ht Hs.
  change (nl ++ js "## " ++ t ++ suffix) with ([] ++ nl ++ (js "## " ++ t ++ suffix)).
  rewrite count_app_nl, count_nil, count_oneLine.
  - rewrite isHeading_js_app. reflexivity.
  - one_line.
Qed.

Lemma list_sum_cons x l : list_sum (x :: l) = x + list_sum l.
Proof. reflexivity. Qed.

Lemma bits_count : forall bits,
  Forall oneLine bits ->
  countHeadingLines (join nl (List.map (fun s => js "- " ++ s) bits)) = 0.
Proof.
  intros bits F. rewrite count_join_nl.
  induction F as [| b bits Hb _ IH]; [reflexivity |].
  cbn [List.map]. rewrite list_sum_cons, IH, count_oneLine.
  - reflexivity.
  - one_line.
Qed.

(** The lines of one tidy record hold one digest heading. *)
Lemma announcementLines_count a :
  tidy a ->
  list_sum (List.map countHeadingLines (announcementLines a)) = 1.
Proof.
  intros [Ht [Hi [Hp [Hv Hc]]]]. unfold announcementLines. cbv zeta.
  match goal with
  | |- context [List.map (fun s => js "- " ++ s) ?b] => set (bits := b)
  end.
  rewrite !map_app, !list_sum_app. cbn [List.map]. rewrite !list_sum_cons.
  change (list_sum []) with 0.
  rewrite count_indent.
  change (countHeadingLines (js "Details:")) with 0.
  rewrite header_count; [| exact Ht | destruct (dated a); one_line; constructor].
  destruct (truthy (product a) || truthy (version' a) ||
            negb (Nat.eqb (length (cves a)) 0)); cbn [List.map];
    rewrite ?list_sum_cons; change (list_sum []) with 0; [| lia].
  rewrite bits_count; [lia |]. unfold bits.
  apply Forall_app; split; [| apply Forall_app; split].
  - destruct (truthy (product a)); [| constructor].
    apply Forall_cons; [| constructor].
    apply oneLine_app. split; [one_line | exact Hp].
  - destruct (truthy (version' a)); [| constructor].
    apply Forall_cons; [| constructor].
    apply oneLine_app. split; [one_line | exact Hv].
  - destruct (cves a) as [| x xs]; [constructor |].
    apply Forall_cons; [| constructor].
    apply oneLine_app. split; [one_line |].
    apply join_oneLine; [one_line | exact Hc].
Qed.

Lemma list_sum_flat_map (A : Type) (f : A -> list nat) l :
  list_sum (flat_map f l) = list_sum (List.map (fun a => list_sum (f a)) l).
Proof.
  induction l as [| a l IH]; [reflexivity |].
  cbn [flat_map List.map list_sum]. rewrite list_sum_app, IH. reflexivity.
Qed.

Lemma format_count (anns : list announcement) :
  Forall tidy anns ->
  countHeadingLines (formatAnnouncementsForLLM anns) = length anns.
Proof.
  intros F. unfold formatAnnouncementsForLLM. rewrite count_join_nl.
  induction F as [| a anns Ha _ IH]; [reflexivity |].
  cbn [flat_map]. rewrite map_app, list_sum_app, IH, announcementLines_count by exact Ha.
  reflexivity.
Qed.

Lemma firstn_In (A : Type) k (l : list A) x : In x (firstn k l) -> In x l.
Proof.
  intros H. rewrite <- (firstn_skipn k l). apply in_or_app. auto.
Qed.

Lemma slice0_incl (A : Type) n (l : list A) x : In x (slice0 n l) -> In x l.
Proof.
  unfold slice0. destruct (Z.ltb n 0); intros H; eapply firstn_In; eauto.
Qed.

Lemma rank_incl blocks a : In a (rankAnnouncements blocks) -> In a blocks.
Proof.
  unfold rankAnnouncements. intros H. apply in_app_or in H. destruct H as [H | H].
  - apply (Permutation_in _ (Permutation_sym (SortFacts.sortBy_perm _ newerFirst _))) in H.
    apply filter_In in H. tauto.
  - apply filter_In in H. tauto.
Qed.

Lemma selected_tidy dp src limit :
  Forall tidy (slice0 limit (rankAnnouncements (announcementBlocks dp src))).
Proof.
  apply Forall_forall. intros a Ha. apply slice0_incl, rank_incl in Ha.
  unfold announcementBlocks in Ha. apply in_map_iff in Ha.
  destruct Ha as [m [<- Hm]]. eapply announcementOfMatch_tidy; eauto.
Qed.

Lemma slice0_length (A : Type) n (l : list A) :
  (0 <= n)%Z -> (Z.of_nat (length (slice0 n l)) <= n)%Z.
Proof.
  intros H. unfold slice0. destruct (Z.ltb_spec n 0); [lia |].
  rewrite length_firstn. lia.
Qed.

End SecurityDigestFacts.

Module ReleaseDigestFacts.
Import RegexFacts StrFacts SortFacts MatchFacts LangFacts DateFacts
  DateRuleFacts TrimFacts VersionFacts ReplaceFacts StripFacts CleanFacts
  FuelFacts LineFacts PipelineFacts.
Import Positions LineEndings Texts DigestLines.
Import InsideFacts.

(** The pattern of leading white space finds nothing in a text that
    begins with none. *)
Lemma leading_none s : headOK s -> exec reLeading s = None.
Proof.
  intros Hh. destruct (exec reLeading s) as [m |] eqn:E; [| reflexivity]. exfalso.
  unfold exec in E. apply searchFrom_sound in E.
  destruct E as [sk [post' [y [Hp [Hs _]]]]].
  unfold reLeading, seq in Hs. cbn [fold_right] in Hs.
  destruct Hs as [z1 [[Hstart ->] [z2 [H2 _]]]].
  unfold atInputStart in Hstart. cbn [before] in Hstart. rewrite app_nil_r in Hstart.
  destruct (rev sk) eqn:Esk; [| discriminate].
  apply (f_equal (@rev _)) in Esk. rewrite rev_involutive in Esk. simpl in Esk.
  subst sk. simpl in Hp. subst post'.
  destruct (sem_lang (plus space) _ _ H2) as [w [[_ E1] L1]].
  apply lang_plus in L1. destruct L1 as [F L]. cbn [after] in E1.
  rewrite (headOK_no_space _ _ _ Hh E1 F) in L. simpl in L. lia.
Qed.

Lemma clean_release_head body : headOK (cleanReleaseBody body).
Proof.
  unfold cleanReleaseBody. cbv zeta. rewrite strip_is_stripSpec.
  apply stripSpec_head, quote_replace_head, trim_head.
Qed.

Lemma render_clean v d body :
  renderRelease (Release v d (cleanReleaseBody body)) =
  js "## " ++ v ++
  (if truthy d then [32%N; emDash; 32%N] ++ match d with Some t => t | None => [] end
   else []) ++ nl ++ cleanReleaseBody body.
Proof.
  unfold renderRelease. cbv zeta. cbn [version date details].
  unfold replaceFirst. rewrite (leading_none _ (clean_release_head body)).
  rewrite <- !app_assoc. reflexivity.
Qed.

(** The date of a release, when the body has the shortcode: a piece of
    the body, not empty, without a double quote. *)
Lemma release_date body m :
  exec reReleaseDate body = Some m ->
  group' 1 m <> [] /\ ~ In quote (group' 1 m) /\ occursIn (group' 1 m) body.
Proof.
  intros E.
  assert (G : lang (plus (noneOf quote)) (group' 1 m))
    by (unfold exec in E; eapply group_of_rule; [exact E | reflexivity | pick_group]).
  apply lang_plus in G. destruct G as [F L]. split; [| split].
  - intros H. rewrite H in L. simpl in L. lia.
  - intros H. rewrite Forall_forall in F. specialize (F _ H).
    rewrite N.eqb_refl in F. discriminate.
  - eapply exec_group_occurs; eauto.
Qed.

(** Limits *)

Lemma slice0_zero (A : Type) (l : list A) : slice0 0 l = [].
Proof. reflexivity. Qed.

Lemma slice0_all (A : Type) n (l : list A) :
  (Z.of_nat (length l) <= n)%Z -> slice0 n l = l.
Proof.
  intros H. unfold slice0. destruct (Z.ltb_spec n 0); [lia |].
  apply firstn_all2. lia.
Qed.

Lemma slice0_negative (A : Type) k (l : list A) :
  slice0 (- Z.of_nat (S k)) l = firstn (length l - S k) l.
Proof.
  unfold slice0. destruct (Z.ltb_spec (- Z.of_nat (S k)) 0); [| lia].
  f_equal. lia.
Qed.

Lemma firstn_plus (A : Type) : forall a b (l : list A),
  firstn (a + b) l = firstn a l ++ firstn b (skipn a l).
Proof.
  induction a as [| a IH]; intros b l; [reflexivity |].
  destruct l as [| x l]; [simpl; rewrite firstn_nil; reflexivity |].
  simpl. rewrite IH. reflexivity.
Qed.

Lemma slice0_prefix (A : Type) a b (l : list A) :
  (0 <= a <= b)%Z -> exists t, slice0 b l = slice0 a l ++ t.
Proof.
  intros H. unfold slice0.
  destruct (Z.ltb_spec a 0); [lia |]. destruct (Z.ltb_spec b 0); [lia |].
  exists (firstn (Z.to_nat b - Z.to_nat a) (skipn (Z.to_nat a) l)).
  replace (Z.to_nat b) with (Z.to_nat a + (Z.to_nat b - Z.to_nat a)) at 1 by lia.
  apply firstn_plus.
Qed.

Lemma join_prefix (sep : str) : forall l1 l2,
  exists t, join sep (l1 ++ l2) = join sep l1 ++ t.
Proof.
  induction l1 as [| x l1 IH]; intros l2.
  - exists (join sep l2). reflexivity.
  - destruct (IH l2) as [t E]. destruct l1 as [| y l1].
    + destruct l2 as [| z l2]; [exists []; simpl; rewrite app_nil_r; reflexivity |].
      exists (sep ++ join sep (z :: l2)). reflexivity.
    + cbn [app] in *. rewrite !IndentFacts.join_cons. cbn [app] in E. rewrite E.
      exists t. rewrite <- !app_assoc. reflexivity.
Qed.

(** Stability of the sort *)

Section Stable.
Variable A : Type.
Variable inOrder : A -> A -> bool.
Variable P : A -> bool.
Hypothesis together : forall x y, P x = true -> P y = true -> inOrder x y = true.

Lemma insert_filter x l :
  filter P (insert inOrder x l) = filter P (x :: l).
Proof.
  induction l as [| y l IH]; [reflexivity |].
  cbn [insert]. destruct (inOrder x y) eqn:E; [reflexivity |].
  cbn [filter] in *. rewrite IH.
  destruct (P x) eqn:Px; [| reflexivity].
  destruct (P y) eqn:Py; [| reflexivity].
  rewrite (together _ _ Px Py) in E. discriminate.
Qed.

Lemma sortBy_filter l : filter P (sortBy inOrder l) = filter P l.
Proof.
  induction l as [| x l IH]; [reflexivity |].
  cbn [sortBy fold_right]. fold (sortBy inOrder l).
  rewrite insert_filter. cbn [filter]. rewrite IH. reflexivity.
Qed.

End Stable.

Lemma filter_filter_none (A : Type) (P Q : A -> bool) l :
  (forall x, P x = true -> Q x = false) -> filter P (filter Q l) = [].
Proof.
  intros H. induction l as [| x l IH]; [reflexivity |].
  cbn [filter]. destruct (Q x) eqn:Eq; [| exact IH].
  cbn [filter]. destruct (P x) eqn:Ep; [| exact IH].
  rewrite (H _ Ep) in Eq. discriminate.
Qed.

Lemma filter_filter_all (A : Type) (P Q : A -> bool) l :
  (forall x, P x = true -> Q x = true) -> filter P (filter Q l) = filter P l.
Proof.
  intros H. induction l as [| x l IH]; [reflexivity |].
  cbn [filter]. destruct (Q x) eqn:Eq.
  - cbn [filter]. rewrite IH. reflexivity.
  - rewrite IH. destruct (P x) eqn:Ep; [| reflexivity].
    rewrite (H _ Ep) in Eq. discriminate.
Qed.

Lemma dated_iso a : dated a = negb (Str.eqb (isoOf a) []).
Proof.
  unfold dated, isoOf, truthy. destruct (lastUpdatedISO a) as [[| c d] |]; reflexivity.
Qed.

End ReleaseDigestFacts.

Module BuildFacts.
Import RegexFacts StrFacts SortFacts MatchFacts LangFacts DateFacts
  DateRuleFacts TrimFacts VersionFacts ReplaceFacts StripFacts CleanFacts
  FuelFacts LineFacts PipelineFacts.
Import Positions LineEndings Texts DigestLines.
Import CompleteFacts InsideFacts.

(** Building matches by hand. *)

Lemma sem_cat r1 r2 x z y : sem r1 x z -> sem r2 z y -> sem (Cat r1 r2) x y.
Proof. intros H1 H2. exists z. auto. Qed.

Lemma sem_end x : sem Empty x x.
Proof. reflexivity. Qed.

Lemma sem_class (p : char -> bool) c pre post cp :
  p c = true -> sem (Class p) (MState pre (c :: post) cp) (MState (c :: pre) post cp).
Proof. intros H. exists c, post. auto. Qed.

Lemma sem_chr c pre post cp :
  sem (chr c) (MState pre (c :: post) cp) (MState (c :: pre) post cp).
Proof. apply sem_class. apply N.eqb_refl. Qed.

Lemma sem_literal : forall l pre post cp,
  sem (seq (List.map chr l)) (MState pre (l ++ post) cp) (MState (rev l ++ pre) post cp).
Proof.
  induction l as [| c l IH]; intros pre post cp; [reflexivity |].
  cbn [List.map seq fold_right]. eapply sem_cat; [apply sem_chr |].
  simpl rev. rewrite <- app_assoc. apply IH.
Qed.

Lemma sem_lit s pre post cp :
  sem (lit s) (MState pre (js s ++ post) cp) (MState (rev (js s) ++ pre) post cp).
Proof. apply sem_literal. Qed.

(** A run of a class, of a length the quantifier admits. *)
Lemma sem_many g (p : char -> bool) : forall w lo hi pre post cp,
  Forall (fun c => p c = true) w -> lo <= length w -> within (length w) hi ->
  sem (Quant g lo hi (Class p)) (MState pre (w ++ post) cp)
      (MState (rev w ++ pre) post cp).
Proof.
  induction w as [| c w IH]; intros lo hi pre post cp F Hlo Hhi; cbn [sem].
  - apply iter_stop. simpl in Hlo. lia.
  - inversion F; subst.
    eapply iter_step with (z := MState (c :: pre) (w ++ post) cp).
    + intros ->. simpl in Hhi. lia.
    + apply sem_class. assumption.
    + simpl rev. rewrite <- app_assoc. apply (IH (Nat.pred lo) (option_map Nat.pred hi)).
      * assumption.
      * simpl in Hlo. lia.
      * destruct hi as [h |]; simpl in *; [lia | exact I].
Qed.

Lemma sem_skip g hi r x : sem (Quant g 0 hi r) x x.
Proof. cbn [sem]. apply iter_stop. auto. Qed.

Lemma sem_once g hi r x y : hi <> Some 0 -> sem r x y -> sem (Quant g 0 hi r) x y.
Proof.
  intros Hh H. cbn [sem]. eapply iter_step; [exact Hh | exact H |].
  apply iter_stop. auto.
Qed.

Lemma sem_capture i r pre w post cp cp' :
  sem r (MState pre (w ++ post) cp) (MState (rev w ++ pre) post cp') ->
  sem (Capture i r) (MState pre (w ++ post) cp)
      (MState (rev w ++ pre) post ((i, w) :: cp')).
Proof.
  intros H. cbn [sem]. eexists. split; [exact H |]. cbn [before after caps].
  f_equal. f_equal. f_equal. symmetry. apply ext_consumed. split; reflexivity.
Qed.

(** A pattern without groups leaves the captures as they are. *)
Lemma caps_free : forall r x y, groupsOf r = [] -> sem r x y -> caps y = caps x.
Proof.
  induction r as [| p | r1 IH1 r2 IH2 | r1 IH1 r2 IH2 | g lo hi r IH | j r IH
                 | r IH | | | | |]; intros x y Hg H; simpl in H, Hg;
    try (match type of H with
         | _ /\ _ => destruct H as [_ H]
         | _ = _ => idtac
         end; subst; auto; fail).
  - destruct H as [c [rest [_ [_ ->]]]]. reflexivity.
  - apply app_eq_nil in Hg. destruct Hg as [G1 G2].
    destruct H as [z [H1 H2]]. rewrite (IH2 _ _ G2 H2). auto.
  - apply app_eq_nil in Hg. destruct Hg as [G1 G2]. destruct H; auto.
  - induction H as [lo hi x _ | lo hi x z y _ Hxz _ IHi]; auto.
    rewrite IHi. auto.
  - discriminate.
  - destruct H as [z [H ->]]. cbn [caps]. auto.
Qed.

(** Two runs of a class from the same place, each stopped by something
    outside the class, are the same run. *)
Lemma span_unique (p : char -> bool) : forall w w' r r',
  w ++ r = w' ++ r' ->
  Forall (fun c => p c = true) w -> Forall (fun c => p c = true) w' ->
  match r with c :: _ => p c = false | [] => True end ->
  match r' with c :: _ => p c = false | [] => True end ->
  w = w' /\ r = r'.
Proof.
  induction w as [| c w IH]; intros w' r r' E F F' Hr Hr'.
  - destruct w' as [| c' w']; [auto |]. simpl in E. subst r.
    inversion F'; subst. congruence.
  - destruct w' as [| c' w'].
    + simpl in E. subst r'. inversion F; subst. congruence.
    + inversion E; subst. inversion F; subst. inversion F'; subst.
      destruct (IH w' r r') as [-> ->]; auto.
Qed.

End BuildFacts.

Module DateCompleteFacts.
Import RegexFacts StrFacts SortFacts MatchFacts LangFacts DateFacts
  DateRuleFacts TrimFacts VersionFacts ReplaceFacts StripFacts CleanFacts
  FuelFacts LineFacts PipelineFacts.
Import Positions LineEndings Texts DigestLines DateTexts.
Import CompleteFacts InsideFacts BuildFacts.

Lemma lang_commaYear w :
  lang reCommaYear w ->
  exists ws1 ws2 d, w = ws1 ++ [44%N] ++ ws2 ++ d /\ allDigits d = true.
Proof.
  unfold reCommaYear, seq. cbn [fold_right].
  intros [w1 [r1 [-> [H1 [w2 [r2 [-> [H2 [w3 [r3 [-> [H3 [w4 [r4 [-> [H4 H5]]]]]]]]]]]]]]]].
  simpl in H5. subst r4. rewrite app_nil_r.
  apply lang_chr in H2. subst w2. apply lang_times in H4. destruct H4 as [H4 _].
  exists w1, w3, w4. split; [reflexivity |]. apply forallb_Forall. exact H4.
Qed.

Lemma digits_no_comma d : allDigits d = true -> ~ In 44%N d.
Proof.
  unfold allDigits. intros H Hin. rewrite forallb_forall in H.
  specialize (H _ Hin). discriminate.
Qed.

(** Without a comma the cleaning step has nothing to replace. *)
Lemma commaYear_none s : ~ In 44%N s -> exec reCommaYear s = None.
Proof.
  intros Hn. destruct (exec reCommaYear s) as [m |] eqn:E; [| reflexivity].
  exfalso. apply Hn. apply (occursIn_In (whole m)); [eapply exec_whole_occurs; eauto |].
  unfold exec in E. apply searchFrom_lang, lang_commaYear in E.
  destruct E as [ws1 [ws2 [d [-> _]]]]. apply in_or_app. right. left. reflexivity.
Qed.

Lemma cleanDate_fixed s : ~ In 44%N s -> headOK s -> lastOK s -> cleanDate s = s.
Proof.
  intros Hn Hh Hl. unfold cleanDate, replaceFirst.
  rewrite (commaYear_none _ Hn). apply trim_fixed; assumption.
Qed.

Lemma digit_is_word c : isDigit c = true -> isWord c = true.
Proof. unfold isWord. intros ->. apply orb_true_iff. left. apply orb_true_r. Qed.

Lemma digit_not_space c : isDigit c = true -> isSpace c = false.
Proof.
  unfold isDigit, between. intros H. apply andb_true_iff in H.
  destruct H as [H1 H2]. apply N.leb_le in H1, H2.
  unfold isSpace, between.
  repeat match goal with
         | |- context [N.eqb c ?k] =>
             replace (N.eqb c k) with false by (symmetry; apply N.eqb_neq; lia)
         | |- context [N.leb ?k c && N.leb c ?j] =>
             replace (N.leb k c && N.leb c j) with false
               by (symmetry; apply andb_false_iff;
                   first [right; apply N.leb_gt; lia | left; apply N.leb_gt; lia])
         end.
  reflexivity.
Qed.

Lemma digit_not_comma c : isDigit c = true -> c <> 44%N.
Proof. intros H ->. discriminate. Qed.

Lemma isoShape_inv s :
  isoShape s = true ->
  exists y1 y2 y3 y4 m1 m2 d1 d2,
    s = [y1; y2; y3; y4; 45%N; m1; m2; 45%N; d1; d2] /\
    Forall (fun c => isDigit c = true) [y1; y2; y3; y4; m1; m2; d1; d2].
Proof.
  destruct s as [| y1 [| y2 [| y3 [| y4 [| h1 [| m1 [| m2 [| h2 [| d1 [| d2 [| e s]]]]]]]]]]];
    try discriminate.
  unfold isoShape. intros H. apply andb_true_iff in H. destruct H as [H H2].
  apply andb_true_iff in H. destruct H as [H H1].
  apply N.eqb_eq in H1, H2. subst.
  exists y1, y2, y3, y4, m1, m2, d1, d2. split; [reflexivity |].
  unfold allDigits in H. rewrite forallb_forall in H.
  apply Forall_forall. exact H.
Qed.

Ltac digit_facts F :=
  repeat match type of F with
         | Forall _ (_ :: _) =>
             let H := fresh "D" in
             let F' := fresh "F" in
             pose proof (Forall_inv F) as H; pose proof (Forall_inv_tail F) as F';
             clear F; rename F' into F; cbv beta in H
         end.

(** A canonical date is what the date pattern matches in it. *)
Lemma exec_iso_fixed s :
  isoShape s = true -> exists m, exec reIso s = Some m /\ whole m = s.
Proof.
  intros Hs. pose proof Hs as Hi. apply isoShape_inv in Hi.
  destruct Hi as [y1 [y2 [y3 [y4 [m1 [m2 [d1 [d2 [E F]]]]]]]]].
  pose proof F as F0. digit_facts F.
  assert (S0 : exists y, sem reIso (MState [] s []) y).
  { subst s. eexists. unfold reIso, seq. cbn [fold_right].
    eapply sem_cat.
    { cbn [sem]. split; [| reflexivity]. unfold atWordBoundary. cbn [before after hd_error atWord].
      rewrite (digit_is_word _ D). reflexivity. }
    eapply sem_cat.
    { apply (sem_capture 1 _ [] [y1; y2; y3; y4]). apply sem_many; simpl; auto. }
    eapply sem_cat; [apply sem_chr |].
    eapply sem_cat.
    { apply (sem_capture 2 _ _ [m1; m2]). apply sem_many; simpl; auto. }
    eapply sem_cat; [apply sem_chr |].
    eapply sem_cat.
    { apply (sem_capture 3 _ _ [d1; d2]). apply sem_many; simpl; auto. }
    eapply sem_cat; [| apply sem_end].
    cbn [sem]. split; [| reflexivity]. unfold atWordBoundary.
    cbn [before after hd_error atWord rev app].
    rewrite (digit_is_word _ D6). reflexivity. }
  destruct S0 as [y0 S0].
  destruct (searchFrom_here _ _ _ _ S0) as [m [y [Hm [Hy [_ [Hw [_ [_ Hr]]]]]]]].
  exists m. split; [exact Hm |].
  pose proof (searchFrom_lang _ _ _ _ Hm) as L. apply reIso_shape in L.
  destruct (sem_lang _ _ _ Hy) as [w [X _]].
  rewrite (ext_consumed _ _ _ X) in Hw. destruct X as [_ X]. cbn [after] in X.
  rewrite Hw in *.
  assert (Hl : length w = 10).
  { apply isoShape_inv in L. destruct L as [? [? [? [? [? [? [? [? [-> _]]]]]]]]].
    reflexivity. }
  assert (Hl' : length s = 10) by (subst s; reflexivity).
  rewrite X, length_app in Hl'. destruct (after y); [| simpl in Hl'; lia].
  rewrite app_nil_r in X. congruence.
Qed.

Lemma isoShape_plain s :
  isoShape s = true -> ~ In 44%N s /\ headOK s /\ lastOK s /\ s <> [].
Proof.
  intros H. apply isoShape_inv in H.
  destruct H as [y1 [y2 [y3 [y4 [m1 [m2 [d1 [d2 [-> F]]]]]]]]].
  pose proof F as F0. digit_facts F. repeat split.
  - rewrite Forall_forall in F0. simpl.
    intros [H | [H | [H | [H | [H | [H | [H | [H | [H | [H | []]]]]]]]]]];
      try discriminate; subst;
      match goal with D : isDigit 44%N = true |- _ => discriminate D end.
  - simpl. apply digit_not_space. assumption.
  - unfold lastOK. simpl. apply digit_not_space. assumption.
  - discriminate.
Qed.

(** The rule for "Month DD, YYYY" asks for a comma in front of a year. *)
Lemma lang_long w :
  lang reLong w ->
  exists a ws d : str, w = a ++ [44%N] ++ ws ++ d /\
    Forall (fun c => isSpace c = true) ws /\
    Forall (fun c => isDigit c = true) d /\ length d = 4.
Proof.
  unfold reLong, seq. cbn [fold_right].
  intros [w0 [r0 [-> [H0 [w1 [r1 [-> [H1 [w2 [r2 [-> [H2 [w3 [r3 [-> [H3
          [w4 [r4 [-> [H4 [w5 [r5 [-> [H5 [w6 [r6 [-> [H6
          [w7 [r7 [-> [H7 H8]]]]]]]]]]]]]]]]]]]]]]]]]]]]]]]].
  simpl in H0, H7, H8. subst w0 w7 r7.
  apply lang_chr in H4. subst w4. apply lang_star in H5. apply lang_times in H6.
  destruct H6 as [H6 L6]. simpl in L6.
  exists (w1 ++ w2 ++ w3), w5, w6.
  split; [| split; [exact H5 | split; [exact H6 | lia]]].
  rewrite app_nil_r. simpl. rewrite <- !app_assoc. reflexivity.
Qed.

(** Where a comma stands in front of a year, the cleaning pattern
    matches. *)
Lemma commaYear_found (a ws d b : str) :
  Forall (fun c => isSpace c = true) ws ->
  Forall (fun c => isDigit c = true) d -> length d = 4 ->
  exec reCommaYear (a ++ [44%N] ++ ws ++ d ++ b) <> None.
Proof.
  intros Fs Fd Ld.
  assert (S0 : exists y,
             sem reCommaYear (MState (rev a ++ []) ([44%N] ++ ws ++ d ++ b) []) y).
  { eexists. unfold reCommaYear, seq. cbn [fold_right].
    eapply sem_cat; [apply sem_skip |].
    eapply sem_cat; [apply sem_chr |].
    eapply sem_cat; [apply sem_many; [exact Fs | lia | exact I] |].
    eapply sem_cat; [| apply sem_end].
    apply (sem_capture 1). apply sem_many; [exact Fd | simpl; lia | simpl; lia]. }
  destruct S0 as [y S0].
  destruct (searchFrom_complete _ _ _ _ _ S0) as [m [Hm _]].
  unfold exec. rewrite Hm. discriminate.
Qed.

Lemma commas_app a b : commas (a ++ b) = commas a + commas b.
Proof. unfold commas. rewrite filter_app, length_app. reflexivity. Qed.

Lemma commas_none s : commas s = 0 -> ~ In 44%N s.
Proof.
  unfold commas. intros H Hin.
  assert (X : In 44%N (filter (N.eqb 44) s)) by (apply filter_In; split; [exact Hin | reflexivity]).
  destruct (filter (N.eqb 44) s); [destruct X | discriminate].
Qed.

Lemma commas_some s : In 44%N s -> 1 <= commas s.
Proof.
  unfold commas. intros Hin.
  assert (X : In 44%N (filter (N.eqb 44) s)) by (apply filter_In; split; [exact Hin | reflexivity]).
  destruct (filter (N.eqb 44) s); [destruct X | simpl; lia].
Qed.

(** With one comma at most in the text, the rule for "Month DD, YYYY"
    finds nothing in the cleaned text: the comma it asks for is the one
    the cleaning step took away. *)
Theorem long_rule_dead raw : commas raw <= 1 -> exec reLong (cleanDate raw) = None.
Proof.
  intros Hc. destruct (exec reLong (cleanDate raw)) as [m |] eqn:E; [| reflexivity].
  exfalso.
  pose proof (exec_whole_occurs _ _ _ E) as Ho.
  unfold exec in E. apply searchFrom_lang, lang_long in E.
  destruct E as [a [ws [d [Ew [Fs [Fd Ld]]]]]].
  unfold cleanDate in Ho.
  pose proof (occursIn_trans _ _ _ Ho (trim_occurs _)) as Hx. clear Ho.
  rewrite Ew in Hx. destruct Hx as [p [q Hx]].
  unfold replaceFirst in Hx.
  destruct (exec reCommaYear raw) as [m0 |] eqn:E0.
  - assert (Hcomma : In 44%N (firstn (index m0) raw ++ (js " " ++ group' 1 m0) ++ rest m0)).
    { rewrite Hx. apply in_or_app. right. apply in_or_app. left.
      apply in_or_app. right. left. reflexivity. }
    pose proof (exec_split _ _ _ E0) as Hsplit.
    assert (Hw : In 44%N (whole m0)).
    { unfold exec in E0. apply searchFrom_lang, lang_commaYear in E0.
      destruct E0 as [ws1 [ws2 [d0 [-> _]]]]. apply in_or_app. right. left. reflexivity. }
    assert (G : lang (times 4 4 digit) (group' 1 m0))
      by (unfold exec in E0; eapply group_of_rule; [exact E0 | reflexivity | pick_group]).
    apply lang_times in G. destruct G as [G _].
    rewrite Hsplit, !commas_app in Hc. apply commas_some in Hw.
    assert (C1 : commas (firstn (index m0) raw) = 0) by lia.
    assert (C2 : commas (rest m0) = 0) by lia.
    apply commas_none in C1, C2.
    apply in_app_or in Hcomma. destruct Hcomma as [Hcomma | Hcomma]; [contradiction |].
    apply in_app_or in Hcomma. destruct Hcomma as [Hcomma | Hcomma]; [| contradiction].
    destruct Hcomma as [Hcomma | Hcomma]; [discriminate |].
    rewrite Forall_forall in G. specialize (G _ Hcomma). discriminate.
  - revert E0. rewrite Hx, <- !app_assoc.
    change (p ++ a ++ [44%N] ++ ws ++ d ++ q)
      with (p ++ a ++ [44%N] ++ ws ++ d ++ q).
    rewrite (app_assoc p a). apply commaYear_found; assumption.
Qed.

Lemma longRule_dead raw : commas raw <= 1 -> longRule (cleanDate raw) = None.
Proof. intros H. unfold longRule. rewrite (long_rule_dead _ H). reflexivity. Qed.

Lemma lookup_in k : forall l n,
  lookup k l = Some n -> In (k, n) l.
Proof.
  induction l as [| [k' v] l IH]; intros n H; [discriminate |].
  cbn [lookup] in H. destruct (Str.eqb k k') eqn:E.
  - apply StrFacts.eqb_eq in E. inversion H; subst. left. reflexivity.
  - right. auto.
Qed.

Lemma monthTable_lower k n :
  In (k, n) monthTable -> forallb isLower k = true /\ k <> [].
Proof.
  unfold monthTable. intros H.
  repeat (destruct H as [H | H];
          [inversion H; subst; split; [reflexivity | discriminate] |]).
  destruct H.
Qed.

Lemma lower_alpha c : isLower (toLowerAscii c) = true -> isAlpha c = true.
Proof.
  unfold toLowerAscii, isAlpha. destruct (isUpper c) eqn:E; [reflexivity |].
  intros ->. reflexivity.
Qed.

(** A word the month table knows is made of letters. *)
Lemma month_letters name n :
  lookup (toLowerCase name) monthTable = Some n ->
  Forall (fun c => isAlpha c = true) name /\ name <> [].
Proof.
  intros H. apply lookup_in, monthTable_lower in H. destruct H as [H Hne].
  split.
  - rewrite forallb_forall in H. apply Forall_forall. intros c Hc.
    apply lower_alpha, H. unfold toLowerCase. apply in_map. exact Hc.
  - intros ->. apply Hne. reflexivity.
Qed.

Lemma alpha_is_word c : isAlpha c = true -> isWord c = true.
Proof. unfold isWord. intros ->. reflexivity. Qed.

Lemma alpha_range c :
  isAlpha c = true -> (65 <= c <= 90)%N \/ (97 <= c <= 122)%N.
Proof.
  unfold isAlpha, isUpper, isLower, between. intros H.
  apply orb_true_iff in H. destruct H as [H | H];
    apply andb_true_iff in H; destruct H as [H1 H2]; apply N.leb_le in H1, H2; lia.
Qed.

Lemma space_not_alpha c : isSpace c = true -> isAlpha c = false.
Proof.
  intros H. destruct (isAlpha c) eqn:E; [| reflexivity].
  apply alpha_range in E. exfalso.
  unfold isSpace, between in H.
  repeat (apply orb_true_iff in H; destruct H as [H | H]);
    try (apply andb_true_iff in H; destruct H as [H1 H2]; apply N.leb_le in H1, H2);
    try apply N.eqb_eq in H; lia.
Qed.

Lemma digit_range c : isDigit c = true -> (48 <= c <= 57)%N.
Proof.
  unfold isDigit, between. intros H. apply andb_true_iff in H.
  destruct H as [H1 H2]. apply N.leb_le in H1, H2. lia.
Qed.

Lemma alpha_not_space c : isAlpha c = true -> isSpace c = false.
Proof.
  intros H. destruct (isSpace c) eqn:E; [| reflexivity].
  rewrite (space_not_alpha _ E) in H. discriminate.
Qed.

Lemma monthYear_plain (name yyyy : str) :
  Forall (fun c => isAlpha c = true) name -> name <> [] ->
  Forall (fun c => isDigit c = true) yyyy -> yyyy <> [] ->
  let s := monthYearText name yyyy in
  ~ In 44%N s /\ ~ In 45%N s /\ headOK s /\ lastOK s /\ s <> [].
Proof.
  intros Fa Hn Fd Hy s. unfold s, monthYearText.
  assert (X : forall k, (k < 48)%N -> k <> 32%N -> ~ In k (name ++ js " " ++ yyyy)).
  { intros k Hk Hk' Hin. apply in_app_or in Hin. destruct Hin as [Hin | Hin].
    - rewrite Forall_forall in Fa. apply Fa, alpha_range in Hin. lia.
    - change (js " " ++ yyyy) with (32%N :: yyyy) in Hin.
      destruct Hin as [Hin | Hin]; [symmetry in Hin; contradiction |].
      rewrite Forall_forall in Fd. apply Fd, digit_range in Hin. lia. }
  split; [apply X; [lia | discriminate] |].
  split; [apply X; [lia | discriminate] |].
  split; [| split].
  - destruct name as [| c name']; [congruence |]. simpl.
    inversion Fa; subst. apply alpha_not_space. assumption.
  - unfold lastOK. rewrite !rev_app_distr.
    destruct (rev yyyy) as [| d t] eqn:E.
    + apply (f_equal (@rev _)) in E. rewrite rev_involutive in E. simpl in E. congruence.
    + simpl. apply digit_not_space.
      rewrite Forall_forall in Fd. apply Fd. apply in_rev. rewrite E. left. reflexivity.
  - destruct name; [congruence | discriminate].
Qed.

Lemma iso_none_without_dash s : ~ In 45%N s -> exec reIso s = None.
Proof.
  intros Hn. destruct (exec reIso s) as [m |] eqn:E; [| reflexivity].
  exfalso. apply Hn. apply (occursIn_In (whole m)); [eapply exec_whole_occurs; eauto |].
  unfold exec in E. apply searchFrom_lang, reIso_shape, isoShape_inv in E.
  destruct E as [? [? [? [? [? [? [? [? [-> _]]]]]]]]]. simpl. tauto.
Qed.

Lemma long_none_without_comma s : ~ In 44%N s -> exec reLong s = None.
Proof.
  intros Hn. destruct (exec reLong s) as [m |] eqn:E; [| reflexivity].
  exfalso. apply Hn. apply (occursIn_In (whole m)); [eapply exec_whole_occurs; eauto |].
  unfold exec in E. apply searchFrom_lang, lang_long in E.
  destruct E as [a [ws [d [-> _]]]]. apply in_or_app. right. left. reflexivity.
Qed.

(** On "Month YYYY" the month-and-year pattern matches the whole text,
    the word in its first group and the year in its second. *)
Lemma exec_monthYear (name yyyy : str) :
  Forall (fun c => isAlpha c = true) name -> name <> [] ->
  Forall (fun c => isDigit c = true) yyyy -> length yyyy = 4 ->
  exists m, exec reMonthYear (monthYearText name yyyy) = Some m /\
            group' 1 m = name /\ group' 2 m = yyyy.
Proof.
  intros Fa Hn Fd Ly. unfold monthYearText.
  destruct name as [| c0 name']; [congruence |].
  destruct (LangFacts.length4 _ Ly) as [y1 [y2 [y3 [y4 ->]]]].
  pose proof Fd as Fd0. digit_facts Fd.
  pose proof (Forall_inv Fa) as A0.
  set (name := c0 :: name') in *.
  assert (S0 : exists y, sem reMonthYear (MState [] (name ++ js " " ++ [y1; y2; y3; y4]) []) y).
  { eexists. unfold reMonthYear, seq. cbn [fold_right].
    eapply sem_cat.
    { cbn [sem]. split; [| reflexivity]. unfold atWordBoundary, name.
      cbn [before after hd_error atWord app]. rewrite (alpha_is_word _ A0). reflexivity. }
    eapply sem_cat.
    { apply (sem_capture 1). apply sem_many; [exact Fa | unfold name; simpl; lia | exact I]. }
    eapply sem_cat.
    { apply (sem_many true isSpace (js " ")); [| simpl; lia | exact I].
      repeat constructor. }
    eapply sem_cat.
    { rewrite <- (app_nil_r [y1; y2; y3; y4]).
      apply (sem_capture 2). apply sem_many; [exact Fd0 | simpl; lia | simpl; lia]. }
    eapply sem_cat; [| apply sem_end].
    cbn [sem]. split; [| reflexivity]. unfold atWordBoundary.
    cbn [before after hd_error atWord rev app].
    rewrite (digit_is_word _ D2). reflexivity. }
  destruct S0 as [y0 S0].
  destruct (searchFrom_here _ _ _ _ S0) as [m [y [Hm [Hy [_ [_ [Hg _]]]]]]].
  exists m. split; [exact Hm |].
  unfold reMonthYear, seq in Hy. cbn [fold_right] in Hy.
  destruct Hy as [z1 [[_ ->] [z2 [[z [H1 ->]] [z3 [H2 [z4 [[z' [H3 ->]]
                 [z5 [[_ ->] ->]]]]]]]]]].
  destruct (sem_lang (plus alpha) _ _ H1) as [w1 [X1 L1]].
  destruct (sem_lang (plus space) _ _ H2) as [w2 [X2 L2]].
  destruct (sem_lang (times 4 4 digit) _ _ H3) as [w3 [X3 L3]].
  pose proof (ext_consumed _ _ _ X1) as C1. pose proof (ext_consumed _ _ _ X3) as C3.
  pose proof (caps_free (plus alpha) _ _ eq_refl H1) as K1.
  pose proof (caps_free (plus space) _ _ eq_refl H2) as K2.
  pose proof (caps_free (times 4 4 digit) _ _ eq_refl H3) as K3.
  cbn [caps] in K1, K2.
  destruct X1 as [_ X1]. destruct X2 as [_ X2]. destruct X3 as [_ X3].
  cbn [after] in X1, X2.
  apply lang_plus in L1, L2. apply lang_times in L3.
  destruct L1 as [F1 N1]. destruct L2 as [F2 N2]. destruct L3 as [F3 N3].
  simpl in N3.
  (* the word *)
  assert (U1 : name = w1 /\ js " " ++ [y1; y2; y3; y4] = after z).
  { apply (span_unique isAlpha); auto.
    - reflexivity.
    - rewrite X2. destruct w2 as [| s2 w2]; [simpl in N2; lia |].
      simpl. inversion F2; subst. apply space_not_alpha. assumption. }
  destruct U1 as [U1 U1'].
  assert (U2 : js " " = w2 /\ [y1; y2; y3; y4] = after z3).
  { apply (span_unique isSpace); auto.
    - rewrite <- X2. exact U1'.
    - repeat constructor.
    - simpl. apply digit_not_space. assumption.
    - rewrite X3. destruct w3 as [| s3 w3]; [simpl in N3; lia |].
      simpl. inversion F3; subst. apply digit_not_space. assumption. }
  destruct U2 as [U2 U2'].
  assert (U3 : w3 = [y1; y2; y3; y4]).
  { rewrite X3 in U2'. 
    assert (Hl : length (w3 ++ after z') = 4) by (rewrite <- U2'; reflexivity).
    rewrite length_app in Hl. destruct (after z'); [| simpl in Hl; lia].
    rewrite app_nil_r in U2'. congruence. }
  unfold group', group. rewrite Hg. cbn [caps assoc Nat.eqb].
  rewrite K3, K2. cbn [assoc Nat.eqb]. rewrite C1, C3. split; congruence.
Qed.

End DateCompleteFacts.

Module ProductFacts.
Import RegexFacts StrFacts SortFacts MatchFacts LangFacts DateFacts
  DateRuleFacts TrimFacts VersionFacts ReplaceFacts StripFacts CleanFacts
  FuelFacts LineFacts PipelineFacts.
Import Positions LineEndings Texts DigestLines DateTexts TitleShapes.
Import CompleteFacts InsideFacts BuildFacts SecurityDigestFacts.

Lemma span_exists (p : char -> bool) : forall l : str,
  exists w r, l = w ++ r /\ Forall (fun c => p c = true) w /\
              match r with c :: _ => p c = false | [] => True end.
Proof.
  induction l as [| c l [w [r [E [F H]]]]].
  - exists [], []. repeat split; auto.
  - destruct (p c) eqn:Ep.
    + exists (c :: w), r. subst. repeat split; auto.
    + exists [], (c :: l). repeat split; auto.
Qed.

Lemma sem_capture' i r x z w :
  sem r x z -> ext x w z ->
  sem (Capture i r) x (MState (before z) (after z) ((i, w) :: caps z)).
Proof.
  intros H E. cbn [sem]. exists z. split; [exact H |].
  rewrite (ext_consumed _ _ _ E). reflexivity.
Qed.

Lemma sem_ext r x y : sem r x y -> exists w, ext x w y.
Proof. intros H. destruct (sem_lang _ _ _ H) as [w [E _]]. eauto. Qed.

(** Where the title holds a digit, a dot and a digit, the generic
    version pattern matches. *)
Lemma anyVersion_found title :
  singleLineTitle title -> hasVersionNumber title ->
  exec reAnyVersion title <> None.
Proof.
  intros Hl [a [d1 [d2 [b [E [D1 D2]]]]]].
  destruct (span_exists isDigit b) as [ds [b' [Eb [Fd Hb]]]].
  assert (Fa : Forall (fun c => negb (isLineTerminator c) = true) a).
  { unfold singleLineTitle in Hl. rewrite E in Hl. apply Forall_app in Hl.
    destruct Hl as [Hl _]. eapply Forall_impl; [| exact Hl].
    intros c Hc. simpl in Hc. rewrite Hc. reflexivity. }
  assert (S0 : exists y, sem reAnyVersion (MState [] title []) y).
  { subst title b. unfold reAnyVersion, seq. cbn [fold_right].
    assert (N : exists z,
               sem reNum23 (MState (rev a ++ []) ([d1; 46%N; d2] ++ ds ++ b') [(1, a)]) z /\
               after z = b' /\
               match before z with c :: _ => isDigit c = true | [] => False end).
    { eexists. split; [| split].
      - unfold reNum23, seq. cbn [fold_right].
        eapply sem_cat.
        { apply (sem_many true isDigit [d1]); [repeat constructor; exact D1 | simpl; lia | exact I]. }
        eapply sem_cat; [apply sem_chr |].
        eapply sem_cat.
        { apply (sem_many true isDigit (d2 :: ds));
            [constructor; [exact D2 | exact Fd] | simpl; lia | exact I]. }
        eapply sem_cat; [apply sem_skip | apply sem_end].
      - reflexivity.
      - cbn [before].
        match goal with
        | |- match ?l ++ _ with _ => _ end => destruct l as [| c t] eqn:Er
        end.
        + apply (f_equal (@rev _)) in Er. rewrite rev_involutive in Er. discriminate.
        + cbn [app]. assert (Hin : In c (d2 :: ds)) by (apply in_rev; rewrite Er; left; reflexivity).
          destruct Hin as [<- | Hin]; [exact D2 |].
          rewrite Forall_forall in Fd. auto. }
    destruct N as [z [Hz [Haz Hbz]]].
    destruct (sem_ext _ _ _ Hz) as [wv Xv].
    assert (T : exists y,
               sem (Or WordBoundary (Class (fun c => negb (isDigit c))))
                   (MState (before z) (after z) ((2, wv) :: caps z)) y).
    { destruct b' as [| c b''].
      - eexists. left. split; [| reflexivity]. unfold atWordBoundary. cbn [before after].
        rewrite Haz. destruct (before z) as [| e t]; [contradiction |].
        cbn [hd_error atWord]. rewrite (DateCompleteFacts.digit_is_word _ Hbz). reflexivity.
      - eexists. right. exists c, b''. cbn [after]. rewrite Haz, Hb.
        split; [reflexivity | split; reflexivity]. }
    destruct T as [y T].
    exists y.
    eapply sem_cat; [cbn [sem]; split; [reflexivity | reflexivity] |].
    eapply sem_cat.
    { apply (sem_capture 1 _ [] a). apply sem_many; [exact Fa | lia | exact I]. }
    eapply sem_cat; [apply sem_skip |].
    eapply sem_cat; [apply sem_skip |].
    eapply sem_cat; [apply (sem_capture' 2 _ _ _ _ Hz Xv) |].
    eapply sem_cat; [exact T | apply sem_end]. }
  destruct S0 as [y S0].
  destruct (searchFrom_here _ _ _ _ S0) as [m [_ [Hm _]]].
  unfold exec. rewrite Hm. discriminate.
Qed.

Lemma forallb_last (p : char -> bool) (w : str) :
  forallb p w = true -> w <> [] -> exists t c, w = t ++ [c] /\ p c = true.
Proof.
  intros H Hn. destruct (exists_last Hn) as [t [c ->]].
  exists t, c. split; [reflexivity |]. rewrite forallb_app in H.
  apply andb_true_iff in H. destruct H as [_ H]. simpl in H.
  rewrite andb_true_r in H. exact H.
Qed.

Lemma lang_num23 v : lang reNum23 v -> versionShape v.
Proof.
  unfold reNum23, seq. cbn [fold_right].
  intros [a [r1 [-> [Ha [d1 [r2 [-> [Hd1 [b [r3 [-> [Hb [o [r4 [-> [Ho He]]]]]]]]]]]]]]]].
  simpl in He. subst r4. rewrite app_nil_r.
  apply lang_plus in Ha, Hb. apply lang_chr in Hd1. subst d1.
  destruct Ha as [Da La]. destruct Hb as [Db Lb].
  apply forallb_Forall in Da, Db.
  assert (Na : a <> []) by (intros ->; simpl in La; lia).
  assert (Nb : b <> []) by (intros ->; simpl in Lb; lia).
  destruct Ho as [ws [-> [F [_ Hhi]]]]. simpl in Hhi.
  destruct ws as [| w [| w' ws]]; [| | simpl in Hhi; lia].
  - exists a, b, []. repeat split; auto. left. simpl. rewrite app_nil_r. reflexivity.
  - inversion F as [| ? ? Hw _]; subst.
    destruct Hw as [dd [c [-> [Hdd [c' [e [-> [Hc He']]]]]]]].
    simpl in He'. subst e. apply lang_chr in Hdd. subst dd.
    apply lang_plus in Hc. destruct Hc as [Dc Lc]. apply forallb_Forall in Dc.
    exists a, b, c'. repeat split; auto. right. repeat split; auto.
    + simpl. rewrite !app_nil_r. reflexivity.
    + intros ->. simpl in Lc. lia.
Qed.

Lemma versionShape_number v title :
  versionShape v -> occursIn v title -> hasVersionNumber title.
Proof.
  intros [a [b [c [Na [Nb [Da [Db Hv]]]]]]] [p [q ->]].
  destruct (forallb_last _ _ Da Na) as [ta [d1 [-> D1]]].
  destruct b as [| d2 tb]; [congruence |].
  assert (D2 : isDigit d2 = true).
  { unfold allDigits in Db. simpl in Db. apply andb_true_iff in Db. tauto. }
  destruct Hv as [-> | [-> _]].
  - exists (p ++ ta), d1, d2, (tb ++ q). split; [| auto].
    rewrite <- ?app_assoc. simpl. rewrite <- ?app_assoc. reflexivity.
  - exists (p ++ ta), d1, d2, (tb ++ js "." ++ c ++ q). split; [| auto].
    rewrite <- ?app_assoc. simpl. rewrite <- ?app_assoc. reflexivity.
Qed.

(** The version is absent exactly from the titles without a digit, a
    dot and a digit in a row. *)
Theorem version_none_iff title :
  singleLineTitle title ->
  (snd (extractProductAndVersion title) = None <-> ~ hasVersionNumber title).
Proof.
  intros Hl. split.
  - intros Hn Hv. pose proof (anyVersion_found _ Hl Hv) as Hf.
    unfold extractProductAndVersion in Hn.
    destruct (exec reDockerVersion title); [discriminate |].
    destruct (exec reAnyVersion title); [discriminate | congruence].
  - intros Hn. destruct (snd (extractProductAndVersion title)) as [v |] eqn:E;
      [| reflexivity].
    exfalso. apply Hn. apply version_occurs in E. destruct E as [Ho L].
    eapply versionShape_number; [apply lang_num23; exact L | exact Ho].
Qed.

Lemma dropWhile_nil (p : char -> bool) : forall s,
  dropWhile p s = [] -> Forall (fun c => p c = true) s.
Proof.
  induction s as [| c s IH]; intros H; [constructor |].
  simpl in H. destruct (p c) eqn:E; [| discriminate]. constructor; auto.
Qed.

Lemma trim_nil s : trim s = [] -> Forall (fun c => isSpace c = true) s.
Proof.
  unfold trim, trimEnd, trimStart. intros H.
  apply (f_equal (@rev _)) in H. rewrite rev_involutive in H. simpl in H.
  apply dropWhile_nil in H.
  pose proof (dropWhile_head isSpace s) as Hh.
  destruct (dropWhile isSpace s) as [| c t] eqn:E.
  - apply dropWhile_nil. exact E.
  - exfalso. rewrite Forall_forall in H.
    assert (Hc : isSpace c = true) by (apply H, in_rev; rewrite rev_involutive; left; reflexivity).
    congruence.
Qed.

(** A text that begins "Docker", in any case of the letters, is not
    white space only. *)
Lemma docker_trim_nonempty w tail :
  List.map toUpperAscii w = List.map toUpperAscii (js "Docker") ->
  trim (w ++ tail) <> [].
Proof.
  intros Hw Ht. apply trim_nil in Ht.
  destruct w as [| c w]; [discriminate |].
  inversion Ht as [| ? ? Hc _]; subst.
  simpl in Hw. injection Hw as Hc' _.
  change (toUpperAscii 68%N) with 68%N in Hc'.
  unfold toUpperAscii in Hc'. destruct (isLower c) eqn:El.
  - assert (c = 100%N) by lia. subst. discriminate.
  - subst. discriminate.
Qed.

Lemma lang_docker_prefix r w :
  lang (Cat (lit_i "Docker") r) w ->
  exists w1 tail, w = w1 ++ tail /\
    List.map toUpperAscii w1 = List.map toUpperAscii (js "Docker").
Proof.
  intros [w1 [w2 [-> [H1 _]]]]. apply lang_lit_i in H1. eauto.
Qed.

(** The product, when there is one, is a piece of the title, not empty,
    with no white space at either end. *)
Theorem product_shape title p :
  fst (extractProductAndVersion title) = Some p ->
  occursIn p title /\ p <> [] /\ headOK p /\ lastOK p.
Proof.
  intros H. split; [apply product_occurs; exact H |].
  unfold extractProductAndVersion in H.
  destruct (exec reDockerVersion title) as [m |] eqn:E1.
  - cbn [fst] in H. inversion H; subst. split; [| split; [apply trim_head | apply trim_last]].
    assert (G : lang (seq [lit_i "Docker"; plus space; plus word]) (group' 1 m))
      by (unfold exec in E1; eapply group_of_rule; [exact E1 | reflexivity | pick_group]).
    apply lang_docker_prefix in G. destruct G as [w1 [tail [-> Hw]]].
    apply docker_trim_nonempty. exact Hw.
  - destruct (exec reAnyVersion title) as [m2 |] eqn:E2.
    + cbn [fst] in H. unfold orNull in H.
      destruct (trim (replaceFirst reTrailingPunct erase (trim (group' 1 m2))))
        as [| c t] eqn:Et; [discriminate |].
      inversion H; subst. rewrite <- Et.
      split; [rewrite Et; discriminate | split; [apply trim_head | apply trim_last]].
    + destruct (exec reDockerWords title) as [m3 |] eqn:E3; [| discriminate].
      cbn [fst] in H. inversion H; subst.
      split; [| split; [apply trim_head | apply trim_last]].
      assert (G : lang (seq [lit_i "Docker"; star (seq [plus space; plus word])])
                       (group' 1 m3))
        by (unfold exec in E3; eapply group_of_rule; [exact E3 | reflexivity | pick_group]).
      apply lang_docker_prefix in G. destruct G as [w1 [tail [-> Hw]]].
      apply docker_trim_nonempty. exact Hw.
Qed.

End ProductFacts.

Module BoundaryFacts.
Import RegexFacts StrFacts SortFacts MatchFacts LangFacts DateFacts
  DateRuleFacts TrimFacts VersionFacts ReplaceFacts StripFacts CleanFacts
  FuelFacts LineFacts PipelineFacts.
Import Positions LineEndings Texts DigestLines DateTexts TitleShapes
  Documents.
Import CompleteFacts InsideFacts BuildFacts.

Lemma lazy_class (p : char -> bool) : forall post pre cp fuel,
  length post < fuel ->
  repeatMatcher (run (Class p)) false fuel 0 None (MState pre post cp) =
  lazyStates p pre post cp.
Proof.
  induction post as [| c post IH]; intros pre cp fuel Hf;
    (destruct fuel as [| fuel]; [lia |]); cbn [repeatMatcher lazyStates].
  - reflexivity.
  - cbn [run after Nat.eqb]. destruct (p c) eqn:Ep.
    + cbn [flat_map]. unfold advance. cbn [before after caps].
      assert (Hpos : Nat.eqb (position (MState (c :: pre) post cp))
                             (position (MState pre (c :: post) cp)) = false).
      { apply Nat.eqb_neq. unfold position. simpl. lia. }
      rewrite Hpos. cbn [andb]. rewrite app_nil_r.
      cbn [Nat.pred option_map]. rewrite IH by (simpl in Hf; lia). reflexivity.
    + reflexivity.
Qed.

Lemma run_seqThen tail : forall l x,
  run (seqThen l tail) x = flat_map (run tail) (run (seq l) x).
Proof.
  induction l as [| r l IH]; intros x.
  - simpl. rewrite app_nil_r. reflexivity.
  - cbn [seqThen seq fold_right run]. fold (seqThen l tail). fold (seq l).
    induction (run r x) as [| z zs IHz]; [reflexivity |].
    cbn [flat_map]. rewrite flat_map_app, IH, IHz. reflexivity.
Qed.

Lemma hd_flat_map (A B : Type) (g : A -> list B) : forall l y,
  hd_error (flat_map g l) = Some y -> exists c, In c l /\ hd_error (g c) = Some y.
Proof.
  induction l as [| a l IH]; intros y H; [discriminate |].
  cbn [flat_map] in H. destruct (g a) as [| b t] eqn:E.
  - destruct (IH _ H) as [c [Hc Hy]]. exists c. split; [right; exact Hc | exact Hy].
  - exists a. split; [left; reflexivity |]. rewrite E. exact H.
Qed.

Lemma hd_nonempty (A : Type) (l : list A) : l <> [] -> exists y, hd_error l = Some y.
Proof. destruct l as [| a l]; [congruence | intros _; exists a; reflexivity]. Qed.

Lemma searchFrom_hd r pre post y :
  hd_error (run r (MState pre post [])) = Some y ->
  searchFrom r pre post =
    Some (Result (length pre) (consumed (MState pre post []) y) (caps y)
                 (before y) (after y)).
Proof.
  intros H. rewrite searchFrom_unfold.
  destruct (run r (MState pre post [])); [discriminate |].
  inversion H; subst. reflexivity.
Qed.

(** The lookahead of the section patterns holds exactly at a
    boundary. *)
Lemma lookahead_sound x y :
  sem (Or (seq [LineStart; lit "##"; plus space]) (chr 90)) x y ->
  boundary (before x) (after x) = true.
Proof.
  intros [H | H].
  - unfold seq in H. cbn [fold_right] in H.
    destruct H as [z1 [[Hs ->] [z2 [H2 [z3 [H3 _]]]]]].
    destruct (sem_lang (lit "##") _ _ H2) as [w2 [[_ X2] L2]].
    destruct (sem_lang (plus space) _ _ H3) as [w3 [[_ X3] L3]].
    apply lang_lit in L2. subst w2. apply lang_plus in L3. destruct L3 as [F3 N3].
    unfold boundary. apply orb_true_iff. left.
    unfold atLineStart in Hs. unfold lineStartAt. rewrite Hs. cbn [andb].
    rewrite X2, X3. destruct w3 as [| c w3]; [simpl in N3; lia |].
    inversion F3; subst. simpl. assumption.
  - destruct H as [c [rest [Ha [Hc _]]]]. unfold boundary. rewrite Ha, Hc.
    apply orb_true_r.
Qed.

Lemma lookahead_complete pre post cp :
  boundary pre post = true ->
  exists y, sem (Or (seq [LineStart; lit "##"; plus space]) (chr 90))
                (MState pre post cp) y.
Proof.
  unfold boundary. intros H. apply orb_true_iff in H. destruct H as [H | H].
  - apply andb_true_iff in H. destruct H as [Hl Hh].
    destruct post as [| a [| b [| c post]]]; try discriminate.
    unfold startsHeading in Hh. apply andb_true_iff in Hh. destruct Hh as [Hh Hc].
    apply andb_true_iff in Hh. destruct Hh as [Ha Hb'].
    apply N.eqb_eq in Ha, Hb'. subst a b.
    eexists. left. unfold seq. cbn [fold_right].
    eapply sem_cat; [split; [exact Hl | reflexivity] |].
    eapply sem_cat; [apply (sem_lit "##"%string pre (c :: post)) |].
    eapply sem_cat; [| apply sem_end].
    apply (sem_many true isSpace [c]); [repeat constructor; exact Hc | simpl; lia | exact I].
  - destruct post as [| c post]; [discriminate |].
    exists (MState (c :: pre) post cp). right. apply sem_class. exact H.
Qed.

Lemma run_lookahead R x :
  run (Cat (Lookahead R) Empty) x =
  match run R x with
  | y :: _ => [MState (before x) (after x) (caps y)]
  | [] => []
  end.
Proof. cbn [run]. destruct (run R x); reflexivity. Qed.

Lemma run_untilNext pre post cp :
  run (Cat reUntilNext Empty) (MState pre post cp) =
  if boundary pre post then [MState pre post cp] else [].
Proof.
  unfold reUntilNext.
  set (R := Or (seq [LineStart; lit "##"; plus space]) (chr 90)).
  rewrite run_lookahead.
  destruct (run R (MState pre post cp)) as [| y l] eqn:E.
  - destruct (boundary pre post) eqn:Eb; [| reflexivity].
    destruct (lookahead_complete pre post cp Eb) as [y Hy].
    destruct (run_complete _ _ _ Hy _ (same_refl _)) as [y' [Hin _]].
    fold R in Hin. rewrite E in Hin. destruct Hin.
  - assert (Hy : sem R (MState pre post cp) y)
      by (apply run_sound; rewrite E; left; reflexivity).
    rewrite (lookahead_sound _ _ Hy : boundary pre post = true).
    rewrite (caps_free R _ _ eq_refl Hy). reflexivity.
Qed.

(** The body of a section ends at the first boundary. *)
Lemma body_first next pre0 cp : forall b done,
  quiet (rev done ++ pre0) b next ->
  boundary (rev (done ++ b) ++ pre0) next = true ->
  hd_error
    (flat_map (run (Cat reUntilNext Empty))
       (List.map
          (fun y => MState (before y) (after y)
                      ((2, consumed (MState pre0 (done ++ b ++ next) cp) y) :: caps y))
          (lazyStates (fun _ => true) (rev done ++ pre0) (b ++ next) cp))) =
  Some (MState (rev (done ++ b) ++ pre0) next ((2, done ++ b) :: cp)).
Proof.
  induction b as [| c b IH]; intros done Hq Hb.
  - rewrite app_nil_r in *. cbn [app].
    destruct next as [| n next']; cbn [lazyStates List.map flat_map before after caps];
      rewrite run_untilNext, Hb; cbn [app hd_error]; f_equal; f_equal; f_equal; f_equal;
      apply ext_consumed; split; cbn [before after]; rewrite ?app_nil_r; reflexivity.
  - cbn [app lazyStates List.map flat_map before after caps].
    rewrite run_untilNext.
    rewrite (Hq [] c b eq_refl : boundary (rev done ++ pre0) (c :: b ++ next) = false).
    cbn [app].
    specialize (IH (done ++ [c])).
    rewrite rev_app_distr in IH. cbn [rev app] in IH.
    rewrite <- !app_assoc in IH. cbn [app] in IH.
    apply IH.
    + intros b1 d b2 E. specialize (Hq (c :: b1) d b2).
      cbn [rev] in Hq. rewrite <- app_assoc in Hq. cbn [app] in Hq.
      apply Hq. rewrite E. reflexivity.
    + exact Hb.
Qed.

Lemma run_reBody pre next cp b :
  quiet pre b next -> boundary (rev b ++ pre) next = true ->
  hd_error (run reBody (MState pre (b ++ next) cp)) =
  Some (MState (rev b ++ pre) next ((2, b) :: cp)).
Proof.
  intros Hq Hb. unfold reBody, seq. cbn [fold_right].
  change (run (Cat (Capture 2 (lazyStar anything)) (Cat reUntilNext Empty))
              (MState pre (b ++ next) cp))
    with (flat_map (run (Cat reUntilNext Empty))
            (List.map
               (fun y => MState (before y) (after y)
                           ((2, consumed (MState pre (b ++ next) cp) y) :: caps y))
               (repeatMatcher (run (Class (fun _ => true))) false
                  (length (b ++ next) + 0 + 1) 0 None (MState pre (b ++ next) cp)))).
  rewrite lazy_class by lia.
  apply (body_first next pre cp b []); assumption.
Qed.

End BoundaryFacts.

Module SegmentFacts.
Import RegexFacts StrFacts SortFacts MatchFacts LangFacts DateFacts
  DateRuleFacts TrimFacts VersionFacts ReplaceFacts StripFacts CleanFacts
  FuelFacts LineFacts PipelineFacts.
Import Positions LineEndings Texts DigestLines DateTexts TitleShapes
  Documents.
Import CompleteFacts InsideFacts BuildFacts BoundaryFacts NewlineFacts.

Lemma plain_not_Z c : plainChar c = true -> N.eqb 90 c = false.
Proof.
  unfold plainChar. intros H. apply andb_true_iff in H. destruct H as [_ H].
  apply negb_true_iff in H. rewrite N.eqb_sym. exact H.
Qed.

Lemma plain_not_terminator c : plainChar c = true -> isLineTerminator c = false.
Proof.
  unfold plainChar. intros H. apply andb_true_iff in H. destruct H as [H _].
  apply negb_true_iff in H. exact H.
Qed.

Lemma plain_not_nl c : plainChar c = true -> c <> 10%N.
Proof. intros H ->. discriminate. Qed.

Lemma quiet_nil pre next : quiet pre [] next.
Proof. intros b1 c b2 E. destruct b1; discriminate. Qed.

Lemma quiet_cons pre c t next :
  boundary pre (c :: t ++ next) = false -> quiet (c :: pre) t next ->
  quiet pre (c :: t) next.
Proof.
  intros H0 Ht b1 d b2 E. destruct b1 as [| e b1].
  - inversion E; subst. exact H0.
  - inversion E; subst. specialize (Ht b1 d b2 eq_refl).
    cbn [rev]. rewrite <- app_assoc. exact Ht.
Qed.

Lemma quiet_app pre : forall a b next,
  quiet pre a (b ++ next) -> quiet (rev a ++ pre) b next ->
  quiet pre (a ++ b) next.
Proof.
  intros a. revert pre. induction a as [| c a IH]; intros pre b next Ha Hb.
  - exact Hb.
  - cbn [app]. apply quiet_cons.
    + rewrite <- app_assoc. exact (Ha [] c a eq_refl).
    + apply IH.
      * intros b1 d b2 E. specialize (Ha (c :: b1) d b2).
        cbn [rev] in Ha. rewrite <- app_assoc in Ha. apply Ha. rewrite E. reflexivity.
      * cbn [rev] in Hb. rewrite <- app_assoc in Hb. exact Hb.
Qed.

Lemma boundary_inner d pre c post :
  isLineTerminator d = false -> N.eqb 90 c = false ->
  boundary (d :: pre) (c :: post) = false.
Proof. intros Hd Hc. unfold boundary, lineStartAt. rewrite Hd, Hc. reflexivity. Qed.

(** Inside a line nothing is a boundary. *)
Lemma quiet_inner : forall t d pre next,
  isLineTerminator d = false -> plain t -> quiet (d :: pre) (t ++ nl) next.
Proof.
  induction t as [| c t IH]; intros d pre next Hd Ht.
  - apply quiet_cons; [| apply quiet_nil]. apply boundary_inner; [exact Hd | reflexivity].
  - inversion Ht; subst. cbn [app]. apply quiet_cons.
    + apply boundary_inner; [exact Hd | apply plain_not_Z; assumption].
    + apply IH; [apply plain_not_terminator; assumption | assumption].
Qed.

Lemma startsHeading_line l next :
  startsHeading (l ++ nl ++ next) = startsSection l.
Proof.
  destruct l as [| a [| b [| c l]]]; cbn [app nl startsHeading startsSection].
  - destruct next as [| n1 [| n2 next]]; reflexivity.
  - destruct next as [| n1 next]; [reflexivity |].
    change (N.eqb 10 35) with false. rewrite andb_false_r. reflexivity.
  - change (isSpace 10) with true. rewrite andb_true_r. reflexivity.
  - reflexivity.
Qed.

Lemma quiet_line pre l next : wfLine l -> quiet pre (l ++ nl) next.
Proof.
  intros [Hp Hs].
  assert (H0 : boundary pre ((l ++ nl) ++ next) = false).
  { unfold boundary. rewrite <- app_assoc, startsHeading_line, Hs, andb_false_r.
    destruct l as [| c l]; [reflexivity |]. inversion Hp; subst.
    cbn [app]. apply plain_not_Z. assumption. }
  destruct l as [| c l].
  - apply quiet_cons; [exact H0 | apply quiet_nil].
  - inversion Hp; subst. cbn [app]. apply quiet_cons; [exact H0 |].
    apply quiet_inner; [apply plain_not_terminator; assumption | assumption].
Qed.

Lemma quiet_body : forall lines pre next,
  Forall wfLine lines -> quiet pre (bodyOf lines) next.
Proof.
  induction lines as [| l lines IH]; intros pre next F; [apply quiet_nil |].
  inversion F; subst. cbn [bodyOf flat_map]. fold (bodyOf lines).
  apply quiet_app; [apply quiet_line; assumption | apply IH; assumption].
Qed.

Lemma headLine_eq (h rest : str) :
  js "## " ++ h ++ nl ++ rest = js "##" ++ [32%N] ++ h ++ [10%N] ++ rest.
Proof. reflexivity. Qed.

Lemma sectionText_split s :
  sectionText s = (js "## " ++ fst s ++ nl) ++ bodyOf (snd s).
Proof. unfold sectionText. rewrite <- !app_assoc. reflexivity. Qed.

Lemma bodyOf_ends : forall lines,
  lines <> [] -> exists t, bodyOf lines = t ++ nl.
Proof.
  induction lines as [| l lines IH]; intros Hn; [congruence |].
  cbn [bodyOf flat_map]. fold (bodyOf lines). destruct lines as [| l' lines].
  - exists l. cbn [bodyOf flat_map]. apply app_nil_r.
  - destruct IH as [t Et]; [discriminate |]. rewrite Et.
    exists ((l ++ nl) ++ t). rewrite <- !app_assoc. reflexivity.
Qed.

Lemma sectionText_ends s : exists t, sectionText s = t ++ nl.
Proof.
  unfold sectionText. destruct (snd s) as [| l lines] eqn:E.
  - exists (js "## " ++ fst s). cbn [bodyOf flat_map]. rewrite app_nil_r, app_assoc. reflexivity.
  - destruct (bodyOf_ends (l :: lines)) as [t Et]; [discriminate |].
    rewrite Et. exists (js "## " ++ fst s ++ nl ++ t). rewrite <- !app_assoc. reflexivity.
Qed.

Lemma after_section_lineStart s pre : lineStartAt (rev (sectionText s) ++ pre) = true.
Proof.
  destruct (sectionText_ends s) as [t ->]. rewrite rev_app_distr. reflexivity.
Qed.

Lemma boundary_at_section s rest pre :
  boundary (rev (sectionText s) ++ pre) (sectionText rest) = true.
Proof.
  unfold boundary. rewrite after_section_lineStart. reflexivity.
Qed.

(** Nothing after its first character is a boundary in a section. *)
Lemma quiet_section s pre :
  wfSection s ->
  quiet (35%N :: pre) (js "# " ++ fst s ++ nl ++ bodyOf (snd s)) [].
Proof.
  intros [[Hp Hh] Hl].
  change (js "# " ++ fst s ++ nl ++ bodyOf (snd s))
    with ((35%N :: 32%N :: fst s) ++ nl ++ bodyOf (snd s)).
  rewrite app_assoc. apply quiet_app.
  - apply quiet_inner; [reflexivity |].
    constructor; [reflexivity | constructor; [reflexivity | exact Hp]].
  - apply quiet_body. exact Hl.
Qed.

Lemma sem_seqThen tail : forall l x y,
  sem (seqThen l tail) x y -> exists z, sem (seq l) x z /\ sem tail z y.
Proof.
  induction l as [| r l IH]; intros x y H.
  - exists x. split; [reflexivity | exact H].
  - cbn [seqThen fold_right] in H. destruct H as [z1 [H1 H2]].
    destruct (IH _ _ H2) as [z [Hz Ht]]. exists z. split; [| exact Ht].
    exists z1. auto.
Qed.

(** A match of a section pattern starts at a boundary and ends at one,
    further on. *)
Lemma section_ends r front x y :
  r = seqThen (LineStart :: lit "##" :: plus space :: front) reBody ->
  sem r x y ->
  boundary (before x) (after x) = true /\
  boundary (before y) (after y) = true /\
  exists w, ext x w y /\ w <> [].
Proof.
  intros -> H. pose proof H as H0.
  apply sem_seqThen in H. destruct H as [z [Hz Hb]].
  unfold seq in Hz. cbn [fold_right] in Hz.
  destruct Hz as [z1 [[Hs ->] [z2 [H2 [z3 [H3 _]]]]]].
  split; [| split].
  - apply (lookahead_sound x z3). left. unfold seq. cbn [fold_right].
    exists x. split; [split; [exact Hs | reflexivity] |].
    exists z2. split; [exact H2 |]. exists z3. split; [exact H3 | reflexivity].
  - unfold reBody, seq in Hb. cbn [fold_right] in Hb.
    destruct Hb as [z4 [_ [z5 [[z6 [H6 ->]] ->]]]]. cbn [before after].
    eapply lookahead_sound. exact H6.
  - destruct (sem_lang _ _ _ H0) as [w [X L]]. exists w. split; [exact X |].
    cbn [seqThen fold_right] in L. eapply section_heading_nonempty. exact L.
Qed.

(** Where no boundary follows the first character, a section pattern
    finds nothing. *)
Lemma no_section r front pre c0 text :
  r = seqThen (LineStart :: lit "##" :: plus space :: front) reBody ->
  quiet (c0 :: pre) text [] ->
  searchFrom r pre (c0 :: text) = None.
Proof.
  intros Hr Hq. destruct (searchFrom r pre (c0 :: text)) as [m |] eqn:E; [| reflexivity].
  exfalso. apply searchFrom_sound in E.
  destruct E as [sk [post' [y [Hp [Hs _]]]]].
  destruct (section_ends _ _ _ _ Hr Hs) as [Bx [By [w [[Xb Xa] Hw]]]].
  cbn [before after] in *.
  assert (Q : forall b1 c b2, c0 :: text = b1 ++ c :: b2 -> b1 <> [] ->
                boundary (rev b1 ++ pre) (c :: b2) = false).
  { intros b1 c b2 Eb Hb. destruct b1 as [| d b1]; [congruence |].
    inversion Eb; subst. specialize (Hq b1 c b2 eq_refl).
    cbn [rev]. rewrite <- app_assoc. rewrite app_nil_r in Hq. exact Hq. }
  destruct sk as [| d sk].
  - simpl in Hp. subst post'. rewrite Xb in By. simpl in By.
    destruct (after y) as [| c b2] eqn:Ea.
    + unfold boundary in By. rewrite andb_false_r in By. discriminate.
    + rewrite (Q w c b2 Xa Hw) in By. discriminate.
  - destruct post' as [| c b2].
    + unfold boundary in Bx. rewrite andb_false_r in Bx. discriminate.
    + rewrite (Q (d :: sk) c b2 Hp) in Bx; [discriminate | discriminate].
Qed.

Lemma no_section_empty r front pre :
  r = seqThen (LineStart :: lit "##" :: plus space :: front) reBody ->
  searchFrom r pre [] = None.
Proof.
  intros Hr. destruct (searchFrom r pre []) as [m |] eqn:E; [| reflexivity].
  exfalso. apply searchFrom_sound in E.
  destruct E as [sk [post' [y [Hp [Hs _]]]]].
  destruct (section_ends _ _ _ _ Hr Hs) as [Bx _].
  destruct sk; [| discriminate]. simpl in Hp. subst post'.
  cbn [before after] in Bx. unfold boundary in Bx. rewrite andb_false_r in Bx.
  discriminate.
Qed.

Lemma last_section_none r front pre s :
  r = seqThen (LineStart :: lit "##" :: plus space :: front) reBody ->
  wfSection s -> searchFrom r pre (sectionText s) = None.
Proof.
  intros Hr Hs. unfold sectionText.
  change (js "## " ++ fst s ++ nl ++ bodyOf (snd s))
    with (35%N :: (js "# " ++ fst s ++ nl ++ bodyOf (snd s))).
  eapply no_section; [exact Hr |]. apply quiet_section. exact Hs.
Qed.

(** The loop over the sections of a document: a match for every section
    but the last. *)
Lemma segment_loop r front (G : str * list str -> result -> Prop) :
  r = seqThen (LineStart :: lit "##" :: plus space :: front) reBody ->
  (forall pre s next,
     lineStartAt pre = true -> wfSection s ->
     boundary (rev (sectionText s) ++ pre) next = true ->
     exists m, searchFrom r pre (sectionText s ++ next) = Some m /\ G s m /\
               passed m = rev (sectionText s) ++ pre /\ rest m = next /\
               whole m <> []) ->
  forall secs fuel pre,
    Forall wfSection secs -> lineStartAt pre = true ->
    length (document secs) < fuel ->
    Forall2 G (removelast secs) (matchesFrom r false fuel pre (document secs)).
Proof.
  intros Hr Hstep. induction secs as [| s secs IH]; intros fuel pre F Hl Hf.
  - destruct fuel as [| fuel]; [simpl in Hf; lia |].
    cbn [document flat_map matchesFrom]. rewrite (no_section_empty _ _ _ Hr).
    constructor.
  - pose proof (Forall_inv F) as Hs. pose proof (Forall_inv_tail F) as F'.
    destruct fuel as [| fuel]; [simpl in Hf; lia |].
    destruct secs as [| s2 secs].
    + cbn [document flat_map matchesFrom]. rewrite app_nil_r.
      rewrite (last_section_none _ _ _ _ Hr Hs). constructor.
    + change (document (s :: s2 :: secs))
        with (sectionText s ++ document (s2 :: secs)) in *.
      destruct (Hstep pre s (document (s2 :: secs)) Hl Hs) as [m [Em [Hg [Hp [Hrest Hw]]]]].
      { cbn [document flat_map]. unfold boundary.
        rewrite after_section_lineStart. reflexivity. }
      cbn [matchesFrom]. rewrite Em.
      change (removelast (s :: s2 :: secs)) with (s :: removelast (s2 :: secs)).
      constructor; [exact Hg |].
      destruct (whole m) as [| c w]; [congruence |].
      rewrite Hp, Hrest. apply IH.
      * exact F'.
      * apply after_section_lineStart.
      * rewrite length_app in Hf.
        assert (1 <= length (sectionText s))
          by (unfold sectionText; rewrite length_app; simpl; lia).
        lia.
Qed.

End SegmentFacts.

Module ReleaseSegmentFacts.
Import RegexFacts StrFacts SortFacts MatchFacts LangFacts DateFacts
  DateRuleFacts TrimFacts VersionFacts ReplaceFacts StripFacts CleanFacts
  FuelFacts LineFacts PipelineFacts.
Import Positions LineEndings Texts DigestLines DateTexts TitleShapes
  Documents SectionPatterns.
Import CompleteFacts InsideFacts BuildFacts BoundaryFacts NewlineFacts
  SegmentFacts.

Lemma reReleaseSection_shape : reReleaseSection = sectionPattern releaseFront.
Proof. reflexivity. Qed.

Lemma reSecuritySection_shape : reSecuritySection = sectionPattern securityFront.
Proof. reflexivity. Qed.

Lemma hd_app (A : Type) (l1 l2 : list A) y :
  hd_error l1 = Some y -> hd_error (l1 ++ l2) = Some y.
Proof. destruct l1; [discriminate | auto]. Qed.

Lemma plain_oneLine h : plain h -> Forall (fun c => negb (N.eqb c 10) = true) h.
Proof.
  intros H. eapply Forall_impl; [| exact H]. intros c Hc. cbv beta in Hc.
  apply negb_true_iff. apply N.eqb_neq. apply plain_not_nl. exact Hc.
Qed.

(** The marker, the blank and what follows them at the start of a
    section: the states after "## ". *)
Lemma marker_unique pre h rest z3 :
  wfHeading h ->
  sem (seq [LineStart; lit "##"; plus space])
      (MState pre (js "## " ++ h ++ rest) []) z3 ->
  z3 = MState (rev (js "## ") ++ pre) (h ++ rest) [].
Proof.
  intros [Hp Hh] H. unfold seq in H. cbn [fold_right] in H.
  destruct H as [z1 [[_ ->] [z2 [H2 [z3' [H3 ->]]]]]].
  destruct (sem_lang (lit "##") _ _ H2) as [w2 [[B2 A2] L2]].
  apply lang_lit in L2. subst w2.
  pose proof (caps_free (lit "##") _ _ eq_refl H2) as K2.
  destruct (sem_lang (plus space) _ _ H3) as [w3 [[B3 A3] L3]].
  pose proof (caps_free (plus space) _ _ eq_refl H3) as K3.
  apply lang_plus in L3. destruct L3 as [F3 N3].
  cbn [before after caps] in *.
  change (js "## " ++ h ++ rest) with (js "##" ++ 32%N :: h ++ rest) in A2.
  apply app_inv_head in A2. rewrite A3 in A2.
  destruct h as [| c0 h]; [contradiction |].
  destruct w3 as [| s1 w3]; [simpl in N3; lia |].
  destruct w3 as [| s2 w3].
  - cbn [app] in A2. inversion A2; subst.
    destruct z3' as [bz az cz]. cbn [before after caps] in *. subst.
    rewrite B2, K2. reflexivity.
  - cbn [app] in A2. inversion A2; subst.
    inversion F3 as [| ? ? _ F3']; subst. inversion F3'; subst. congruence.
Qed.

Lemma marker_exists pre text :
  lineStartAt pre = true ->
  sem (seq [LineStart; lit "##"; plus space])
      (MState pre (js "## " ++ text) [])
      (MState (rev (js "## ") ++ pre) text []).
Proof.
  intros Hl. unfold seq. cbn [fold_right].
  eapply sem_cat; [split; [exact Hl | reflexivity] |].
  eapply sem_cat; [apply (sem_lit "##"%string pre (32%N :: text)) |].
  eapply sem_cat; [| apply sem_end].
  apply (sem_many true isSpace [32%N]); [repeat constructor | simpl; lia | exact I].
Qed.

Lemma sem_seq_app : forall l1 l2 x y,
  sem (seq (l1 ++ l2)) x y <-> exists z, sem (seq l1) x z /\ sem (seq l2) z y.
Proof.
  induction l1 as [| r l1 IH]; intros l2 x y.
  - cbn [app]. split.
    + intros H. exists x. split; [reflexivity | exact H].
    + intros [z [Hz H]]. unfold seq in Hz. cbn [fold_right sem] in Hz. subst z. exact H.
  - cbn [app]. unfold seq. cbn [fold_right]. fold (seq (l1 ++ l2)). fold (seq l1).
    split.
    + intros [z1 [H1 H2]]. apply IH in H2. destruct H2 as [z [Hz H]].
      exists z. split; [exists z1; auto | exact H].
    + intros [z [[z1 [H1 Hz]] H]]. exists z1. split; [exact H1 |].
      apply IH. exists z. auto.
Qed.

(** The front of the release pattern at the start of a section: one
    state only, after the heading line, holding the heading. *)
Lemma release_front_unique pre h rest c :
  wfHeading h ->
  sem (seq ([LineStart; lit "##"; plus space] ++ releaseFront))
      (MState pre (js "## " ++ h ++ nl ++ rest) []) c ->
  c = MState (rev (js "## " ++ h ++ nl) ++ pre) rest [(1, h)].
Proof.
  intros Hh H. apply sem_seq_app in H. destruct H as [z3 [Hm Hf]].
  apply marker_unique in Hm; [| exact Hh]. subst z3.
  destruct Hh as [Hp Hh].
  unfold releaseFront, seq in Hf. cbn [fold_right] in Hf.
  destruct Hf as [z4 [[z [H4 ->]] [z5 [H5 ->]]]].
  destruct (sem_lang (plus (noneOf 10)) _ _ H4) as [w4 [X4 L4]].
  pose proof (ext_consumed _ _ _ X4) as C4. destruct X4 as [B4 A4].
  pose proof (caps_free (plus (noneOf 10)) _ _ eq_refl H4) as K4.
  apply lang_plus in L4. destruct L4 as [F4 N4].
  destruct H5 as [c5 [r5 [A5 [Hc5 ->]]]].
  cbn [before after caps] in *. apply N.eqb_eq in Hc5. subst c5.
  assert (U : h = w4 /\ nl ++ rest = after z).
  { apply (span_unique (fun c => negb (N.eqb c 10))).
    - rewrite <- A4. reflexivity.
    - apply plain_oneLine. exact Hp.
    - exact F4.
    - reflexivity.
    - rewrite A5. reflexivity. }
  destruct U as [U1 U2]. rewrite <- U1 in *. clear U1.
  rewrite A5 in U2. inversion U2; subst r5.
  unfold advance. cbn [before after caps]. rewrite B4, C4, K4.
  f_equal. rewrite !rev_app_distr. cbn [rev nl app]. rewrite <- !app_assoc. reflexivity.
Qed.

Lemma release_front_exists pre h rest :
  lineStartAt pre = true -> wfHeading h ->
  exists c, sem (seq ([LineStart; lit "##"; plus space] ++ releaseFront))
                (MState pre (js "## " ++ h ++ nl ++ rest) []) c.
Proof.
  intros Hl [Hp Hh]. eexists. apply sem_seq_app. eexists. split.
  - apply marker_exists. exact Hl.
  - unfold releaseFront, seq. cbn [fold_right].
    eapply sem_cat.
    { apply (sem_capture 1). apply sem_many; [apply plain_oneLine; exact Hp | | exact I].
      destruct h; [contradiction | simpl; lia]. }
    eapply sem_cat; [apply sem_chr | apply sem_end].
Qed.

(** The section pattern at the start of a section that another follows:
    the match is the section. *)
Lemma section_match front pre s next (G : result -> Prop) :
  lineStartAt pre = true -> wfSection s ->
  boundary (rev (sectionText s) ++ pre) next = true ->
  (exists c, sem (seq ([LineStart; lit "##"; plus space] ++ front))
                 (MState pre (sectionText s ++ next) []) c) ->
  (forall c, sem (seq ([LineStart; lit "##"; plus space] ++ front))
                 (MState pre (sectionText s ++ next) []) c ->
     exists y, hd_error (run reBody c) = Some y /\
       before y = rev (sectionText s) ++ pre /\ after y = next /\
       G (Result (length pre) (sectionText s) (caps y) (before y) (after y))) ->
  exists m, searchFrom (sectionPattern front) pre (sectionText s ++ next) = Some m /\
            G m /\ passed m = rev (sectionText s) ++ pre /\ rest m = next /\
            whole m <> [].
Proof.
  intros Hl Hs Hb [c0 Hc0] Hall.
  set (x0 := MState pre (sectionText s ++ next) []).
  assert (R : run (sectionPattern front) x0 =
              flat_map (run reBody)
                (run (seq ([LineStart; lit "##"; plus space] ++ front)) x0)).
  { unfold sectionPattern. apply run_seqThen. }
  destruct (run_complete _ _ _ Hc0 _ (same_refl _)) as [c1 [Hin _]].
  fold x0 in Hin.
  destruct (run (seq ([LineStart; lit "##"; plus space] ++ front)) x0)
    as [| c L] eqn:EL; [destruct Hin |].
  assert (Hc : sem (seq ([LineStart; lit "##"; plus space] ++ front)) x0 c)
    by (apply run_sound; rewrite EL; left; reflexivity).
  destruct (Hall c Hc) as [y [Hy [By [Ay Gy]]]].
  assert (Hhd : hd_error (run (sectionPattern front) x0) = Some y).
  { rewrite R. cbn [flat_map]. apply hd_app. exact Hy. }
  rewrite (searchFrom_hd _ _ _ _ Hhd).
  assert (C : consumed x0 y = sectionText s)
    by (apply ext_consumed; split; [exact By | rewrite Ay; reflexivity]).
  eexists. split; [reflexivity |]. unfold x0 in C. cbn [passed rest whole].
  rewrite C.
  split; [exact Gy | split; [exact By | split; [exact Ay |]]].
  unfold sectionText. discriminate.
Qed.

Lemma release_section_match pre s next :
  lineStartAt pre = true -> wfSection s ->
  boundary (rev (sectionText s) ++ pre) next = true ->
  exists m, searchFrom reReleaseSection pre (sectionText s ++ next) = Some m /\
            holds s m /\ passed m = rev (sectionText s) ++ pre /\ rest m = next /\
            whole m <> [].
Proof.
  intros Hl Hs Hb. rewrite reReleaseSection_shape.
  assert (E : sectionText s ++ next =
              js "## " ++ fst s ++ nl ++ (bodyOf (snd s) ++ next)).
  { unfold sectionText. rewrite <- !app_assoc. reflexivity. }
  apply section_match; auto.
  - rewrite E. apply release_front_exists; [exact Hl | apply Hs].
  - intros c Hc. rewrite E in Hc.
    apply release_front_unique in Hc; [| apply Hs]. subst c.
    assert (P : rev (bodyOf (snd s)) ++ rev (js "## " ++ fst s ++ nl) ++ pre =
                rev (sectionText s) ++ pre).
    { rewrite sectionText_split.
      rewrite (rev_app_distr (js "## " ++ fst s ++ nl) (bodyOf (snd s))).
      rewrite <- app_assoc. reflexivity. }
    eexists. split; [apply run_reBody |].
    + apply quiet_body. apply Hs.
    + rewrite P. exact Hb.
    + cbn [before after caps]. split; [exact P | split; [reflexivity |]].
      split; reflexivity.
Qed.

Lemma plainChar_not_CR c : plainChar c = true -> c <> 13%N.
Proof. intros H ->. discriminate. Qed.

Lemma bodyOf_noCR lines : Forall wfLine lines -> noCR (bodyOf lines).
Proof.
  induction 1 as [| l lines [Hp _] _ IH]; [constructor |].
  cbn [bodyOf flat_map]. apply Forall_app. split; [| exact IH].
  apply Forall_app. split; [| repeat constructor; discriminate].
  eapply Forall_impl; [| exact Hp]. intros c. apply plainChar_not_CR.
Qed.

Lemma document_noCR secs : Forall wfSection secs -> noCR (document secs).
Proof.
  induction 1 as [| s secs [[Hp _] Hl] _ IH]; [constructor |].
  cbn [document flat_map]. apply Forall_app. split; [| exact IH].
  unfold sectionText. repeat (apply Forall_app; split).
  - repeat constructor; discriminate.
  - eapply Forall_impl; [| exact Hp]. intros c. apply plainChar_not_CR.
  - repeat constructor; discriminate.
  - apply bodyOf_noCR. exact Hl.
Qed.

Lemma Forall2_map (A B C : Type) (G : A -> B -> Prop) (f : B -> C) (g : A -> C) :
  (forall a b, G a b -> f b = g a) ->
  forall la lb, Forall2 G la lb -> List.map f lb = List.map g la.
Proof.
  intros H la lb F. induction F as [| a b la lb Hab _ IH]; [reflexivity |].
  cbn [List.map]. rewrite IH, (H _ _ Hab). reflexivity.
Qed.

(** The sections of a well-formed document, as the release loop sees
    them: all but the last. *)
Theorem release_sections secs :
  Forall wfSection secs ->
  releaseBlocks (document secs) =
  List.map (fun s => releaseOfSection (fst s) (bodyOf (snd s))) (removelast secs).
Proof.
  intros F. unfold releaseBlocks.
  rewrite normalize_is_unixLines, (unixLines_fixed _ (document_noCR _ F)).
  unfold execLoop.
  apply (Forall2_map _ _ _ holds).
  - intros s m [G1 G2]. unfold releaseOfMatch, releaseOfSection. cbv zeta.
    rewrite G1, G2. reflexivity.
  - apply (segment_loop reReleaseSection releaseFront holds reReleaseSection_shape).
    + intros pre s next. apply release_section_match.
    + exact F.
    + reflexivity.
    + lia.
Qed.

End ReleaseSegmentFacts.

Module SecuritySegmentFacts.
Import RegexFacts StrFacts SortFacts MatchFacts LangFacts DateFacts
  DateRuleFacts TrimFacts VersionFacts ReplaceFacts StripFacts CleanFacts
  FuelFacts LineFacts PipelineFacts.
Import Positions LineEndings Texts DigestLines DateTexts TitleShapes
  Documents SectionPatterns SecuritySections.
Import CompleteFacts InsideFacts BuildFacts BoundaryFacts NewlineFacts
  SegmentFacts ReleaseSegmentFacts.

Lemma announcementOfMatch_section dp m :
  announcementOfMatch dp m =
  announcementOfSection dp (trim (group' 1 m)) (trim (group' 2 m)).
Proof. reflexivity. Qed.

(** A run of a class cannot pass a character outside the class. *)
Lemma run_shorter (p : char -> bool) : forall (w r h : str) c r',
  Forall (fun d => p d = true) w -> w ++ r = h ++ c :: r' -> p c = false ->
  length w <= length h.
Proof.
  induction w as [| d w IH]; intros r h c r' F E Hc; [simpl; lia |].
  destruct h as [| e h].
  - simpl in E. inversion E; subst. inversion F; subst. congruence.
  - simpl in E. inversion E; subst. inversion F; subst.
    simpl. apply le_n_S. eapply IH; eauto.
Qed.

Lemma prefix_split (A : Type) : forall (a b c d : list A),
  a ++ b = c ++ d -> length a <= length c -> exists t, c = a ++ t /\ b = t ++ d.
Proof.
  induction a as [| x a IH]; intros b c d E L.
  - exists c. auto.
  - destruct c as [| y c]; [simpl in L; lia |].
    simpl in E. inversion E; subst. simpl in L.
    destruct (IH b c d H1) as [t [-> ->]]; [lia |].
    exists t. auto.
Qed.

Lemma dropWhile_app_all (p : char -> bool) (u s : str) :
  Forall (fun c => p c = true) u -> dropWhile p (u ++ s) = dropWhile p s.
Proof.
  induction 1 as [| c u Hc _ IH]; [reflexivity |]. simpl. rewrite Hc. exact IH.
Qed.

Lemma trim_spaces_front u s :
  Forall (fun c => isSpace c = true) u -> trim (u ++ s) = trim s.
Proof.
  intros F. unfold trim, trimStart. rewrite dropWhile_app_all by exact F. reflexivity.
Qed.

Lemma Forall_rev' (P : char -> Prop) (l : str) : Forall P l -> Forall P (rev l).
Proof.
  intros H. apply Forall_forall. intros c Hc. rewrite Forall_forall in H.
  apply H, in_rev. exact Hc.
Qed.

Lemma trim_spaces_back w u :
  headOK w -> w <> [] -> Forall (fun c => isSpace c = true) u ->
  trim (w ++ u) = trim w.
Proof.
  intros Hh Hn F. unfold trim, trimStart.
  assert (E1 : dropWhile isSpace (w ++ u) = w ++ u).
  { destruct w as [| c w]; [congruence |]. simpl in *. rewrite Hh. reflexivity. }
  rewrite E1, (dropWhile_fixed isSpace w Hh). unfold trimEnd.
  rewrite rev_app_distr, dropWhile_app_all by (apply Forall_rev'; exact F).
  reflexivity.
Qed.

Lemma quiet_suffix pre u b next :
  quiet pre (u ++ b) next -> quiet (rev u ++ pre) b next.
Proof.
  intros H b1 c b2 E. specialize (H (u ++ b1) c b2).
  rewrite rev_app_distr in H. rewrite <- (app_assoc (rev b1) (rev u) pre) in H.
  apply H. rewrite E, <- app_assoc. reflexivity.
Qed.

Lemma boundary_head pre next :
  boundary pre next = true ->
  exists n0 next', next = n0 :: next' /\ isSpace n0 = false.
Proof.
  unfold boundary. intros H. apply orb_true_iff in H. destruct H as [H | H].
  - apply andb_true_iff in H. destruct H as [_ H].
    destruct next as [| a [| b [| c next']]]; try discriminate.
    simpl in H. apply andb_true_iff in H. destruct H as [H _].
    apply andb_true_iff in H. destruct H as [H _]. apply N.eqb_eq in H. subst a.
    eexists. eexists. split; reflexivity.
  - destruct next as [| c next']; [discriminate |].
    apply N.eqb_eq in H. subst c. eexists. eexists. split; reflexivity.
Qed.

(** The front of the security pattern at the start of a section: the
    states it can reach hold the heading up to white space, and stand
    in the white space that opens the body. *)
Lemma security_front pre h b next c :
  wfHeading h -> (exists n0 next', next = n0 :: next' /\ isSpace n0 = false) ->
  sem (seq ([LineStart; lit "##"; plus space] ++ securityFront))
      (MState pre (js "## " ++ h ++ nl ++ b ++ next) []) c ->
  exists g u b',
    b = u ++ b' /\ Forall (fun d => isSpace d = true) u /\
    trim g = trim h /\
    c = MState (rev (js "## " ++ h ++ nl ++ u) ++ pre) (b' ++ next) [(1, g)].
Proof.
  intros Hh [n0 [next' [En Hn0]]] H. pose proof H as H0.
  apply sem_seq_app in H. destruct H as [z3 [Hm Hf]].
  apply marker_unique in Hm; [| exact Hh]. subst z3.
  destruct Hh as [Hp Hh].
  unfold securityFront, seq in Hf. cbn [fold_right] in Hf.
  destruct Hf as [z4 [[z [H4 ->]] [z5 [H5 [z6 [H6 ->]]]]]].
  destruct (sem_lang (lazyPlus (noneOf 10)) _ _ H4) as [w4 [X4 L4]].
  pose proof (ext_consumed _ _ _ X4) as C4. destruct X4 as [B4 A4].
  pose proof (caps_free (lazyPlus (noneOf 10)) _ _ eq_refl H4) as K4.
  apply lang_repeat_class in L4. destruct L4 as [F4 [N4 _]]. simpl in N4.
  destruct (sem_lang (star space) _ _ H5) as [w5 [[B5 A5] L5]].
  pose proof (caps_free (star space) _ _ eq_refl H5) as K5.
  apply lang_star in L5.
  destruct H6 as [c6 [r6 [A6 [Hc6 ->]]]].
  cbn [before after caps] in *. apply N.eqb_eq in Hc6. subst c6.
  rewrite A5, A6 in A4.
  (* the heading *)
  assert (L1 : length w4 <= length h).
  { apply (run_shorter (fun c => negb (N.eqb c 10)) w4 (w5 ++ 10%N :: r6) h 10%N
             (b ++ next)); [exact F4 | symmetry; exact A4 | reflexivity]. }
  destruct (prefix_split _ w4 (w5 ++ 10%N :: r6) h (nl ++ b ++ next)) as [hr [Eh E1]];
    [symmetry; exact A4 | exact L1 |].
  assert (Fhr : Forall (fun c => negb (N.eqb c 10) = true) hr).
  { apply plain_oneLine in Hp. rewrite Eh in Hp. apply Forall_app in Hp. tauto. }
  assert (L2 : length hr <= length w5).
  { apply (run_shorter (fun c => negb (N.eqb c 10)) hr (nl ++ b ++ next) w5 10%N r6);
      [exact Fhr | symmetry; exact E1 | reflexivity]. }
  destruct (prefix_split _ hr (nl ++ b ++ next) w5 (10%N :: r6)) as [t [Ew5 E2]];
    [symmetry; exact E1 | exact L2 |].
  assert (Ft : Forall (fun c => isSpace c = true) t)
    by (rewrite Ew5 in L5; apply Forall_app in L5; tauto).
  assert (Fh : Forall (fun c => isSpace c = true) hr)
    by (rewrite Ew5 in L5; apply Forall_app in L5; tauto).
  (* the white space that opens the body *)
  assert (U : exists u b', b = u ++ b' /\ Forall (fun d => isSpace d = true) u /\
                           r6 = b' ++ next).
  { destruct t as [| t0 t].
    - exists [], b. simpl in E2. inversion E2; subst. auto.
    - simpl in E2. inversion E2 as [[Et0 E3]]. subst t0.
      inversion Ft as [| ? ? _ Ft']; subst.
      assert (Fu : Forall (fun d => isSpace d = true) (t ++ [10%N])).
      { apply Forall_app. split; [exact Ft' | repeat constructor]. }
      assert (E4 : (t ++ [10%N]) ++ r6 = b ++ n0 :: next').
      { rewrite <- app_assoc. simpl. symmetry. exact E3. }
      pose proof (run_shorter isSpace _ _ _ _ _ Fu E4 Hn0) as L3.
      destruct (prefix_split _ _ _ _ _ E4 L3) as [b' [Eb Er]].
      exists (t ++ [10%N]), b'. auto. }
  destruct U as [u [b' [Eb [Fu Er]]]].
  exists w4, u, b'. split; [exact Eb | split; [exact Fu | split]].
  - rewrite Eh. symmetry. apply trim_spaces_back; [| | exact Fh].
    + destruct h as [| h0 h]; [contradiction |]. destruct w4 as [| g0 w4]; [simpl in N4; lia |].
      simpl in Eh. inversion Eh; subst. exact Hh.
    + destruct w4; [simpl in N4; lia | discriminate].
  - pose proof (sem_input _ _ _ H0) as Hi. unfold input, advance in Hi.
    cbn [before after caps] in Hi. unfold advance. cbn [before after caps].
    rewrite K5, K4, C4.
    assert (Hrev : rev (10%N :: before z5) = rev pre ++ js "## " ++ h ++ nl ++ u).
    { apply (app_inv_tail (b' ++ next)). rewrite <- Er. etransitivity; [exact Hi |].
      rewrite Eb, Er. repeat rewrite <- app_assoc. reflexivity. }
    apply (f_equal (@rev _)) in Hrev. rewrite rev_involutive in Hrev.
    f_equal; [| exact Er].
    etransitivity; [exact Hrev |]. rewrite rev_app_distr, rev_involutive. reflexivity.
Qed.

Lemma security_front_exists pre h rest :
  lineStartAt pre = true -> wfHeading h ->
  exists c, sem (seq ([LineStart; lit "##"; plus space] ++ securityFront))
                (MState pre (js "## " ++ h ++ nl ++ rest) []) c.
Proof.
  intros Hl [Hp Hh]. eexists. apply sem_seq_app. eexists. split.
  - apply marker_exists. exact Hl.
  - unfold securityFront, seq. cbn [fold_right].
    eapply sem_cat.
    { apply (sem_capture 1). apply sem_many; [apply plain_oneLine; exact Hp | | exact I].
      destruct h; [contradiction | simpl; lia]. }
    eapply sem_cat; [apply sem_skip |].
    eapply sem_cat; [apply sem_chr | apply sem_end].
Qed.

Lemma security_section_match pre s next :
  lineStartAt pre = true -> wfSection s ->
  boundary (rev (sectionText s) ++ pre) next = true ->
  exists m, searchFrom reSecuritySection pre (sectionText s ++ next) = Some m /\
            holdsTrimmed s m /\ passed m = rev (sectionText s) ++ pre /\
            rest m = next /\ whole m <> [].
Proof.
  intros Hl Hs Hb. rewrite reSecuritySection_shape.
  assert (E : sectionText s ++ next =
              js "## " ++ fst s ++ nl ++ bodyOf (snd s) ++ next).
  { unfold sectionText. rewrite <- !app_assoc. reflexivity. }
  apply section_match; auto.
  - rewrite E. apply security_front_exists; [exact Hl | apply Hs].
  - intros c Hc. rewrite E in Hc.
    apply security_front in Hc; [| apply Hs | eapply boundary_head; exact Hb].
    destruct Hc as [g [u [b' [Eb [Fu [Eg ->]]]]]].
    assert (P : rev b' ++ rev (js "## " ++ fst s ++ nl ++ u) ++ pre =
                rev (sectionText s) ++ pre).
    { unfold sectionText. rewrite Eb.
      rewrite app_assoc, <- rev_app_distr. f_equal. f_equal.
      rewrite <- !app_assoc. reflexivity. }
    eexists. split; [apply run_reBody |].
    + replace (rev (js "## " ++ fst s ++ nl ++ u) ++ pre)
        with (rev u ++ rev (js "## " ++ fst s ++ nl) ++ pre).
      * apply quiet_suffix. rewrite <- Eb. apply quiet_body. apply Hs.
      * rewrite app_assoc, <- rev_app_distr. f_equal. f_equal.
        rewrite <- !app_assoc. reflexivity.
    + rewrite P. exact Hb.
    + cbn [before after caps]. split; [exact P | split; [reflexivity |]].
      unfold holdsTrimmed, group', group. cbn [groups assoc Nat.eqb].
      split; [exact Eg |]. rewrite Eb. symmetry. apply trim_spaces_front. exact Fu.
Qed.

(** The sections of a well-formed document, as the security loop sees
    them: all but the last. *)
Theorem security_sections dp secs :
  Forall wfSection secs ->
  announcementBlocks dp (document secs) =
  List.map (fun s => announcementOfSection dp (trim (fst s)) (trim (bodyOf (snd s))))
           (removelast secs).
Proof.
  intros F. unfold announcementBlocks, execLoop.
  apply (Forall2_map _ _ _ holdsTrimmed).
  - intros s m [G1 G2]. rewrite announcementOfMatch_section, G1, G2. reflexivity.
  - apply (segment_loop reSecuritySection securityFront holdsTrimmed
             reSecuritySection_shape).
    + intros pre s next. apply security_section_match.
    + exact F.
    + reflexivity.
    + lia.
Qed.

End SecuritySegmentFacts.

Module MarkerFacts.
Import RegexFacts StrFacts SortFacts MatchFacts LangFacts DateFacts
  DateRuleFacts TrimFacts VersionFacts ReplaceFacts StripFacts CleanFacts
  FuelFacts LineFacts PipelineFacts.
Import Positions LineEndings Texts DigestLines DateTexts TitleShapes
  Documents SectionPatterns SecuritySections Markers.
Import InsideFacts NewlineFacts IndentFacts SegmentFacts ReleaseSegmentFacts.

Lemma doubleHash_occurs s : occursIn (js "##") s -> doubleHash s = true.
Proof.
  intros [a [b ->]]. induction a as [| c a IH]; [reflexivity |].
  cbn [app doubleHash]. fold (doubleHash (a ++ js "##" ++ b)).
  rewrite IH. apply orb_true_r.
Qed.

Lemma hashFirst_unix s : hashFirst (unixLines s) = hashFirst s.
Proof.
  destruct s as [| c s]; [reflexivity |]. cbn [unixLines].
  destruct (N.eqb 13 c) eqn:E; [| reflexivity].
  apply N.eqb_eq in E. subst c. reflexivity.
Qed.

Lemma doubleHash_unix s : doubleHash (unixLines s) = true -> doubleHash s = true.
Proof.
  induction s as [| c s Hc IH | c Hc | c d s Hc Hd IH | c d s Hc Hd IH]
    using unixLines_length_ind.
  - auto.
  - rewrite unixLines_other by (intros ->; discriminate).
    cbn [doubleHash]. rewrite hashFirst_unix. intros H.
    apply orb_true_iff in H. apply orb_true_iff. destruct H; auto.
  - apply N.eqb_eq in Hc. subst c. discriminate.
  - apply N.eqb_eq in Hc, Hd. subst c d. rewrite unixLines_crlf_eq.
    cbn [doubleHash]. intros H. apply orb_true_iff in H. destruct H as [H | H].
    + discriminate.
    + rewrite (IH H). rewrite !orb_true_r. reflexivity.
  - apply N.eqb_eq in Hc. subst c. rewrite unixLines_cr_eq by exact Hd.
    intros H. cbn [doubleHash] in H. apply orb_true_iff in H. destruct H as [H | H].
    + discriminate.
    + cbn [doubleHash] in IH |- *. rewrite (IH H). apply orb_true_r.
Qed.

(** Without two hashes together no section pattern matches. *)
Lemma no_marker_no_match r tail s :
  r = Cat LineStart (Cat (lit "##") tail) ->
  doubleHash s = false -> execLoop r s = [].
Proof.
  intros Hr Hs. unfold execLoop. cbn [matchesFrom].
  destruct (searchFrom r [] s) as [m |] eqn:E; [| reflexivity].
  exfalso. pose proof (exec_whole_occurs _ _ _ E) as Ho.
  apply searchFrom_lang in E. rewrite Hr in E.
  destruct E as [w0 [r0 [Ew [H0 [w1 [r1 [-> [H1 _]]]]]]]].
  simpl in H0. subst w0. apply lang_lit in H1. subst w1. simpl in Ew.
  assert (X : occursIn (js "##") s).
  { eapply occursIn_trans; [| exact Ho]. rewrite Ew. exists [], r1. reflexivity. }
  rewrite (doubleHash_occurs _ X) in Hs. discriminate.
Qed.

Lemma slice0_nil (A : Type) n : slice0 n (@nil A) = [].
Proof. unfold slice0. destruct (Z.ltb n 0); apply firstn_nil. Qed.

Lemma padLine_inj a b : padLine a = padLine b -> a = b.
Proof.
  destruct a as [| x a], b as [| y b]; simpl; intros H; try discriminate; auto.
  inversion H. reflexivity.
Qed.

Lemma map_padLine_inj : forall la lb,
  List.map padLine la = List.map padLine lb -> la = lb.
Proof.
  induction la as [| a la IH]; destruct lb as [| b lb]; simpl; intros H;
    try discriminate; auto.
  inversion H. f_equal; [apply padLine_inj; assumption | auto].
Qed.

(** Two texts with the same indentation are the same text. *)
Lemma indent_inj a b : indent a = indent b -> a = b.
Proof.
  intros H. apply (f_equal splitLines) in H. rewrite !splitLines_indent in H.
  apply map_padLine_inj in H.
  rewrite <- (join_splitLines a), <- (join_splitLines b), H. reflexivity.
Qed.

Lemma removelast_length (A : Type) (l : list A) :
  length (removelast l) = Nat.pred (length l).
Proof.
  induction l as [| x [| y l] IH]; [reflexivity | reflexivity |].
  change (removelast (x :: y :: l)) with (x :: removelast (y :: l)).
  simpl length in *. rewrite IH. reflexivity.
Qed.

End MarkerFacts.

Module LoopFacts.
Import RegexFacts StrFacts SortFacts MatchFacts LangFacts DateFacts
  DateRuleFacts TrimFacts VersionFacts ReplaceFacts StripFacts CleanFacts
  FuelFacts LineFacts PipelineFacts.
Import Positions LineEndings Texts DigestLines DateTexts TitleShapes
  Documents SectionPatterns SecuritySections Markers.

(** A pattern that matches no empty text: the bare loop and the loop of
    [String.prototype.match] see the same matches, with any fuel. *)
Lemma bare_loop_bump r :
  (forall w, lang r w -> w <> []) ->
  forall fuel pre post,
    matchesFrom r false fuel pre post = matchesFrom r true fuel pre post.
Proof.
  intros Hne. induction fuel as [| fuel IH]; intros pre post; [reflexivity |].
  cbn [matchesFrom]. destruct (searchFrom r pre post) as [m |] eqn:E; [| reflexivity].
  pose proof (Hne _ (searchFrom_lang _ _ _ _ E)) as Hw.
  f_equal. destruct (whole m); [congruence |]. apply IH.
Qed.

Lemma loop_fuel r :
  (forall w, lang r w -> w <> []) ->
  forall fuel s, length s < fuel -> matchesFrom r false fuel [] s = execLoop r s.
Proof.
  intros Hne fuel s H. unfold execLoop. rewrite !(bare_loop_bump r Hne).
  apply matchesFrom_fuel; lia.
Qed.

(** Matches of [k] code units at least: [k] times their number fits in
    the text. *)
Lemma matches_count r k b :
  1 <= k -> (forall w, lang r w -> k <= length w) ->
  forall fuel pre post, k * length (matchesFrom r b fuel pre post) <= length post.
Proof.
  intros Hk Hlen. induction fuel as [| fuel IH]; intros pre post.
  - simpl. lia.
  - cbn [matchesFrom]. destruct (searchFrom r pre post) as [m |] eqn:E; [| simpl; lia].
    destruct (searchFrom_split _ _ _ _ E) as [sk [Ep Hl]].
    pose proof (Hlen _ Hl) as Hw.
    assert (Hp : length post = length sk + length (whole m) + length (rest m))
      by (rewrite Ep at 1; rewrite !length_app; lia).
    destruct (whole m) as [| d w] eqn:Ew; [simpl in Hw; lia |].
    cbn [length]. specialize (IH (passed m) (rest m)).
    simpl length in Hw, Hp. nia.
Qed.

(** A section takes five code units at least: the two hashes, a white
    space, a character of the heading and the newline. *)
Lemma release_section_length w : lang reReleaseSection w -> 5 <= length w.
Proof.
  intros [w0 [r0 [-> [H0 [w1 [r1 [-> [H1 [w2 [r2 [-> [H2 [w3 [r3 [-> [H3
            [w4 [r4 [-> [H4 _]]]]]]]]]]]]]]]]]]]].
  simpl in H0. subst w0. apply lang_lit in H1. subst w1.
  apply lang_plus in H2. destruct H2 as [_ H2].
  apply (lang_repeat_class true) in H3. destruct H3 as [_ [H3 _]]. simpl in H3.
  apply lang_chr in H4. subst w4.
  rewrite !length_app. simpl. lia.
Qed.

Lemma security_section_length w : lang reSecuritySection w -> 5 <= length w.
Proof.
  intros [w0 [r0 [-> [H0 [w1 [r1 [-> [H1 [w2 [r2 [-> [H2 [w3 [r3 [-> [H3
            [w4 [r4 [-> [H4 [w5 [r5 [-> [H5 _]]]]]]]]]]]]]]]]]]]]]]]].
  simpl in H0. subst w0. apply lang_lit in H1. subst w1.
  apply lang_plus in H2. destruct H2 as [_ H2].
  apply (lang_repeat_class false) in H3. destruct H3 as [_ [H3 _]]. simpl in H3.
  apply lang_chr in H5. subst w5.
  rewrite !length_app. simpl. lia.
Qed.

End LoopFacts.

Module KeptFacts.
Import RegexFacts StrFacts SortFacts MatchFacts LangFacts DateFacts
  DateRuleFacts TrimFacts VersionFacts ReplaceFacts StripFacts CleanFacts
  FuelFacts LineFacts PipelineFacts.
Import Positions LineEndings Texts DigestLines DateTexts TitleShapes
  Documents SectionPatterns SecuritySections Markers Alphabet.
Import InsideFacts NewlineFacts IndentFacts SecurityDigestFacts.

Section Kept.

Variable P : char -> Prop.

Lemma kept_firstn (s : str) k : Forall P s -> Forall P (firstn k s).
Proof.
  intros H. apply Forall_forall. intros c Hc.
  rewrite Forall_forall in H. apply H. revert s Hc H.
  induction k as [| k IH]; intros [| d s] Hc H; simpl in Hc; try contradiction.
  destruct Hc as [-> | Hc]; [left; reflexivity | right].
  apply IH; [exact Hc | intros x Hx; apply H; right; exact Hx].
Qed.

Lemma kept_skipn (s : str) k : Forall P s -> Forall P (skipn k s).
Proof.
  revert s. induction k as [| k IH]; intros [| d s] H; simpl; auto.
  inversion H; subst. auto.
Qed.

Lemma kept_unixLines (s : str) :
  P 10%N -> Forall (fun c => c <> 13%N -> P c) s -> Forall P (unixLines s).
Proof.
  intros Hn.
  induction s as [| c s Hc IH | c Hc | c d s Hc Hd IH | c d s Hc Hd IH]
    using unixLines_length_ind; cbn [unixLines]; rewrite ?Hc, ?Hd; intros H.
  - constructor.
  - inversion H as [| ? ? H1 H2]; subst. constructor; [| auto].
    apply H1. intros ->. discriminate.
  - constructor; [exact Hn | constructor].
  - inversion H as [| ? ? _ H']; subst. inversion H'; subst. constructor; auto.
  - inversion H as [| ? ? _ H']; subst. constructor; auto.
Qed.

Lemma kept_rest r pre post m :
  searchFrom r pre post = Some m -> Forall P post -> Forall P (rest m).
Proof.
  intros E H. destruct (searchFrom_split _ _ _ _ E) as [sk [Ep _]].
  rewrite Ep in H. apply Forall_app in H. destruct H as [_ H].
  apply Forall_app in H. tauto.
Qed.

Lemma kept_replaceFrom r f :
  (forall m, Forall P (f m)) ->
  forall fuel pre post, Forall P post -> Forall P (replaceFrom r f fuel pre post).
Proof.
  intros Hf. induction fuel as [| fuel IH]; intros pre post H; [exact H |].
  cbn [replaceFrom]. destruct (searchFrom r pre post) as [m |] eqn:E; [| exact H].
  pose proof (kept_rest _ _ _ _ E H) as Hr.
  apply Forall_app. split; [apply kept_firstn; exact H |].
  apply Forall_app. split; [apply Hf |].
  destruct (whole m) as [| d w]; [destruct (rest m) as [| c post'] |].
  - constructor.
  - inversion Hr; subst. constructor; auto.
  - apply IH. exact Hr.
Qed.

Lemma kept_replaceAll r f s :
  (forall m, Forall P (f m)) -> Forall P s -> Forall P (replaceAll r f s).
Proof. intros Hf H. unfold replaceAll. apply kept_replaceFrom; assumption. Qed.

Lemma kept_replaceFirst r f s :
  (forall m, Forall P (f m)) -> Forall P s -> Forall P (replaceFirst r f s).
Proof.
  intros Hf H. unfold replaceFirst.
  destruct (exec r s) as [m |] eqn:E; [| exact H].
  apply Forall_app. split; [apply kept_firstn; exact H |].
  apply Forall_app. split; [apply Hf |].
  unfold exec in E. apply (kept_rest _ _ _ _ E H).
Qed.

Lemma kept_erase m : Forall P (erase m).
Proof. constructor. Qed.

Lemma kept_removeFirst pat : forall s, Forall P s -> Forall P (removeFirst pat s).
Proof.
  induction s as [| c s IH]; intros H; cbn [removeFirst];
    destruct (isPrefix pat _); try (apply kept_skipn; exact H).
  - constructor.
  - inversion H; subst. constructor; auto.
Qed.

Lemma kept_occurs v s : occursIn v s -> Forall P s -> Forall P v.
Proof. apply occursIn_Forall. Qed.

Lemma kept_trim s : Forall P s -> Forall P (trim s).
Proof. apply kept_occurs, trim_occurs. Qed.

Lemma kept_join sep : forall l,
  Forall P sep -> Forall (Forall P) l -> Forall P (join sep l).
Proof.
  induction l as [| x [| y l] IH]; intros Hs H.
  - constructor.
  - inversion H; subst. assumption.
  - inversion H; subst. change (join sep (x :: y :: l)) with (x ++ sep ++ join sep (y :: l)).
    apply Forall_app. split; [assumption |].
    apply Forall_app. split; [assumption | apply IH; assumption].
Qed.

Lemma kept_splitLines : forall s, Forall P s -> Forall (Forall P) (splitLines s).
Proof.
  induction s as [| c s IH]; intros H.
  - repeat constructor.
  - inversion H; subst. specialize (IH ltac:(assumption)).
    cbn [splitLines]. destruct (N.eqb c 10).
    + constructor; [constructor | exact IH].
    + destruct (splitLines s) as [| l ls]; [repeat constructor; assumption |].
      inversion IH; subst. constructor; [constructor; assumption | assumption].
Qed.

Lemma kept_indent text :
  P 32%N -> P 10%N -> Forall P text -> Forall P (indent text).
Proof.
  intros Hb Hn H. unfold indent. apply kept_join.
  - constructor; [exact Hn | constructor].
  - apply Forall_forall. intros l Hl. apply in_map_iff in Hl.
    destruct Hl as [l0 [<- Hl0]].
    pose proof (kept_splitLines _ H) as Hs. rewrite Forall_forall in Hs.
    specialize (Hs _ Hl0). destruct l0; [constructor |].
    repeat (constructor; [exact Hb |]). exact Hs.
Qed.

(** The fields of a release come from the text searched; the details
    may hold the mark of a callout besides. *)
Lemma kept_release src m :
  P 62%N -> Forall P src -> In m (execLoop reReleaseSection src) ->
  Forall P (version (releaseOfMatch m)) /\
  Forall P (match date (releaseOfMatch m) with Some d => d | None => [] end) /\
  Forall P (details (releaseOfMatch m)).
Proof.
  intros Hq H Hm.
  assert (G1 : Forall P (trim (group' 1 m))).
  { apply kept_trim. eapply kept_occurs; [| exact H].
    apply (execLoop_occurs _ _ _ 1 Hm). }
  assert (G2 : Forall P (group' 2 m)).
  { eapply kept_occurs; [| exact H]. apply (execLoop_occurs _ _ _ 2 Hm). }
  unfold releaseOfMatch. cbn [version date details]. split; [| split].
  - unfold releaseVersion.
    destruct (exec reVersion (trim (group' 1 m))) as [v |] eqn:E.
    + unfold orElse. destruct (group' 1 v) as [| c t] eqn:Eg; [exact G1 |].
      rewrite <- Eg. eapply kept_occurs; [| exact G1].
      eapply exec_group_occurs. exact E.
    + exact G1.
  - destruct (exec reReleaseDate (group' 2 m)) as [d |] eqn:E; [| constructor].
    cbn [option_map]. eapply kept_occurs; [| exact G2].
    eapply exec_group_occurs. exact E.
  - unfold cleanReleaseBody, removeShortcodes. cbv zeta.
    apply kept_replaceAll; [apply kept_erase |].
    apply kept_replaceAll; [intros ?; constructor; [exact Hq | constructor] |].
    apply kept_trim.
    repeat (apply kept_replaceAll; [apply kept_erase |]). exact G2.
Qed.

Lemma kept_render r :
  Forall P written ->
  Forall P (version r) ->
  Forall P (match date r with Some d => d | None => [] end) ->
  Forall P (details r) ->
  Forall P (renderRelease r).
Proof.
  intros Hw Hv Hd Hb. unfold renderRelease. cbv zeta.
  assert (W : forall c, In c written -> P c) by (apply Forall_forall; exact Hw).
  repeat (apply Forall_app; split).
  - repeat (constructor; [apply W; simpl; tauto |]). constructor.
  - exact Hv.
  - destruct (truthy (date r)); [| constructor].
    apply Forall_app. split; [| exact Hd].
    repeat (constructor; [apply W; simpl; tauto |]). constructor.
  - constructor; [apply W; simpl; tauto | constructor].
  - apply kept_replaceFirst; [apply kept_erase | exact Hb].
Qed.

End Kept.

(** *** No carriage return *)

Lemma noCR_avoids r w : avoids 13 r = true -> lang r w -> noCR w.
Proof.
  intros Ha Hl. apply Forall_forall. intros c Hc ->.
  exact (lang_avoids 13 r w Ha Hl Hc).
Qed.

Lemma noCR_digits s : allDigits s = true -> noCR s.
Proof.
  unfold allDigits. intros H. apply Forall_forall. intros c Hc ->.
  rewrite forallb_forall in H. specialize (H _ Hc). discriminate.
Qed.

Lemma ofN_noCR n : noCR (ofN n).
Proof. apply noCR_digits, digitsOf_digits. Qed.

Lemma ofZ_noCR z : noCR (ofZ z).
Proof.
  destruct z; simpl; try apply ofN_noCR.
  constructor; [discriminate | apply ofN_noCR].
Qed.

Lemma pad2_noCR s : noCR s -> noCR (pad2 s).
Proof.
  intros H. unfold pad2, padStart0. apply Forall_app. split; [| exact H].
  apply Forall_forall. intros c Hc. apply repeat_spec in Hc. subst. discriminate.
Qed.

Lemma monthString_noCR v : noCR (monthString v).
Proof.
  destruct v; [apply ofN_noCR |]. apply noCR_check. reflexivity.
Qed.

Ltac no_cr :=
  repeat first
    [ assumption
    | apply pad2_noCR
    | apply ofZ_noCR
    | apply monthString_noCR
    | solve [apply noCR_check; reflexivity]
    | solve [eapply noCR_avoids; [| eassumption]; reflexivity]
    | apply Forall_app; split
    | apply Forall_cons; [discriminate |] ].

Lemma formatUTC_noCR t : noCR (formatUTC t).
Proof. unfold formatUTC. no_cr. Qed.

(** Whatever the text and the host, a date the normalizer returns holds
    no carriage return. *)
Lemma toISODateLoose_noCR dp raw s : toISODateLoose dp raw = Some s -> noCR s.
Proof.
  unfold toISODateLoose. destruct raw as [| c0 raw0]; [discriminate |].
  cbv zeta. set (cleaned := cleanDate (c0 :: raw0)).
  destruct (exec reIso cleaned) as [iso |] eqn:Ei.
  - intros H. inversion H; subst. unfold exec in Ei.
    apply searchFrom_lang in Ei. eapply noCR_avoids; [| exact Ei]. reflexivity.
  - destruct (longRule cleaned) as [d |] eqn:El.
    + intros H. inversion H; subst. unfold longRule in El.
      destruct (exec reLong cleaned) as [m |] eqn:E; [| discriminate].
      destruct (monthToNum (group' 1 m)) as [mm |]; [| discriminate].
      inversion El; subst. unfold exec in E.
      assert (G3 : lang (times 4 4 digit) (group' 3 m))
        by (eapply group_of_rule; [exact E | reflexivity | pick_group]).
      assert (G2 : lang (times 1 2 digit) (group' 2 m))
        by (eapply group_of_rule; [exact E | reflexivity | pick_group]).
      unfold noCR. no_cr.
    + destruct (monthYearRule cleaned) as [d |] eqn:Em.
      * intros H. inversion H; subst. unfold monthYearRule in Em.
        destruct (exec reMonthYear cleaned) as [m |] eqn:E; [| discriminate].
        destruct (monthToNum (group' 1 m)) as [mm |]; [| discriminate].
        inversion Em; subst. unfold exec in E.
        assert (G2 : lang (times 4 4 digit) (group' 2 m))
          by (eapply group_of_rule; [exact E | reflexivity | pick_group]).
        unfold noCR. no_cr.
      * unfold fallbackRule. destruct (dp cleaned); [| discriminate].
        intros H. inversion H; subst. apply formatUTC_noCR.
Qed.

Lemma noCR_option_occurs (o : option str) s :
  (forall v, o = Some v -> occursIn v s) -> noCR s ->
  noCR (match o with Some v => v | None => [] end).
Proof.
  intros Ho Hs. destruct o as [v |]; [| constructor].
  eapply occursIn_Forall; [apply Ho; reflexivity | exact Hs].
Qed.

(** The fields of a security record hold no carriage return when the
    text searched holds none. *)
Lemma announcement_noCR dp src m :
  noCR src -> In m (execLoop reSecuritySection src) ->
  let a := announcementOfMatch dp m in
  noCR (title a) /\ noCR (isoOf a) /\
  noCR (match product a with Some p => p | None => [] end) /\
  noCR (match version' a with Some v => v | None => [] end) /\
  Forall noCR (cves a) /\ noCR (detailsMarkdown a).
Proof.
  intros H Hm.
  assert (G1 : noCR (trim (group' 1 m))).
  { apply kept_trim. eapply kept_occurs; [| exact H].
    apply (execLoop_occurs _ _ _ 1 Hm). }
  assert (G2 : noCR (group' 2 m)).
  { eapply kept_occurs; [| exact H]. apply (execLoop_occurs _ _ _ 2 Hm). }
  unfold announcementOfMatch. cbv zeta.
  cbn [title isoOf lastUpdatedISO product version' cves detailsMarkdown].
  set (body1 := trim (replaceAll (reShortcode (lit_i "rss-button")) erase
                        (trim (group' 2 m)))).
  assert (B1 : noCR body1).
  { unfold body1. apply kept_trim. apply kept_replaceAll; [apply kept_erase |].
    apply kept_trim. exact G2. }
  set (body2 := match exec reLastUpdated body1 with
                | Some l => trim (removeFirst (whole l) body1)
                | None => body1
                end).
  assert (B2 : noCR body2).
  { unfold body2. destruct (exec reLastUpdated body1); [| exact B1].
    apply kept_trim. apply kept_removeFirst. exact B1. }
  split; [exact G1 |]. split; [| split; [| split; [| split]]].
  - destruct (option_map _ (exec reLastUpdated body1)) as [raw |]; [| constructor].
    destruct (toISODateLoose dp raw) as [d |] eqn:Ed; [| constructor].
    eapply toISODateLoose_noCR; eauto.
  - apply noCR_option_occurs with (s := trim (group' 1 m)); [| exact G1].
    intros v. apply product_occurs.
  - apply noCR_option_occurs with (s := trim (group' 1 m)); [| exact G1].
    intros v Hv. apply version_occurs in Hv. tauto.
  - apply Forall_forall. intros x Hx. apply extractCves_In in Hx.
    apply in_map_iff in Hx. destruct Hx as [mc [<- Hmc]].
    eapply occursIn_Forall; [apply (proj1 (matchAll_occurs _ _ _ 0 Hmc)) |].
    apply Forall_app. split; [exact G1 |].
    apply Forall_app. split; [constructor; [discriminate | constructor] | exact B2].
  - unfold cleanSecurityBody. apply kept_trim.
    apply kept_replaceAll; [apply kept_erase |].
    apply kept_replaceAll; [intros ?; apply noCR_check; reflexivity | exact B2].
Qed.

Lemma announcementLines_noCR a :
  noCR (title a) -> noCR (isoOf a) ->
  noCR (match product a with Some p => p | None => [] end) ->
  noCR (match version' a with Some v => v | None => [] end) ->
  Forall noCR (cves a) -> noCR (detailsMarkdown a) ->
  Forall noCR (announcementLines a).
Proof.
  intros Ht Hi Hp Hv Hc Hd. unfold announcementLines. cbv zeta.
  assert (J : noCR (join (js ", ") (cves a))).
  { apply kept_join; [apply noCR_check; reflexivity | exact Hc]. }
  apply Forall_app. split; [| apply Forall_app; split].
  - constructor; [| constructor]. unfold noCR.
    destruct (dated a); no_cr.
  - destruct (truthy (product a) || truthy (version' a) ||
              negb (Nat.eqb (length (cves a)) 0)); [| constructor].
    constructor; [| constructor]. apply kept_join; [apply noCR_check; reflexivity |].
    apply Forall_forall. intros l Hl. apply in_map_iff in Hl.
    destruct Hl as [b [<- Hb]]. apply Forall_app. split; [apply noCR_check; reflexivity |].
    apply in_app_or in Hb. destruct Hb as [Hb | Hb].
    { destruct (truthy (product a)); [| destruct Hb].
      destruct Hb as [<- | []]. unfold noCR. no_cr. }
    apply in_app_or in Hb. destruct Hb as [Hb | Hb].
    { destruct (truthy (version' a)); [| destruct Hb].
      destruct Hb as [<- | []]. unfold noCR. no_cr. }
    destruct (cves a) as [| c0 cs]; [destruct Hb |].
    destruct Hb as [<- | []]. unfold noCR. no_cr.
  - constructor; [apply noCR_check; reflexivity |]. constructor; [| constructor].
    apply kept_indent; [discriminate | discriminate | exact Hd].
Qed.

End KeptFacts.

Module ServerFacts.
Import RegexFacts StrFacts SortFacts MatchFacts LangFacts DateFacts
  DateRuleFacts TrimFacts VersionFacts ReplaceFacts StripFacts CleanFacts
  FuelFacts LineFacts PipelineFacts.
Import Positions LineEndings Texts DigestLines DateTexts TitleShapes
  Documents SectionPatterns SecuritySections Markers Alphabet Server.

Lemma eqb_same (k : str) : Str.eqb k k = true.
Proof. apply StrFacts.eqb_eq. reflexivity. Qed.

Lemma eqb_differ (a b : str) : a <> b -> Str.eqb a b = false.
Proof.
  intros H. destruct (Str.eqb a b) eqn:E; [| reflexivity].
  apply StrFacts.eqb_eq in E. contradiction.
Qed.

Lemma own_set_same o k t : ownProperty k (setProperty o k t) = Some t.
Proof.
  induction o as [| [k' t'] o IH]; simpl.
  - rewrite eqb_same. reflexivity.
  - destruct (Str.eqb k k') eqn:E; simpl.
    + rewrite eqb_same. reflexivity.
    + rewrite E. exact IH.
Qed.

Lemma own_set_other o k t k0 :
  k0 <> k -> ownProperty k0 (setProperty o k t) = ownProperty k0 o.
Proof.
  intros Hne. induction o as [| [k' t'] o IH]; simpl.
  - rewrite (eqb_differ _ _ Hne). reflexivity.
  - destruct (Str.eqb k k') eqn:E; simpl.
    + apply StrFacts.eqb_eq in E. subst k'.
      rewrite (eqb_differ _ _ Hne). reflexivity.
    + destruct (Str.eqb k0 k'); [reflexivity | exact IH].
Qed.

Lemma own_delete_same o k : ownProperty k (deleteProperty o k) = None.
Proof.
  induction o as [| [k' t'] o IH]; simpl; [reflexivity |].
  destruct (Str.eqb k k') eqn:E; simpl; [exact IH |].
  rewrite E. exact IH.
Qed.

Lemma own_delete_other o k k0 :
  k0 <> k -> ownProperty k0 (deleteProperty o k) = ownProperty k0 o.
Proof.
  intros Hne. induction o as [| [k' t'] o IH]; simpl; [reflexivity |].
  destruct (Str.eqb k k') eqn:E; simpl.
  - apply StrFacts.eqb_eq in E. subst k'.
    rewrite (eqb_differ _ _ Hne). exact IH.
  - destruct (Str.eqb k0 k'); [reflexivity | exact IH].
Qed.

Lemma own_handle o e k :
  ownProperty k (handle o e) =
  match e with
  | Opens t _ => if Str.eqb k (sessionId t) then Some t else ownProperty k o
  | Closes k' => if Str.eqb k k' then None else ownProperty k o
  end.
Proof.
  destruct e as [t c | k']; simpl.
  - destruct (Str.eqb k (sessionId t)) eqn:E.
    + apply StrFacts.eqb_eq in E. subst k. apply own_set_same.
    + apply own_set_other. intros H. subst k. rewrite eqb_same in E. discriminate.
  - unfold onclose. destruct (Str.eqb k k') eqn:E.
    + apply StrFacts.eqb_eq in E. subst k. apply own_delete_same.
    + apply own_delete_other. intros H. subst k. rewrite eqb_same in E. discriminate.
Qed.

Lemma own_fold k : forall history o,
  ownProperty k (fold_left handle history o) = liveFrom k history (ownProperty k o).
Proof.
  induction history as [| e history IH]; intros o; simpl; [reflexivity |].
  rewrite IH, own_handle. destruct e; reflexivity.
Qed.

Lemma keys_set o k t :
  List.map fst (setProperty o k t) =
  match ownProperty k o with
  | Some _ => List.map fst o
  | None => List.map fst o ++ [k]
  end.
Proof.
  induction o as [| [k' t'] o IH]; simpl; [reflexivity |].
  destruct (Str.eqb k k') eqn:E; simpl.
  - apply StrFacts.eqb_eq in E. subst k'. reflexivity.
  - rewrite IH. destruct (ownProperty k o); reflexivity.
Qed.

Lemma own_none_keys k o : ownProperty k o = None -> ~ In k (List.map fst o).
Proof.
  induction o as [| [k' t'] o IH]; simpl; intros H; [tauto |].
  destruct (Str.eqb k k') eqn:E; [discriminate |].
  intros [H1 | H1].
  - subst k'. rewrite eqb_same in E. discriminate.
  - exact (IH H H1).
Qed.

Lemma own_in k t o : ownProperty k o = Some t -> In (k, t) o.
Proof.
  induction o as [| [k' t'] o IH]; simpl; intros H; [discriminate |].
  destruct (Str.eqb k k') eqn:E.
  - apply StrFacts.eqb_eq in E. inversion H; subst. left. reflexivity.
  - right. exact (IH H).
Qed.

Lemma NoDup_snoc (A : Type) (l : list A) x :
  NoDup l -> ~ In x l -> NoDup (l ++ [x]).
Proof.
  induction l as [| y l IH]; simpl; intros H Hx.
  - constructor; [intros [] | constructor].
  - inversion H as [| y' l' Hy Hl]; subst. constructor.
    + intros Hin. apply in_app_or in Hin. destruct Hin as [Hin | [Hin | []]].
      * exact (Hy Hin).
      * apply Hx. left. symmetry. exact Hin.
    + apply IH; [exact Hl | intros Hin; apply Hx; right; exact Hin].
Qed.

Lemma distinct_set o k t : distinctKeys o -> distinctKeys (setProperty o k t).
Proof.
  unfold distinctKeys. intros H. rewrite keys_set.
  destruct (ownProperty k o) eqn:E; [exact H |].
  apply NoDup_snoc; [exact H | exact (own_none_keys _ _ E)].
Qed.

Lemma keys_delete o k :
  List.map fst (deleteProperty o k) =
  filter (fun k' => negb (Str.eqb k k')) (List.map fst o).
Proof.
  induction o as [| [k' t'] o IH]; simpl; [reflexivity |].
  destruct (Str.eqb k k'); simpl; rewrite IH; reflexivity.
Qed.

Lemma distinct_delete o k : distinctKeys o -> distinctKeys (deleteProperty o k).
Proof.
  unfold distinctKeys. intros H. rewrite keys_delete. apply NoDup_filter. exact H.
Qed.

Lemma distinct_fold : forall history o,
  distinctKeys o -> distinctKeys (fold_left handle history o).
Proof.
  induction history as [| e history IH]; intros o H; simpl; [exact H |].
  apply IH. destruct e as [t c | k]; simpl.
  - apply distinct_set. exact H.
  - apply distinct_delete. exact H.
Qed.

Lemma delete_absent o k : ~ In k (List.map fst o) -> deleteProperty o k = o.
Proof.
  induction o as [| [k' t'] o IH]; simpl; intros H; [reflexivity |].
  rewrite eqb_differ by (intros E; apply H; left; symmetry; exact E).
  simpl. f_equal. apply IH. intros Hin. apply H. right. exact Hin.
Qed.

Lemma delete_twice o k : deleteProperty (deleteProperty o k) k = deleteProperty o k.
Proof.
  apply delete_absent. rewrite keys_delete. intros H.
  apply filter_In in H. destruct H as [_ H]. rewrite eqb_same in H. discriminate.
Qed.

Lemma closeAll_distinct : forall o done,
  distinctKeys (done ++ o) ->
  closeAll (List.map fst o) (done ++ o) =
  (List.map snd o, done ++ filter (fun e => stays (snd e)) o).
Proof.
  induction o as [| [k t] o IH]; intros done H; [reflexivity |].
  assert (Hdone : ~ In k (List.map fst done)).
  { unfold distinctKeys in H. rewrite map_app in H. simpl in H.
    apply NoDup_remove_2 in H. intros Hin. apply H. apply in_or_app. left. exact Hin. }
  assert (Ho : ~ In k (List.map fst o)).
  { unfold distinctKeys in H. rewrite map_app in H. simpl in H.
    apply NoDup_remove_2 in H. intros Hin. apply H. apply in_or_app. right. exact Hin. }
  assert (Eown : ownProperty k (done ++ (k, t) :: o) = Some t).
  { clear - Hdone. induction done as [| [k' t'] done IHd]; simpl.
    - rewrite eqb_same. reflexivity.
    - rewrite eqb_differ by (intros E; apply Hdone; left; symmetry; exact E).
      apply IHd. intros Hin. apply Hdone. right. exact Hin. }
  assert (Edel : deleteProperty (done ++ (k, t) :: o) k = done ++ o).
  { unfold deleteProperty. rewrite filter_app. simpl. rewrite eqb_same. simpl.
    fold (deleteProperty done k). fold (deleteProperty o k).
    rewrite (delete_absent done k Hdone), (delete_absent o k Ho). reflexivity. }
  cbn [List.map fst closeAll]. rewrite Eown. unfold onclose.
  rewrite Edel.
  cbn [filter snd]. unfold stays at 1.
  destruct (close t) as [| [|]].
  - rewrite (IH done).
    + reflexivity.
    + rewrite <- Edel. apply distinct_delete. exact H.
  - rewrite (IH done).
    + reflexivity.
    + rewrite <- Edel. apply distinct_delete. exact H.
  - replace (done ++ (k, t) :: o) with ((done ++ [(k, t)]) ++ o)
      by (rewrite <- app_assoc; reflexivity).
    rewrite (IH (done ++ [(k, t)])).
    + rewrite <- app_assoc. reflexivity.
    + rewrite <- app_assoc. exact H.
Qed.

End ServerFacts.

(* ------------------------------------------------------------------ *)
(** ** Facts for the claims: calls that throw, hosts, months, versions *)

Module ThrowFacts.
Import RegexFacts MatchFacts LangFacts FuelFacts PipelineFacts.
Import CompleteFacts InsideFacts.

(** A group that takes part in every match is a string, and a method
    called on it returns. *)
Lemma capture_present r pre post m i :
  searchFrom r pre post = Some m -> captures r i = true ->
  capture i m = StringValue (group' i m).
Proof.
  intros H Hc. pose proof (searchFrom_present _ _ _ _ i H Hc) as Hp.
  unfold capture, group'. destruct (group i m); [reflexivity | congruence].
Qed.

Lemma group_present r pre post m i :
  searchFrom r pre post = Some m -> captures r i = true ->
  group i m = Some (group' i m).
Proof.
  intros H Hc. pose proof (searchFrom_present _ _ _ _ i H Hc) as Hp.
  unfold group'. destruct (group i m); [reflexivity | congruence].
Qed.

Lemma forEach_returns (A B : Type) (body : A -> outcome B) (f : A -> B) :
  forall l, (forall a, In a l -> body a = Returns (f a)) ->
            forEach body l = Returns (List.map f l).
Proof.
  induction l as [| a l IH]; intros H; [reflexivity |].
  cbn [forEach List.map]. rewrite (H a (or_introl eq_refl)). cbn [bind].
  rewrite IH by (intros b Hb; apply H; right; exact Hb). reflexivity.
Qed.

(** The loop body of [parseReleases] returns on every match of its
    section pattern. *)
Lemma releaseOfMatch_returns s m :
  In m (execLoop reReleaseSection s) ->
  releaseOfMatch_js m = Returns (releaseOfMatch m).
Proof.
  intros H. destruct (matchesFrom_search _ _ _ _ _ _ H) as [pre [post [Hs _]]].
  unfold releaseOfMatch_js, releaseOfMatch.
  rewrite (capture_present _ _ _ _ 1 Hs eq_refl),
          (capture_present _ _ _ _ 2 Hs eq_refl).
  reflexivity.
Qed.

Lemma extractProductAndVersion_returns title :
  extractProductAndVersion_js title = Returns (extractProductAndVersion title).
Proof.
  unfold extractProductAndVersion_js, extractProductAndVersion.
  destruct (exec reDockerVersion title) as [m |] eqn:E1.
  - unfold exec in E1.
    rewrite (capture_present _ _ _ _ 1 E1 eq_refl), (group_present _ _ _ _ 2 E1 eq_refl).
    reflexivity.
  - destruct (exec reAnyVersion title) as [m2 |] eqn:E2.
    + unfold exec in E2.
      rewrite (capture_present _ _ _ _ 1 E2 eq_refl), (group_present _ _ _ _ 2 E2 eq_refl).
      reflexivity.
    + destruct (exec reDockerWords title) as [m3 |] eqn:E3; [| reflexivity].
      unfold exec in E3. rewrite (capture_present _ _ _ _ 1 E3 eq_refl). reflexivity.
Qed.

(** So does the loop body of [parseSecurityAnnouncements]. *)
Lemma announcementOfMatch_returns dp s m :
  In m (execLoop reSecuritySection s) ->
  announcementOfMatch_js dp m = Returns (announcementOfMatch dp m).
Proof.
  intros H. destruct (matchesFrom_search _ _ _ _ _ _ H) as [pre [post [Hs _]]].
  unfold announcementOfMatch_js, announcementOfMatch.
  rewrite (capture_present _ _ _ _ 1 Hs eq_refl),
          (capture_present _ _ _ _ 2 Hs eq_refl).
  cbn [call bind]. cbv zeta.
  rewrite extractProductAndVersion_returns.
  destruct (exec reLastUpdated _) as [l |] eqn:El; [| reflexivity].
  unfold exec in El. rewrite (capture_present _ _ _ _ 1 El eq_refl). reflexivity.
Qed.

Lemma parseReleases_returns s n :
  parseReleases_js (StringValue s) n = Returns (parseReleases s n).
Proof.
  unfold parseReleases_js, parseReleases, releaseBlocks. cbn [call bind].
  rewrite (forEach_returns _ _ _ releaseOfMatch)
    by (intros m; apply releaseOfMatch_returns).
  reflexivity.
Qed.

Lemma parseSecurityAnnouncements_returns dp lc s limit :
  parseSecurityAnnouncements_js dp lc (StringValue s) limit =
  Returns (parseSecurityAnnouncementsOn dp lc s limit).
Proof.
  unfold parseSecurityAnnouncements_js, parseSecurityAnnouncementsOn,
    announcementBlocks. cbn [orEmpty]. cbv zeta.
  rewrite (forEach_returns _ _ _ (announcementOfMatch dp))
    by (intros m; apply announcementOfMatch_returns).
  reflexivity.
Qed.

End ThrowFacts.

Module HostFacts.
Import RegexFacts MatchFacts LangFacts SortFacts PipelineFacts.

(** Two comparators that agree on the elements of a list sort it
    alike. *)
Lemma insert_agree (A : Type) (f g : A -> A -> bool) x : forall l,
  (forall y, In y l -> f x y = g x y) -> insert f x l = insert g x l.
Proof.
  induction l as [| y l IH]; intros H; [reflexivity |].
  cbn [insert]. rewrite (H y (or_introl eq_refl)).
  rewrite IH by (intros z Hz; apply H; right; exact Hz). reflexivity.
Qed.

Lemma sortBy_agree (A : Type) (f g : A -> A -> bool) : forall l,
  (forall x y, In x l -> In y l -> f x y = g x y) -> sortBy f l = sortBy g l.
Proof.
  induction l as [| x l IH]; intros H; [reflexivity |].
  cbn [sortBy fold_right]. fold (sortBy f l). fold (sortBy g l).
  rewrite IH by (intros a b Ha Hb; apply H; right; assumption).
  apply insert_agree. intros y Hy. apply H; [left; reflexivity | right].
  eapply Permutation_in; [apply Permutation_sym, sortBy_perm | exact Hy].
Qed.

(** Two collations that order the dates of the records alike rank them
    alike. *)
Lemma rank_agree lc1 lc2 blocks :
  (forall a b, In a blocks -> In b blocks -> dated a = true -> dated b = true ->
               lc1 (isoOf a) (isoOf b) = lc2 (isoOf a) (isoOf b)) ->
  rankAnnouncementsOn lc1 blocks = rankAnnouncementsOn lc2 blocks.
Proof.
  intros H. unfold rankAnnouncementsOn. f_equal. apply sortBy_agree.
  intros x y Hx Hy. apply filter_In in Hx, Hy.
  destruct Hx as [Hx Dx], Hy as [Hy Dy]. unfold newerFirstOn.
  rewrite (H y x Hy Hx Dy Dx). reflexivity.
Qed.

Lemma blocks_host dp1 dp2 src :
  (forall a raw s, In a (announcementBlocks dp1 src) -> lastUpdatedRaw a = Some raw ->
                   In s (dateParseCalls raw) -> dp1 s = dp2 s) ->
  announcementBlocks dp1 src = announcementBlocks dp2 src.
Proof.
  intros H. unfold announcementBlocks in *. apply map_ext_in. intros m Hm.
  apply announcementOfMatch_host. intros raw s Hr Hs.
  apply (H (announcementOfMatch dp1 m) raw s); auto. apply in_map. exact Hm.
Qed.

End HostFacts.

Module ConstructorFacts.
Import RegexFacts StrFacts MatchFacts LangFacts DateRuleFacts TrimFacts LineFacts.
Import Texts InsideFacts.

(** [contains] finds what occurs. *)
Lemma contains_occurs v s : occursIn v s -> contains v s = true.
Proof.
  intros [a [b ->]]. induction a as [| c a IH].
  - simpl app. destruct (v ++ b) eqn:E; cbn [contains]; rewrite <- E, isPrefix_app;
      reflexivity.
  - simpl app. cbn [contains]. rewrite IH. apply orb_true_r.
Qed.

Lemma occursIn_lower v s : occursIn v s -> occursIn (toLowerCase v) (toLowerCase s).
Proof.
  intros [a [b ->]]. exists (toLowerCase a), (toLowerCase b).
  unfold toLowerCase. rewrite !map_app. reflexivity.
Qed.

(** The one word that is no month and finds a value in the table is
    "constructor". *)
Lemma monthToNum_constructor name :
  monthToNum name = Some ObjectConstructor -> toLowerCase name = js "constructor".
Proof.
  unfold monthToNum. destruct (lookup (toLowerCase name) monthTable); [discriminate |].
  destruct (Str.eqb (toLowerCase name) (js "constructor")) eqn:E; [| discriminate].
  intros _. apply eqb_eq. exact E.
Qed.

(** A word of letters in a text cut by something that holds no letter
    lies on one side of the cut. *)
Lemma word_beside (w a sep r : str) :
  occursIn w (a ++ sep ++ r) -> w <> [] -> sep <> [] ->
  Forall (fun c => isAlpha c = true) w -> Forall (fun c => isAlpha c = false) sep ->
  occursIn w a \/ occursIn w r.
Proof.
  intros [p [q E]] Hw Hs Fw Fs.
  assert (Meet : forall x, In x w -> In x sep -> False).
  { intros x Hx Hy. rewrite Forall_forall in Fw, Fs.
    pose proof (Fw _ Hx). pose proof (Fs _ Hy). congruence. }
  apply app_eq_app in E. destruct E as [l [[Ea Eq] | [Ep Eq]]].
  - (* the word begins inside [a] *)
    apply app_eq_app in Eq.
    destruct Eq as [l2 [[Ew Es] | [El Eb]]].
    + destruct l2 as [| c l2].
      * rewrite app_nil_r in Ew. subst l. left. exists p, []. rewrite app_nil_r.
        exact Ea.
      * exfalso. destruct sep as [| s0 sep']; [congruence |].
        simpl in Es. inversion Es; subst. apply (Meet c).
        -- apply in_or_app. right. left. reflexivity.
        -- left. reflexivity.
    + left. exists p, l2. rewrite Ea, El. reflexivity.
  - (* the word begins at or after the cut *)
    apply app_eq_app in Eq. destruct Eq as [l2 [[Es Ew] | [El Er]]].
    + destruct l2 as [| c l2].
      * simpl in Ew. right. exists [], q. symmetry. exact Ew.
      * exfalso. destruct w as [| w0 w']; [congruence |].
        simpl in Ew. inversion Ew; subst. apply (Meet c).
        -- left. reflexivity.
        -- apply in_or_app. right. left. reflexivity.
    + right. exists l2, q. exact Er.
Qed.

Lemma digit_not_alpha c : isDigit c = true -> isAlpha c = false.
Proof.
  unfold isDigit, isAlpha, isUpper, isLower, between. intros H.
  apply andb_true_iff in H. destruct H as [H1 H2].
  apply N.leb_le in H1, H2.
  apply orb_false_iff. split; apply andb_false_iff; left; apply N.leb_gt; lia.
Qed.

(** The cleaning step makes no word of letters: one that the cleaned
    string holds is in the string itself. *)
Lemma cleanDate_word raw w :
  occursIn w (cleanDate raw) -> w <> [] -> Forall (fun c => isAlpha c = true) w ->
  occursIn w raw.
Proof.
  intros H Hw Fw. unfold cleanDate in H.
  apply (fun X => occursIn_trans _ _ _ X (trim_occurs _)) in H.
  unfold replaceFirst in H. destruct (exec reCommaYear raw) as [m |] eqn:E; [| exact H].
  pose proof (exec_split _ _ _ E) as S.
  assert (G : lang (times 4 4 digit) (group' 1 m))
    by (unfold exec in E; eapply group_of_rule; [exact E | reflexivity | pick_group]).
  apply lang_times in G. destruct G as [G _].
  apply word_beside in H; auto.
  - rewrite S. destruct H as [[p [q Hp]] | [p [q Hp]]].
    + exists p, (q ++ whole m ++ rest m). rewrite Hp, <- !app_assoc. reflexivity.
    + exists (firstn (index m) raw ++ whole m ++ p), q.
      rewrite Hp, <- !app_assoc. reflexivity.
  - discriminate.
  - constructor; [reflexivity |].
    eapply Forall_impl; [| exact G]. intros c. apply digit_not_alpha.
Qed.

(** The word a rule takes for the month is a word of the input. *)
Lemma month_word_occurs r raw m :
  exec r (cleanDate raw) = Some m -> captures r 1 = true ->
  (forall sub, In (1, sub) (groupsOf r) -> sub = plus alpha) ->
  occursIn (group' 1 m) raw.
Proof.
  intros E Hc Hu.
  assert (G : lang (plus alpha) (group' 1 m))
    by (unfold exec in E; eapply group_of_rule; eauto).
  apply lang_plus in G. destruct G as [F L].
  apply cleanDate_word; [eapply exec_group_occurs; exact E | | exact F].
  intros E0. rewrite E0 in L. simpl in L. lia.
Qed.

(** Without the word "constructor" in the input the month of a rule is a
    month of the table. *)
Lemma no_inherited_month r raw m :
  mentionsConstructor raw = false ->
  exec r (cleanDate raw) = Some m -> captures r 1 = true ->
  (forall sub, In (1, sub) (groupsOf r) -> sub = plus alpha) ->
  monthToNum (group' 1 m) <> Some ObjectConstructor.
Proof.
  intros Hn E Hc Hu Hm. apply monthToNum_constructor in Hm.
  pose proof (month_word_occurs _ _ _ E Hc Hu) as O.
  apply occursIn_lower in O. rewrite Hm in O. apply contains_occurs in O.
  unfold mentionsConstructor in Hn. congruence.
Qed.

Lemma longRule_in_range raw s :
  mentionsConstructor raw = false -> longRule (cleanDate raw) = Some s ->
  isoShape s = true /\ monthInRange s = true.
Proof.
  intros Hn H. destruct (longRule_shape _ _ H) as [? | [m [E Hm]]]; [assumption |].
  exfalso. eapply (no_inherited_month reLong); eauto. pick_group.
Qed.

Lemma monthYearRule_valid raw s :
  mentionsConstructor raw = false -> monthYearRule (cleanDate raw) = Some s ->
  validDate s = true.
Proof.
  intros Hn H. destruct (monthYearRule_shape _ _ H) as [? | [m [E Hm]]]; [assumption |].
  exfalso. eapply (no_inherited_month reMonthYear); eauto. pick_group.
Qed.

End ConstructorFacts.

Module TripleFacts.
Import RegexFacts StrFacts MatchFacts LangFacts DateRuleFacts TrimFacts VersionFacts.
Import CompleteFacts BuildFacts DateCompleteFacts.

Lemma allDigits_Forall s : allDigits s = true <-> Forall (fun c => isDigit c = true) s.
Proof.
  unfold allDigits. rewrite forallb_forall, Forall_forall. reflexivity.
Qed.

(** [spanDigits] cuts a text after the digits it begins with. *)
Lemma spanDigits_spec : forall s,
  s = fst (spanDigits s) ++ snd (spanDigits s) /\
  allDigits (fst (spanDigits s)) = true /\
  match snd (spanDigits s) with c :: _ => isDigit c = false | [] => True end.
Proof.
  induction s as [| c s [E [D H]]]; [simpl; auto |].
  cbn [spanDigits]. destruct (isDigit c) eqn:Ec.
  - destruct (spanDigits s) as [d r]. cbn [fst snd] in *. subst s.
    repeat split; auto. simpl. rewrite Ec. exact D.
  - cbn [fst snd]. repeat split; auto.
Qed.

Lemma spanDigits_app : forall d r,
  allDigits d = true ->
  match r with c :: _ => isDigit c = false | [] => True end ->
  spanDigits (d ++ r) = (d, r).
Proof.
  induction d as [| c d IH]; intros r D H.
  - destruct r as [| c r]; [reflexivity |]. simpl. rewrite H. reflexivity.
  - simpl in D. apply andb_true_iff in D. destruct D as [Dc D].
    simpl. rewrite Dc, (IH r D H). reflexivity.
Qed.

Lemma dropWhile_app (p : char -> bool) : forall w s,
  Forall (fun c => p c = true) w ->
  match s with c :: _ => p c = false | [] => True end ->
  dropWhile p (w ++ s) = s.
Proof.
  induction w as [| c w IH]; intros s F H.
  - apply dropWhile_fixed. exact H.
  - inversion F; subst. simpl. rewrite H2. apply IH; assumption.
Qed.

Lemma dropWhile_spec (p : char -> bool) : forall s,
  exists w, s = w ++ dropWhile p s /\ Forall (fun c => p c = true) w.
Proof.
  induction s as [| c s [w [E F]]]; [exists []; auto |].
  simpl. destruct (p c) eqn:Ec.
  - exists (c :: w). split; [simpl; congruence | constructor; assumption].
  - exists []. auto.
Qed.

Lemma wordEnds_no_digit rest :
  wordEnds rest = true -> match rest with c :: _ => isDigit c = false | [] => True end.
Proof.
  destruct rest as [| c rest]; [auto |]. simpl. intros H.
  destruct (isDigit c) eqn:E; [| reflexivity].
  rewrite (digit_is_word _ E) in H. discriminate.
Qed.

(** A heading made of white space, a dotted triple and a rest where no
    word goes on: [tripleAtStart] finds the triple. *)
Lemma tripleAtStart_intro h w t rest :
  h = w ++ t ++ rest -> Forall (fun c => isSpace c = true) w ->
  dottedTriple t -> wordEnds rest = true -> tripleAtStart h = Some t.
Proof.
  intros -> Fw [a [b [c [-> [Na [Nb [Nc [Da [Db Dc]]]]]]]]] He.
  unfold tripleAtStart. rewrite <- !app_assoc.
  rewrite dropWhile_app; [| exact Fw |].
  2:{ destruct a as [| a0 a]; [congruence |]. simpl.
      simpl in Da. apply andb_true_iff in Da. apply digit_not_space. tauto. }
  change (js "." ++ b ++ js "." ++ c ++ rest) with (46%N :: b ++ js "." ++ c ++ rest).
  rewrite (spanDigits_app a _ Da) by reflexivity.
  destruct a as [| a0 a]; [congruence |].
  change (js "." ++ c ++ rest) with (46%N :: c ++ rest).
  rewrite (spanDigits_app b _ Db) by reflexivity.
  destruct b as [| b0 b]; [congruence |].
  rewrite (spanDigits_app c _ Dc) by (apply wordEnds_no_digit; exact He).
  destruct c as [| c0 c]; [congruence |].
  rewrite He. reflexivity.
Qed.

Lemma tripleAtStart_elim h t :
  tripleAtStart h = Some t ->
  exists w rest, h = w ++ t ++ rest /\ Forall (fun c => isSpace c = true) w /\
                 dottedTriple t /\ wordEnds rest = true.
Proof.
  unfold tripleAtStart. destruct (dropWhile_spec isSpace h) as [w [Eh Fw]].
  pose proof (spanDigits_spec (dropWhile isSpace h)) as [E1 [D1 _]].
  destruct (spanDigits (dropWhile isSpace h)) as [a r1]. cbn [fst snd] in *.
  destruct a as [| a0 a]; [discriminate |].
  destruct r1 as [| dot1 r1]; [discriminate |].
  pose proof (spanDigits_spec r1) as [E2 [D2 _]].
  destruct (spanDigits r1) as [b r2]. cbn [fst snd] in *.
  destruct b as [| b0 b]; [discriminate |].
  destruct r2 as [| dot2 r2]; [discriminate |].
  pose proof (spanDigits_spec r2) as [E3 [D3 _]].
  destruct (spanDigits r2) as [c r3]. cbn [fst snd] in *.
  destruct c as [| c0 c]; [discriminate |].
  destruct (N.eqb dot1 46) eqn:P1; [| discriminate].
  destruct (N.eqb dot2 46) eqn:P2; [| discriminate].
  destruct (wordEnds r3) eqn:P3; [| discriminate].
  cbn [andb]. intros H. inversion H; subst t; clear H.
  apply N.eqb_eq in P1, P2. subst dot1 dot2.
  exists w, r3. split; [| split; [exact Fw | split; [| exact P3]]].
  - rewrite Eh at 1. rewrite E1, E2, E3. change (js ".") with [46%N].
    repeat (rewrite <- ?app_assoc; cbn [app]). reflexivity.
  - exists (a0 :: a), (b0 :: b), (c0 :: c). repeat split; auto; discriminate.
Qed.

Lemma dottedTriple_last t :
  dottedTriple t -> exists c l, rev t = c :: l /\ isDigit c = true.
Proof.
  intros [a [b [c [-> [_ [_ [Nc [_ [_ Dc]]]]]]]]].
  destruct (exists_last Nc) as [l [d ->]].
  rewrite allDigits_app in Dc. apply andb_true_iff in Dc. destruct Dc as [_ Dd].
  simpl in Dd. rewrite andb_true_r in Dd.
  exists d. eexists. split; [| exact Dd].
  rewrite !rev_app_distr. reflexivity.
Qed.

(** A match of the version pattern: white space, then the triple, from
    the very start of the heading, and no word going on behind it. *)
Lemma reVersion_ends h m :
  exec reVersion h = Some m ->
  exists w rest,
    h = w ++ group' 1 m ++ rest /\
    Forall (fun c => isSpace c = true) w /\ dottedTriple (group' 1 m) /\
    wordEnds rest = true.
Proof.
  unfold exec. intros H. apply searchFrom_sound in H.
  destruct H as [sk [post' [y [Hh [Hs [_ [_ [Hg _]]]]]]]].
  unfold reVersion, seq in Hs. cbn [fold_right] in Hs.
  destruct Hs as [z1 [[Hstart ->] [z2 [H2 [z3 [[z [H3 ->]] [z4 [[Hb ->] ->]]]]]]]].
  unfold atInputStart in Hstart. simpl in Hstart. rewrite app_nil_r in Hstart.
  destruct (rev sk) eqn:Esk; [| discriminate].
  apply (f_equal (@rev _)) in Esk. rewrite rev_involutive in Esk. simpl in Esk.
  subst sk. simpl in Hh. subst post'.
  destruct (sem_lang (star space) _ _ H2) as [w1 [[_ E1] L1]].
  destruct (sem_lang reNum3 _ _ H3) as [w2 [E2 L2]].
  pose proof (ext_consumed _ _ _ E2) as C2. destruct E2 as [B2 E2].
  simpl in E1. unfold group', group. rewrite Hg. simpl. rewrite C2.
  apply lang_reNum3 in L2.
  exists w1, (after z). split; [| split; [| split]].
  - rewrite E1, E2. reflexivity.
  - apply lang_star in L1. exact L1.
  - exact L2.
  - unfold atWordBoundary in Hb. cbn [before after] in Hb. rewrite B2 in Hb.
    destruct (dottedTriple_last _ L2) as [d [l [Er Dd]]]. rewrite Er in Hb.
    cbn [app hd_error atWord] in Hb. rewrite (digit_is_word _ Dd) in Hb.
    unfold wordEnds. destruct (after z) as [| c r]; [reflexivity |].
    cbn [hd_error atWord] in Hb. destruct (isWord c); [discriminate | reflexivity].
Qed.

(** On such a heading the version pattern matches. *)
Lemma reVersion_matches h w t rest :
  h = w ++ t ++ rest -> Forall (fun c => isSpace c = true) w ->
  dottedTriple t -> wordEnds rest = true ->
  exists m, exec reVersion h = Some m.
Proof.
  intros -> Fw Ht He. pose proof (dottedTriple_last _ Ht) as [d [l [Er Dd]]].
  destruct Ht as [a [b [c [-> [Na [Nb [Nc [Da [Db Dc]]]]]]]]].
  apply allDigits_Forall in Da, Db, Dc.
  assert (La : 1 <= length a) by (destruct a; [congruence | simpl; lia]).
  assert (Lb : 1 <= length b) by (destruct b; [congruence | simpl; lia]).
  assert (Lc : 1 <= length c) by (destruct c; [congruence | simpl; lia]).
  set (t := a ++ js "." ++ b ++ js "." ++ c) in *.
  assert (S0 : exists y, sem reVersion (MState [] (w ++ t ++ rest) []) y).
  { eexists. unfold reVersion, seq. cbn [fold_right].
    eapply sem_cat; [cbn [sem]; split; reflexivity |].
    eapply sem_cat; [apply sem_many; [exact Fw | lia | exact I] |].
    eapply sem_cat.
    { apply (sem_capture 1). unfold reNum3, seq, t. cbn [fold_right].
      rewrite <- !app_assoc.
      eapply sem_cat; [apply sem_many; [exact Da | exact La | exact I] |].
      eapply sem_cat; [apply sem_chr |].
      eapply sem_cat; [apply sem_many; [exact Db | exact Lb | exact I] |].
      eapply sem_cat; [apply sem_chr |].
      eapply sem_cat; [apply sem_many; [exact Dc | exact Lc | exact I] |].
      cbn [sem].
      repeat (rewrite ?rev_app_distr; cbn [rev app]; rewrite <- ?app_assoc).
      reflexivity. }
    eapply sem_cat; [| apply sem_end].
    cbn [sem]. split; [| reflexivity]. unfold atWordBoundary.
    cbn [before after]. rewrite Er. cbn [app hd_error atWord].
    rewrite (digit_is_word _ Dd).
    unfold wordEnds in He. destruct rest as [| r0 rest]; [reflexivity |].
    cbn [hd_error atWord]. destruct (isWord r0); [discriminate | reflexivity]. }
  destruct S0 as [y0 S0].
  destruct (searchFrom_here _ _ _ _ S0) as [m [_ [Hm _]]].
  exists m. exact Hm.
Qed.

(** The version of a heading, read from the heading. *)
Theorem releaseVersion_triple h :
  releaseVersion h = match tripleAtStart h with Some t => t | None => h end.
Proof.
  unfold releaseVersion. destruct (exec reVersion h) as [m |] eqn:E.
  - destruct (reVersion_ends _ _ E) as [w [rest [Hh [Fw [Ht He]]]]].
    rewrite (tripleAtStart_intro _ _ _ _ Hh Fw Ht He).
    pose proof (dottedTriple_nonempty _ Ht).
    destruct (group' 1 m); [congruence | reflexivity].
  - destruct (tripleAtStart h) as [t |] eqn:T; [| reflexivity].
    destruct (tripleAtStart_elim _ _ T) as [w [rest [Hh [Fw [Ht He]]]]].
    destruct (reVersion_matches _ _ _ _ Hh Fw Ht He) as [m Hm]. congruence.
Qed.

(** On a heading without white space in front the triple is where the
    heading begins. *)
Lemma tripleAtStart_trimmed h t :
  headOK h ->
  (tripleAtStart h = Some t <->
   exists rest, h = t ++ rest /\ dottedTriple t /\ wordEnds rest = true).
Proof.
  intros Hh. split.
  - intros T. destruct (tripleAtStart_elim _ _ T) as [w [rest [E [Fw [Ht He]]]]].
    assert (w = []) by (eapply headOK_no_space; [exact Hh | exact E | exact Fw]).
    subst w. exists rest. auto.
  - intros [rest [E [Ht He]]].
    apply (tripleAtStart_intro h [] t rest); auto.
Qed.

End TripleFacts.

(* ------------------------------------------------------------------ *)
(** ** The claims *)

Module Claims.
Import RegexFacts MatchFacts LangFacts SortFacts DateRuleFacts TrimFacts VersionFacts.
Import ReplaceFacts StripFacts CleanFacts FuelFacts LineFacts PipelineFacts.
Import MarkerFacts LoopFacts ThrowFacts HostFacts ConstructorFacts TripleFacts.

(** C1. The segmenter is meant to close a section at the next heading or
    at the end of the document, and the pattern closes it at the next
    heading or at a letter Z: a last section is not emitted at all (the
    two releases of the spec's sample give one record, a document of one
    section gives none and an empty digest, in both pipelines), and a body
    that holds a Z stops in front of it. *)
Theorem C1_trailing_section_is_dropped : forall dp,
  length (releaseBlocks specExample) = 1 /\
  releaseBlocks singleSection = [] /\
  announcementBlocks dp singleSection = [] /\
  parseReleases singleSection 6 = [] /\
  parseSecurityAnnouncements dp singleSection 6 = [] /\
  List.map details (releaseBlocks twoSectionsWithZ) = [js "Fixed"] /\
  List.map detailsMarkdown (announcementBlocks dp twoSectionsWithZ) = [js "Fixed"].
Proof.
  intros dp. repeat split; vm_compute; reflexivity.
Qed.

(** C2 as stated fails: the two spellings of one identifier are both
    kept. *)
Lemma C2_case_is_not_folded :
  List.map cves (announcementBlocks hostUTC cveDocument) =
    [[js "CVE-2025-9074"; js "cve-2025-9074"]] /\
  extractCves cveText <> [js "CVE-2025-9074"].
Proof.
  split; [vm_compute; reflexivity | vm_compute; discriminate].
Qed.

(** C2, amended.  The [cves] of a section are the texts the identifier
    pattern matches in heading, newline and body, each as it is written:
    every one has the shape of an identifier with [CVE] in either case, no
    text occurs twice, and the list ascends strictly in the order of the
    code units.  Spellings that differ in case are different texts. *)
Theorem C2_cves_exact_dedup_sorted : forall dp m,
  let a := announcementOfMatch dp m in
  let text := title a ++ nl ++ sectionBody m in
  (forall x, In x (cves a) <-> In x (List.map whole (matchAll reCve text))) /\
  (forall x, In x (cves a) -> cveShape x = true) /\
  NoDup (cves a) /\
  StronglySorted (fun x y => Str.compare x y = Lt) (cves a) /\
  extractCves cveText = [js "CVE-2025-9074"; js "cve-2025-9074"].
Proof.
  intros dp m a text. unfold a. rewrite cves_of_match.
  change (trim (group' 1 m) ++ nl ++ sectionBody m) with text.
  split; [| split; [| split; [| split]]].
  - apply extractCves_In.
  - intros x Hx. apply extractCves_In in Hx. apply in_map_iff in Hx.
    destruct Hx as [r [<- Hr]]. apply lang_cve.
    eapply matchesFrom_lang. exact Hr.
  - apply extractCves_NoDup.
  - apply strictly_sorted; [apply extractCves_NoDup | apply sortStrings_sorted].
  - vm_compute. reflexivity.
Qed.

(** C3 as stated fails: an embedded token is returned as it stands, and
    reaches [lastUpdatedISO], whatever month and day it names. *)
Lemma C3_token_returned_unchecked :
  toISODateLoose hostUTC (js "2024-99-99") = Some (js "2024-99-99") /\
  validDate (js "2024-99-99") = false /\
  List.map lastUpdatedISO (announcementBlocks hostUTC outOfRangeToken) =
    [Some (js "2024-99-99")].
Proof. repeat split; vm_compute; reflexivity. Qed.

(** C3, amended.  For an input that does not hold the word "constructor",
    the result of the Date Normalizer is null or comes from one of its four
    rules.  Rule 1 returns the embedded token as it stands: four digits, a
    dash, two digits, a dash, two digits, with no check of month or day.
    Rule 2 gives that shape with a month 01 to 12 and the day as written,
    zero-padded and not checked.  Rule 3 gives a date of the calendar, the
    first of the month.  Rule 4 prints the UTC fields of the time value the
    host's [Date.parse] returns for the cleaned string: a month 1 to 12 and
    a day of that month, after the year unpadded.  The [lastUpdatedISO] of
    an announcement is the result of the normalizer for its
    [lastUpdatedRaw], or null without one. *)
Theorem C3_normalizer_result_shapes : forall dp,
  (forall m,
     lastUpdatedISO (announcementOfMatch dp m) =
     match lastUpdatedRaw (announcementOfMatch dp m) with
     | Some text => toISODateLoose dp text
     | None => None
     end) /\
  (forall raw s,
     mentionsConstructor raw = false ->
     toISODateLoose dp raw = Some s ->
     (exists m, exec reIso (cleanDate raw) = Some m /\ s = whole m /\
                isoShape s = true) \/
     (longRule (cleanDate raw) = Some s /\
      isoShape s = true /\ monthInRange s = true) \/
     (monthYearRule (cleanDate raw) = Some s /\ validDate s = true) \/
     (exists t, dp (cleanDate raw) = Some t /\
        let '(y, m, d) := JSDate.civil (JSDate.Day t) in
        s = ofZ y ++ dash ++ pad2 (ofZ m) ++ dash ++ pad2 (ofZ d) /\
        (1 <= m <= 12)%Z /\ (1 <= d <= JSDate.daysInMonth y m)%Z)).
Proof.
  intros dp. split; [intros m; reflexivity |].
  intros raw s Hn. unfold toISODateLoose. destruct raw as [| c raw]; [discriminate |].
  set (cleaned := cleanDate (c :: raw)).
  destruct (exec reIso cleaned) as [m |] eqn:E1.
  - intros H. inversion H; subst s; clear H.
    left. exists m. repeat split. apply reIso_shape.
    eapply searchFrom_lang. exact E1.
  - destruct (longRule cleaned) as [s2 |] eqn:E2.
    + intros H. inversion H; subst s2; clear H.
      right. left. split; [reflexivity |].
      apply (longRule_in_range (c :: raw)); assumption.
    + destruct (monthYearRule cleaned) as [s3 |] eqn:E3.
      * intros H. inversion H; subst s3; clear H.
        right. right. left. split; [reflexivity |].
        apply (monthYearRule_valid (c :: raw)); assumption.
      * unfold fallbackRule. destruct (dp cleaned) as [t |] eqn:E4;
          cbn [option_map]; [| discriminate].
        intros H. inversion H; subst s; clear H.
        right. right. right. exists t. split; [reflexivity |].
        pose proof (formatUTC_fields t) as F.
        destruct (JSDate.civil (JSDate.Day t)) as [[y m] d]. exact F.
Qed.

(** C3: the amended statement on "March 2024", which rule 3 takes. *)
Lemma C3_normalizer_result_shapes_witness :
  mentionsConstructor (js "March 2024") = false /\
  toISODateLoose hostUTC (js "March 2024") = Some (js "2024-03-01") /\
  monthYearRule (cleanDate (js "March 2024")) = Some (js "2024-03-01") /\
  validDate (js "2024-03-01") = true.
Proof.
  assert (Hn : mentionsConstructor (js "March 2024") = false) by reflexivity.
  assert (Hr : toISODateLoose hostUTC (js "March 2024") = Some (js "2024-03-01"))
    by reflexivity.
  split; [exact Hn | split; [exact Hr |]].
  destruct (proj2 (C3_normalizer_result_shapes hostUTC) _ _ Hn Hr)
    as [[m [E _]] | [[E _] | [H | [t [E _]]]]].
  - vm_compute in E. discriminate.
  - vm_compute in E. discriminate.
  - exact H.
  - vm_compute in E. discriminate.
Defined.

(** C4.  The ranking is as claimed: the dated records, sorted by
    [lastUpdatedISO] descending, then the undated ones in their original
    order, and the digest renders the first [limit] of them; three records
    last updated "March 2024", "2025-01-10" and not at all are ranked the
    2025-01-10 one, the March 2024 one, the undated one.  The rendered
    order of the claim's three sections is not: the third section reaches
    the end of the document, the segmenter does not emit it (C1), and the
    digest holds the 2025-01-10 item and the March 2024 item only.  With a
    heading after the third section, which closes it, the three items come
    out in the order claimed. *)
Theorem C4_ranking_and_lost_section :
  (forall blocks : list announcement,
     exists sorted,
       rankAnnouncements blocks =
         sorted ++ filter (fun b => negb (dated b)) blocks /\
       Permutation (filter dated blocks) sorted /\
       StronglySorted
         (fun a b => Str.compare (isoOf b) (isoOf a) <> Gt) sorted) /\
  (forall dp markdown k,
     parseSecurityAnnouncements dp markdown (Z.of_nat k) =
     formatAnnouncementsForLLM
       (firstn k (rankAnnouncements
                    (announcementBlocks dp (normalizeNewlines markdown))))) /\
  (forall dp a b c,
     lastUpdatedISO a = toISODateLoose dp (js "March 2024") ->
     lastUpdatedISO b = toISODateLoose dp (js "2025-01-10") ->
     lastUpdatedISO c = None ->
     rankAnnouncements [a; b; c] = [b; a; c]) /\
  (forall dp,
     List.map title (announcementBlocks dp exactlyThreeSections) =
       [js "Alpha advisory"; js "Beta advisory"] /\
     List.map lastUpdatedRaw (announcementBlocks dp exactlyThreeSections) =
       [Some (js "March 2024"); Some (js "2025-01-10")] /\
     parseSecurityAnnouncements dp exactlyThreeSections 3 = twoOfThreeDigest /\
     parseSecurityAnnouncements dp exactlyThreeSections 3 <> threeSectionsDigest) /\
  (forall dp,
     List.map lastUpdatedRaw (announcementBlocks dp threeSections) =
       [Some (js "March 2024"); Some (js "2025-01-10"); None] /\
     List.map title (rankAnnouncements (announcementBlocks dp threeSections)) =
       [js "Beta advisory"; js "Alpha advisory"; js "Gamma advisory"] /\
     parseSecurityAnnouncements dp threeSections 3 = threeSectionsDigest).
Proof.
  split; [| split; [| split; [| split]]].
  - intros blocks. exists (sortBy newerFirst (filter dated blocks)).
    split; [reflexivity | split].
    + apply sortBy_perm.
    + pose proof (sortBy_sorted _ newerFirst newerFirst_total newerFirst_trans
                    (filter dated blocks)) as S.
      induction S as [| a l _ IH F]; constructor; auto.
      eapply Forall_impl; [| exact F]. intros b Hb. unfold newerFirst in Hb.
      destruct (Str.compare (isoOf b) (isoOf a)); discriminate.
  - intros dp markdown k. unfold parseSecurityAnnouncements.
    rewrite slice0_of_nat. reflexivity.
  - intros dp a b c Ha Hb Hc.
    change (toISODateLoose dp (js "March 2024")) with (Some (js "2024-03-01")) in Ha.
    change (toISODateLoose dp (js "2025-01-10")) with (Some (js "2025-01-10")) in Hb.
    assert (Da : dated a = true) by (unfold dated; rewrite Ha; reflexivity).
    assert (Db : dated b = true) by (unfold dated; rewrite Hb; reflexivity).
    assert (Dc : dated c = false) by (unfold dated; rewrite Hc; reflexivity).
    assert (Nab : newerFirst a b = false)
      by (unfold newerFirst, isoOf; rewrite Ha, Hb; reflexivity).
    unfold rankAnnouncements, sortBy. cbn [filter]. rewrite Da, Db, Dc.
    cbn [negb app fold_right insert]. rewrite Nab. reflexivity.
  - intros dp. repeat split; try (vm_compute; reflexivity).
    vm_compute. discriminate.
  - intros dp. repeat split; vm_compute; reflexivity.
Qed.

(** C4: three records with the dates of the claim are ranked as the
    claim says. *)
Lemma C4_ranking_witness :
  lastUpdatedISO alphaRecord = toISODateLoose hostUTC (js "March 2024") /\
  lastUpdatedISO betaRecord = toISODateLoose hostUTC (js "2025-01-10") /\
  lastUpdatedISO gammaRecord = None /\
  rankAnnouncements [alphaRecord; betaRecord; gammaRecord] =
    [betaRecord; alphaRecord; gammaRecord].
Proof.
  destruct C4_ranking_and_lost_section as [_ [_ [R _]]].
  split; [reflexivity | split; [reflexivity | split; [reflexivity |]]].
  apply (R hostUTC); reflexivity.
Defined.

(** C5 as stated fails: a heading of blanks only gives an empty
    version. *)
Lemma C5_blank_heading_empty_version :
  List.map version (releaseBlocks blankHeading) = [[]].
Proof. vm_compute. reflexivity. Qed.

(** C5, amended.  The version of a record is made from the trimmed text of
    its heading.  When that text is a dotted triple - digits, a dot, digits,
    a dot, digits - followed by nothing or by a character that is not of a
    word, the version is the triple; when it is not of that form, the
    version is the text itself.  The version is empty exactly when the
    trimmed heading is empty. *)
Theorem C5_version_of_heading : forall markdown r,
  In r (releaseBlocks markdown) ->
  exists heading,
    (exists m, In m (execLoop reReleaseSection (normalizeNewlines markdown)) /\
               heading = trim (group' 1 m) /\ r = releaseOfMatch m) /\
    (forall t rest,
       heading = t ++ rest -> dottedTriple t -> wordEnds rest = true ->
       version r = t) /\
    ((forall t rest,
        heading = t ++ rest -> dottedTriple t -> wordEnds rest = true -> False) ->
     version r = heading) /\
    version r = match tripleAtStart heading with Some t => t | None => heading end /\
    (version r = [] <-> heading = []).
Proof.
  intros markdown r Hin. unfold releaseBlocks in Hin. apply in_map_iff in Hin.
  destruct Hin as [m [<- Hm]]. exists (trim (group' 1 m)).
  set (heading := trim (group' 1 m)).
  assert (Hv : version (releaseOfMatch m) =
               match tripleAtStart heading with Some t => t | None => heading end)
    by apply releaseVersion_triple.
  assert (Hh : headOK heading) by apply trim_head.
  split; [exists m; auto | split; [| split; [| split]]].
  - intros t rest E Ht He. rewrite Hv.
    rewrite (proj2 (tripleAtStart_trimmed heading t Hh)); [reflexivity |].
    exists rest. auto.
  - intros Hnone. rewrite Hv. destruct (tripleAtStart heading) as [t |] eqn:T;
      [| reflexivity].
    apply (tripleAtStart_trimmed heading t Hh) in T.
    destruct T as [rest [E [Ht He]]]. destruct (Hnone t rest E Ht He).
  - exact Hv.
  - rewrite Hv. destruct (tripleAtStart heading) as [t |] eqn:T; [| tauto].
    apply (tripleAtStart_trimmed heading t Hh) in T.
    destruct T as [rest [E [Ht He]]]. pose proof (dottedTriple_nonempty _ Ht) as Hn.
    split; intros H0; [congruence |].
    rewrite H0 in E. destruct t; [congruence | discriminate].
Qed.

(** C5: the amended statement on a heading with a text after the
    triple; the heading next to it has a word joined to its triple and is
    kept whole. *)
Lemma C5_version_of_heading_witness :
  let r := Release (js "4.45.0") None (js "Fixed bugs.") in
  In r (releaseBlocks suffixedHeadings) /\
  List.map version (releaseBlocks suffixedHeadings) =
    [js "4.45.0"; js "4.44.0rc1"] /\
  exists heading,
    (exists m, In m (execLoop reReleaseSection (normalizeNewlines suffixedHeadings)) /\
               heading = trim (group' 1 m) /\ r = releaseOfMatch m) /\
    (forall t rest,
       heading = t ++ rest -> dottedTriple t -> wordEnds rest = true ->
       version r = t) /\
    ((forall t rest,
        heading = t ++ rest -> dottedTriple t -> wordEnds rest = true -> False) ->
     version r = heading) /\
    version r = match tripleAtStart heading with Some t => t | None => heading end /\
    (version r = [] <-> heading = []).
Proof.
  intros r.
  assert (H : In r (releaseBlocks suffixedHeadings)) by (vm_compute; left; reflexivity).
  split; [exact H | split; [vm_compute; reflexivity |]].
  exact (C5_version_of_heading suffixedHeadings r H).
Defined.

(** C6 as stated fails: with limit 1 the digest of one release has two
    lines that begin with the heading marker. *)
Lemma C6_two_heading_lines_for_limit_1 :
  countHeadingLines (parseReleases indentedSubheading 1) = 2 /\
  ~ (Z.of_nat (countHeadingLines (parseReleases indentedSubheading 1)) <= 1)%Z.
Proof.
  assert (E : countHeadingLines (parseReleases indentedSubheading 1) = 2)
    by (vm_compute; reflexivity).
  split; [exact E | rewrite E; lia].
Qed.

(** C6, amended.  For a limit L from 1 to 10 the digest renders the first
    L records of the document, in document order, and no others: at most L
    records, each opened by its digest heading.  The lines of the digest
    that begin with the heading marker are those of the rendered records,
    at least one for each; they are not bounded by L, since the notes of a
    release can themselves open with such a line. *)
Theorem C6_at_most_limit_records : forall markdown L,
  (1 <= L <= 10)%Z ->
  let selected := firstn (Z.to_nat L) (releaseBlocks markdown) in
  parseReleases markdown L =
    join releaseSeparator (List.map renderRelease selected) /\
  (length selected <= Z.to_nat L)%nat /\
  (exists others, releaseBlocks markdown = selected ++ others) /\
  countHeadingLines (parseReleases markdown L) =
    list_sum (List.map (fun r => countHeadingLines (renderRelease r)) selected) /\
  (forall r, 1 <= countHeadingLines (renderRelease r)).
Proof.
  intros markdown L HL selected. unfold parseReleases, slice0.
  destruct (Z.ltb_spec L 0); [lia |]. fold selected.
  split; [reflexivity | split; [| split; [| split]]].
  - unfold selected. rewrite length_firstn. lia.
  - exists (skipn (Z.to_nat L) (releaseBlocks markdown)).
    symmetry. apply firstn_skipn.
  - rewrite count_join, map_map. reflexivity.
  - apply render_has_heading.
Qed.

(** C6: the amended statement on the sample with the indented
    subheading, limit 1. *)
Lemma C6_at_most_limit_records_witness :
  (1 <= 1 <= 10)%Z /\
  let selected := firstn (Z.to_nat 1) (releaseBlocks indentedSubheading) in
  parseReleases indentedSubheading 1 =
    join releaseSeparator (List.map renderRelease selected) /\
  (length selected <= Z.to_nat 1)%nat /\
  (exists others, releaseBlocks indentedSubheading = selected ++ others) /\
  countHeadingLines (parseReleases indentedSubheading 1) =
    list_sum (List.map (fun r => countHeadingLines (renderRelease r)) selected) /\
  (forall r, 1 <= countHeadingLines (renderRelease r)).
Proof.
  split; [lia | apply (C6_at_most_limit_records indentedSubheading 1); lia].
Defined.

(** C7.  Of the four samples, the embedded token and "July 2024" come
    out as claimed on every host.  "July 15, 2024" does not reach the rule
    written for it: the cleaning step takes its comma away, the rule asks
    for the comma, and the string goes to the host's [Date.parse]; the
    result is the UTC date of what the host answers, the day before on a
    host east of Greenwich.  "not a date" is null when the host's parser
    rejects it. *)
Theorem C7_normalizer_samples : forall dp,
  toISODateLoose dp (js "2024-07-15") = Some (js "2024-07-15") /\
  toISODateLoose dp (js "July 2024") = Some (js "2024-07-01") /\
  cleanDate (js "July 15, 2024") = js "July 15 2024" /\
  longRule (js "July 15 2024") = None /\
  toISODateLoose dp (js "July 15, 2024") =
    option_map formatUTC (dp (js "July 15 2024")) /\
  toISODateLoose dp (js "not a date") =
    option_map formatUTC (dp (js "not a date")) /\
  toISODateLoose hostUTC (js "July 15, 2024") = Some (js "2024-07-15") /\
  toISODateLoose hostBerlin (js "July 15, 2024") = Some (js "2024-07-14").
Proof.
  intros dp. repeat split; vm_compute; reflexivity.
Qed.

(** C8 as stated fails, in both pipelines: cleaning the cleaned body
    changes it again.  Collapsing one callout marker joins the quote mark
    to the tag on the line below, which the next pass collapses; removing
    one shortcode closes the name of another around it. *)
Lemma C8_cleaning_twice_differs :
  cleanReleaseBody (cleanReleaseBody twoMarkers) <> cleanReleaseBody twoMarkers /\
  cleanSecurityBody (cleanSecurityBody twoMarkers) <> cleanSecurityBody twoMarkers /\
  cleanReleaseBody nestedShortcode = js "{{< release-date >}}" /\
  cleanReleaseBody (cleanReleaseBody nestedShortcode) = [].
Proof.
  repeat split; vm_compute; try reflexivity; discriminate.
Qed.

(** C8, amended.  Cleaning a cleaned body again changes nothing, in
    either pipeline, when the cleaned body holds nothing for the shortcode
    and admonition patterns to match; the trimming and the stripping of
    trailing blanks never have anything left to do on a cleaned body.  A
    cleaned body can still hold a shortcode or an admonition marker, and is
    then cleaned further. *)
Theorem C8_cleaning_idempotent_when_nothing_left :
  (forall body,
     let c := cleanReleaseBody body in
     exec (reShortcode (lit "release-date")) c = None ->
     exec (reShortcode (lit "desktop-install")) c = None ->
     exec (reShortcode (lit "desktop-install-v2")) c = None ->
     exec reAdmonition c = None ->
     cleanReleaseBody c = c) /\
  (forall body,
     let c := cleanSecurityBody body in
     exec reAdmonition' c = None -> cleanSecurityBody c = c) /\
  (forall body,
     trim (cleanReleaseBody body) = cleanReleaseBody body /\
     replaceAll reTrailing erase (cleanReleaseBody body) = cleanReleaseBody body /\
     trim (cleanSecurityBody body) = cleanSecurityBody body /\
     replaceAll reTrailing erase (cleanSecurityBody body) = cleanSecurityBody body).
Proof.
  assert (Rel : forall body,
    trim (cleanReleaseBody body) = cleanReleaseBody body /\
    replaceAll reTrailing erase (cleanReleaseBody body) = cleanReleaseBody body).
  { intros body. unfold cleanReleaseBody. cbv zeta.
    set (t := trim (removeShortcodes body)).
    rewrite !strip_is_stripSpec. split; [| apply stripSpec_idem].
    destruct (quote_replace_trimmed reAdmonition t (trim_head _) (trim_last _))
      as [Hh Hl].
    apply trim_fixed; [apply stripSpec_head | apply stripSpec_last]; assumption. }
  assert (Sec : forall body,
    trim (cleanSecurityBody body) = cleanSecurityBody body /\
    replaceAll reTrailing erase (cleanSecurityBody body) = cleanSecurityBody body).
  { intros body. unfold cleanSecurityBody. split; [apply trim_idem |].
    rewrite !strip_is_stripSpec. apply noTrailing_fixed, noTrailing_trim.
    apply stripSpec_noTrailing. }
  split; [| split].
  - intros body c H1 H2 H3 H4. destruct (Rel body) as [Ht Hs]. fold c in Ht, Hs.
    unfold cleanReleaseBody at 1. cbv zeta. unfold removeShortcodes.
    rewrite (replaceAll_no_match _ erase c H1), (replaceAll_no_match _ erase c H2),
            (replaceAll_no_match _ erase c H3), Ht,
            (replaceAll_no_match _ quoteMark c H4).
    exact Hs.
  - intros body c H. destruct (Sec body) as [Ht Hs]. fold c in Ht, Hs.
    unfold cleanSecurityBody at 1.
    rewrite (replaceAll_no_match _ quoteMark c H), Hs. exact Ht.
  - intros body. destruct (Rel body), (Sec body). auto.
Qed.

(** C8: the amended statement on the notes of the spec's sample and on
    a security body with a callout. *)
Lemma C8_cleaning_idempotent_witness :
  let b1 := js "{{< release-date date=" ++ [quote] ++ js "2025-01-01" ++ [quote] ++
            js " >}}" ++ nl ++ js "Fixed bugs.  " ++ nl in
  let b2 := js "> [!NOTE]" ++ nl ++ js "> Update now.  " ++ nl in
  (exec (reShortcode (lit "release-date")) (cleanReleaseBody b1) = None /\
   exec (reShortcode (lit "desktop-install")) (cleanReleaseBody b1) = None /\
   exec (reShortcode (lit "desktop-install-v2")) (cleanReleaseBody b1) = None /\
   exec reAdmonition (cleanReleaseBody b1) = None /\
   cleanReleaseBody (cleanReleaseBody b1) = cleanReleaseBody b1) /\
  (exec reAdmonition' (cleanSecurityBody b2) = None /\
   cleanSecurityBody (cleanSecurityBody b2) = cleanSecurityBody b2).
Proof.
  intros b1 b2.
  destruct C8_cleaning_idempotent_when_nothing_left as [R [S _]].
  assert (H1 : exec (reShortcode (lit "release-date")) (cleanReleaseBody b1) = None)
    by (vm_compute; reflexivity).
  assert (H2 : exec (reShortcode (lit "desktop-install")) (cleanReleaseBody b1) = None)
    by (vm_compute; reflexivity).
  assert (H3 : exec (reShortcode (lit "desktop-install-v2")) (cleanReleaseBody b1) = None)
    by (vm_compute; reflexivity).
  assert (H4 : exec reAdmonition (cleanReleaseBody b1) = None)
    by (vm_compute; reflexivity).
  assert (H5 : exec reAdmonition' (cleanSecurityBody b2) = None)
    by (vm_compute; reflexivity).
  split.
  - exact (conj H1 (conj H2 (conj H3 (conj H4 (R b1 H1 H2 H3 H4))))).
  - exact (conj H5 (S b2 H5)).
Defined.

(** C9 as stated fails: one document, one limit, two hosts, two
    digests.  The date of the document is written day first; no rule of
    the normalizer is made for it, the cleaning step leaves it as it is,
    and it goes to [Date.parse], which reads it as local time. *)
Lemma C9_outputs_differ_between_hosts :
  parseSecurityAnnouncementsOn utcClock Str.compare dayFirstDate 6 <>
  parseSecurityAnnouncementsOn berlinClock Str.compare dayFirstDate 6 /\
  parseSecurityAnnouncements utcClock dayFirstDate 6 <>
  parseSecurityAnnouncements berlinClock dayFirstDate 6 /\
  cleanDate (js "15 Jul 2024") = js "15 Jul 2024" /\
  dateParseCalls (js "15 Jul 2024") = [js "15 Jul 2024"] /\
  toISODateLoose utcClock (js "15 Jul 2024") = Some (js "2024-07-15") /\
  toISODateLoose berlinClock (js "15 Jul 2024") = Some (js "2024-07-14").
Proof.
  split; [vm_compute; discriminate |]. split; [vm_compute; discriminate |].
  repeat split; vm_compute; reflexivity.
Qed.

(** C9, amended.  [parseSecurityAnnouncements] asks the host in two
    places: [Date.parse] in the last rule of the Date Normalizer, and
    [localeCompare] in the sort.  Two hosts give the same digest for a
    document and a limit whenever their [Date.parse] answer alike on every
    string the normalizer passes to it for the document, and their
    [localeCompare] order the dates of its records alike.  What the
    normalizer gets from [Date.parse] it prints: where the two answers
    differ in their UTC date, so do the results. *)
Theorem C9_digest_depends_on_host_through_two_calls :
  forall dp1 dp2 lc1 lc2 markdown limit,
    (forall a raw s,
       In a (announcementBlocks dp1 (normalizeNewlines markdown)) ->
       lastUpdatedRaw a = Some raw -> In s (dateParseCalls raw) ->
       dp1 s = dp2 s) ->
    (forall a b,
       In a (announcementBlocks dp1 (normalizeNewlines markdown)) ->
       In b (announcementBlocks dp1 (normalizeNewlines markdown)) ->
       dated a = true -> dated b = true ->
       lc1 (isoOf a) (isoOf b) = lc2 (isoOf a) (isoOf b)) ->
    parseSecurityAnnouncementsOn dp1 lc1 markdown limit =
    parseSecurityAnnouncementsOn dp2 lc2 markdown limit /\
    (forall raw s, In s (dateParseCalls raw) ->
       toISODateLoose dp1 raw = option_map formatUTC (dp1 s) /\
       toISODateLoose dp2 raw = option_map formatUTC (dp2 s)).
Proof.
  intros dp1 dp2 lc1 lc2 markdown limit H L. split.
  - unfold parseSecurityAnnouncementsOn. cbv zeta.
    rewrite <- (blocks_host dp1 dp2 (normalizeNewlines markdown) H).
    rewrite (rank_agree lc1 lc2 _ L). reflexivity.
  - intros raw s Hs. split; apply toISODateLoose_asks; exact Hs.
Qed.

(** C9: the amended statement on the document with the date written day
    first, which both hosts read alike though they differ on other
    strings, and two collations that differ on letters. *)
Lemma C9_digest_witness :
  (forall a raw s,
       In a (announcementBlocks utcClock (normalizeNewlines dayFirstDate)) ->
       lastUpdatedRaw a = Some raw -> In s (dateParseCalls raw) ->
       utcClock s = strictClock s) /\
  (forall a b,
       In a (announcementBlocks utcClock (normalizeNewlines dayFirstDate)) ->
       In b (announcementBlocks utcClock (normalizeNewlines dayFirstDate)) ->
       dated a = true -> dated b = true ->
       Str.compare (isoOf a) (isoOf b) = foldedCompare (isoOf a) (isoOf b)) /\
  utcClock (js "July 15 2024") <> strictClock (js "July 15 2024") /\
  Str.compare (js "B") (js "a") <> foldedCompare (js "B") (js "a") /\
  List.map lastUpdatedRaw
    (announcementBlocks utcClock (normalizeNewlines dayFirstDate)) =
    [Some (js "15 Jul 2024"); Some (js "2024-01-05")] /\
  parseSecurityAnnouncementsOn utcClock Str.compare dayFirstDate 6 =
  parseSecurityAnnouncementsOn strictClock foldedCompare dayFirstDate 6.
Proof.
  assert (H : forall a raw s,
       In a (announcementBlocks utcClock (normalizeNewlines dayFirstDate)) ->
       lastUpdatedRaw a = Some raw -> In s (dateParseCalls raw) ->
       utcClock s = strictClock s).
  { intros a raw s Ha. vm_compute in Ha.
    destruct Ha as [<- | [<- | []]]; intros Hr; inversion Hr; subst raw;
      intros Hs; vm_compute in Hs;
      first [destruct Hs as [<- | []]; reflexivity | destruct Hs]. }
  assert (L : forall a b,
       In a (announcementBlocks utcClock (normalizeNewlines dayFirstDate)) ->
       In b (announcementBlocks utcClock (normalizeNewlines dayFirstDate)) ->
       dated a = true -> dated b = true ->
       Str.compare (isoOf a) (isoOf b) = foldedCompare (isoOf a) (isoOf b)).
  { intros a b Ha Hb _ _. vm_compute in Ha, Hb.
    destruct Ha as [<- | [<- | []]]; destruct Hb as [<- | [<- | []]];
      vm_compute; reflexivity. }
  split; [exact H | split; [exact L |]].
  split; [vm_compute; discriminate |].
  split; [vm_compute; discriminate |].
  split; [vm_compute; reflexivity |].
  exact (proj1 (C9_digest_depends_on_host_through_two_calls
                  utcClock strictClock Str.compare foldedCompare dayFirstDate 6 H L)).
Defined.

(** C10.  On [undefined] or [null] [parseSecurityAnnouncements] returns
    the empty digest and [parseReleases] throws, at its first statement.
    On a string neither throws: every method called on a group of a match
    is called on a group that took part in the match, and the loops over
    the sections end; the digests returned are those of the functions on
    strings. *)
Theorem C10_non_string_input : forall dp lc limit,
  parseSecurityAnnouncements_js dp lc Undefined limit = Returns [] /\
  parseSecurityAnnouncements_js dp lc Null limit = Returns [] /\
  parseReleases_js Undefined limit = ThrowsTypeError /\
  parseReleases_js Null limit = ThrowsTypeError /\
  (forall s, parseReleases_js (StringValue s) limit = Returns (parseReleases s limit)) /\
  (forall s,
     parseSecurityAnnouncements_js dp lc (StringValue s) limit =
     Returns (parseSecurityAnnouncementsOn dp lc s limit)) /\
  (forall s m,
     In m (execLoop reReleaseSection s) ->
     releaseOfMatch_js m = Returns (releaseOfMatch m)) /\
  (forall s m,
     In m (execLoop reSecuritySection s) ->
     announcementOfMatch_js dp m = Returns (announcementOfMatch dp m)) /\
  (forall s fuel,
     length s < fuel ->
     matchesFrom reReleaseSection false fuel [] s = execLoop reReleaseSection s /\
     matchesFrom reSecuritySection false fuel [] s = execLoop reSecuritySection s).
Proof.
  intros dp lc limit.
  assert (E : parseSecurityAnnouncements_js dp lc (StringValue []) limit = Returns []).
  { rewrite parseSecurityAnnouncements_returns. f_equal.
    unfold parseSecurityAnnouncementsOn.
    change (announcementBlocks dp (normalizeNewlines [])) with (@nil announcement).
    change (rankAnnouncementsOn lc []) with (@nil announcement).
    rewrite slice0_nil. reflexivity. }
  split; [exact E | split; [exact E |]].
  split; [reflexivity | split; [reflexivity |]].
  split; [intros s; apply parseReleases_returns |].
  split; [intros s; apply parseSecurityAnnouncements_returns |].
  split; [intros s m; apply releaseOfMatch_returns |].
  split; [intros s m; apply announcementOfMatch_returns |].
  intros s fuel H. split.
  - apply (loop_fuel _ reReleaseSection_nonempty fuel _ H).
  - apply (loop_fuel _ reSecuritySection_nonempty fuel _ H).
Qed.

End Claims.

(* ------------------------------------------------------------------ *)
(** ** Further properties of the code *)

Module Properties.
Import RegexFacts StrFacts SortFacts MatchFacts LangFacts DateRuleFacts TrimFacts.
Import VersionFacts ReplaceFacts StripFacts CleanFacts FuelFacts LineFacts PipelineFacts.
Import Positions LineEndings Texts DigestLines DateTexts TitleShapes Documents.
Import SectionPatterns SecuritySections Markers Server Samples.
Import CompleteFacts NewlineFacts InsideFacts IndentFacts SecurityDigestFacts.
Import ReleaseDigestFacts BuildFacts DateCompleteFacts ProductFacts BoundaryFacts.
Import SegmentFacts ReleaseSegmentFacts SecuritySegmentFacts MarkerFacts ServerFacts.
Import LoopFacts Alphabet KeptFacts.

Ltac well_formed :=
  repeat first [reflexivity | discriminate | split | constructor].

(** X1.  On a document made of sections, each a line of two hashes, a
    blank and a heading that begins with no white space, and body lines
    that do not begin like a section, neither holding a line terminator
    or a letter Z, [parseReleases] finds the sections one by one, in
    order, each with its own heading and its own body, and leaves out the
    last one, which no heading follows: one record for each section but
    the last. *)
Theorem X1_release_sections : forall secs,
  Forall wfSection secs ->
  releaseBlocks (document secs) =
    List.map (fun s => releaseOfSection (fst s) (bodyOf (snd s)))
             (removelast secs) /\
  length (releaseBlocks (document secs)) = Nat.pred (length secs).
Proof.
  intros secs H. rewrite (release_sections secs H). split; [reflexivity |].
  rewrite length_map. apply removelast_length.
Qed.

Lemma X1_release_sections_witness :
  Forall wfSection twoReleases /\
  List.map version (releaseBlocks (document twoReleases)) = [js "4.45.0"].
Proof.
  assert (H : Forall wfSection twoReleases) by well_formed.
  split; [exact H |].
  rewrite (proj1 (X1_release_sections twoReleases H)). reflexivity.
Defined.

(** X2.  On such a document [parseSecurityAnnouncements] segments in the
    same way: one record for each section but the last, in order, made
    from the trimmed heading and the trimmed body of its section; the
    titles are the trimmed headings. *)
Theorem X2_security_sections : forall dp secs,
  Forall wfSection secs ->
  announcementBlocks dp (document secs) =
    List.map (fun s => announcementOfSection dp (trim (fst s))
                                             (trim (bodyOf (snd s))))
             (removelast secs) /\
  List.map title (announcementBlocks dp (document secs)) =
    List.map (fun s => trim (fst s)) (removelast secs).
Proof.
  intros dp secs H. rewrite (security_sections dp secs H).
  split; [reflexivity |].
  rewrite map_map. apply map_ext. intros s. reflexivity.
Qed.

Lemma X2_security_sections_witness :
  Forall wfSection twoAdvisories /\
  List.map title (announcementBlocks hostUTC (document twoAdvisories)) =
    [advisoryTitle].
Proof.
  assert (H : Forall wfSection twoAdvisories) by well_formed.
  split; [exact H |].
  rewrite (proj2 (X2_security_sections hostUTC twoAdvisories H)). reflexivity.
Defined.

(** X3.  The first statement of both pipelines, [replace(/\r\n?/g, "\n")],
    turns every CR LF and every other CR into one LF and touches nothing
    else; its result holds no CR, and doing it again changes nothing. *)
Theorem X3_newlines_normalized : forall s,
  normalizeNewlines s = unixLines s /\
  noCR (normalizeNewlines s) /\
  normalizeNewlines (normalizeNewlines s) = normalizeNewlines s.
Proof.
  intros s. rewrite !normalize_is_unixLines. split; [reflexivity |].
  split; [apply unixLines_noCR |].
  apply unixLines_fixed. apply unixLines_noCR.
Qed.

(** X4.  A document gives the same digests whether its lines end in LF,
    in CR LF or in CR. *)
Theorem X4_line_endings_do_not_matter : forall dp md n,
  noCR md ->
  parseReleases (crlf md) n = parseReleases md n /\
  parseReleases (crOnly md) n = parseReleases md n /\
  parseSecurityAnnouncements dp (crlf md) n =
    parseSecurityAnnouncements dp md n /\
  parseSecurityAnnouncements dp (crOnly md) n =
    parseSecurityAnnouncements dp md n.
Proof.
  intros dp md n H.
  unfold parseReleases, releaseBlocks, parseSecurityAnnouncements.
  rewrite !normalize_is_unixLines.
  rewrite (unixLines_crlf md H), (unixLines_crOnly md H), (unixLines_fixed md H).
  repeat split; reflexivity.
Qed.

Lemma X4_line_endings_witness :
  noCR specExample /\
  parseReleases (crlf specExample) 6 = parseReleases specExample 6.
Proof.
  assert (H : noCR specExample) by (apply noCR_check; reflexivity).
  split; [exact H |].
  exact (proj1 (X4_line_endings_do_not_matter hostUTC specExample 6 H)).
Defined.

(** X5.  A document in which no two hashes stand together has no section
    for either pipeline: both digests are empty, for every limit. *)
Theorem X5_no_marker_no_digest : forall dp md n,
  doubleHash md = false ->
  releaseBlocks md = [] /\
  parseReleases md n = [] /\
  parseSecurityAnnouncements dp md n = [].
Proof.
  intros dp md n H.
  assert (Hn : doubleHash (normalizeNewlines md) = false).
  { rewrite normalize_is_unixLines.
    destruct (doubleHash (unixLines md)) eqn:E; [| reflexivity].
    rewrite (doubleHash_unix _ E) in H. discriminate. }
  assert (R : execLoop reReleaseSection (normalizeNewlines md) = []).
  { eapply no_marker_no_match; [reflexivity | exact Hn]. }
  assert (S : execLoop reSecuritySection (normalizeNewlines md) = []).
  { eapply no_marker_no_match; [reflexivity | exact Hn]. }
  unfold parseReleases, parseSecurityAnnouncements, releaseBlocks,
    announcementBlocks.
  rewrite R, S. cbn [List.map]. rewrite slice0_nil.
  change (rankAnnouncements []) with (@nil announcement).
  rewrite slice0_nil. repeat split; reflexivity.
Qed.

Lemma X5_no_marker_witness :
  doubleHash noSections = false /\ parseReleases noSections 6 = [].
Proof.
  split; [reflexivity |].
  apply (X5_no_marker_no_digest hostUTC noSections 6). reflexivity.
Defined.

(** X6.  The security digest has one line that begins with [## ] for each
    record it renders, whatever the document: the headings are those of
    the records, and for a limit that is not negative there are at most
    [limit] of them. *)
Theorem X6_security_digest_headings : forall dp md limit,
  (0 <= limit)%Z ->
  countHeadingLines (parseSecurityAnnouncements dp md limit) =
    length (slice0 limit
              (rankAnnouncements (announcementBlocks dp (normalizeNewlines md)))) /\
  (Z.of_nat (countHeadingLines (parseSecurityAnnouncements dp md limit))
     <= limit)%Z.
Proof.
  intros dp md limit H.
  assert (E : countHeadingLines (parseSecurityAnnouncements dp md limit) =
              length (slice0 limit
                (rankAnnouncements (announcementBlocks dp (normalizeNewlines md))))).
  { unfold parseSecurityAnnouncements. apply format_count. apply selected_tidy. }
  split; [exact E |]. rewrite E. apply slice0_length. exact H.
Qed.

Lemma X6_security_digest_headings_witness :
  (0 <= 2)%Z /\
  countHeadingLines (parseSecurityAnnouncements hostUTC threeSections 2) = 2.
Proof.
  split; [lia |].
  rewrite (proj1 (X6_security_digest_headings hostUTC threeSections 2 ltac:(lia))).
  reflexivity.
Defined.

(** X7.  [indent] works line by line: a line that is not empty gets two
    blanks in front, an empty line stays empty, and the lines stay as many.
    No line of an indented text begins with [## ], and the text can be
    read back: two texts with the same indented form are the same. *)
Theorem X7_indent_lines : forall text other,
  splitLines (indent text) = List.map padLine (splitLines text) /\
  countHeadingLines (indent text) = 0 /\
  (indent other = indent text -> other = text).
Proof.
  intros text other. split; [apply splitLines_indent |].
  split; [apply count_indent |]. apply indent_inj.
Qed.

Lemma X7_indent_lines_witness :
  indent (js "a" ++ nl ++ nl ++ js "b") = js "  a" ++ nl ++ nl ++ js "  b" /\
  js "a" = js "a".
Proof.
  split; [reflexivity |].
  apply (proj2 (proj2 (X7_indent_lines (js "a") (js "a")))). reflexivity.
Defined.

(** X8.  A larger limit only adds at the end: for limits that are not
    negative, the digest for the smaller one is the beginning of the
    digest for the larger one, in both pipelines. *)
Theorem X8_larger_limit_extends : forall dp md a b,
  (0 <= a <= b)%Z ->
  (exists more, parseReleases md b = parseReleases md a ++ more) /\
  (exists more,
     parseSecurityAnnouncements dp md b =
     parseSecurityAnnouncements dp md a ++ more).
Proof.
  intros dp md a b H. split.
  - unfold parseReleases.
    destruct (slice0_prefix _ a b (releaseBlocks md) H) as [t ->].
    rewrite map_app. apply join_prefix.
  - unfold parseSecurityAnnouncements, formatAnnouncementsForLLM.
    destruct (slice0_prefix _ a b
                (rankAnnouncements (announcementBlocks dp (normalizeNewlines md))) H)
      as [t ->].
    rewrite flat_map_app. apply join_prefix.
Qed.

Lemma X8_larger_limit_witness :
  (0 <= 1 <= 3)%Z /\
  exists more,
    parseSecurityAnnouncements hostUTC threeSections 3 =
    parseSecurityAnnouncements hostUTC threeSections 1 ++ more.
Proof.
  split; [lia |].
  apply (X8_larger_limit_extends hostUTC threeSections 1 3). lia.
Defined.

(** X9.  The limit is used by [slice(0, limit)] as it comes: 0 gives the
    empty digest, a limit beyond the number of records gives all of them,
    and a negative limit [-k] does not give nothing but all records except
    the last [k]. *)
Theorem X9_limit_edges : forall dp md k,
  parseReleases md 0 = [] /\
  parseSecurityAnnouncements dp md 0 = [] /\
  parseReleases md (Z.of_nat (length (releaseBlocks md) + k)) =
    join releaseSeparator (List.map renderRelease (releaseBlocks md)) /\
  parseReleases md (- Z.of_nat (S k)) =
    join releaseSeparator
      (List.map renderRelease
         (firstn (length (releaseBlocks md) - S k) (releaseBlocks md))).
Proof.
  intros dp md k. unfold parseReleases, parseSecurityAnnouncements.
  rewrite !slice0_zero. split; [reflexivity |]. split; [reflexivity |].
  rewrite slice0_all by lia. split; [reflexivity |].
  rewrite slice0_negative. reflexivity.
Qed.

(** X10.  What [parseReleases] prints for a record: the heading with the
    version, the date after a dash when the section has a release-date
    shortcode, a newline, and the details as they are.  The details never
    begin with white space, so that the last [replace], of the white
    space in front, finds nothing to take away; a date, when there is
    one, is not empty and holds no double quote. *)
Theorem X10_rendered_release : forall md r,
  In r (releaseBlocks md) ->
  renderRelease r =
    js "## " ++ version r ++
    match date r with
    | Some d => [32%N; emDash; 32%N] ++ d
    | None => []
    end ++ nl ++ details r /\
  headOK (details r) /\
  (forall d, date r = Some d -> d <> [] /\ ~ In quote d).
Proof.
  intros md r Hin. unfold releaseBlocks in Hin. apply in_map_iff in Hin.
  destruct Hin as [m [<- _]]. unfold releaseOfMatch. cbn [version date details].
  rewrite render_clean. split; [| split].
  - destruct (exec reReleaseDate (group' 2 m)) as [m' |] eqn:E;
      cbn [option_map]; [| reflexivity].
    destruct (release_date _ _ E) as [Hne _].
    destruct (group' 1 m') as [| c d]; [contradiction | reflexivity].
  - apply clean_release_head.
  - intros d Hd.
    destruct (exec reReleaseDate (group' 2 m)) as [m' |] eqn:E;
      cbn [option_map] in Hd; [| discriminate].
    inversion Hd; subst d. destruct (release_date _ _ E) as [Hne [Hq _]].
    split; assumption.
Qed.

Lemma X10_rendered_release_witness :
  In firstRelease (releaseBlocks specExample) /\
  renderRelease firstRelease =
    js "## 4.45.0 " ++ [emDash] ++ js " 2025-01-01" ++ nl ++ js "Fixed bugs.".
Proof.
  assert (H : In firstRelease (releaseBlocks specExample))
    by (vm_compute; left; reflexivity).
  split; [exact H |].
  rewrite (proj1 (X10_rendered_release specExample firstRelease H)).
  vm_compute. reflexivity.
Defined.

(** X11.  The ranking of the security records is stable: the records
    that share a date, and those without a date, keep among themselves the
    order they have in the document. *)
Theorem X11_ranking_is_stable : forall blocks d,
  filter (fun a => Str.eqb (isoOf a) d) (rankAnnouncements blocks) =
  filter (fun a => Str.eqb (isoOf a) d) blocks.
Proof.
  intros blocks d. unfold rankAnnouncements. rewrite filter_app.
  rewrite sortBy_filter.
  2:{ intros x y Hx Hy. apply StrFacts.eqb_eq in Hx, Hy. unfold newerFirst.
      rewrite Hx, Hy, StrFacts.compare_refl. reflexivity. }
  destruct d as [| c d].
  - rewrite filter_filter_none, filter_filter_all; [reflexivity | |].
    + intros x Hx. rewrite dated_iso, Hx. reflexivity.
    + intros x Hx. rewrite dated_iso, Hx. reflexivity.
  - rewrite filter_filter_all, (filter_filter_none _ _ (fun b => negb (dated b)));
      [apply app_nil_r | |].
    + intros x Hx. rewrite dated_iso. apply StrFacts.eqb_eq in Hx. rewrite Hx. reflexivity.
    + intros x Hx. rewrite dated_iso. apply StrFacts.eqb_eq in Hx. rewrite Hx. reflexivity.
Qed.

(** X12.  The rule "Month DD, YYYY" of [toISODateLoose] needs a comma in
    front of the year, and the cleaning step before it takes that comma
    away: for a text with one comma at most the rule never applies, and
    the function is the one without the rule. *)
Theorem X12_long_rule_never_applies : forall dp raw,
  commas raw <= 1 ->
  exec reLong (cleanDate raw) = None /\
  toISODateLoose dp raw = withoutLongRule dp raw.
Proof.
  intros dp raw H. split; [apply long_rule_dead; exact H |].
  unfold toISODateLoose, withoutLongRule. destruct raw as [| c raw']; [reflexivity |].
  cbv zeta. rewrite (longRule_dead _ H). reflexivity.
Qed.

Lemma X12_long_rule_witness :
  commas (js "July 15, 2024") <= 1 /\
  toISODateLoose hostBerlin (js "July 15, 2024") =
    withoutLongRule hostBerlin (js "July 15, 2024").
Proof.
  assert (H : commas (js "July 15, 2024") <= 1) by (vm_compute; lia).
  split; [exact H |].
  apply (X12_long_rule_never_applies hostBerlin (js "July 15, 2024") H).
Defined.

(** X13.  A text that is a date in the form NNNN-NN-NN and nothing else
    is returned as it is, on every host. *)
Theorem X13_canonical_date_is_kept : forall dp s,
  isoShape s = true -> toISODateLoose dp s = Some s.
Proof.
  intros dp s H. destruct (isoShape_plain _ H) as [H1 [H2 [H3 H4]]].
  destruct (exec_iso_fixed _ H) as [m [Em Ew]].
  unfold toISODateLoose. destruct s as [| c0 s0] eqn:Es; [congruence |].
  rewrite <- Es in *. cbv zeta. rewrite (cleanDate_fixed _ H1 H2 H3), Em, Ew.
  reflexivity.
Qed.

Lemma X13_canonical_date_witness :
  isoShape (js "2025-01-10") = true /\
  toISODateLoose hostBerlin (js "2025-01-10") = Some (js "2025-01-10").
Proof.
  split; [reflexivity |].
  apply (X13_canonical_date_is_kept hostBerlin (js "2025-01-10")). reflexivity.
Defined.

(** X14.  The name of a month, in any case of its letters, a blank and
    four digits give the first day of that month, on every host: the year,
    the number of the month on two digits, 01. *)
Theorem X14_month_and_year : forall dp name yyyy n,
  lookup (toLowerCase name) monthTable = Some n ->
  Forall (fun c => isDigit c = true) yyyy -> length yyyy = 4 ->
  toISODateLoose dp (monthYearText name yyyy) =
    Some (yyyy ++ dash ++ pad2 (ofN n) ++ js "-01").
Proof.
  intros dp name yyyy n Hl Fd Ly. destruct (month_letters _ _ Hl) as [Fa Hn].
  assert (Hy : yyyy <> []) by (intros ->; discriminate).
  destruct (monthYear_plain name yyyy Fa Hn Fd Hy) as [H1 [H2 [H3 [H4 H5]]]].
  destruct (exec_monthYear name yyyy Fa Hn Fd Ly) as [m [Em [G1 G2]]].
  unfold toISODateLoose.
  destruct (monthYearText name yyyy) as [| c0 s0] eqn:Es; [congruence |].
  rewrite <- Es in *. cbv zeta. rewrite (cleanDate_fixed _ H1 H3 H4).
  rewrite (iso_none_without_dash _ H2).
  unfold longRule. rewrite (long_none_without_comma _ H1).
  unfold monthYearRule. rewrite Em, G1, G2.
  unfold monthToNum. rewrite Hl. reflexivity.
Qed.

Lemma X14_month_and_year_witness :
  toISODateLoose hostBerlin (js "MARCH 2024") = Some (js "2024-03-01").
Proof.
  apply (X14_month_and_year hostBerlin (js "MARCH") (js "2024") 3%N).
  - reflexivity.
  - repeat constructor.
  - reflexivity.
Defined.

(** X15.  [extractProductAndVersion] on a title of one line: the version
    is null exactly when the title has no digit, dot and digit in a row;
    a version is a piece of the title, two or three runs of digits joined
    by dots; a product is a piece of the title, not empty and without
    white space at its ends. *)
Theorem X15_product_and_version : forall title,
  singleLineTitle title ->
  (snd (extractProductAndVersion title) = None <-> ~ hasVersionNumber title) /\
  (forall v, snd (extractProductAndVersion title) = Some v ->
     occursIn v title /\ versionShape v) /\
  (forall p, fst (extractProductAndVersion title) = Some p ->
     occursIn p title /\ p <> [] /\ headOK p /\ lastOK p).
Proof.
  intros title H. split; [apply version_none_iff; exact H |]. split.
  - intros v Hv. destruct (version_occurs _ _ Hv) as [Ho Hl].
    split; [exact Ho | apply lang_num23; exact Hl].
  - intros p Hp. apply product_shape. exact Hp.
Qed.

Lemma X15_product_and_version_witness :
  singleLineTitle (js "Docker Desktop update") /\
  ~ hasVersionNumber (js "Docker Desktop update").
Proof.
  assert (H : singleLineTitle (js "Docker Desktop update"))
    by (repeat constructor).
  split; [exact H |].
  apply (proj1 (proj1 (X15_product_and_version (js "Docker Desktop update") H))).
  reflexivity.
Defined.

(** X16.  The two tools, for a limit the schema admits (1 to 10, or
    none, which the handler reads as 6): when the page is fetched each
    returns one text item; the text of [get-security-details] has at most
    [limit] headings, that of [get-desktop-releases] renders the first
    records of the page, [limit] at most, in the order of the page.  When
    the page cannot be fetched the handler rejects. *)
Theorem X16_tool_results : forall dp data limit,
  inSchema limit = true ->
  (1 <= limitOr6 limit <= 10)%Z /\
  (exists text,
     getSecurityDetails dp (Some data) limit = ToolReturns [TextContent text] /\
     (Z.of_nat (countHeadingLines text) <= limitOr6 limit)%Z) /\
  (exists records more,
     releaseBlocks data = records ++ more /\
     (Z.of_nat (length records) <= limitOr6 limit)%Z /\
     getDesktopReleases (Some data) limit =
       ToolReturns
         [TextContent (join releaseSeparator (List.map renderRelease records))]) /\
  getSecurityDetails dp None limit = ToolRejects /\
  getDesktopReleases None limit = ToolRejects.
Proof.
  intros dp data limit H.
  assert (B : (1 <= limitOr6 limit <= 10)%Z).
  { destruct limit as [n |]; cbn [inSchema limitOr6] in *; [| lia].
    apply andb_true_iff in H. destruct H as [H1 H2].
    apply Z.leb_le in H1, H2. lia. }
  split; [exact B |]. split; [| split; [| split; reflexivity]].
  - eexists. split; [reflexivity |].
    unfold parseSecurityAnnouncements.
    rewrite format_count by apply selected_tidy.
    apply slice0_length. lia.
  - exists (firstn (Z.to_nat (limitOr6 limit)) (releaseBlocks data)),
           (skipn (Z.to_nat (limitOr6 limit)) (releaseBlocks data)).
    split; [symmetry; apply firstn_skipn |]. split.
    + pose proof (firstn_le_length (Z.to_nat (limitOr6 limit)) (releaseBlocks data)).
      lia.
    + unfold getDesktopReleases, parseReleases, slice0.
      destruct (Z.ltb_spec (limitOr6 limit) 0); [lia | reflexivity].
Qed.

Lemma X16_tool_results_witness :
  inSchema None = true /\
  exists text,
    getSecurityDetails hostUTC (Some threeSections) None =
      ToolReturns [TextContent text] /\
    (Z.of_nat (countHeadingLines text) <= 6)%Z.
Proof.
  split; [reflexivity |].
  apply (X16_tool_results hostUTC threeSections None). reflexivity.
Defined.

(** X17.  The SSE server after any history of streams opened and
    transports closed: [transports] holds under an id the transport last
    opened under it and not closed since, whether or not its connection
    succeeded.  A request to [/messages] with that id is handed to that
    transport; with another id that is not empty it is answered 404, or
    500 when the id is the name of a member of [Object.prototype]; without
    an id, or with the empty one, it is answered 400. *)
Theorem X17_post_reaches_the_live_session : forall history k body,
  k <> [] ->
  ownProperty k (sessionsAfter history) = live k history /\
  match live k history with
  | Some t =>
      handledBy (postMessages (sessionsAfter history) (Some k) body) = Some t
  | None =>
      postMessages (sessionsAfter history) (Some k) body =
        PostEffect None
          (Some (if inherited k
                 then (500%N, js "Error handling request")
                 else (404%N, js "Session not found")))
  end /\
  sent (postMessages (sessionsAfter history) None body) =
    Some (400%N, js "Missing sessionId parameter") /\
  sent (postMessages (sessionsAfter history) (Some []) body) =
    Some (400%N, js "Missing sessionId parameter").
Proof.
  intros history k body Hk.
  assert (E : ownProperty k (sessionsAfter history) = live k history).
  { unfold sessionsAfter, live. rewrite own_fold. reflexivity. }
  split; [exact E |]. split; [| split; reflexivity].
  destruct k as [| c k']; [contradiction |].
  unfold postMessages, getProperty. rewrite E.
  destruct (live (c :: k') history) as [t |].
  - destruct (handlePostMessage t body); reflexivity.
  - destruct (inherited (c :: k')); reflexivity.
Qed.

Lemma X17_post_witness :
  sessionId secondClient <> [] /\
  handledBy
    (postMessages (sessionsAfter (threeClients ++ [Closes (sessionId firstClient)]))
                  (Some (sessionId secondClient)) (js "{}")) = Some secondClient.
Proof.
  assert (H : sessionId secondClient <> []) by discriminate.
  split; [exact H |].
  exact (proj1 (proj2 (X17_post_reaches_the_live_session
           (threeClients ++ [Closes (sessionId firstClient)])
           (sessionId secondClient) (js "{}") H))).
Defined.

(** X18.  After any history the keys of [transports] are distinct, and
    the [SIGINT] handler calls [close] on every transport the object
    holds, once, in the order they were stored; a [close] that throws does
    not keep the loop from the others.  What it leaves in the object are
    the transports whose [close] threw before calling [onclose]. *)
Theorem X18_shutdown_closes_every_session : forall history,
  distinctKeys (sessionsAfter history) /\
  sigint (sessionsAfter history) =
    (List.map snd (sessionsAfter history),
     filter (fun e => stays (snd e)) (sessionsAfter history)).
Proof.
  intros history.
  assert (D : distinctKeys (sessionsAfter history)).
  { unfold sessionsAfter. apply distinct_fold. constructor. }
  split; [exact D |].
  unfold sigint. apply (closeAll_distinct (sessionsAfter history) []). exact D.
Qed.

(** X19.  The two loops over [re.exec] end: a match of either section
    pattern takes five code units at least, so [lastIndex] moves forward
    at every turn; the records are those found with any larger number of
    turns allowed, and there is at most one for every five code units of
    the document. *)
Theorem X19_section_loops_end : forall dp md fuel,
  length (normalizeNewlines md) < fuel ->
  releaseBlocks md =
    List.map releaseOfMatch
      (matchesFrom reReleaseSection false fuel [] (normalizeNewlines md)) /\
  announcementBlocks dp (normalizeNewlines md) =
    List.map (announcementOfMatch dp)
      (matchesFrom reSecuritySection false fuel [] (normalizeNewlines md)) /\
  5 * length (releaseBlocks md) <= length md /\
  5 * length (announcementBlocks dp (normalizeNewlines md)) <= length md.
Proof.
  intros dp md fuel H.
  assert (L : length (normalizeNewlines md) <= length md)
    by (rewrite normalize_is_unixLines; apply unixLines_shorter).
  unfold releaseBlocks, announcementBlocks.
  rewrite (loop_fuel _ reReleaseSection_nonempty fuel _ H).
  rewrite (loop_fuel _ reSecuritySection_nonempty fuel _ H).
  split; [reflexivity |]. split; [reflexivity |].
  rewrite !length_map. unfold execLoop. split.
  - pose proof (matches_count reReleaseSection 5 false ltac:(lia)
                  release_section_length
                  (S (length (normalizeNewlines md))) [] (normalizeNewlines md)).
    lia.
  - pose proof (matches_count reSecuritySection 5 false ltac:(lia)
                  security_section_length
                  (S (length (normalizeNewlines md))) [] (normalizeNewlines md)).
    lia.
Qed.

Lemma X19_section_loops_witness :
  length (normalizeNewlines specExample) < 200 /\
  5 * length (releaseBlocks specExample) <= length specExample.
Proof.
  assert (H : length (normalizeNewlines specExample) < 200)
    by (vm_compute; lia).
  split; [exact H |].
  exact (proj1 (proj2 (proj2 (X19_section_loops_end hostUTC specExample 200 H)))).
Defined.

(** X20.  What the digests are made of.  A code unit of the release
    digest is one of the document, a carriage return apart, or one of the
    six the program writes itself: the hash, the blank, the long dash, the
    newline, the hyphen and the mark of a quotation.  Neither digest holds
    a carriage return, whatever the document. *)
Theorem X20_digests_hold_no_carriage_return : forall dp md n,
  (forall P : char -> Prop,
     Forall (fun c => c <> 13%N -> P c) md -> Forall P written ->
     Forall P (parseReleases md n)) /\
  noCR (parseReleases md n) /\
  noCR (parseSecurityAnnouncements dp md n).
Proof.
  intros dp md n.
  assert (R : forall P : char -> Prop,
            Forall (fun c => c <> 13%N -> P c) md -> Forall P written ->
            Forall P (parseReleases md n)).
  { intros P Hmd Hw.
    assert (W : forall c, In c written -> P c) by (apply Forall_forall; exact Hw).
    assert (Hsrc : Forall P (normalizeNewlines md)).
    { rewrite normalize_is_unixLines. apply kept_unixLines; [| exact Hmd].
      apply W. simpl. tauto. }
    unfold parseReleases. apply kept_join.
    - repeat (constructor; [apply W; simpl; tauto |]). constructor.
    - apply Forall_forall. intros t Ht. apply in_map_iff in Ht.
      destruct Ht as [r [<- Hr]]. apply slice0_incl in Hr.
      unfold releaseBlocks in Hr. apply in_map_iff in Hr.
      destruct Hr as [m [<- Hm]].
      destruct (kept_release P _ m (W 62%N ltac:(simpl; tauto)) Hsrc Hm)
        as [Hv [Hd Hb]].
      apply kept_render; assumption. }
  split; [exact R |]. split.
  - apply R.
    + apply Forall_forall. intros c _ Hc. exact Hc.
    + repeat (constructor; [discriminate |]). constructor.
  - unfold parseSecurityAnnouncements, formatAnnouncementsForLLM.
    apply kept_join; [constructor; [discriminate | constructor] |].
    apply Forall_forall. intros l Hl. apply in_flat_map in Hl.
    destruct Hl as [a [Ha Hl]]. apply slice0_incl, rank_incl in Ha.
    unfold announcementBlocks in Ha. apply in_map_iff in Ha.
    destruct Ha as [m [<- Hm]].
    assert (Hsrc : noCR (normalizeNewlines md))
      by (rewrite normalize_is_unixLines; apply unixLines_noCR).
    destruct (announcement_noCR dp _ m Hsrc Hm) as [H1 [H2 [H3 [H4 [H5 H6]]]]].
    pose proof (announcementLines_noCR _ H1 H2 H3 H4 H5 H6) as HL.
    rewrite Forall_forall in HL. apply HL. exact Hl.
Qed.

Lemma X20_no_carriage_return_witness :
  Forall (fun c => c <> 0%N) (parseReleases specExample 6).
Proof.
  apply (proj1 (X20_digests_hold_no_carriage_return hostUTC specExample 6)
               (fun c => c <> 0%N)).
  - repeat (constructor; [intros _; discriminate |]). constructor.
  - repeat (constructor; [discriminate |]). constructor.
Defined.

End Properties.
